(** * Explainable Boosting Machine utilities: a shallow embedding

    The definitions below follow
    [python/interpret-core/interpret/glassbox/ebm/utils.py] and the parts of
    [ebm.py] that call into it.  Python floats are modelled by exact
    rationals ([Q]) where arithmetic is performed on them, and by [pyfloat]
    (a rational, an infinity or NaN) where only comparisons matter.  numpy
    arrays are row-major lists with a shape; dicts are association lists in
    insertion order; raised exceptions are the left summand of [result]. *)

From Stdlib Require Import String Ascii.
From Stdlib Require Import ZArith QArith Qminmax Qround List Bool Lia Lqa.
From Stdlib Require Import Permutation Sorted.
Import ListNotations.

Open Scope Z_scope.

(* ===================================================================== *)
(** * Part I: definitions *)
(* ===================================================================== *)

(** ** Python values shared by the modules *)

Module Py.

Inductive exn : Type :=
| ValueError (msg : string)
| TypeError (msg : string)
| AttributeError (msg : string)
| NotImplementedError (msg : string)
| UnboundLocalError (msg : string)
| ZeroDivisionError
| IndexError
| Exception (msg : string).

Definition result (A : Type) : Type := (exn + A)%type.

Definition ret {A} (a : A) : result A := inr a.
Definition raise {A} (e : exn) : result A := inl e.
Definition bind {A B} (m : result A) (k : A -> result B) : result B :=
  match m with
  | inl e => inl e
  | inr a => k a
  end.

(** A Python float as far as comparisons are concerned. *)
Inductive pyfloat : Type :=
| Finite (q : Q)
| PosInf
| NegInf
| NaN.

(** [a < b] on floats; every comparison with NaN is false. *)
Definition lt (a b : pyfloat) : bool :=
  match a, b with
  | NaN, _ | _, NaN => false
  | _, NegInf => false
  | PosInf, _ => false
  | NegInf, _ => true
  | Finite _, PosInf => true
  | Finite x, Finite y => negb (Qle_bool y x)
  end.

(** [a <= b] on floats. *)
Definition le (a b : pyfloat) : bool :=
  match a, b with
  | NaN, _ | _, NaN => false
  | NegInf, _ => true
  | _, PosInf => true
  | PosInf, _ => false
  | Finite _, NegInf => false
  | Finite x, Finite y => Qle_bool x y
  end.

(** [a + b] with the IEEE treatment of the infinities; finite sums are
    exact. *)
Definition add (a b : pyfloat) : pyfloat :=
  match a, b with
  | NaN, _ | _, NaN => NaN
  | PosInf, NegInf | NegInf, PosInf => NaN
  | PosInf, _ | _, PosInf => PosInf
  | NegInf, _ | _, NegInf => NegInf
  | Finite x, Finite y => Finite (x + y)
  end.

(** The builtin [min(a, b)]: the first argument unless the second is
    strictly smaller. *)
Definition min (a b : pyfloat) : pyfloat := if lt b a then b else a.

Definition neg (a : pyfloat) : pyfloat :=
  match a with
  | Finite x => Finite (- x)
  | PosInf => NegInf
  | NegInf => PosInf
  | NaN => NaN
  end.

Definition sub (a b : pyfloat) : pyfloat := add a (neg b).

(** An infinity scaled by a finite factor; [inf * 0] is NaN. *)
Definition scale_inf (positive : bool) (x : Q) : pyfloat :=
  match (x ?= 0)%Q with
  | Eq => NaN
  | Gt => if positive then PosInf else NegInf
  | Lt => if positive then NegInf else PosInf
  end.

Definition mul (a b : pyfloat) : pyfloat :=
  match a, b with
  | NaN, _ | _, NaN => NaN
  | Finite x, Finite y => Finite (x * y)
  | PosInf, Finite y => scale_inf true y
  | NegInf, Finite y => scale_inf false y
  | Finite x, PosInf => scale_inf true x
  | Finite x, NegInf => scale_inf false x
  | PosInf, PosInf | NegInf, NegInf => PosInf
  | PosInf, NegInf | NegInf, PosInf => NegInf
  end.

Definition half (a : pyfloat) : pyfloat :=
  match a with
  | Finite x => Finite (x / 2)
  | other => other
  end.

End Py.

Notation "x <- m ;; k" := (Py.bind m (fun x => k))
  (at level 61, m at next level, right associativity).

(** ** [EBMUtils] *)

Module EBMUtils.

(** [EBMUtils.normalize_initial_random_seed]; Python's [%] with a positive
    modulus is [Z.modulo]. *)
Definition normalize_initial_random_seed (seed : Z) : Z :=
  if 2147483647 <=? seed then seed mod 2147483647
  else if seed <=? -2147483647 then - ((- seed) mod 2147483647)
  else seed.

End EBMUtils.

(** ** [DPUtils] *)

Module DPUtils.

(** [eps is None or eps <= 0 or delta is None or delta <= 0]. *)
Definition invalid_eps_delta (eps delta : option Py.pyfloat) : bool :=
  match eps with
  | None => true
  | Some e =>
      if Py.le e (Py.Finite 0) then true
      else match delta with
           | None => true
           | Some d => Py.le d (Py.Finite 0)
           end
  end.

Definition validate_eps_delta (eps delta : option Py.pyfloat) : Py.result unit :=
  if invalid_eps_delta eps delta
  then Py.raise (Py.ValueError "Epsilon and delta must be set to positive numbers")
  else Py.ret tt.

(** *** Private binning

    The Gaussian noise draw is an argument: [noise i] is the sample added
    to bucket [i]. *)

Definition Qsum (l : list Q) : Q := fold_right Qplus 0%Q l.

Definition Qltb (x y : Q) : bool := negb (Qle_bool y x).

(** [np.clip(x, 0, None)] *)
Definition clip0 (x : Q) : Q := Qmax 0 x.

(** The bucket of [np.histogram] a value falls into: values outside the
    range are dropped, the last bucket is closed on the right. *)
Definition bucket_of (first last : Q) (n : nat) (x : Q) : option nat :=
  if Qltb x first || Qltb last x then None
  else if Qeq_bool x last then Some (n - 1)%nat
  else Some (Z.to_nat (Qfloor ((x - first) * inject_Z (Z.of_nat n) / (last - first)))).

(** [np.histogram(a, bins=bins, range=range, weights=weights)]: the
    counts and the [bins + 1] equally spaced edges. *)
Definition histogram (a : list Q) (bins : Z) (range : Q * Q)
    (weights : option (list Q)) : Py.result (list Q * list Q) :=
  if bins <=? 0 then Py.raise (Py.ValueError "`bins` must be positive, when an integer")
  else
    let '(first, last) := range in
    if Qltb last first
    then Py.raise (Py.ValueError "max must be larger than min in range parameter.")
    else
      let '(first, last) :=
        if Qeq_bool first last then ((first - (1 # 2))%Q, (last + (1 # 2))%Q)
        else (first, last) in
      match
        match weights with
        | None => Some (map (fun _ => 1%Q) a)
        | Some ws => if (length ws =? length a)%nat then Some ws else None
        end
      with
      | None => Py.raise (Py.ValueError "weights should have the same shape as a.")
      | Some ws =>
          let n := Z.to_nat bins in
          let counts :=
            map (fun i =>
                   Qsum (map snd
                           (filter (fun p : Q * Q =>
                                      match bucket_of first last n (fst p) with
                                      | Some b => (b =? i)%nat
                                      | None => false
                                      end)
                                   (combine a ws))))
                (seq 0 n) in
          let edges :=
            map (fun i =>
                   (first + inject_Z (Z.of_nat i) * (last - first) / inject_Z bins)%Q)
                (seq 0 (S n)) in
          Py.ret (counts, edges)
      end.

(** [len(col_data) if sample_weight is None else np.sum(sample_weight)] *)
Definition sample_weight_total {A} (col_data : list A) (sample_weight : option (list Q)) : Q :=
  match sample_weight with
  | None => inject_Z (Z.of_nat (length col_data))
  | Some ws => Qsum ws
  end.

(** The variables of the greedy collapse. *)
Record collapse_state : Type := {
  bin_cuts : list Q;
  bin_weights : list Q;
  curr_weight : Q
}.

(** One step of the greedy loop, on a bucket's noisy weight and right
    edge. *)
Definition collapse_step (target_weight : Q) (s : collapse_state) (bucket : Q * Q)
    : collapse_state :=
  let curr_weight := (curr_weight s + fst bucket)%Q in
  if Qle_bool target_weight curr_weight then
    {| bin_cuts := bin_cuts s ++ [snd bucket];
       bin_weights := bin_weights s ++ [curr_weight];
       curr_weight := 0%Q |}
  else
    {| bin_cuts := bin_cuts s; bin_weights := bin_weights s;
       curr_weight := curr_weight |}.

Definition noisy_weights (uniform_weights : list Q) (noise : nat -> Q) : list Q :=
  map (fun p : nat * Q => clip0 (snd p + noise (fst p)))
      (combine (seq 0 (length uniform_weights)) uniform_weights).

(** [bin_weights[-1] += curr_weight] *)
Definition add_to_last (l : list Q) (x : Q) : list Q :=
  match rev l with
  | [] => []
  | y :: r => rev r ++ [(y + x)%Q]
  end.

Definition private_numeric_binning (col_data : list Q) (sample_weight : option (list Q))
    (noise : nat -> Q) (max_bins : Z) (min_val max_val : Q)
    : Py.result (list Q * list Q) :=
  h <- histogram col_data (max_bins * 2) (min_val, max_val) sample_weight ;;
  let '(uniform_weights, uniform_edges) := h in
  let noisy_weights := noisy_weights uniform_weights noise in
  let target_weight :=
    (sample_weight_total col_data sample_weight / inject_Z max_bins)%Q in
  let s :=
    fold_left (collapse_step target_weight)
      (combine noisy_weights (tl uniform_edges))
      {| bin_cuts := [hd 0%Q uniform_edges]; bin_weights := [0%Q];
         curr_weight := 0%Q |} in
  if (length (bin_weights s) =? 1)%nat then
    Py.ret ([], bin_weights s ++ [target_weight])
  else
    Py.ret (removelast (tl (bin_cuts s)), add_to_last (bin_weights s) (curr_weight s)).

(** The deterministic threshold-crossing scan of the specification: walk
    the buckets from the left with a running weight, and report a
    bucket's right edge whenever the running weight has reached the
    threshold, starting afresh after it. *)
Fixpoint threshold_scan (threshold running : Q) (buckets : list (Q * Q)) : list Q :=
  match buckets with
  | [] => []
  | (weight, right_edge) :: rest =>
      if Qle_bool threshold (running + weight)
      then right_edge :: threshold_scan threshold 0%Q rest
      else threshold_scan threshold (running + weight)%Q rest
  end.

(** [np.unique] of a column of strings: the distinct values in ascending
    order. *)
Fixpoint insert_unique (x : string) (l : list string) : list string :=
  match l with
  | [] => [x]
  | y :: l' =>
      match String.compare x y with
      | Lt => x :: l
      | Eq => l
      | Gt => y :: insert_unique x l'
      end
  end.

Definition unique (col_data : list string) : list string :=
  fold_right insert_unique [] col_data.

(** [np.bincount(uniq_idxs, weights=sample_weight, minlength=len(uniq_vals))] *)
Definition bincount (uniq_vals col_data : list string) (ws : list Q) : list Q :=
  map (fun u =>
         Qsum (map snd (filter (fun p : string * Q => String.eqb (fst p) u)
                               (combine col_data ws))))
      uniq_vals.

(** [np.argmin]: the first position of the least element. *)
Fixpoint argmin_from (best_idx : nat) (best : Q) (idx : nat) (l : list Q) : nat :=
  match l with
  | [] => best_idx
  | x :: l' =>
      if Qltb x best then argmin_from idx x (S idx) l'
      else argmin_from best_idx best (S idx) l'
  end.

Definition argmin (l : list Q) : nat :=
  match l with
  | [] => 0%nat
  | x :: l' => argmin_from 0%nat x 1%nat l'
  end.

(** [arr[mask]] for a mask that is false at one position only. *)
Definition delete_at {A} (i : nat) (l : list A) : list A :=
  firstn i l ++ skipn (S i) l.

(** With [max_bins = 0] the division of a count of rows raises
    [ZeroDivisionError]; with sample weights numpy divides to an infinite
    target instead, which the rationals do not have, and the model raises
    there as well. *)
Definition private_categorical_binning (col_data : list string)
    (sample_weight : option (list Q)) (noise : nat -> Q) (max_bins : Z)
    : Py.result (list string * list Q) :=
  let uniq_vals := unique col_data in
  match
    match sample_weight with
    | None => Some (map (fun _ => 1%Q) col_data)
    | Some ws => if (length ws =? length col_data)%nat then Some ws else None
    end
  with
  | None =>
      Py.raise (Py.ValueError "The weights and list don't have the same length.")
  | Some ws =>
      let weights := bincount uniq_vals col_data ws in
      let weights := noisy_weights weights noise in
      if max_bins =? 0 then Py.raise Py.ZeroDivisionError
      else
        let target_weight :=
          (sample_weight_total col_data sample_weight / inject_Z max_bins)%Q in
        let is_small (w : Q) := Qltb w target_weight in
        if existsb is_small weights then
          let other_weight := Qsum (filter is_small weights) in
          let kept := filter (fun p : string * Q => negb (is_small (snd p)))
                             (combine uniq_vals weights) in
          let uniq_vals := map fst kept ++ ["DPOther"%string] in
          let weights := map snd kept ++ [other_weight] in
          if Qltb other_weight target_weight then
            if (length weights =? 1)%nat then Py.ret (uniq_vals, [target_weight])
            else
              let collapse_bin := argmin (removelast weights) in
              let weights :=
                add_to_last weights (nth collapse_bin weights 0%Q) in
              Py.ret (delete_at collapse_bin uniq_vals, delete_at collapse_bin weights)
          else Py.ret (uniq_vals, weights)
        else Py.ret (uniq_vals, weights)
  end.

End DPUtils.

(** ** The opening of [BaseEBM.fit] (ebm.py)

    [fit] reads its hyperparameters from [self], computes in local
    variables and stores the fitted attributes on [self] only at its very
    end.  The model threads a log of the stages entered, so that the order
    of the stages can be stated.  [clean_X], [clean_vector],
    [construct_bins], the noise calibration (square roots, logarithms and a
    root finder) and everything from the boosting on are collaborators that
    live outside utils.py; they are parameters of the section. *)

Module BaseEBM.

Inductive stage : Type :=
| CleanInputs
| ValidateEpsDelta
| TargetBounds
| BudgetSplit
| ConstructBins
| NoiseScale
| Boosting
| StoreAttributes.

Definition stage_eqb (a b : stage) : bool :=
  match a, b with
  | CleanInputs, CleanInputs | ValidateEpsDelta, ValidateEpsDelta
  | TargetBounds, TargetBounds | BudgetSplit, BudgetSplit
  | ConstructBins, ConstructBins | NoiseScale, NoiseScale
  | Boosting, Boosting | StoreAttributes, StoreAttributes => true
  | _, _ => false
  end.

(** A computation that may raise and that logs the stages it enters. *)
Definition M (A : Type) : Type := list stage -> list stage * Py.result A.

Definition mret {A} (a : A) : M A := fun log => (log, Py.ret a).
Definition mraise {A} (e : Py.exn) : M A := fun log => (log, Py.raise e).
Definition mbind {A B} (m : M A) (k : A -> M B) : M B :=
  fun log =>
    match m log with
    | (log', inl e) => (log', inl e)
    | (log', inr a) => k a log'
    end.
Definition enter (s : stage) : M unit := fun log => (log ++ [s], Py.ret tt).
Definition lift {A} (r : Py.result A) : M A := fun log => (log, r).

Section Fit.

Context {raw_X binning fitted : Type}.

Variable clean_X : raw_X -> Py.result (raw_X * Z).
Variable clean_vector : bool -> list Q -> Py.result (list Q).
Variable construct_bins :
  raw_X -> Z -> option Py.pyfloat -> option Py.pyfloat -> Py.result binning.
Variable calc_classic_noise_multi : binning -> Py.pyfloat -> Py.pyfloat -> Q -> Py.pyfloat.
Variable calc_gdp_noise_multi : binning -> Py.pyfloat -> Py.pyfloat -> Py.pyfloat.
Variable boost_and_postprocess :
  raw_X -> list Q -> list Q -> binning -> option Py.pyfloat -> Py.result fitted.

(** The constructor arguments [fit] reads, and the fitted attributes. *)
Record estimator : Type := {
  is_private : bool;
  is_classifier : bool;
  epsilon : option Py.pyfloat;
  delta : option Py.pyfloat;
  bin_budget_frac : Py.pyfloat;
  privacy_schema_target : option (Q * Q);
  composition : string;
  max_bins : Z;
  learning_rate : Q;
  fitted_attributes : option fitted
}.

Definition store (self : estimator) (f : fitted) : estimator :=
  {| is_private := is_private self;
     is_classifier := is_classifier self;
     epsilon := epsilon self;
     delta := delta self;
     bin_budget_frac := bin_budget_frac self;
     privacy_schema_target := privacy_schema_target self;
     composition := composition self;
     max_bins := max_bins self;
     learning_rate := learning_rate self;
     fitted_attributes := Some f |}.

Definition list_max (l : list Q) : Q := fold_right Qmax (hd 0%Q l) l.
Definition list_min (l : list Q) : Q := fold_right Qmin (hd 0%Q l) l.

Notation "x <-- m ;;; k" := (mbind m (fun x => k))
  (at level 61, m at next level, right associativity).

(** Lines 640-676: cleaning and the shape checks. *)
Definition clean_inputs (self : estimator) (X : raw_X) (y : list Q)
    (sample_weight : option (list Q)) : M (raw_X * list Q * list Q) :=
  _ <-- enter CleanInputs ;;;
  Xn <-- lift (clean_X X) ;;;
  let '(X, n_samples) := Xn in
  if n_samples <=? 0 then mraise (Py.ValueError "X has no samples to train on")
  else
    y <-- lift (clean_vector (is_classifier self) y) ;;;
    if negb (n_samples =? Z.of_nat (length y))
    then mraise (Py.ValueError "X and y differ in their number of samples")
    else
      match sample_weight with
      | Some w =>
          w <-- lift (clean_vector false w) ;;;
          if negb (n_samples =? Z.of_nat (length w))
          then mraise (Py.ValueError "X and sample_weight differ in their number of samples")
          else mret (X, y, w)
      | None => mret (X, y, map (fun _ => 1%Q) y)
      end.

(** Lines 682-708: the privacy calculations; the result is the domain
    size and the budgets (bin epsilon, bin delta, training epsilon,
    training delta). *)
Definition privacy_calculations (self : estimator) (y : list Q)
    : M (option (Q * (Py.pyfloat * Py.pyfloat * Py.pyfloat * Py.pyfloat))) :=
  if is_private self then
    _ <-- enter ValidateEpsDelta ;;;
    _ <-- lift (DPUtils.validate_eps_delta (epsilon self) (delta self)) ;;;
    _ <-- enter TargetBounds ;;;
    domain_size <--
      match privacy_schema_target self with
      | None => mret (list_max y - list_min y)%Q
      | Some (min_target, max_target) =>
          if negb (Qle_bool min_target max_target)
          then mraise (Py.ValueError "target minimum must be smaller than maximum")
          else mret (max_target - min_target)%Q
      end ;;;
    _ <-- enter BudgetSplit ;;;
    let eps := match epsilon self with Some e => e | None => Py.NaN end in
    let dlt := match delta self with Some d => d | None => Py.NaN end in
    let bin_eps := Py.mul eps (bin_budget_frac self) in
    let training_eps := Py.sub eps bin_eps in
    let bin_delta := Py.half dlt in
    let training_delta := Py.half dlt in
    mret (Some (domain_size, (bin_eps, bin_delta, training_eps, training_delta)))
  else mret None.

(** Lines 748-765: the noise scale of a private fit. *)
Definition noise_calculation (self : estimator) (w : list Q) (b : binning)
    (budgets : option (Q * (Py.pyfloat * Py.pyfloat * Py.pyfloat * Py.pyfloat)))
    : M (option Py.pyfloat) :=
  match budgets with
  | None => mret None
  | Some (domain_size, (_, _, training_eps, training_delta)) =>
      _ <-- enter NoiseScale ;;;
      let sensitivity := (domain_size * learning_rate self * list_max w)%Q in
      if String.eqb (composition self) "classic" then
        mret (Some (calc_classic_noise_multi b training_eps training_delta sensitivity))
      else if String.eqb (composition self) "gdp" then
        mret (Some (Py.mul (calc_gdp_noise_multi b training_eps training_delta)
                           (Py.Finite sensitivity)))
      else mraise (Py.NotImplementedError "Unknown composition method provided")
  end.

Definition fit_body (self : estimator) (X : raw_X) (y : list Q)
    (sample_weight : option (list Q)) : M fitted :=
  Xyw <-- clean_inputs self X y sample_weight ;;;
  let '(X, y, w) := Xyw in
  budgets <-- privacy_calculations self y ;;;
  _ <-- enter ConstructBins ;;;
  b <-- lift (construct_bins X (max_bins self + 1)
                (option_map (fun p => fst (fst (fst (snd p)))) budgets)
                (option_map (fun p => snd (fst (fst (snd p)))) budgets)) ;;;
  noise_scale <-- noise_calculation self w b budgets ;;;
  _ <-- enter Boosting ;;;
  f <-- lift (boost_and_postprocess X y w b noise_scale) ;;;
  _ <-- enter StoreAttributes ;;;
  mret f.

(** [fit]: the stages entered, what the call returns or raises, and
    [self] as the call leaves it. *)
Definition fit (self : estimator) (X : raw_X) (y : list Q)
    (sample_weight : option (list Q)) : list stage * Py.result unit * estimator :=
  match fit_body self X y sample_weight [] with
  | (log, inl e) => (log, inl e, self)
  | (log, inr f) => (log, inr tt, store self f)
  end.

Definition before_validation (s : stage) : bool := stage_eqb s CleanInputs.

End Fit.

End BaseEBM.

(** A private regressor whose epsilon is 0. *)
Definition demo_private_estimator : @BaseEBM.estimator unit :=
  {| BaseEBM.is_private := true;
     BaseEBM.is_classifier := false;
     BaseEBM.epsilon := Some (Py.Finite 0);
     BaseEBM.delta := Some (Py.Finite (1 # 100000));
     BaseEBM.bin_budget_frac := Py.Finite (1 # 10);
     BaseEBM.privacy_schema_target := None;
     BaseEBM.composition := "gdp";
     BaseEBM.max_bins := 32;
     BaseEBM.learning_rate := 1 # 100;
     BaseEBM.fitted_attributes := None |}.

(** ** [merge_ebms]: the model-type dispatch (utils.py, lines 525-558)

    A class is identified by its [__name__]; [list(set(map(type, models)))]
    is the list of the distinct names. *)

Module MergeTypes.

Definition mem (name : string) (names : list string) : bool :=
  existsb (String.eqb name) names.

Definition Classifier : string := "ExplainableBoostingClassifier".
Definition DPClassifier : string := "DPExplainableBoostingClassifier".
Definition Regressor : string := "ExplainableBoostingRegressor".
Definition DPRegressor : string := "DPExplainableBoostingRegressor".

(** What the dispatch decides: [ebm_type], [is_classifier], [is_private]. *)
Record decision : Type := {
  ebm_type : string;
  is_classifier : bool;
  is_private : bool
}.

Definition select_type (models : list string) : Py.result decision :=
  if (length models =? 0)%nat then Py.raise (Py.Exception "0 models to merge.")
  else
    let model_types := nodup string_dec models in
    if (length model_types =? 2)%nat then
      let type_names := model_types in
      if mem Classifier type_names && mem DPClassifier type_names then
        Py.ret {| ebm_type := Classifier; is_classifier := true; is_private := false |}
      else if mem Regressor type_names && mem DPRegressor type_names then
        Py.ret {| ebm_type := Regressor; is_classifier := false; is_private := false |}
      else Py.raise (Py.Exception "Inconsistent model types attempting to be merged.")
    else if (length model_types =? 1)%nat then
      let ebm_type := hd EmptyString model_types in
      if String.eqb ebm_type Classifier then
        Py.ret {| ebm_type := ebm_type; is_classifier := true; is_private := false |}
      else if String.eqb ebm_type DPClassifier then
        Py.ret {| ebm_type := ebm_type; is_classifier := true; is_private := true |}
      else if String.eqb ebm_type Regressor then
        Py.ret {| ebm_type := ebm_type; is_classifier := false; is_private := false |}
      else if String.eqb ebm_type DPRegressor then
        Py.ret {| ebm_type := ebm_type; is_classifier := false; is_private := true |}
      else
        Py.raise (Py.Exception
                    ("Invalid EBM model type " ++ ebm_type ++ " attempting to be merged."))
    else Py.raise (Py.Exception "Inconsistent model types being merged.").

End MergeTypes.

(** ** numpy arrays of floats

    An array is its shape and its elements in row-major (C) order, the
    last axis varying fastest. *)

Module Tensor.

Record t : Type := mk { shape : list nat; data : list Q }.

Definition ndim (a : t) : nat := length (shape a).

(** The representation invariant: as many elements as the shape holds. *)
Definition wf (a : t) : Prop := length (data a) = fold_right Nat.mul 1%nat (shape a).

Definition prod (l : list nat) : nat := fold_right Nat.mul 1%nat l.

Definition Qsum (l : list Q) : Q := fold_right Qplus 0%Q l.

(** [np.sum(a)] *)
Definition sum (a : t) : Q := Qsum (data a).

(** Every multi-index of a shape, in row-major order. *)
Fixpoint indices (shape : list nat) : list (list nat) :=
  match shape with
  | [] => [[]]
  | n :: rest =>
      flat_map (fun i => map (cons i) (indices rest)) (seq 0 n)
  end.

(** The elements of an array together with their multi-index. *)
Definition cells (a : t) : list (list nat * Q) :=
  combine (indices (shape a)) (data a).

(** Python's indexing of a sequence: a negative index counts from the
    end, an index out of range raises [IndexError]. *)
Definition normalize_index (n : nat) (i : Z) : Py.result nat :=
  let j := if i <? 0 then i + Z.of_nat n else i in
  if (0 <=? j) && (j <? Z.of_nat n) then Py.ret (Z.to_nat j)
  else Py.raise Py.IndexError.

Definition py_index {A} (l : list A) (i : Z) : Py.result A :=
  j <- normalize_index (length l) i ;;
  match nth_error l j with
  | Some a => Py.ret a
  | None => Py.raise Py.IndexError
  end.

(** The offset of a full multi-index into the row-major data. *)
Fixpoint flat_index (shape : list nat) (idx : list Z) : Py.result nat :=
  match shape, idx with
  | [], [] => Py.ret 0%nat
  | n :: shape', i :: idx' =>
      j <- normalize_index n i ;;
      r <- flat_index shape' idx' ;;
      Py.ret (j * prod shape' + r)%nat
  | _, _ => Py.raise Py.IndexError
  end.

(** [a[tuple(idx)]] for a full multi-index. *)
Definition get (a : t) (idx : list Z) : Py.result Q :=
  c <- flat_index (shape a) idx ;;
  match nth_error (data a) c with
  | Some v => Py.ret v
  | None => Py.raise Py.IndexError
  end.

Fixpoint position (x : nat) (l : list nat) : option nat :=
  match l with
  | [] => None
  | y :: l' =>
      if (x =? y)%nat then Some 0%nat else option_map S (position x l')
  end.

Definition is_axes_permutation (axes : list nat) (n : nat) : bool :=
  (length axes =? n)%nat &&
  forallb (fun a => match position a axes with Some _ => true | None => false end)
          (seq 0 n).

Fixpoint mapM {A B} (f : A -> Py.result B) (l : list A) : Py.result (list B) :=
  match l with
  | [] => Py.ret []
  | a :: l' =>
      b <- f a ;;
      bs <- mapM f l' ;;
      Py.ret (b :: bs)
  end.

(** [a.transpose(axes)]: axis [k] of the result is axis [axes[k]] of
    [a]. *)
Definition transpose (a : t) (axes : list nat) : Py.result t :=
  if is_axes_permutation axes (ndim a) then
    let shape' := map (fun ax => nth ax (shape a) 0%nat) axes in
    let source (idx' : list nat) : list Z :=
      map (fun ax_old =>
             match position ax_old axes with
             | Some k => Z.of_nat (nth k idx' 0%nat)
             | None => 0
             end)
          (seq 0 (ndim a)) in
    data' <- mapM (fun idx' => get a (source idx')) (indices shape') ;;
    Py.ret (mk shape' data')
  else Py.raise (Py.ValueError "axes don't match array").

End Tensor.

(** The offset of a multi-index given fastest axis first. *)
Fixpoint offset_rev (rsizes ridx : list nat) : nat :=
  match rsizes, ridx with
  | s :: rsizes', o :: ridx' => o + s * offset_rev rsizes' ridx'
  | _, _ => 0
  end.

(** ** Centering and zero restoration

    [_zero_tensor], [_restore_missing_value_zeros2] and [_process_terms]
    of utils.py, and the same steps as [BaseEBM.fit] performs them inline
    (ebm.py, lines 1006-1030).  The standard-deviation tensors need a
    square root and are left out; they take no part in the centering. *)

Module Postprocess.

Import Tensor.
Local Open Scope nat_scope.

(** Whether a cell lies on a slice that [_zero_tensor] clears: index 0 of
    an axis flagged in [zero_low], or the last index of an axis flagged
    in [zero_high]. *)
Fixpoint on_cleared_slice (zero_low zero_high : list bool)
    (shape idx : list nat) : bool :=
  match shape, idx with
  | n :: shape', i :: idx' =>
      (hd false zero_low && (i =? 0)%nat)
      || (hd false zero_high && (i =? n - 1)%nat)
      || on_cleared_slice (tl zero_low) (tl zero_high) shape' idx'
  | _, _ => false
  end.

Definition _zero_tensor (tensor : t) (zero_low zero_high : list bool) : t :=
  mk (shape tensor)
     (map (fun c : list nat * Q =>
             if on_cleared_slice zero_low zero_high (shape tensor) (fst c)
             then 0%Q else snd c)
          (cells tensor)).

(** [np.sum(weights[dim_slices])] with [dim_slices[dimension_idx] = k]. *)
Definition slice_sum (weights : t) (dimension_idx k : nat) : Q :=
  Qsum (map snd
          (filter (fun c : list nat * Q => (nth dimension_idx (fst c) 0 =? k)%nat)
                  (cells weights))).

Definition lower_flags (weights : t) : list bool :=
  map (fun d => Qeq_bool (slice_sum weights d 0) 0)
      (seq 0 (ndim weights)).

Definition higher_flags (weights : t) : list bool :=
  map (fun d => Qeq_bool (slice_sum weights d (nth d (shape weights) 0 - 1)) 0)
      (seq 0 (ndim weights)).

Fixpoint _restore_missing_value_zeros2 (tensors term_bin_weights : list t)
    : list t :=
  match tensors, term_bin_weights with
  | tensor :: tensors', weights :: weights' =>
      _zero_tensor tensor (lower_flags weights) (higher_flags weights)
      :: _restore_missing_value_zeros2 tensors' weights'
  | rest, _ => rest
  end.

Definition shape_eqb (s1 s2 : list nat) : bool :=
  (length s1 =? length s2)%nat
  && forallb (fun p : nat * nat => (fst p =? snd p)%nat) (combine s1 s2).

Definition dot (a w : list Q) : Q :=
  Qsum (map (fun p : Q * Q => (fst p * snd p)%Q) (combine a w)).

(** The weighted mean of the elements, [(a * w).sum() / w.sum()]. *)
Definition weighted_mean (a w : t) : Q := (dot (data a) (data w) / sum w)%Q.

(** [np.average(a, weights=w)] over all the elements. *)
Definition average (a w : t) : Py.result Q :=
  if negb (shape_eqb (shape a) (shape w)) then
    Py.raise (Py.TypeError "Axis must be specified when shapes of a and weights differ.")
  else if Qeq_bool (sum w) 0 then Py.raise Py.ZeroDivisionError
  else Py.ret (weighted_mean a w).

Definition subtract (a : t) (x : Q) : t :=
  mk (shape a) (map (fun v => (v - x)%Q) (data a)).

(** The centering loop for at most two classes: every term loses its
    weighted mean, which the intercept gains. *)
Fixpoint center (additive_terms bin_weights : list t) (intercept : Q)
    : Py.result (list t * Q) :=
  match additive_terms with
  | [] => Py.ret ([], intercept)
  | term :: terms' =>
      match bin_weights with
      | [] => Py.raise Py.IndexError
      | weights :: weights' =>
          score_mean <- average term weights ;;
          rest <- center terms' weights' (intercept + score_mean)%Q ;;
          Py.ret (subtract term score_mean :: fst rest, snd rest)
      end
  end.

(** The means the centering loop removes, term by term. *)
Fixpoint removed_means (additive_terms bin_weights : list t) : list Q :=
  match additive_terms, bin_weights with
  | term :: terms', weights :: weights' =>
      weighted_mean term weights :: removed_means terms' weights'
  | _, _ => []
  end.

Definition all_same_shape (s : list nat) (l : list t) : bool :=
  forallb (fun a => shape_eqb s (shape a)) l.

Fixpoint add_lists (a b : list Q) : list Q :=
  match a, b with
  | x :: a', y :: b' => (x + y)%Q :: add_lists a' b'
  | _, _ => []
  end.

(** [np.average(score_tensors, axis=0, weights=bag_weights)]; without
    weights every bag counts once. *)
Definition average_bags (score_tensors : list t) (bag_weights : option (list Q))
    : Py.result t :=
  match score_tensors with
  | [] => Py.raise Py.ZeroDivisionError
  | first :: _ =>
      if negb (all_same_shape (shape first) score_tensors) then
        Py.raise (Py.ValueError "setting an array element with a sequence.")
      else
        let ws := match bag_weights with
                  | Some ws => ws
                  | None => map (fun _ => 1%Q) score_tensors
                  end in
        if negb (length ws =? length score_tensors)%nat then
          Py.raise (Py.ValueError "Length of weights not compatible with specified axis.")
        else if Qeq_bool (Qsum ws) 0 then Py.raise Py.ZeroDivisionError
        else
          let weighted :=
            map (fun p : t * Q => map (fun v => (v * snd p)%Q) (data (fst p)))
                (combine score_tensors ws) in
          let total :=
            fold_right add_lists (map (fun _ => 0%Q) (data first)) weighted in
          Py.ret (mk (shape first) (map (fun v => (v / Qsum ws)%Q) total))
  end.

Section Postprocessing.

(** The multiclass postprocessing is a collaborator outside utils.py. *)
Variable multiclass_postprocess2 :
  Z -> list t -> Q -> list t -> Py.result (list t * Q).

(** [BaseEBM.fit], lines 1006-1029: bag averages, centering, zero
    restoration. *)
Definition fit_postprocess (n_classes : Z) (bagged_additive_terms : list (list t))
    (bin_weights : list t) : Py.result (list t * Q) :=
  additive_terms <- mapM (fun bags => average_bags bags None) bagged_additive_terms ;;
  centered <-
    (if (n_classes <=? 2)%Z then center additive_terms bin_weights 0%Q
     else multiclass_postprocess2 n_classes additive_terms 0%Q bin_weights) ;;
  Py.ret (_restore_missing_value_zeros2 (fst centered) bin_weights, snd centered).

(** [(bag_weights == bag_weights[0]).all()] *)
Definition all_equal (bag_weights : list Q) : bool :=
  forallb (fun w => Qeq_bool w (hd 0%Q bag_weights)) bag_weights.

(** [_process_terms] of utils.py. *)
Definition _process_terms (n_classes : Z) (bagged_additive_terms : list (list t))
    (bin_weights : list t) (bag_weights : list Q) : Py.result (list t * Q) :=
  additive_terms <-
    mapM (fun score_tensors =>
            match bag_weights with
            | [] => Py.raise Py.IndexError
            | _ =>
                if all_equal bag_weights then average_bags score_tensors None
                else average_bags score_tensors (Some bag_weights)
            end)
         bagged_additive_terms ;;
  centered <-
    (if (n_classes <=? 2)%Z then center additive_terms bin_weights 0%Q
     else multiclass_postprocess2 n_classes additive_terms 0%Q bin_weights) ;;
  Py.ret (_restore_missing_value_zeros2 (fst centered) bin_weights, snd centered).

End Postprocessing.

End Postprocess.

(** A two-bag pair term whose first row carries no weight. *)
Definition demo_bagged_terms : list (list Tensor.t) :=
  [[Tensor.mk [2; 2]%nat [1; 2; 3; 4]%Q; Tensor.mk [2; 2]%nat [3; 2; 5; 8]%Q]].

Definition demo_bin_weights : list Tensor.t :=
  [Tensor.mk [2; 2]%nat [0; 0; 1; 3]%Q].

Definition no_multiclass (n_classes : Z) (terms : list Tensor.t) (intercept : Q)
    (weights : list Tensor.t) : Py.result (list Tensor.t * Q) :=
  Py.raise (Py.NotImplementedError "multiclass").

(** ** [EBMUtils.cyclic_gradient_boost]

    The booster session is an external collaborator; it is threaded through
    the loop as an abstract state with the operations the loop calls.  The
    differentially private rewrite of a term update (utils.py, lines
    1131-1152) only changes the booster and is one such operation. *)

Module Boosting.

Section CyclicGradientBoost.

Context {Booster Model : Type}.

Variable generate_term_update : Booster -> nat -> Booster.
Variable noisy_term_update : Booster -> nat -> Booster.
Variable apply_term_update : Booster -> Booster * Py.pyfloat.
Variable get_current_model : Booster -> Model.
Variable get_best_model : Booster -> Model.

(** The variables the round loop updates. *)
Record loop_state : Type := {
  booster : Booster;
  min_metric : Py.pyfloat;
  bp_metric : Py.pyfloat;
  no_change_run_length : Z;
  episode_index : nat
}.

(** [if noise_scale:] *)
Definition truthy (noise_scale : option Py.pyfloat) : bool :=
  match noise_scale with
  | None => false
  | Some (Py.Finite q) => negb (Qeq_bool q 0)
  | Some _ => true
  end.

(** The inner loop over the terms of one round. *)
Fixpoint boost_terms (noise_scale : option Py.pyfloat) (term_idxs : list nat)
    (b : Booster) (min_metric : Py.pyfloat) : Booster * Py.pyfloat :=
  match term_idxs with
  | [] => (b, min_metric)
  | term_idx :: rest =>
      let b := generate_term_update b term_idx in
      let b := if truthy noise_scale then noisy_term_update b term_idx else b in
      let '(b, curr_metric) := apply_term_update b in
      boost_terms noise_scale rest b (Py.min curr_metric min_metric)
  end.

(** [min_metric + early_stopping_tolerance < bp_metric] *)
Definition improved (early_stopping_tolerance : Py.pyfloat) (s : loop_state) : bool :=
  Py.lt (Py.add (min_metric s) early_stopping_tolerance) (bp_metric s).

(** One round, up to and including the update of the streak length. *)
Definition round (noise_scale : option Py.pyfloat) (n_terms : nat)
    (early_stopping_tolerance : Py.pyfloat) (episode : nat) (s : loop_state)
    : loop_state :=
  let '(b, m) := boost_terms noise_scale (seq 0 n_terms) (booster s) (min_metric s) in
  let bp := if no_change_run_length s =? 0 then m else bp_metric s in
  let run :=
    if Py.lt (Py.add m early_stopping_tolerance) bp then 0
    else no_change_run_length s + 1 in
  {| booster := b; min_metric := m; bp_metric := bp;
     no_change_run_length := run; episode_index := episode |}.

(** The [break] condition at the end of a round. *)
Definition should_break (early_stopping_rounds : Z) (s : loop_state) : bool :=
  (early_stopping_rounds >=? 0)
  && (no_change_run_length s >=? early_stopping_rounds).

(** The round loop; the result lists the state after every round that
    ran, in order. *)
Fixpoint rounds (noise_scale : option Py.pyfloat) (n_terms : nat)
    (early_stopping_rounds : Z) (early_stopping_tolerance : Py.pyfloat)
    (episodes : list nat) (s : loop_state) : list loop_state :=
  match episodes with
  | [] => []
  | episode :: rest =>
      let s' := round noise_scale n_terms early_stopping_tolerance episode s in
      if should_break early_stopping_rounds s' then [s']
      else s' :: rounds noise_scale n_terms early_stopping_rounds
                   early_stopping_tolerance rest s'
  end.

Definition initial_state (b : Booster) : loop_state :=
  {| booster := b; min_metric := Py.PosInf; bp_metric := Py.PosInf;
     no_change_run_length := 0; episode_index := 0%nat |}.

Definition trace (b : Booster) (n_terms : nat) (early_stopping_rounds : Z)
    (early_stopping_tolerance : Py.pyfloat) (max_rounds : Z)
    (noise_scale : option Py.pyfloat) : list loop_state :=
  rounds noise_scale n_terms early_stopping_rounds early_stopping_tolerance
    (seq 0 (Z.to_nat max_rounds)) (initial_state b).

(** [cyclic_gradient_boost]: the model update and the index of the last
    round that ran. *)
Definition cyclic_gradient_boost (b : Booster) (bag_is_none : bool)
    (n_terms : nat) (early_stopping_rounds : Z)
    (early_stopping_tolerance : Py.pyfloat) (max_rounds : Z)
    (noise_scale : option Py.pyfloat) : Model * nat :=
  let final :=
    last (trace b n_terms early_stopping_rounds early_stopping_tolerance
            max_rounds noise_scale)
         (initial_state b) in
  let model_update :=
    if bag_is_none || (match noise_scale with Some _ => true | None => false end)
    then get_current_model (booster final)
    else get_best_model (booster final) in
  (model_update, episode_index final).

(** The streak length on entry to round [i] of a trace. *)
Definition run_length_before (tr : list loop_state) (i : nat) : Z :=
  match i with
  | O => 0
  | S k => match nth_error tr k with
           | Some s => no_change_run_length s
           | None => 0
           end
  end.

End CyclicGradientBoost.

End Boosting.

(** A booster whose metric falls from 5 to 2 and then stays there; its
    state is the number of updates applied so far. *)
Definition demo_apply_term_update (b : nat) : nat * Py.pyfloat :=
  (S b, Py.Finite (inject_Z (Z.max (5 - Z.of_nat b) 2))).

Definition demo_trace : list (@Boosting.loop_state nat) :=
  Boosting.trace (fun b _ => b) (fun b _ => b) demo_apply_term_update
    0%nat 1%nat 2 (Py.Finite 0) 10 None.

(** A categorical column with one frequent and several rare values. *)
Definition demo_categories : list string :=
  ["b"; "a"; "c"; "a"; "a"; "b"]%string.

(** A numeric column on the public range [0, 1]. *)
Definition demo_column : list Q := [1 # 10; 9 # 10]%Q.

(** ** [EBMPreprocessor.fit]: the cuts of a continuous column (ebm.py,
    lines 189-246)

    The quantile and uniform cutters belong to the native library and are
    parameters.  The private branch calls
    [DPUtils.private_numeric_binning] with five positional arguments where
    the function takes six. *)

Module EBMPreprocessor.

Section Fit.

Variable cut_quantile : list Q -> Z -> Z -> Z -> list Q.
Variable cut_uniform : list Q -> Z -> list Q.

(** ["private" in self.binning] *)
Definition mentions_private (binning : string) : bool :=
  match String.index 0 "private" binning with
  | Some _ => true
  | None => false
  end.

Definition continuous_cuts (binning : string) (max_bins : Z)
    (epsilon delta : option Py.pyfloat) (col_data : list Q)
    : Py.result (list Q) :=
  _ <- (if mentions_private binning
        then DPUtils.validate_eps_delta epsilon delta
        else Py.ret tt) ;;
  if max_bins <? 2 then
    Py.raise (Py.ValueError "max_bins must be 2 or higher.")
  else if String.eqb binning "private" then
    Py.raise (Py.TypeError
      "private_numeric_binning() missing 1 required positional argument: 'max_val'")
  else if String.eqb binning "quantile" || String.eqb binning "quantile_humanized" then
    let is_humanized := if String.eqb binning "quantile_humanized" then 1 else 0 in
    Py.ret (cut_quantile col_data 1 is_humanized (max_bins - 2))
  else if String.eqb binning "uniform" then
    Py.ret (cut_uniform col_data (max_bins - 2))
  else Py.raise (Py.ValueError "Unrecognized bin type").

End Fit.

(** Modelled from the spec: the native cutters are not part of the
    sources at hand; the specification has them "choose up to
    [max_bins-2] cut points", every cut array being "sorted
    strictly-increasing". *)
Definition native_cut_contract (cut : Z -> list Q) : Prop :=
  forall n_cuts : Z,
    StronglySorted Qlt (cut n_cuts) /\
    Z.of_nat (length (cut n_cuts)) <= Z.max 0 n_cuts.

(** A cutter that places one cut at 1/2 when it may. *)
Definition demo_cutter (n_cuts : Z) : list Q :=
  if 1 <=? n_cuts then [(1 # 2)%Q] else [].

End EBMPreprocessor.

(** ** [_harmonize_tensor] (utils.py, lines 297-515)

    Feature indexes are integers, since the function overwrites a consumed
    index by [-1].  A bin definition is an array of cuts or a dict from
    category to bin index.  Division by zero, which numpy answers with NaN,
    is Rocq's [x / 0 = 0]; it is not reached under the hypotheses of the
    theorems below. *)

Module Harmonize.

Import Tensor.
Local Open Scope nat_scope.

Inductive feature_bins : Type :=
| Cuts (cuts : list Q)
| Categories (categories : list (string * Z)).

Definition is_dict (b : feature_bins) : bool :=
  match b with
  | Categories _ => true
  | Cuts _ => false
  end.

(** [len(feature_bins)] *)
Definition bins_length (b : feature_bins) : nat :=
  match b with
  | Cuts cuts => length cuts
  | Categories categories => length categories
  end.

(** One level of [old_mapping]: [None], or for each bin the old bins it
    gathers. *)
Definition mapping_level : Type := option (list (list Z)).

(** [old_feature_idxs.index(feature_idx)] *)
Fixpoint list_index (x : Z) (l : list Z) : option nat :=
  match l with
  | [] => None
  | y :: l' => if (x =? y)%Z then Some 0%nat else option_map S (list_index x l')
  end.

(** [l[i] = x] *)
Fixpoint set_nth {A} (i : nat) (x : A) (l : list A) : list A :=
  match l, i with
  | [], _ => []
  | _ :: l', O => x :: l'
  | y :: l', S i' => y :: set_nth i' x l'
  end.

(** Lines 337-341: where each new axis sits among the old axes. *)
Fixpoint find_axes (new_feature_idxs old_feature_idxs : list Z)
    : Py.result (list nat) :=
  match new_feature_idxs with
  | [] => Py.ret []
  | feature_idx :: rest =>
      match list_index feature_idx old_feature_idxs with
      | None => Py.raise (Py.ValueError "is not in list")
      | Some old_idx =>
          axes <- find_axes rest (set_nth old_idx (-1)%Z old_feature_idxs) ;;
          Py.ret (old_idx :: axes)
      end
  end.

(** [bin_levels[min(len(bin_levels), n_dimensions) - 1]] *)
Definition select_level {A} (levels : list A) (n_dimensions : nat) : Py.result A :=
  py_index levels (Z.min (Z.of_nat (length levels)) (Z.of_nat n_dimensions) - 1)%Z.

Definition dict_get (d : list (string * Z)) (key : string) : option Z :=
  option_map snd (find (fun item => String.eqb (fst item) key) d).

(** The loops that turn a dict around: bin index to the categories that
    map to it, keys in order of first appearance. *)
Fixpoint reversed_add (bin_idx : Z) (category : string)
    (reversed : list (Z * list string)) : list (Z * list string) :=
  match reversed with
  | [] => [(bin_idx, [category])]
  | (k, category_list) :: rest =>
      if (k =? bin_idx)%Z then (k, category_list ++ [category]) :: rest
      else (k, category_list) :: reversed_add bin_idx category rest
  end.

Definition reverse_dict (d : list (string * Z)) : list (Z * list string) :=
  fold_left (fun reversed item => reversed_add (snd item) (fst item) reversed) d [].

Fixpoint insert_by_key (item : Z * list string) (l : list (Z * list string))
    : list (Z * list string) :=
  match l with
  | [] => [item]
  | other :: l' =>
      if (fst item <=? fst other)%Z then item :: l
      else other :: insert_by_key item l'
  end.

(** [sorted(new_reversed.items())]; the keys are distinct. *)
Definition sorted_items (reversed : list (Z * list string)) : list (Z * list string) :=
  fold_right insert_by_key [] reversed.

Definition reversed_get (reversed : list (Z * list string)) (bin_idx : Z) : list string :=
  match find (fun item => (fst item =? bin_idx)%Z) reversed with
  | Some item => snd item
  | None => []
  end.

(** Lines 370-401: the lookup and the percentages of a categorical axis. *)
Definition categorical_axis (old_feature_bins new_feature_bins : list (string * Z))
    : list Z * list Q :=
  let old_reversed := reverse_dict old_feature_bins in
  let new_reversed := sorted_items (reverse_dict new_feature_bins) in
  let entries :=
    map (fun item : Z * list string =>
           let new_categories := snd item in
           let old_bin_idx :=
             match dict_get old_feature_bins (hd EmptyString new_categories) with
             | Some idx => idx
             | None => (-1)%Z
             end in
           if (0 <=? old_bin_idx)%Z then
             (old_bin_idx,
              (inject_Z (Z.of_nat (length new_categories))
               / inject_Z (Z.of_nat (length (reversed_get old_reversed old_bin_idx))))%Q)
           else (old_bin_idx, 0%Q))
        new_reversed in
  (0%Z :: map fst entries ++ [(-1)%Z], 1%Q :: map snd entries ++ [1%Q]).

(** [np.searchsorted(a, v, side='left')] on a sorted array: how many
    leading elements are below [v]. *)
Fixpoint searchsorted_left (a : list Q) (v : Q) : nat :=
  match a with
  | [] => 0
  | x :: a' => if Qle_bool v x then 0 else S (searchsorted_left a' v)
  end.

(** Lines 409-453, the body of the loop: the share of an old bin that a
    new bin takes. *)
Definition percentage_of (new_bounds old_bounds : Q * Q)
    (new_feature_bins old_feature_bins : list Q)
    (new_idx_minus_one : nat) (old_idx : Z) : Q :=
  let new_low :=
    if (new_idx_minus_one =? 0)%nat then fst new_bounds
    else nth (new_idx_minus_one - 1) new_feature_bins 0%Q in
  let new_high :=
    if (length new_feature_bins <=? new_idx_minus_one)%nat then snd new_bounds
    else nth new_idx_minus_one new_feature_bins 0%Q in
  let old_low :=
    if (old_idx =? 1)%Z then fst old_bounds
    else nth (Z.to_nat (old_idx - 2)) old_feature_bins 0%Q in
  let old_high :=
    if (Z.of_nat (length old_feature_bins) <? old_idx)%Z then snd old_bounds
    else nth (Z.to_nat (old_idx - 1)) old_feature_bins 0%Q in
  if Qle_bool old_high new_low || Qle_bool new_high old_low then 0%Q
  else
    let new_low := if Qle_bool old_low new_low then new_low else old_low in
    let new_high := if Qle_bool new_high old_high then new_high else old_high in
    ((new_high - new_low) / (old_high - old_low))%Q.

(** Lines 405-457: the lookup and the percentages of a continuous axis. *)
Definition continuous_axis (new_bounds old_bounds : Q * Q)
    (old_feature_bins new_feature_bins : list Q) : list Z * list Q :=
  let lookup :=
    map (fun v => (Z.of_nat (searchsorted_left old_feature_bins v) + 1)%Z)
        new_feature_bins
    ++ [(Z.of_nat (length old_feature_bins) + 1)%Z] in
  let percentage :=
    map (fun p : nat * Z =>
           percentage_of new_bounds old_bounds new_feature_bins old_feature_bins
             (fst p) (snd p))
        (combine (seq 0 (length lookup)) lookup) in
  (0%Z :: lookup ++ [(-1)%Z], 1%Q :: percentage ++ [1%Q]).

(** One axis of the plan: the old bins each bin of the old tensor stands
    for, the old bin each new bin looks up, and its share. *)
Record axis : Type := {
  mapping : list (list Z);
  lookup : list Z;
  percentage : list Q
}.

Definition bounds_row (bounds : option (list (Q * Q))) (feature_idx : Z)
    : Py.result (Q * Q) :=
  match bounds with
  | None => Py.raise (Py.TypeError "'NoneType' object is not subscriptable")
  | Some rows => py_index rows feature_idx
  end.

(** Lines 354-460: the body of the loop over the new feature indexes. *)
Definition plan_axis (n_new n_old : nat)
    (new_bounds : option (list (Q * Q))) (new_bins : list (list feature_bins))
    (old_bounds : option (list (Q * Q))) (old_bins : list (list feature_bins))
    (old_mapping : list (list mapping_level)) (feature_idx : Z) : Py.result axis :=
  old_bin_levels <- py_index old_bins feature_idx ;;
  old_feature_bins <- select_level old_bin_levels n_old ;;
  mapping_levels <- py_index old_mapping feature_idx ;;
  old_feature_mapping <- select_level mapping_levels n_old ;;
  let old_feature_mapping :=
    match old_feature_mapping with
    | Some m => m
    | None =>
        map (fun x => [Z.of_nat x])
            (seq 0 (bins_length old_feature_bins
                    + (if is_dict old_feature_bins then 2 else 3)))
    end in
  new_bin_levels <- py_index new_bins feature_idx ;;
  new_feature_bins <- select_level new_bin_levels n_new ;;
  match new_feature_bins with
  | Categories new_categories =>
      match old_feature_bins with
      | Categories old_categories =>
          let '(lookup, percentage) := categorical_axis old_categories new_categories in
          Py.ret {| mapping := old_feature_mapping; lookup := lookup;
                    percentage := percentage |}
      | Cuts _ =>
          Py.raise (Py.AttributeError "'numpy.ndarray' object has no attribute 'items'")
      end
  | Cuts new_cuts =>
      match old_feature_bins with
      | Cuts old_cuts =>
          new_row <- bounds_row new_bounds feature_idx ;;
          old_row <- bounds_row old_bounds feature_idx ;;
          let '(lookup, percentage) := continuous_axis new_row old_row old_cuts new_cuts in
          Py.ret {| mapping := old_feature_mapping; lookup := lookup;
                    percentage := percentage |}
      | Categories _ =>
          Py.raise (Py.TypeError "'<' not supported between instances of 'dict' and 'float'")
      end
  end.

(** The decomposition of a flat cell index along the reversed axes: the
    position on each of them, the fastest first. *)
Fixpoint decompose (remainder : nat) (sizes : list nat) : list nat :=
  match sizes with
  | [] => []
  | n_bins :: rest => (remainder mod n_bins) :: decompose (remainder / n_bins) rest
  end.

Definition Qprod (l : list Q) : Q := fold_right Qmult 1%Q l.

(** Lines 486-504: the loop over the old cells that one new cell gathers;
    the result is [val] and [total_weight]. *)
Definition gather (old_tensor : t) (bin_evidence_weight : option t)
    (cell_map : list (list Z)) : Py.result (Q * Q) :=
  let sizes := map (@length Z) cell_map in
  let n_cells2 := prod sizes in
  fold_left
    (fun (acc : Py.result (Q * Q)) (cell2_idx : nat) =>
       vt <- acc ;;
       let '(val, total_weight) := vt in
       let positions := decompose cell2_idx sizes in
       let old_reversed_bin2_idxs :=
         map (fun p : list Z * nat => nth (snd p) (fst p) 0%Z)
             (combine cell_map positions) in
       update <- get old_tensor (rev old_reversed_bin2_idxs) ;;
       if (n_cells2 =? 1)%nat then Py.ret (update, total_weight)
       else
         match bin_evidence_weight with
         | Some weights =>
             evidence_weight <- get weights (rev old_reversed_bin2_idxs) ;;
             Py.ret ((val + update * evidence_weight)%Q,
                     (total_weight + evidence_weight)%Q)
         | None => Py.ret ((val + update)%Q, total_weight)
         end)
    (seq 0 n_cells2) (Py.ret (0%Q, 0%Q)).

(** Lines 471-513: the value of one new cell; the axes come reversed. *)
Definition new_cell (old_tensor : t) (bin_evidence_weight : option t)
    (reversed_axes : list axis) (cell_idx : nat) : Py.result Q :=
  let positions := decompose cell_idx (map (fun a => length (lookup a)) reversed_axes) in
  let steps := combine reversed_axes positions in
  let old_reversed_bin_idxs :=
    map (fun p : axis * nat => nth (snd p) (lookup (fst p)) 0%Z) steps in
  let frac :=
    Qprod (map (fun p : axis * nat => nth (snd p) (percentage (fst p)) 0%Q) steps) in
  cell_map <-
    mapM (fun p : axis * Z => py_index (mapping (fst p)) (snd p))
         (combine reversed_axes old_reversed_bin_idxs) ;;
  vt <- gather old_tensor bin_evidence_weight cell_map ;;
  let '(val, total_weight) := vt in
  match bin_evidence_weight with
  | None => Py.ret (val * frac)%Q
  | Some _ =>
      if negb (Qeq_bool total_weight 0) then Py.ret (val / total_weight)%Q
      else Py.ret val
  end.

Definition _harmonize_tensor
    (new_feature_idxs : list Z) (new_bounds : option (list (Q * Q)))
    (new_bins : list (list feature_bins))
    (old_feature_idxs : list Z) (old_bounds : option (list (Q * Q)))
    (old_bins : list (list feature_bins)) (old_mapping : list (list mapping_level))
    (old_tensor : t) (bin_evidence_weight : option t) : Py.result t :=
  axes <- find_axes new_feature_idxs old_feature_idxs ;;
  let axes :=
    if negb (length axes =? ndim old_tensor)%nat then axes ++ [length axes] else axes in
  old_tensor <- transpose old_tensor axes ;;
  bin_evidence_weight <-
    match bin_evidence_weight with
    | Some weights => w <- transpose weights axes ;; Py.ret (Some w)
    | None => Py.ret None
    end ;;
  planned <-
    mapM (plan_axis (length new_feature_idxs) (length old_feature_idxs)
            new_bounds new_bins old_bounds old_bins old_mapping)
         new_feature_idxs ;;
  let new_shape := map (fun a => length (lookup a)) planned in
  let n_cells := prod new_shape in
  cells <- mapM (new_cell old_tensor bin_evidence_weight (rev planned)) (seq 0 n_cells) ;;
  Py.ret (mk new_shape cells).

End Harmonize.

(** ** Vocabulary for the statements about [_harmonize_tensor] *)

(** The mapping [_harmonize_tensor] builds when a level of [old_mapping]
    is [None]: every old bin stands for itself. *)
Definition default_mapping (n_old_bins : nat) : list (list Z) :=
  map (fun x => [Z.of_nat x]) (seq 0 n_old_bins).

(** The position a Python index denotes in a sequence of [n] items. *)
Definition old_position (n : nat) (i : Z) : nat :=
  if (i <? 0)%Z then Z.to_nat (i + Z.of_nat n) else Z.to_nat i.

(** An axis whose old bins stand for themselves and whose lookups are all
    valid indexes of the old axis of [n_old_bins] bins. *)
Definition simple_axis (n_old_bins : nat) (a : Harmonize.axis) : Prop :=
  Harmonize.mapping a = default_mapping n_old_bins /\
  Forall (fun l => Tensor.normalize_index n_old_bins l = inr (old_position n_old_bins l))
         (Harmonize.lookup a).

(** The old bins a new cell looks up, and the product of its shares, from
    its positions along the axes. *)
Definition old_positions (sizes : list nat) (axes : list Harmonize.axis)
    (positions : list nat) : list nat :=
  map (fun p : nat * Harmonize.axis * nat =>
         old_position (fst (fst p)) (nth (snd p) (Harmonize.lookup (snd (fst p))) 0%Z))
      (combine (combine sizes axes) positions).

Definition cell_fraction (axes : list Harmonize.axis) (positions : list nat) : Q :=
  Harmonize.Qprod
    (map (fun p : Harmonize.axis * nat => nth (snd p) (Harmonize.percentage (fst p)) 0%Q)
         (combine axes positions)).

Definition lookup_sizes (axes : list Harmonize.axis) : list nat :=
  map (fun a => length (Harmonize.lookup a)) axes.

(** The shares of the new bins that look up one old bin add up to 1, for
    every bin of the old axis. *)
Definition unity_axis (n_old_bins : nat) (a : Harmonize.axis) : Prop :=
  forall o : nat,
    (o < n_old_bins)%nat ->
    (Tensor.Qsum
       (map (fun i =>
               if (old_position n_old_bins (nth i (Harmonize.lookup a) 0%Z) =? o)%nat
               then nth i (Harmonize.percentage a) 0%Q
               else 0%Q)
            (seq 0 (length (Harmonize.lookup a))))
     == 1)%Q.

(** The old and the new description of one continuous axis: cuts and
    [(min, max)] bounds. *)
Record grid : Type := {
  old_cuts : list Q;
  new_cuts : list Q;
  old_row : Q * Q;
  new_row : Q * Q
}.

(** The new grid refines the old one: both cut arrays are strictly
    increasing, every old cut is a new cut, the old bounds enclose the old
    cuts strictly, and the new bounds enclose the old bounds. *)
Definition finer_grid (g : grid) : Prop :=
  StronglySorted Qlt (old_cuts g) /\
  StronglySorted Qlt (new_cuts g) /\
  (forall c, In c (old_cuts g) -> exists c', In c' (new_cuts g) /\ (c' == c)%Q) /\
  (fst (new_row g) <= fst (old_row g))%Q /\
  (snd (old_row g) <= snd (new_row g))%Q /\
  (fst (old_row g) < snd (old_row g))%Q /\
  (forall c, In c (old_cuts g) -> (fst (old_row g) < c < snd (old_row g))%Q).

(** Feature [feature_idx] is continuous in the old and in the new model,
    with the cuts and bounds of [g], and its old mapping level is
    [None]. *)
Definition continuous_feature (n_new n_old : nat)
    (new_bounds : option (list (Q * Q))) (new_bins : list (list Harmonize.feature_bins))
    (old_bounds : option (list (Q * Q))) (old_bins : list (list Harmonize.feature_bins))
    (old_mapping : list (list Harmonize.mapping_level))
    (feature_idx : Z) (g : grid) : Prop :=
  (exists levels,
     Tensor.py_index old_bins feature_idx = inr levels /\
     Harmonize.select_level levels n_old = inr (Harmonize.Cuts (old_cuts g))) /\
  (exists levels,
     Tensor.py_index old_mapping feature_idx = inr levels /\
     Harmonize.select_level levels n_old = inr None) /\
  (exists levels,
     Tensor.py_index new_bins feature_idx = inr levels /\
     Harmonize.select_level levels n_new = inr (Harmonize.Cuts (new_cuts g))) /\
  Harmonize.bounds_row new_bounds feature_idx = inr (new_row g) /\
  Harmonize.bounds_row old_bounds feature_idx = inr (old_row g).

(** The axis [plan_axis] builds for such a feature. *)
Definition continuous_plan (g : grid) : Harmonize.axis :=
  {| Harmonize.mapping := default_mapping (length (old_cuts g) + 3);
     Harmonize.lookup :=
       fst (Harmonize.continuous_axis (new_row g) (old_row g) (old_cuts g) (new_cuts g));
     Harmonize.percentage :=
       snd (Harmonize.continuous_axis (new_row g) (old_row g) (old_cuts g) (new_cuts g)) |}.

(** [clamp lo hi x]: the point of [lo, hi] nearest to [x]. *)
Definition clamp (lo hi x : Q) : Q := Qmin (Qmax x lo) hi.

(** The edges of the bins of a grid, as [percentage_of] reads them: the
    lower and upper edge of the new bin at position [k] of the lookup, the
    lower and upper edge of the old bin [o], and the old bin the new bin at
    position [k] looks up. *)
Definition new_low (g : grid) (k : nat) : Q :=
  if (k =? 0)%nat then fst (new_row g) else nth (k - 1) (new_cuts g) 0%Q.

Definition new_high (g : grid) (k : nat) : Q :=
  if (length (new_cuts g) <=? k)%nat then snd (new_row g) else nth k (new_cuts g) 0%Q.

Definition old_low (g : grid) (o : nat) : Q :=
  if (o =? 1)%nat then fst (old_row g) else nth (o - 2) (old_cuts g) 0%Q.

Definition old_high (g : grid) (o : nat) : Q :=
  if (length (old_cuts g) <? o)%nat then snd (old_row g)
  else nth (o - 1) (old_cuts g) 0%Q.

Definition looked_up (g : grid) (k : nat) : nat :=
  if (k <? length (new_cuts g))%nat
  then (Harmonize.searchsorted_left (old_cuts g) (nth k (new_cuts g) 0%Q) + 1)%nat
  else (length (old_cuts g) + 1)%nat.

(** The number of bins of the old and of the new tensor along the axis of
    a continuous feature: the missing bin, one more bin than cuts, and the
    unknown bin. *)
Definition old_size (g : grid) : nat := (length (old_cuts g) + 3)%nat.

Definition new_size (g : grid) : nat := (length (new_cuts g) + 3)%nat.

(** The new bin at position [k] of the lookup lies inside old bin [o]:
    the cut below [o], when there is one, is not above the cut below the
    new bin, and the cut above [o], when there is one, is not below the cut
    above the new bin.  A bin without a cut on one side is unbounded on
    that side. *)
Definition inside_old_bin (g : grid) (k o : nat) : Prop :=
  ((2 <= o)%nat ->
   (1 <= k)%nat /\ (nth (o - 2) (old_cuts g) 0 <= nth (k - 1) (new_cuts g) 0)%Q) /\
  ((o <= length (old_cuts g))%nat ->
   (k < length (new_cuts g))%nat /\ (nth k (new_cuts g) 0 <= nth (o - 1) (old_cuts g) 0)%Q).

(** The bin of the old axis that position [p] of the new axis is taken
    from: missing from missing, unknown from unknown, and a bin between
    cuts from the old bin it looks up. *)
Definition old_bin_of (g : grid) (p : nat) : nat :=
  if (p =? 0)%nat then 0%nat
  else if (length (new_cuts g) + 2 <=? p)%nat then (length (old_cuts g) + 2)%nat
  else looked_up g (p - 1).

(** The cell of the old tensor that the cell [idx] of the new tensor is
    taken from. *)
Definition old_cell (grids : list grid) (idx : list nat) : list nat :=
  map (fun gp : grid * nat => old_bin_of (fst gp) (snd gp)) (combine grids idx).

(** What [_harmonize_tensor] puts into cell [c] of the new tensor when all
    its features are continuous: the old cell it looks up, times the share
    of that cell when weights are harmonized. *)
Definition harmonized_cell (grids : list grid) (old_tensor : Tensor.t)
    (evidence : option Tensor.t) (c : nat) : Q :=
  let raxes := rev (map continuous_plan grids) in
  let rsizes := rev (map old_size grids) in
  let positions := Harmonize.decompose c (lookup_sizes raxes) in
  let old_value :=
    nth (offset_rev rsizes (old_positions rsizes raxes positions))
        (Tensor.data old_tensor) 0%Q in
  match evidence with
  | None => (old_value * cell_fraction raxes positions)%Q
  | Some _ => old_value
  end.

(** A concrete refinement: one feature whose single cut at 10 is kept when
    the cuts 5 and 15 are added, both models seeing the range [0, 20]. *)
Definition demo_grid : grid :=
  {| old_cuts := [10]%Q; new_cuts := [5; 10; 15]%Q;
     old_row := (0, 20)%Q; new_row := (0, 20)%Q |}.

Definition demo_old_tensor : Tensor.t := Tensor.mk [4%nat] [1; 6; 4; 0]%Q.

(** ** [merge_ebms] (utils.py, lines 517-934)

    A model is the record of the attributes [merge_ebms] reads and writes;
    it stands for an object that carries [term_features_], which line 800
    reads from every model.  An attribute a model may lack is an
    [option].  The standard deviation
    tensors need square roots and are left out, as are the attributes of
    the result that are copied or summed and read by nothing else
    (targets, term names); the checks that guard them are kept.  A row of
    [feature_bounds_] is [None] when both bounds are NaN, as they are for
    a categorical feature.  The conversion of a categorical feature to a
    continuous one parses the category labels as floats and is a
    parameter. *)

Module MergeEBMs.

Import Tensor.
Local Open Scope nat_scope.

Record model : Type := {
  type_name : string;
  has_fitted_ : bool;
  bins_ : list (list Harmonize.feature_bins);
  feature_names_in_ : option (list (option string));
  feature_types_in_ : option (list string);
  feature_bounds_ : option (list (option (Q * Q)));
  histogram_counts_ : option (list (list Z));
  unique_counts_ : option (list Z);
  zero_counts_ : option (list Z);
  n_samples_ : option Z;
  classes_ : list Z;
  bin_weights_ : list t;
  bagged_additive_terms_ : option (list (list t));
  bag_weights_ : option (list Q);
  term_features_ : list (list Z);
  additive_terms_ : list t;
  intercept_ : Q
}.

Definition optional_length {A} (o : option (list A)) : list nat :=
  match o with
  | Some l => [length l]
  | None => []
  end.

(** Lines 563-601: every per-feature attribute has [n_features] entries. *)
Definition check_feature_counts (n_features : nat) (m : model) : Py.result unit :=
  let lengths :=
    length (bins_ m)
    :: optional_length (feature_names_in_ m) ++ optional_length (feature_types_in_ m)
    ++ optional_length (feature_bounds_ m) ++ optional_length (histogram_counts_ m)
    ++ optional_length (unique_counts_ m) ++ optional_length (zero_counts_ m) in
  if forallb (Nat.eqb n_features) lengths then Py.ret tt
  else Py.raise (Py.Exception "Inconsistent numbers of features in the models.").

(** [len(set(map(type, bin_levels))) == 1] *)
Definition same_types (bin_levels : list Harmonize.feature_bins) : bool :=
  match bin_levels with
  | [] => false
  | b :: rest =>
      forallb (fun b' => Bool.eqb (Harmonize.is_dict b) (Harmonize.is_dict b')) rest
  end.

(** Lines 606-608. *)
Definition check_bin_types (m : model) : Py.result unit :=
  if forallb same_types (bins_ m) then Py.ret tt
  else Py.raise (Py.Exception "Inconsistent bin types within a model.").

Definition index_nat {A} (l : list A) (i : nat) : Py.result A :=
  match nth_error l i with
  | Some a => Py.ret a
  | None => Py.raise Py.IndexError
  end.

(** [type(model.bins_[feature_idx][0]) is dict] *)
Definition first_is_dict (bin_levels : list Harmonize.feature_bins) : Py.result bool :=
  b <- index_nat bin_levels 0 ;;
  Py.ret (Harmonize.is_dict b).

(** Lines 631-641: the type of a categorical feature of the result. *)
Definition merged_categorical_type (models : list model) (feature_idx : nat) : string :=
  let seen :=
    fold_left
      (fun (new_feature_type : option string) (m : model) =>
         match feature_types_in_ m with
         | None => new_feature_type
         | Some feature_types_in =>
             let feature_type := nth feature_idx feature_types_in EmptyString in
             if String.eqb feature_type "nominal" then Some "nominal"%string
             else
               match new_feature_type with
               | None =>
                   if String.eqb feature_type "ordinal" then Some "ordinal"%string
                   else None
               | Some _ => new_feature_type
               end
         end)
      models None in
  match seen with
  | Some feature_type => feature_type
  | None => "nominal"%string
  end.

(** [bin_levels[min(level_idx, len(bin_levels) - 1)]] *)
Definition level_of (bin_levels : list Harmonize.feature_bins) (level_idx : nat)
    : Py.result Harmonize.feature_bins :=
  py_index bin_levels (Z.min (Z.of_nat level_idx) (Z.of_nat (length bin_levels) - 1)).

(** What one level of one feature of one model becomes in [old_bins] and
    [old_mapping], and the bounds of the conversion when there was one. *)
Record old_level : Type := {
  old_level_bins : Harmonize.feature_bins;
  old_level_mapping : Harmonize.mapping_level;
  converted_bounds : option (Q * Q)
}.

Definition keep_level (b : Harmonize.feature_bins) : old_level :=
  {| old_level_bins := b; old_level_mapping := None; converted_bounds := None |}.

Definition category_keys (b : Harmonize.feature_bins) : list string :=
  match b with
  | Harmonize.Categories categories => map fst categories
  | Harmonize.Cuts _ => []
  end.

(** Lines 661-670: [dict(zip(sorted(set(keys)), count(1)))]. *)
Definition merged_categories (model_bins : list Harmonize.feature_bins)
    : Harmonize.feature_bins :=
  let merged_keys := DPUtils.unique (flat_map category_keys model_bins) in
  Harmonize.Categories (combine merged_keys (map Z.of_nat (seq 1 (length merged_keys)))).

Fixpoint insert_cut (x : Q) (l : list Q) : list Q :=
  match l with
  | [] => [x]
  | y :: l' =>
      match (x ?= y)%Q with
      | Lt => x :: l
      | Eq => l
      | Gt => y :: insert_cut x l'
      end
  end.

(** [sorted(set(...))] of floats. *)
Definition sorted_set (l : list Q) : list Q := fold_right insert_cut [] l.

(** Line 696: [np.array(sorted(set(chain.from_iterable(model_bins))))]; by
    then every entry is an array. *)
Definition merged_cuts (model_bins : list Harmonize.feature_bins)
    : Py.result Harmonize.feature_bins :=
  cuts <-
    mapM (fun b =>
            match b with
            | Harmonize.Cuts cuts => Py.ret cuts
            | Harmonize.Categories _ =>
                Py.raise (Py.ValueError "could not convert string to float")
            end)
         model_bins ;;
  Py.ret (Harmonize.Cuts (sorted_set (concat cuts))).

(** The merged bins of a feature, level by level, and what every model
    contributes to [old_bins] and [old_mapping] there. *)
Record feature_result : Type := {
  new_feature_type : string;
  new_leveled_bins : list Harmonize.feature_bins;
  old_levels : list (list old_level)
}.

(** Lines 723-733: [np.nanmin] and [np.nanmax] over the models, the least
    minimum and the greatest maximum that are not NaN. *)
Definition widen (a b : option (Q * Q)) : option (Q * Q) :=
  match a, b with
  | None, x => x
  | x, None => x
  | Some a, Some b => Some (Qmin (fst a) (fst b), Qmax (snd a) (snd b))
  end.

Fixpoint widen_rows (a b : list (option (Q * Q))) : list (option (Q * Q)) :=
  match a, b with
  | x :: a', y :: b' => widen x y :: widen_rows a' b'
  | _, _ => []
  end.

Definition present {A} (l : list (option A)) : list A :=
  flat_map (fun o => match o with Some a => [a] | None => [] end) l.

Definition merged_bounds (old_bounds : list (option (list (option (Q * Q)))))
    : option (list (option (Q * Q))) :=
  match present old_bounds with
  | [] => None
  | first :: rest =>
      let rows := fold_left widen_rows rest first in
      if existsb (fun row : option (Q * Q) =>
                    match row with Some _ => true | None => false end) rows
      then Some rows else None
  end.

(** The bounds as [_harmonize_tensor] reads them; it reads the row of a
    continuous feature only. *)
Definition finite_rows (rows : list (option (Q * Q))) : list (Q * Q) :=
  map (fun row : option (Q * Q) =>
         match row with
         | Some r => r
         | None => (0, 0)%Q
         end)
      rows.

Definition items_eqb (a b : string * Z) : bool :=
  String.eqb (fst a) (fst b) && (snd a =? snd b)%Z.

Definition items_subset (a b : list (string * Z)) : bool :=
  forallb (fun x => existsb (items_eqb x) b) a.

(** Equality of the keys [_deduplicate_bins] compares:
    [frozenset(feature_bins.items())] for a dict, [tuple(feature_bins)]
    for an array. *)
Definition bins_key_eqb (a b : Harmonize.feature_bins) : bool :=
  match a, b with
  | Harmonize.Cuts x, Harmonize.Cuts y =>
      (length x =? length y)%nat
      && forallb (fun p : Q * Q => Qeq_bool (fst p) (snd p)) (combine x y)
  | Harmonize.Categories x, Harmonize.Categories y =>
      items_subset x y && items_subset y x
  | _, _ => false
  end.

(** The variables of [_deduplicate_bins] that outlive the loop over the
    levels of a feature: [uniques] (the first bins seen for every key) and
    [highest_idx], which is not reset from one feature to the next. *)
Record dedup_state : Type := {
  uniques : list Harmonize.feature_bins;
  highest_idx : option nat
}.

Definition dedup_level
    (st : dedup_state * option Harmonize.feature_bins * list Harmonize.feature_bins)
    (entry : nat * Harmonize.feature_bins)
    : dedup_state * option Harmonize.feature_bins * list Harmonize.feature_bins :=
  let '(s, highest_key, done) := st in
  let '(level_idx, feature_bins) := entry in
  let existing := find (bins_key_eqb feature_bins) (uniques s) in
  let uniques' :=
    match existing with
    | None => uniques s ++ [feature_bins]
    | Some _ => uniques s
    end in
  let kept :=
    match existing with
    | None => feature_bins
    | Some e => e
    end in
  let same_key :=
    match highest_key with
    | Some key => bins_key_eqb key feature_bins
    | None => false
    end in
  if same_key then
    ({| uniques := uniques'; highest_idx := highest_idx s |}, highest_key, done ++ [kept])
  else
    ({| uniques := uniques'; highest_idx := Some level_idx |}, Some feature_bins,
     done ++ [kept]).

(** Lines 267-290.  [del bin_levels[highest_idx + 1:]] reads a variable
    that is unbound when no feature so far had a level. *)
Fixpoint _deduplicate_bins_from (s : dedup_state) (bins : list (list Harmonize.feature_bins))
    : Py.result (list (list Harmonize.feature_bins)) :=
  match bins with
  | [] => Py.ret []
  | bin_levels :: rest =>
      let '(s', _, levels) :=
        fold_left dedup_level (combine (seq 0 (length bin_levels)) bin_levels)
                  (s, None, []) in
      match highest_idx s' with
      | None =>
          Py.raise (Py.UnboundLocalError
                      "local variable 'highest_idx' referenced before assignment")
      | Some highest =>
          rest' <- _deduplicate_bins_from s' rest ;;
          Py.ret (firstn (highest + 1) levels :: rest')
      end
  end.

Definition _deduplicate_bins (bins : list (list Harmonize.feature_bins))
    : Py.result (list (list Harmonize.feature_bins)) :=
  _deduplicate_bins_from {| uniques := []; highest_idx := None |} bins.

(** Lines 255-265. *)
Definition highest_level (term_features : list (list Z)) (n_features : nat)
    : Py.result (list nat) :=
  fold_left
    (fun (acc : Py.result (list nat)) (feature_idxs : list Z) =>
       fold_left
         (fun (acc : Py.result (list nat)) (feature_idx : Z) =>
            highest_levels <- acc ;;
            i <- normalize_index (length highest_levels) feature_idx ;;
            Py.ret (Harmonize.set_nth i (Nat.max (nth i highest_levels 0)
                                           (length feature_idxs))
                      highest_levels))
         feature_idxs acc)
    term_features (Py.ret (repeat 0 n_features)).

Definition _remove_unused_higher_bins (term_features : list (list Z))
    (bins : list (list Harmonize.feature_bins))
    : Py.result (list (list Harmonize.feature_bins)) :=
  highest_levels <- highest_level term_features (length bins) ;;
  Py.ret (map (fun p : list Harmonize.feature_bins * nat => firstn (snd p) (fst p))
              (combine bins highest_levels)).

(** Lines 706-721: the feature names of the models have to agree. *)
Fixpoint merge_names (merged names : list (option string))
    : Py.result (list (option string)) :=
  match merged, names with
  | merged_name :: merged', name :: names' =>
      rest <- merge_names merged' names' ;;
      match name, merged_name with
      | None, _ => Py.ret (merged_name :: rest)
      | Some _, None => Py.ret (name :: rest)
      | Some a, Some b =>
          if String.eqb a b then Py.ret (merged_name :: rest)
          else Py.raise (Py.Exception "All models should have the same feature names.")
      end
  | _, _ => Py.ret merged
  end.

Definition merged_feature_names (n_features : nat) (models : list model)
    : Py.result (option (list (option string))) :=
  merged <-
    fold_left
      (fun (acc : Py.result (list (option string))) (m : model) =>
         merged <- acc ;;
         match feature_names_in_ m with
         | None => Py.ret merged
         | Some names => merge_names merged names
         end)
      models (Py.ret (repeat None n_features)) ;;
  if existsb (fun name : option string => match name with Some _ => true | None => false end)
             merged
  then Py.ret (Some merged) else Py.ret None.

(** [sorted(feature_idxs)] *)
Fixpoint insert_idx (x : Z) (l : list Z) : list Z :=
  match l with
  | [] => [x]
  | y :: l' => if (x <=? y)%Z then x :: l else y :: insert_idx x l'
  end.

Definition sorted_idxs (feature_idxs : list Z) : list Z :=
  fold_right insert_idx [] feature_idxs.

(** The order of Python on lists of integers. *)
Fixpoint compare_idxs (a b : list Z) : comparison :=
  match a, b with
  | [], [] => Eq
  | [], _ :: _ => Lt
  | _ :: _, [] => Gt
  | x :: a', y :: b' =>
      match (x ?= y)%Z with
      | Eq => compare_idxs a' b'
      | c => c
      end
  end.

(** The sort key of [_order_terms]: the number of features of the term,
    then its features in ascending order; ties fall to the term itself. *)
Definition compare_terms (a b : list Z) : comparison :=
  match compare_idxs (Z.of_nat (length a) :: sorted_idxs a)
                     (Z.of_nat (length b) :: sorted_idxs b) with
  | Eq => compare_idxs a b
  | c => c
  end.

Fixpoint insert_term (x : list Z) (l : list (list Z)) : list (list Z) :=
  match l with
  | [] => [x]
  | y :: l' =>
      match compare_terms x y with
      | Lt => x :: l
      | Eq => l
      | Gt => y :: insert_term x l'
      end
  end.

(** Lines 794-800: [_order_terms(list(all_fg))] of the set of the sorted
    terms of all the models; with no term at all, [ret[0]] is out of
    range. *)
Definition sorted_fgs (models : list model) : Py.result (list (list Z)) :=
  match fold_right insert_term []
          (flat_map (fun m => map sorted_idxs (term_features_ m)) models) with
  | [] => Py.raise Py.IndexError
  | terms => Py.ret terms
  end.

Definition idxs_eqb (a b : list Z) : bool :=
  match compare_idxs a b with
  | Eq => true
  | _ => false
  end.

(** [dict(zip(fg_sorted, count(0))).get(sorted_fg)]: the last term of the
    model with these features. *)
Definition term_index (m : model) (sorted_fg : list Z) : option nat :=
  fold_left
    (fun (found : option nat) (entry : nat * list Z) =>
       if idxs_eqb (sorted_idxs (snd entry)) sorted_fg then Some (fst entry) else found)
    (combine (seq 0 (length (term_features_ m))) (term_features_ m)) None.

(** [np.average([tensor.sum() for tensor in model.bin_weights_])] *)
Definition model_weight (m : model) : Q :=
  (Qsum (map sum (bin_weights_ m)) / inject_Z (Z.of_nat (length (bin_weights_ m))))%Q.

(** Lines 775-778; [-1] when the model has no bagged terms. *)
Definition n_outer_bags (m : model) : Z :=
  match bagged_additive_terms_ m with
  | Some (first :: _) => Z.of_nat (length first)
  | _ => (-1)%Z
  end.

(** Lines 780-787. *)
Definition model_bag_weights (m : model) : Py.result (list Q) :=
  match bag_weights_ m with
  | None => Py.ret (repeat (model_weight m) (Z.to_nat (n_outer_bags m)))
  | Some ws =>
      if negb (Z.of_nat (length ws) =? n_outer_bags m)%Z then
        Py.raise (Py.Exception
                    "self.bagged_weights_ should have the same length as n_outer_bags.")
      else Py.ret ws
  end.

Definition scale (x : Q) (a : t) : t := mk (shape a) (map (Qmult x) (data a)).

Definition zeros (shape : list nat) : t := mk shape (repeat 0%Q (prod shape)).

(** [np.sum(tensors, axis=0)] *)
Definition sum_tensors (tensors : list t) : Py.result t :=
  match tensors with
  | [] => Py.ret (mk [] [0%Q])
  | first :: rest =>
      if negb (Postprocess.all_same_shape (shape first) tensors) then
        Py.raise (Py.ValueError "setting an array element with a sequence.")
      else
        Py.ret (mk (shape first)
                   (fold_left Postprocess.add_lists (map data rest) (data first)))
  end.

Section Merge.

Variable _convert_categorical_to_continuous :
  list (string * Z) -> Py.result (list Q * list (list Z) * Q * Q).

Variable multiclass_postprocess2 :
  Z -> list t -> Q -> list t -> Py.result (list t * Q).

(** Lines 675-694: in a feature that is categorical in some models and
    continuous in others the categorical bins are converted; the bounds
    of the model are subscripted to widen them. *)
Definition convert_level (mixed : bool) (bounds : option (list (option (Q * Q))))
    (b : Harmonize.feature_bins) : Py.result old_level :=
  match b with
  | Harmonize.Categories categories =>
      if mixed then
        converted <- _convert_categorical_to_continuous categories ;;
        let '(converted_bins, mapping, converted_min, converted_max) := converted in
        match bounds with
        | None => Py.raise (Py.TypeError "'NoneType' object is not subscriptable")
        | Some _ =>
            Py.ret {| old_level_bins := Harmonize.Cuts converted_bins;
                      old_level_mapping := Some mapping;
                      converted_bounds := Some (converted_min, converted_max) |}
        end
      else Py.ret (keep_level b)
  | Harmonize.Cuts _ => Py.ret (keep_level b)
  end.

(** Lines 627-698, the body of the loop over the features. *)
Definition merge_feature (models : list model) (feature_idx : nat)
    : Py.result feature_result :=
  levels <- mapM (fun m => index_nat (bins_ m) feature_idx) models ;;
  dicts <- mapM first_is_dict levels ;;
  let categorical := forallb (fun d : bool => d) dicts in
  let mixed := existsb (fun d : bool => d) dicts && negb categorical in
  let level_end := list_max (map (@length Harmonize.feature_bins) levels) in
  per_level <-
    mapM (fun level_idx =>
            model_bins <- mapM (fun bin_levels => level_of bin_levels level_idx) levels ;;
            if categorical then
              Py.ret (merged_categories model_bins, map keep_level model_bins)
            else
              olds <-
                mapM (fun p : model * Harmonize.feature_bins =>
                        convert_level mixed (feature_bounds_ (fst p)) (snd p))
                     (combine models model_bins) ;;
              merged_bins <- merged_cuts (map old_level_bins olds) ;;
              Py.ret (merged_bins, olds))
         (seq 0 level_end) ;;
  Py.ret {| new_feature_type :=
              if categorical then merged_categorical_type models feature_idx
              else "continuous"%string;
            new_leveled_bins := map fst per_level;
            old_levels :=
              map (fun model_idx =>
                     map (fun lv : Harmonize.feature_bins * list old_level =>
                            nth model_idx (snd lv) (keep_level (fst lv)))
                         per_level)
                  (seq 0 (length models)) |}.

(** The row of a model's bounds for a feature after the conversions of
    its levels. *)
Definition widen_by (row : option (Q * Q)) (lv : old_level) : option (Q * Q) :=
  match converted_bounds lv, row with
  | None, _ => row
  | Some converted, None => Some converted
  | Some converted, Some r =>
      Some ((if DPUtils.Qltb (fst converted) (fst r) then fst converted else fst r),
            (if DPUtils.Qltb (snd r) (snd converted) then snd converted else snd r))
  end.

Definition old_bounds_of (features : list feature_result) (model_idx : nat) (m : model)
    : option (list (option (Q * Q))) :=
  match feature_bounds_ m with
  | None => None
  | Some rows =>
      Some (map (fun p : option (Q * Q) * feature_result =>
                   fold_left widen_by (nth model_idx (old_levels (snd p)) []) (fst p))
                (combine rows features))
  end.

Definition old_bins_of (features : list feature_result) (model_idx : nat)
    : list (list Harmonize.feature_bins) :=
  map (fun f => map old_level_bins (nth model_idx (old_levels f) [])) features.

Definition old_mapping_of (features : list feature_result) (model_idx : nat)
    : list (list Harmonize.mapping_level) :=
  map (fun f => map old_level_mapping (nth model_idx (old_levels f) [])) features.

(** What [merge_ebms] has in hand when it reaches the loop over the
    terms. *)
Record merge_state : Type := {
  models_ : list model;
  features_ : list feature_result;
  new_bins_ : list (list Harmonize.feature_bins);
  new_bounds_ : option (list (option (Q * Q)));
  n_classes_ : Z
}.

(** [_harmonize_tensor] as the loop over the terms calls it for the term
    [term_idx] of model [model_idx]; reading [ebm.feature_bounds_] fails
    when no model had bounds. *)
Definition harmonize (s : merge_state) (sorted_fg : list Z) (model_idx : nat) (m : model)
    (term_idx : nat) (tensor : t) (evidence : option t) : Py.result t :=
  match new_bounds_ s with
  | None =>
      Py.raise (Py.AttributeError "object has no attribute 'feature_bounds_'")
  | Some rows =>
      old_feature_idxs <- index_nat (term_features_ m) term_idx ;;
      Harmonize._harmonize_tensor sorted_fg (Some (finite_rows rows)) (new_bins_ s)
        old_feature_idxs
        (option_map finite_rows (old_bounds_of (features_ s) model_idx m))
        (old_bins_of (features_ s) model_idx)
        (old_mapping_of (features_ s) model_idx) tensor evidence
  end.

(** Lines 843-861: the distribution of the weight of a term over its
    cells, from the models that have the term. *)
Definition bin_weight_percentages (s : merge_state) (sorted_fg : list Z) : Py.result t :=
  fixed <-
    mapM (fun p : nat * model =>
            match term_index (snd p) sorted_fg with
            | None => Py.ret None
            | Some term_idx =>
                weights <- index_nat (bin_weights_ (snd p)) term_idx ;;
                fixed_tensor <- harmonize s sorted_fg (fst p) (snd p) term_idx weights None ;;
                Py.ret (Some (scale (model_weight (snd p)) fixed_tensor))
            end)
         (combine (seq 0 (length (models_ s))) (models_ s)) ;;
  total <- sum_tensors (present fixed) ;;
  Py.ret (scale (/ sum total)%Q total).

(** Lines 867-901: what one model adds to the weights and to the bags of
    a term. *)
Definition term_of_model (s : merge_state) (sorted_fg : list Z) (percentages : t)
    (model_idx : nat) (m : model) : Py.result (t * list t) :=
  match term_index m sorted_fg with
  | None =>
      let additive_shape :=
        if (2 <? n_classes_ s)%Z then shape percentages ++ [Z.to_nat (n_classes_ s)]
        else shape percentages in
      Py.ret (scale (model_weight m) percentages,
              repeat (zeros additive_shape) (Z.to_nat (n_outer_bags m)))
  | Some term_idx =>
      weights <- index_nat (bin_weights_ m) term_idx ;;
      harmonized_bin_weights <- harmonize s sorted_fg model_idx m term_idx weights None ;;
      bags <-
        mapM (fun bag_idx =>
                bagged <-
                  match bagged_additive_terms_ m with
                  | Some terms => index_nat terms term_idx
                  | None => Py.raise (Py.AttributeError "bagged_additive_terms_")
                  end ;;
                scores <- index_nat bagged bag_idx ;;
                harmonize s sorted_fg model_idx m term_idx scores (Some weights))
             (seq 0 (Z.to_nat (n_outer_bags m))) ;;
      Py.ret (harmonized_bin_weights, bags)
  end.

(** Lines 808-903, the body of the loop over the terms. *)
Definition merge_term (s : merge_state) (sorted_fg : list Z) : Py.result (t * list t) :=
  percentages <- bin_weight_percentages s sorted_fg ;;
  parts <-
    mapM (fun p : nat * model => term_of_model s sorted_fg percentages (fst p) (snd p))
         (combine (seq 0 (length (models_ s))) (models_ s)) ;;
  new_bin_weights <- sum_tensors (map fst parts) ;;
  Py.ret (new_bin_weights, concat (map snd parts)).

(** Line 932: [_generate_term_names] joins the names of the features of
    every term. *)
Definition check_term_names (feature_names : option (list (option string)))
    (term_features : list (list Z)) : Py.result unit :=
  match feature_names with
  | None => Py.raise (Py.AttributeError "object has no attribute 'feature_names_in_'")
  | Some names =>
      _ <- mapM (fun grp =>
                   mapM (fun i =>
                           name <- py_index names i ;;
                           match name with
                           | Some _ => Py.ret tt
                           | None =>
                               Py.raise (Py.TypeError
                                           "sequence item: expected str instance, NoneType found")
                           end)
                        grp)
                term_features ;;
      Py.ret tt
  end.

Definition classes_eqb (a b : list Z) : bool :=
  (length a =? length b)%nat
  && forallb (fun p : Z * Z => (fst p =? snd p)%Z) (combine a b).

(** Lines 517-932, up to the assignment of line 932: the attributes
    [ebm] holds once the right-hand side of that assignment has been
    evaluated. *)
Definition merged_attributes (models : list model) : Py.result model :=
  decision <- MergeTypes.select_type (map type_name models) ;;
  _ <- (if existsb (fun m => negb (has_fitted_ m)) models
        then Py.raise (Py.Exception "All models must be fitted.") else Py.ret tt) ;;
  let n_features :=
    match models with
    | first :: _ => length (bins_ first)
    | [] => 0
    end in
  _ <- mapM (check_feature_counts n_features) models ;;
  _ <- mapM check_bin_types models ;;
  features <- mapM (merge_feature models) (seq 0 n_features) ;;
  new_bins <- _deduplicate_bins (map new_leveled_bins features) ;;
  feature_names <- merged_feature_names n_features models ;;
  let old_bounds :=
    map (fun p : nat * model => old_bounds_of features (fst p) (snd p))
        (combine (seq 0 (length models)) models) in
  let new_bounds := merged_bounds old_bounds in
  let n_samples :=
    if negb (MergeTypes.is_private decision)
       && forallb (fun m => match n_samples_ m with Some _ => true | None => false end) models
    then Some (fold_right Z.add 0%Z (present (map n_samples_ models)))
    else None in
  let zero_counts :=
    if negb (MergeTypes.is_private decision)
       && forallb (fun m => match zero_counts_ m with Some _ => true | None => false end) models
    then Some (fold_right (fun a b => map (fun p : Z * Z => (fst p + snd p)%Z) (combine a b))
                          (repeat 0%Z n_features) (present (map zero_counts_ models)))
    else None in
  n_classes <-
    (if MergeTypes.is_classifier decision then
       let classes := match models with first :: _ => classes_ first | [] => [] end in
       if existsb (fun m => negb (classes_eqb classes (classes_ m))) models
       then Py.raise (Py.Exception "The target classes should be identical.")
       else Py.ret (Z.of_nat (length classes))
     else Py.ret (-1)%Z) ;;
  bag_weights <- mapM model_bag_weights models ;;
  terms <- sorted_fgs models ;;
  let s := {| models_ := models; features_ := features; new_bins_ := new_bins;
              new_bounds_ := new_bounds; n_classes_ := n_classes |} in
  merged_terms <- mapM (merge_term s) terms ;;
  processed <-
    match n_samples with
    | None => Py.raise (Py.AttributeError "object has no attribute 'n_samples_'")
    | Some _ =>
        Postprocess._process_terms multiclass_postprocess2 n_classes
          (map snd merged_terms) (map fst merged_terms) (concat bag_weights)
    end ;;
  trimmed <- _remove_unused_higher_bins terms new_bins ;;
  final_bins <- _deduplicate_bins trimmed ;;
  _ <- check_term_names feature_names terms ;;
  Py.ret {| type_name := MergeTypes.ebm_type decision;
            has_fitted_ := true;
            bins_ := final_bins;
            feature_names_in_ := feature_names;
            feature_types_in_ := Some (map new_feature_type features);
            feature_bounds_ := new_bounds;
            histogram_counts_ := None;
            unique_counts_ := None;
            zero_counts_ := zero_counts;
            n_samples_ := n_samples;
            classes_ :=
              if MergeTypes.is_classifier decision
              then match models with first :: _ => classes_ first | [] => [] end
              else [];
            bin_weights_ := map fst merged_terms;
            bagged_additive_terms_ := Some (map snd merged_terms);
            bag_weights_ := Some (concat bag_weights);
            term_features_ := terms;
            additive_terms_ := fst processed;
            intercept_ := snd processed |}.

(** [merge_ebms].  Line 932 assigns to [ebm.term_names_]; [ebm] is an
    instance of one of the four classes the dispatch accepts, all of
    them subclasses of [BaseEBM], where [term_names_] is a property
    without a setter (ebm.py, lines 1434-1436).  The assignment raises
    [AttributeError], so the [return ebm] of line 934 is never reached. *)
Definition merge_ebms (models : list model) : Py.result model :=
  ebm <- merged_attributes models ;;
  Py.raise (Py.AttributeError "can't set attribute").

End Merge.

End MergeEBMs.

(** The weights of a feature that took the single value 5: no cut, both
    bounds 5, all the weight in the one bin between missing and unknown. *)
Definition demo_constant_weights : Tensor.t := Tensor.mk [3%nat] [0; 7; 0]%Q.

(** Two fitted regressors on one continuous feature with a cut at 10, one
    of them differentially private. *)
Definition demo_regressor : MergeEBMs.model :=
  {| MergeEBMs.type_name := MergeTypes.Regressor;
     MergeEBMs.has_fitted_ := true;
     MergeEBMs.bins_ := [[Harmonize.Cuts [10]%Q]];
     MergeEBMs.feature_names_in_ := Some [Some "x"%string];
     MergeEBMs.feature_types_in_ := Some ["continuous"%string];
     MergeEBMs.feature_bounds_ := Some [Some (0, 20)%Q];
     MergeEBMs.histogram_counts_ := None;
     MergeEBMs.unique_counts_ := None;
     MergeEBMs.zero_counts_ := None;
     MergeEBMs.n_samples_ := Some 8%Z;
     MergeEBMs.classes_ := [];
     MergeEBMs.bin_weights_ := [Tensor.mk [4%nat] [0; 3; 5; 0]%Q];
     MergeEBMs.bagged_additive_terms_ :=
       Some [[Tensor.mk [4%nat] [0; 1; 2; 0]%Q; Tensor.mk [4%nat] [0; 3; 4; 0]%Q]];
     MergeEBMs.bag_weights_ := None;
     MergeEBMs.term_features_ := [[0%Z]];
     MergeEBMs.additive_terms_ := [Tensor.mk [4%nat] [0; -5 # 8; 3 # 8; 0]%Q];
     MergeEBMs.intercept_ := (21 # 8)%Q |}.

Definition demo_dp_regressor : MergeEBMs.model :=
  {| MergeEBMs.type_name := MergeTypes.DPRegressor;
     MergeEBMs.has_fitted_ := true;
     MergeEBMs.bins_ := [[Harmonize.Cuts [10]%Q]];
     MergeEBMs.feature_names_in_ := Some [Some "x"%string];
     MergeEBMs.feature_types_in_ := Some ["continuous"%string];
     MergeEBMs.feature_bounds_ := Some [Some (0, 20)%Q];
     MergeEBMs.histogram_counts_ := None;
     MergeEBMs.unique_counts_ := None;
     MergeEBMs.zero_counts_ := None;
     MergeEBMs.n_samples_ := Some 8%Z;
     MergeEBMs.classes_ := [];
     MergeEBMs.bin_weights_ := [Tensor.mk [4%nat] [0; 4; 4; 0]%Q];
     MergeEBMs.bagged_additive_terms_ :=
       Some [[Tensor.mk [4%nat] [0; 1; 3; 0]%Q]];
     MergeEBMs.bag_weights_ := None;
     MergeEBMs.term_features_ := [[0%Z]];
     MergeEBMs.additive_terms_ := [Tensor.mk [4%nat] [0; -1; 1; 0]%Q];
     MergeEBMs.intercept_ := 2%Q |}.

Definition no_conversion (categories : list (string * Z))
    : Py.result (list Q * list (list Z) * Q * Q) :=
  Py.raise (Py.NotImplementedError "_convert_categorical_to_continuous").

(** ** Vocabulary for the statements about [merge_ebms] *)

(** Two arrays of one shape whose elements are equal as numbers. *)
Definition tensor_equiv (a b : Tensor.t) : Prop :=
  Tensor.shape a = Tensor.shape b /\ Forall2 Qeq (Tensor.data a) (Tensor.data b).

(** An array of the shape of [b] whose elements are those of [b] times
    [c]. *)
Definition tensor_scaled (c : Q) (a b : Tensor.t) : Prop :=
  Tensor.shape a = Tensor.shape b
  /\ Forall2 (fun x y => (x == c * y)%Q) (Tensor.data a) (Tensor.data b).

(** A category map that numbers its categories from 1 in alphabetical
    order, the order [merge_ebms] gives to every merged map. *)
Definition alphabetical (categories : list (string * Z)) : Prop :=
  StronglySorted (fun a b => String.compare a b = Lt) (map fst categories)
  /\ map snd categories = map Z.of_nat (seq 1 (length categories)).

(** The number of bins along the axis of a feature: the bins between the
    cuts or the categories, with the missing and the unknown bin. *)
Definition level_size (b : Harmonize.feature_bins) : nat :=
  (Harmonize.bins_length b + (if Harmonize.is_dict b then 2 else 3))%nat.

(** One level of the bins of a feature with the row of its bounds: cuts
    are strictly increasing and strictly inside finite bounds, so that
    every bin has a positive width; a category map is alphabetical. *)
Definition regular_level (row : option (Q * Q)) (b : Harmonize.feature_bins) : Prop :=
  match b with
  | Harmonize.Cuts cuts =>
      StronglySorted Qlt cuts
      /\ exists lo hi,
           row = Some (lo, hi) /\ (lo < hi)%Q /\ forall c, In c cuts -> (lo < c < hi)%Q
  | Harmonize.Categories categories => alphabetical categories
  end.

Definition regular_feature (row : option (Q * Q))
    (bin_levels : list Harmonize.feature_bins) : Prop :=
  bin_levels <> [] /\ MergeEBMs.same_types bin_levels = true
  /\ Forall (regular_level row) bin_levels.

(** The bins a term of [n_dimensions] features reads for one of them. *)
Definition term_level (bins : list (list Harmonize.feature_bins)) (n_dimensions : nat)
    (feature_idx : Z) : Py.result Harmonize.feature_bins :=
  bin_levels <- Tensor.py_index bins feature_idx ;;
  Harmonize.select_level bin_levels n_dimensions.

(** The shape of the tensors of a term for at most two classes. *)
Definition term_shape (bins : list (list Harmonize.feature_bins)) (term : list Z)
    : Py.result (list nat) :=
  Tensor.mapM (fun f => b <- term_level bins (length term) f ;; Py.ret (level_size b)) term.

(** [n_classes] as [merge_ebms] derives it from the type and the classes
    of a model. *)
Definition own_n_classes (m : MergeEBMs.model) : Z :=
  if String.eqb (MergeEBMs.type_name m) MergeTypes.Classifier
     || String.eqb (MergeEBMs.type_name m) MergeTypes.DPClassifier
  then Z.of_nat (length (MergeEBMs.classes_ m))
  else (-1)%Z.

Section OwnTerms.

Variable multiclass_postprocess2 :
  Z -> list Tensor.t -> Q -> list Tensor.t -> Py.result (list Tensor.t * Q).

(** The score tensors and the intercept that [_process_terms] computes
    from the bags, the bin weights and the bag weights of a model itself;
    both [fit] and [merge_ebms] store these in the model. *)
Definition own_terms (m : MergeEBMs.model) : Py.result (list Tensor.t * Q) :=
  bag_weights <- MergeEBMs.model_bag_weights m ;;
  match MergeEBMs.bagged_additive_terms_ m with
  | None => Py.raise (Py.AttributeError "bagged_additive_terms_")
  | Some bags =>
      Postprocess._process_terms multiclass_postprocess2 (own_n_classes m) bags
        (MergeEBMs.bin_weights_ m) bag_weights
  end.

(** The models on which merging a model with itself changes nothing: a
    fitted regressor or classifier of at most two classes that is not
    differentially private, with named features, regular bins that are
    trimmed and deduplicated the way [merge_ebms] leaves them, finite
    bounds for some feature, its terms in the order of [_order_terms] with
    their features ascending, tensors of the shape of their term, as many
    bags for every term, at least one, and the score tensors of its own
    bags. *)
Record self_mergeable (m : MergeEBMs.model) : Prop := {
  sm_type :
    MergeEBMs.type_name m = MergeTypes.Classifier
    \/ MergeEBMs.type_name m = MergeTypes.Regressor;
  sm_classes : (length (MergeEBMs.classes_ m) <= 2)%nat;
  sm_fitted : MergeEBMs.has_fitted_ m = true;
  sm_counts :
    MergeEBMs.check_feature_counts (length (MergeEBMs.bins_ m)) m = inr tt;
  sm_names :
    exists names, MergeEBMs.feature_names_in_ m = Some (map Some names);
  sm_bins :
    exists rows,
      MergeEBMs.feature_bounds_ m = Some rows
      /\ Forall2 regular_feature rows (MergeEBMs.bins_ m)
      /\ exists row, In (Some row) rows;
  sm_trimmed :
    MergeEBMs._remove_unused_higher_bins (MergeEBMs.term_features_ m) (MergeEBMs.bins_ m)
    = inr (MergeEBMs.bins_ m);
  sm_deduplicated :
    MergeEBMs._deduplicate_bins (MergeEBMs.bins_ m) = inr (MergeEBMs.bins_ m);
  sm_samples : MergeEBMs.n_samples_ m <> None;
  sm_terms :
    MergeEBMs.term_features_ m <> []
    /\ StronglySorted (fun a b => MergeEBMs.compare_terms a b = Lt)
         (MergeEBMs.term_features_ m)
    /\ Forall (fun term =>
                 term <> [] /\ StronglySorted Z.lt term
                 /\ Forall (fun f => (0 <= f < Z.of_nat (length (MergeEBMs.bins_ m)))%Z) term)
              (MergeEBMs.term_features_ m);
  sm_tensors :
    exists bags n_bags,
      MergeEBMs.bagged_additive_terms_ m = Some bags
      /\ (1 <= n_bags)%nat
      /\ length (MergeEBMs.bin_weights_ m) = length (MergeEBMs.term_features_ m)
      /\ length bags = length (MergeEBMs.term_features_ m)
      /\ forall i,
           (i < length (MergeEBMs.term_features_ m))%nat ->
           let weights := nth i (MergeEBMs.bin_weights_ m) (Tensor.mk [] []) in
           Tensor.wf weights
           /\ term_shape (MergeEBMs.bins_ m) (nth i (MergeEBMs.term_features_ m) [])
              = inr (Tensor.shape weights)
           /\ length (nth i bags []) = n_bags
           /\ Forall (fun bag => Tensor.wf bag
                                 /\ Tensor.shape bag = Tensor.shape weights)
                     (nth i bags []);
  sm_own :
    exists terms intercept,
      own_terms m = inr (terms, intercept)
      /\ Forall2 tensor_equiv terms (MergeEBMs.additive_terms_ m)
      /\ (intercept == MergeEBMs.intercept_ m)%Q
}.

End OwnTerms.

(** A fitted regressor with a continuous feature and an ordinal one whose
    categories are numbered low, high; its score tensors are those of
    its own bags. *)
Definition demo_ordinal_bags : list (list Tensor.t) :=
  [[Tensor.mk [4%nat] [0; 1; 2; 0]%Q; Tensor.mk [4%nat] [0; 3; 4; 0]%Q];
   [Tensor.mk [4%nat] [0; 1; 5; 0]%Q; Tensor.mk [4%nat] [0; 3; 7; 0]%Q]].

Definition demo_ordinal_weights : list Tensor.t :=
  [Tensor.mk [4%nat] [0; 3; 5; 0]%Q; Tensor.mk [4%nat] [0; 6; 2; 0]%Q].

Definition demo_ordinal_model : MergeEBMs.model :=
  {| MergeEBMs.type_name := MergeTypes.Regressor;
     MergeEBMs.has_fitted_ := true;
     MergeEBMs.bins_ :=
       [[Harmonize.Cuts [10]%Q];
        [Harmonize.Categories [("low"%string, 1%Z); ("high"%string, 2%Z)]]];
     MergeEBMs.feature_names_in_ := Some [Some "x"%string; Some "y"%string];
     MergeEBMs.feature_types_in_ := Some ["continuous"%string; "ordinal"%string];
     MergeEBMs.feature_bounds_ := Some [Some (0, 20)%Q; None];
     MergeEBMs.histogram_counts_ := None;
     MergeEBMs.unique_counts_ := None;
     MergeEBMs.zero_counts_ := None;
     MergeEBMs.n_samples_ := Some 8%Z;
     MergeEBMs.classes_ := [];
     MergeEBMs.bin_weights_ := demo_ordinal_weights;
     MergeEBMs.bagged_additive_terms_ := Some demo_ordinal_bags;
     MergeEBMs.bag_weights_ := None;
     MergeEBMs.term_features_ := [[0%Z]; [1%Z]];
     MergeEBMs.additive_terms_ :=
       [Tensor.mk [4%nat] [0; -5 # 8; 3 # 8; 0]%Q; Tensor.mk [4%nat] [0; -1; 3; 0]%Q];
     MergeEBMs.intercept_ := (45 # 8)%Q |}.

(** What the two copies of a model contribute to [old_bins] and
    [old_mapping] for a feature that needs no conversion. *)
Definition kept_twice (bin_levels : list Harmonize.feature_bins)
    : list (list MergeEBMs.old_level) :=
  [map MergeEBMs.keep_level bin_levels; map MergeEBMs.keep_level bin_levels].

(** The axis of a feature whose old and new bins are the same: every bin
    looks itself up and takes all of it. *)
Definition identity_lookup (size : nat) : list Z :=
  0%Z :: map Z.of_nat (seq 1 (size - 2)) ++ [(-1)%Z].

Definition identity_axis (size : nat) (a : Harmonize.axis) : Prop :=
  (2 <= size)%nat
  /\ Harmonize.mapping a = default_mapping size
  /\ Harmonize.lookup a = identity_lookup size
  /\ length (Harmonize.percentage a) = size
  /\ Forall (fun p => (p == 1)%Q) (Harmonize.percentage a).

(** The grid of a continuous feature that is harmonized onto itself. *)
Definition same_grid (cuts : list Q) (row : Q * Q) : grid :=
  {| old_cuts := cuts; new_cuts := cuts; old_row := row; new_row := row |}.

(** ** [EBMUtils.convert_to_intervals] and [EBMUtils.convert_to_cuts]
    (utils.py, lines 961-1006)

    An interval is a sequence of floats: [convert_to_cuts] checks by itself
    that each has two elements. *)

Module Intervals.

Definition isnan (x : Py.pyfloat) : bool :=
  match x with
  | Py.NaN => true
  | _ => false
  end.

Definition isinf (x : Py.pyfloat) : bool :=
  match x with
  | Py.PosInf | Py.NegInf => true
  | _ => false
  end.

(** [a == b] on floats; NaN equals nothing. *)
Definition float_eqb (a b : Py.pyfloat) : bool :=
  match a, b with
  | Py.Finite x, Py.Finite y => Qeq_bool x y
  | Py.PosInf, Py.PosInf => true
  | Py.NegInf, Py.NegInf => true
  | _, _ => false
  end.

Definition convert_to_intervals (cuts : list Py.pyfloat)
    : Py.result (list (list Py.pyfloat)) :=
  if existsb isnan cuts then Py.raise (Py.Exception "cuts cannot contain nan")
  else if existsb isinf cuts then Py.raise (Py.Exception "cuts cannot contain infinity")
  else
    let smaller := Py.NegInf :: cuts in
    let larger := cuts ++ [Py.PosInf] in
    let intervals := combine smaller larger in
    if existsb (fun x : Py.pyfloat * Py.pyfloat => Py.le (snd x) (fst x)) intervals then
      Py.raise (Py.Exception "cuts must contain increasing values")
    else Py.ret (map (fun x : Py.pyfloat * Py.pyfloat => [fst x; snd x]) intervals).

Definition convert_to_cuts (intervals : list (list Py.pyfloat))
    : Py.result (list Py.pyfloat) :=
  if (length intervals =? 0)%nat then
    Py.raise (Py.Exception "intervals must have at least one interval")
  else if existsb (fun x : list Py.pyfloat => negb (length x =? 2)%nat) intervals then
    Py.raise (Py.Exception "intervals must be a list of tuples")
  else if negb (float_eqb (hd Py.NaN (hd [] intervals)) Py.NegInf) then
    Py.raise (Py.Exception "intervals must start from -inf")
  else if negb (float_eqb (last (last intervals []) Py.NaN) Py.PosInf) then
    Py.raise (Py.Exception "intervals must end with inf")
  else
    let cuts := map (fun x => nth 0 x Py.NaN) (tl intervals) in
    let cuts_verify := map (fun x => nth 1 x Py.NaN) (removelast intervals) in
    if existsb isnan cuts then Py.raise (Py.Exception "intervals cannot contain NaN")
    else if existsb (fun x : Py.pyfloat * Py.pyfloat => negb (float_eqb (fst x) (snd x)))
                    (combine cuts cuts_verify) then
      Py.raise (Py.Exception "intervals must contain adjacent sections")
    else if existsb (fun x : Py.pyfloat * Py.pyfloat => Py.le (snd x) (fst x))
                    (combine cuts (tl cuts)) then
      Py.raise (Py.Exception "intervals must contain increasing sections")
    else Py.ret cuts.

End Intervals.

(** The floats that are numbers. *)
Definition finite (x : Py.pyfloat) : Prop :=
  match x with
  | Py.Finite _ => True
  | _ => False
  end.

(** Every float is less than the next one. *)
Definition increasing (cuts : list Py.pyfloat) : Prop :=
  Sorted (fun a b => Py.lt a b = true) cuts.

(** Equal as numbers. *)
Definition same_float (a b : Py.pyfloat) : Prop := Intervals.float_eqb a b = true.
(** ** [EBMUtils.calc_interaction_order] (utils.py, lines 1195-1214)

    The strength of a candidate term comes from the native interaction
    detector and is a parameter.  [interaction_strengths.sort(reverse=True)]
    orders the pairs of a strength and a term from the greatest to the
    least, and leaves equal pairs in the order they came in. *)

Module Interactions.

Section CalcInteractionOrder.

Variable calc_interaction_strength : list Z -> Q.

(** The order of Python on tuples of a float and a tuple of integers. *)
Definition compare_strengths (a b : Q * list Z) : comparison :=
  match (fst a ?= fst b)%Q with
  | Eq => MergeEBMs.compare_idxs (snd a) (snd b)
  | c => c
  end.

Fixpoint insert_strength (x : Q * list Z) (l : list (Q * list Z)) : list (Q * list Z) :=
  match l with
  | [] => [x]
  | y :: l' =>
      match compare_strengths x y with
      | Lt => y :: insert_strength x l'
      | _ => x :: l
      end
  end.

Definition calc_interaction_order (iter_term_features : list (list Z)) : list (list Z) :=
  let interaction_strengths :=
    map (fun feature_idxs => (calc_interaction_strength feature_idxs, feature_idxs))
        iter_term_features in
  map snd (fold_right insert_strength [] interaction_strengths).

End CalcInteractionOrder.

End Interactions.

(** The bounds [new] of a feature enclose its bounds [old]: a feature
    without bounds in [old] asks for nothing. *)
Definition encloses (old new : option (Q * Q)) : Prop :=
  match old with
  | Some (lo, hi) =>
      exists lo' hi', new = Some (lo', hi') /\ (lo' <= lo)%Q /\ (hi <= hi')%Q
  | None => True
  end.
(** A feature index that is in range without counting from the end. *)
Definition valid_feature (n : nat) (f : Z) : Prop := (0 <= f < Z.of_nat n)%Z.
(** Two bin definitions that [_deduplicate_bins] takes for the same: the
    same cuts as numbers, or the same categories with the same indexes. *)
Definition same_key (a b : Harmonize.feature_bins) : Prop :=
  MergeEBMs.bins_key_eqb a b = true.

(** What [_deduplicate_bins] makes of the levels of a feature: it keeps
    the first levels, each as it was or as an earlier definition with the
    same key, and every level it removes has the key of the last level
    kept. *)
Definition deduplicated (levels' levels : list Harmonize.feature_bins) : Prop :=
  (1 <= length levels' <= length levels)%nat
  /\ (forall i, (i < length levels')%nat ->
                same_key (nth i levels (Harmonize.Cuts [])) (nth i levels' (Harmonize.Cuts [])))
  /\ forall i, (length levels' <= i < length levels)%nat ->
               same_key (nth (length levels' - 1) levels (Harmonize.Cuts []))
                        (nth i levels (Harmonize.Cuts [])).

(** ** Vocabulary for the harmonization of categorical features *)

(** A category map with one category for every bin: the categories are
    distinct and their indexes are 1, ..., n in some order. *)
Definition numbered (categories : list (string * Z)) : Prop :=
  NoDup (map fst categories)
  /\ Permutation (map snd categories) (map Z.of_nat (seq 1 (length categories))).

(** The old and the new category map of a categorical feature; the new map
    is the kind [merge_ebms] builds and has all the old categories. *)
Record category_maps : Type := {
  old_categories : list (string * Z);
  new_categories : list (string * Z)
}.

Definition finer_categories (c : category_maps) : Prop :=
  numbered (old_categories c)
  /\ alphabetical (new_categories c)
  /\ incl (map fst (old_categories c)) (map fst (new_categories c)).

(** Feature [feature_idx] is categorical in the old and in the new model,
    with the maps of [c], and its old mapping level is [None]. *)
Definition categorical_feature (n_new n_old : nat)
    (new_bins old_bins : list (list Harmonize.feature_bins))
    (old_mapping : list (list Harmonize.mapping_level))
    (feature_idx : Z) (c : category_maps) : Prop :=
  (exists levels,
     Tensor.py_index old_bins feature_idx = inr levels /\
     Harmonize.select_level levels n_old = inr (Harmonize.Categories (old_categories c))) /\
  (exists levels,
     Tensor.py_index old_mapping feature_idx = inr levels /\
     Harmonize.select_level levels n_old = inr None) /\
  (exists levels,
     Tensor.py_index new_bins feature_idx = inr levels /\
     Harmonize.select_level levels n_new = inr (Harmonize.Categories (new_categories c))).

(** The axis [plan_axis] builds for such a feature. *)
Definition categorical_plan (c : category_maps) : Harmonize.axis :=
  {| Harmonize.mapping := default_mapping (length (old_categories c) + 2);
     Harmonize.lookup :=
       fst (Harmonize.categorical_axis (old_categories c) (new_categories c));
     Harmonize.percentage :=
       snd (Harmonize.categorical_axis (old_categories c) (new_categories c)) |}.

(** The number of bins along the axis of a categorical feature: the
    missing bin, one bin for every category, and the unknown bin. *)
Definition old_bins_count (c : category_maps) : nat := (length (old_categories c) + 2)%nat.

Definition new_bins_count (c : category_maps) : nat := (length (new_categories c) + 2)%nat.

(** The old bin a category is looked up in: its own bin when the old model
    has the category, the unknown bin when it does not. *)
Definition source_bin (old : list (string * Z)) (category : string) : Z :=
  match Harmonize.dict_get old category with
  | Some idx => idx
  | None => (-1)%Z
  end.
(** An ordinal feature with the categories low and high in their own
    order, harmonized onto the alphabetical map of a model that also has
    the category mid. *)
Definition demo_category_maps : category_maps :=
  {| old_categories := [("low"%string, 1%Z); ("high"%string, 2%Z)];
     new_categories := [("high"%string, 1%Z); ("low"%string, 2%Z); ("mid"%string, 3%Z)] |}.

(** ** [EBMPreprocessor]: categorical and ordinal columns (ebm.py, lines
    256-276 and 312-341)

    A fitted mapping is a dict from category to bin index, in insertion
    order.  [missing_str] is a string or a list of strings.  [fit] calls
    [DPUtils.private_categorical_binning] with three positional arguments
    where the function takes four. *)

Module EBMPreprocessorColumns.

Inductive missing_repr : Type :=
| MissingStr (s : string)
| MissingList (l : list string).

(** [np.isin(uniq_vals, self.missing_str)], for one value. *)
Definition isin (missing_str : missing_repr) (val : string) : bool :=
  match missing_str with
  | MissingStr s => String.eqb val s
  | MissingList l => existsb (String.eqb val) l
  end.

Definition Zsum (l : list Z) : Z := fold_right Z.add 0 l.

(** [{val: indx + 1 for indx, val in enumerate(vals)}] *)
Definition enumerate_from_one (vals : list string) : list (string * Z) :=
  combine vals (map (fun indx => Z.of_nat indx + 1) (seq 0 (length vals))).

(** The counts of [np.unique(col_data, return_counts=True)]. *)
Definition unique_counts (uniq_vals col_data : list string) : list Z :=
  map (fun val => Z.of_nat (count_occ string_dec col_data val)) uniq_vals.

(** The branch of [fit] for a categorical column: the bin counts and the
    mapping. *)
Definition fit_categorical (binning : string) (missing_str : missing_repr)
    (col_data : list string) : Py.result (list Z * list (string * Z)) :=
  if String.eqb binning "private" then
    Py.raise (Py.TypeError
      "private_categorical_binning() missing 1 required positional argument: 'max_bins'")
  else
    let uniq_vals := DPUtils.unique col_data in
    let counts := unique_counts uniq_vals col_data in
    let missings := map (isin missing_str) uniq_vals in
    let count_missing :=
      Zsum (map snd (filter (fun p : bool * Z => fst p) (combine missings counts))) in
    let bin_counts :=
      count_missing
      :: map snd (filter (fun p : bool * Z => negb (fst p)) (combine missings counts)) in
    let uniq_vals := filter (fun val => negb (isin missing_str val)) uniq_vals in
    Py.ret (bin_counts, enumerate_from_one uniq_vals).

(** The branch of [fit] for an ordinal column. *)
Definition fit_ordinal (order : list string) : list (string * Z) :=
  enumerate_from_one order.

(** [mapping[key] = val] *)
Fixpoint dict_set (key : string) (val : Z) (mapping : list (string * Z))
    : list (string * Z) :=
  match mapping with
  | [] => [(key, val)]
  | (k, v) :: rest =>
      if String.eqb k key then (k, val) :: rest else (k, v) :: dict_set key val rest
  end.

(** [mapping.get(x, default)] *)
Definition dict_get_default (mapping : list (string * Z)) (x : string) (default : Z) : Z :=
  match Harmonize.dict_get mapping x with
  | Some val => val
  | None => default
  end.

(** The two constants [transform] keeps across the columns. *)
Record constants : Type := {
  missing_constant : Z;
  unknown_constant : Z
}.

Definition initial_constants : constants :=
  {| missing_constant := 0; unknown_constant := -1 |}.

(** The branch of [transform] for an ordinal column. *)
Definition transform_ordinal (mapping : list (string * Z)) (c : constants)
    (col_data : list string) : list Z :=
  map (fun x => dict_get_default mapping x (unknown_constant c)) col_data.

(** The branch of [transform] for a categorical column: the codes of the
    column and the constants as the branch leaves them. *)
Definition transform_categorical (binning : string) (missing_str : missing_repr)
    (mapping : list (string * Z)) (c : constants) (col_data : list string)
    : list Z * constants :=
  let c :=
    if EBMPreprocessor.mentions_private binning then
      match find (fun item : string * Z => String.eqb (fst item) "DPOther") mapping with
      | Some (_, val) => {| missing_constant := val; unknown_constant := val |}
      | None => initial_constants
      end
    else c in
  let mapping :=
    match missing_str with
    | MissingList l =>
        fold_left (fun m val => dict_set val (missing_constant c) m) l mapping
    | MissingStr s => dict_set s (missing_constant c) mapping
    end in
  (map (fun x => dict_get_default mapping x (unknown_constant c)) col_data, c).

End EBMPreprocessorColumns.

(** ** [EBMUtils.make_bag] (utils.py, lines 1008-1054)

    The native samplers are parameters; [make_bag] decides how many
    samples it asks them to put in the training and in the validation
    set.  [test_size] is an exact rational. *)

Module Bagging.

Section MakeBag.

Context {Target RandomState Bag : Type}.

Variable Target_eq_dec : forall a b : Target, {a = b} + {a <> b}.
Variable stratified_sampling_without_replacement :
  RandomState -> Z -> Z -> Z -> list Target -> Bag.
Variable sample_without_replacement : RandomState -> Z -> Z -> Bag.

(** [len(set(y))] *)
Definition n_unique (y : list Target) : Z :=
  Z.of_nat (length (nodup Target_eq_dec y)).

Definition make_bag (y : list Target) (test_size : Q) (random_state : RandomState)
    (is_classification : bool) : Py.result (option Bag) :=
  if Qeq_bool test_size 0 then Py.ret None
  else if DPUtils.Qltb 0 test_size then
    let n_samples := Z.of_nat (length y) in
    n_test_samples <-
      (if Qle_bool 1 test_size then
         if negb (Qeq_bool (test_size - inject_Z (Qfloor test_size)) 0) then
           Py.raise (Py.Exception
                       "If test_size >= 1, test_size should be a whole number.")
         else Py.ret (Qfloor test_size)
       else Py.ret (Qceiling (inject_Z n_samples * test_size))) ;;
    let n_train_samples := n_samples - n_test_samples in
    if is_classification then
      let y_uniq := n_unique y in
      let '(n_test_samples, n_train_samples) :=
        if n_test_samples <? y_uniq then (y_uniq, n_samples - y_uniq)
        else (n_test_samples, n_train_samples) in
      Py.ret (Some (stratified_sampling_without_replacement random_state y_uniq
                      n_train_samples n_test_samples y))
    else
      Py.ret (Some (sample_without_replacement random_state n_train_samples
                      n_test_samples))
  else Py.raise (Py.Exception "test_size must be a positive numeric value.").

End MakeBag.

End Bagging.

(** ** [BaseEBM.decision_function] and [ExplainableBoostingClassifier.predict]
    (ebm.py, lines 1081-1107 and 1566-1598)

    [clean_X] and [ebm_decision_function] live outside the two files and
    are parameters.  The scores are a vector for regression and binary
    classification and a matrix, one row per sample, for multiclass. *)

Module Predict.

Inductive scores : Type :=
| Vector (log_odds : list Q)
| Matrix (rows : list (list Q)).

(** [np.argmax] of a row: the first position of the greatest element. *)
Fixpoint argmax_from (best_idx : nat) (best : Q) (idx : nat) (l : list Q) : nat :=
  match l with
  | [] => best_idx
  | x :: l' =>
      if DPUtils.Qltb best x then argmax_from idx x (S idx) l'
      else argmax_from best_idx best (S idx) l'
  end.

Definition argmax (row : list Q) : Py.result nat :=
  match row with
  | [] => Py.raise (Py.ValueError "attempt to get argmax of an empty sequence")
  | x :: l => Py.ret (argmax_from 0%nat x 1%nat l)
  end.

Section Classifier.

Context {raw_X Attributes Label : Type}.

Variable clean_X : raw_X -> Py.result (raw_X * Z).
Variable ebm_decision_function : raw_X -> Z -> Attributes -> Py.result scores.

Record classifier : Type := {
  has_fitted_ : bool;
  classes_ : list Label;
  fitted_attributes_ : Attributes
}.

Definition check_is_fitted (self : classifier) : Py.result unit :=
  if has_fitted_ self then Py.ret tt
  else Py.raise (Py.Exception "NotFittedError").

Definition decision_function (self : classifier) (X : raw_X) : Py.result scores :=
  _ <- check_is_fitted self ;;
  Xn <- clean_X X ;;
  let '(X, n_samples) := Xn in
  if n_samples <=? 0 then Py.raise (Py.ValueError "X has no samples to train on")
  else ebm_decision_function X n_samples (fitted_attributes_ self).

(** [np.c_[np.zeros(log_odds_vector.shape), log_odds_vector]] when the
    scores are a vector. *)
Definition with_zeros (log_odds_vector : scores) : list (list Q) :=
  match log_odds_vector with
  | Vector log_odds => map (fun x => [0%Q; x]) log_odds
  | Matrix rows => rows
  end.

Definition predict (self : classifier) (X : raw_X) : Py.result (list Label) :=
  _ <- check_is_fitted self ;;
  Xn <- clean_X X ;;
  let '(X, n_samples) := Xn in
  if n_samples <=? 0 then Py.raise (Py.ValueError "X has no samples to train on")
  else
    log_odds_vector <- ebm_decision_function X n_samples (fitted_attributes_ self) ;;
    idxs <- Tensor.mapM argmax (with_zeros log_odds_vector) ;;
    Tensor.mapM (fun idx => match nth_error (classes_ self) idx with
                            | Some label => Py.ret label
                            | None => Py.raise Py.IndexError
                            end) idxs.

End Classifier.

End Predict.

(** ** [_create_proportional_tensor] (utils.py, lines 175-203)

    The geometric mean of the axis sums is computed with [exp] and [log];
    it is a parameter.  [log] refuses a sum that is not positive. *)

Module Proportional.

Section CreateProportionalTensor.

Variable geometric_mean : list Q -> Q.

(** One turn of the loop over the reversed percentages: the fraction so
    far and the remainder of the cell index. *)
Definition cell_step (state : Q * nat) (percentages : list Q) : Q * nat :=
  let bin_idx := (snd state mod length percentages)%nat in
  ((fst state * nth bin_idx percentages 0)%Q,
   (snd state / length percentages)%nat).

Definition cell_value (reversed_percentages : list (list Q)) (total_weight : Q)
    (cell_idx : nat) : Q :=
  (fst (fold_left cell_step reversed_percentages (1%Q, cell_idx)) * total_weight)%Q.

Definition _create_proportional_tensor (axis_weights : list (list Q))
    : Py.result Tensor.t :=
  let axis_sums := map Tensor.Qsum axis_weights in
  if existsb (fun axis_sum => Qle_bool axis_sum 0) axis_sums then
    Py.raise (Py.ValueError "math domain error")
  else
    match axis_sums with
    | [] => Py.raise Py.ZeroDivisionError
    | _ =>
        let total_weight := geometric_mean axis_sums in
        let axis_percentages :=
          map (fun weights => map (fun w => (w / Tensor.Qsum weights)%Q) weights)
              axis_weights in
        let shape := map (@length Q) axis_percentages in
        let n_cells := Tensor.prod shape in
        Py.ret (Tensor.mk shape
                  (map (cell_value (rev axis_percentages) total_weight)
                       (seq 0 n_cells)))
    end.

End CreateProportionalTensor.

End Proportional.

(** The share of a cell when the weight is spread in proportion to the
    weights of every axis: the product over the axes of the weight of the
    cell's bin divided by the sum of the axis. *)
Definition proportion (axis_weights : list (list Q)) (idx : list nat) : Q :=
  Harmonize.Qprod
    (map (fun p : list Q * nat => (nth (snd p) (fst p) 0 / Tensor.Qsum (fst p))%Q)
         (combine axis_weights idx)).

(** The product a cell's loop computes, by the digits of the cell index. *)
Definition digits_product (reversed : list (list Q)) (cell_idx : nat) : Q :=
  Harmonize.Qprod
    (map (fun p : list Q * nat => nth (snd p) (fst p) 0%Q)
         (combine reversed
                  (Harmonize.decompose cell_idx (map (@length Q) reversed)))).

(** ** [_convert_categorical_to_continuous] (utils.py, lines 67-173)

    [float(category)] is a parameter: it gives the float a category
    string stands for, or nothing where Python raises [ValueError].  The
    order in which a [set] of bin indexes is iterated is left to the
    interpreter; it is a parameter too, a function of the [add] calls in
    order.  Floats are exact rationals, so the guards against an overflow
    of [high - low] and an underflow of the midpoint keep their tests but
    never fire. *)

Module Convert.

(** What the function returns: a bare empty array when at most one bin
    holds a float, the four results otherwise. *)
Inductive converted : Type :=
| EmptyArray
| Converted (cuts : list Q) (mapping : list (list Z)) (old_min old_max : Py.pyfloat).

(** [list.sort()] on floats. *)
Fixpoint insert_float (x : Q) (l : list Q) : list Q :=
  match l with
  | [] => [x]
  | y :: l' => if Qle_bool x y then x :: l else y :: insert_float x l'
  end.

Definition sort_floats (l : list Q) : list Q := fold_right insert_float [] l.

(** The order of tuples of two floats. *)
Definition bounds_le (a b : Q * Q) : bool :=
  DPUtils.Qltb (fst a) (fst b)
  || (Qeq_bool (fst a) (fst b) && Qle_bool (snd a) (snd b)).

Fixpoint insert_bounds (x : Q * Q) (l : list (Q * Q)) : list (Q * Q) :=
  match l with
  | [] => [x]
  | y :: l' => if bounds_le x y then x :: l else y :: insert_bounds x l'
  end.

Definition sort_bounds (l : list (Q * Q)) : list (Q * Q) :=
  fold_right insert_bounds [] l.

(** [clusters.get(idx)] followed by the creation of the list or the
    [append] to it; the dict keeps the order of first insertion. *)
Fixpoint cluster_add (idx : Z) (val : Q) (clusters : list (Z * list Q))
    : list (Z * list Q) :=
  match clusters with
  | [] => [(idx, [val])]
  | (k, cluster_list) :: rest =>
      if k =? idx then (k, cluster_list ++ [val]) :: rest
      else (k, cluster_list) :: cluster_add idx val rest
  end.

(** The variables of the first loop; [non_float_adds] lists the calls
    of [non_float_idxs.add]. *)
Record scan_state : Type := {
  clusters : list (Z * list Q);
  non_float_adds : list Z;
  old_min : Py.pyfloat;
  old_max : Py.pyfloat
}.

Definition isnan (x : Py.pyfloat) : bool :=
  match x with Py.NaN => true | _ => false end.

(** [max(a, b)] of the builtins: the first argument unless the second is
    greater. *)
Definition py_max (a b : Q) : Q := if DPUtils.Qltb a b then b else a.

(** [abs(x)] *)
Definition py_abs (x : Q) : Q := if DPUtils.Qltb x 0 then (- x)%Q else x.

(** [np.searchsorted(a, v, side='right')] on a sorted array: how many
    leading elements are at most [v]. *)
Fixpoint searchsorted_right (a : list Q) (v : Q) : nat :=
  match a with
  | [] => 0%nat
  | x :: a' => if DPUtils.Qltb v x then 0%nat else S (searchsorted_right a' v)
  end.

(** [mapping[new_idx].append(old_idx)] *)
Fixpoint append_at (new_idx : nat) (old_idx : Z) (mapping : list (list Z))
    : list (list Z) :=
  match mapping, new_idx with
  | [], _ => []
  | m :: rest, O => (m ++ [old_idx]) :: rest
  | m :: rest, S i => m :: append_at i old_idx rest
  end.

Section ConvertCategoricalToContinuous.

Variable float_of_string : string -> option Py.pyfloat.
Variable set_iteration : list Z -> list Z.

Definition scan_category (s : scan_state) (item : string * Z) : scan_state :=
  let '(category, idx) := item in
  match float_of_string category with
  | None =>
      {| clusters := clusters s; non_float_adds := non_float_adds s ++ [idx];
         old_min := old_min s; old_max := old_max s |}
  | Some (Py.Finite val) =>
      {| clusters := cluster_add idx val (clusters s);
         non_float_adds := non_float_adds s;
         old_min := if isnan (old_min s) || Py.lt (Py.Finite val) (old_min s)
                    then Py.Finite val else old_min s;
         old_max := if isnan (old_max s) || Py.lt (old_max s) (Py.Finite val)
                    then Py.Finite val else old_max s |}
  | Some _ => s
  end.

Definition scan (categories : list (string * Z)) : scan_state :=
  fold_left scan_category categories
    {| clusters := []; non_float_adds := []; old_min := Py.NaN; old_max := Py.NaN |}.

(** The bounds of a cluster once its list is sorted. *)
Definition cluster_bound (cluster_list : list Q) : Q * Q :=
  let sorted := sort_floats cluster_list in
  (hd 0%Q sorted, last sorted 0%Q).

(** One turn of the loop over the sorted cluster bounds after the
    first: the running [low] and the cuts so far. *)
Definition cut_step (state : Q * list Q) (cluster : Q * Q) : Q * list Q :=
  let '(low, cuts) := state in
  let high := fst cluster in
  let cuts :=
    if DPUtils.Qltb low high then
      let half_diff := ((high - low) / 2)%Q in
      let mid :=
        if Qle_bool (py_abs low) (py_abs high) then (low + half_diff)%Q
        else (high - half_diff)%Q in
      let mid := if Qle_bool mid low then high else mid in
      cuts ++ [mid]
    else cuts in
  (py_max low (snd cluster), cuts).

Definition make_cuts (cluster_bounds : list (Q * Q)) : list Q :=
  match cluster_bounds with
  | [] => []
  | first :: rest => snd (fold_left cut_step rest (snd first, []))
  end.

Definition max_value (categories : list (string * Z)) : Py.result Z :=
  match map snd categories with
  | [] => Py.raise (Py.ValueError "max() arg is an empty sequence")
  | v :: vs => Py.ret (fold_left Z.max vs v)
  end.

Definition _convert_categorical_to_continuous (categories : list (string * Z))
    : Py.result converted :=
  let s := scan categories in
  let non_float_idxs :=
    filter (fun idx => negb (existsb (fun c : Z * list Q => fst c =? idx) (clusters s)))
           (set_iteration (non_float_adds s)) in
  highest <- max_value categories ;;
  let non_float_idxs := non_float_idxs ++ [highest + 1] in
  if (length (clusters s) <=? 1)%nat then Py.ret EmptyArray
  else
    let cluster_bounds := map (fun c : Z * list Q => cluster_bound (snd c)) (clusters s) in
    let cuts := make_cuts (sort_bounds cluster_bounds) in
    let mapping :=
      fold_left (fun mapping (c : Z * list Q) =>
                   let new_idx :=
                     (searchsorted_right cuts (hd 0%Q (sort_floats (snd c))) + 1)%nat in
                   append_at new_idx (fst c) mapping)
                (clusters s)
                (repeat [] (length cuts + 3)) in
    let mapping := append_at 0 0 mapping in
    let mapping := removelast mapping ++ [non_float_idxs] in
    Py.ret (Converted cuts mapping (old_min s) (old_max s)).

End ConvertCategoricalToContinuous.

End Convert.

(** The floats of a few category strings. *)
Definition demo_float_of_string (category : string) : option Py.pyfloat :=
  if String.eqb category "0" then Some (Py.Finite 0)
  else if String.eqb category "1" then Some (Py.Finite 1)
  else if String.eqb category "3.5" then Some (Py.Finite (7 # 2))
  else if String.eqb category "nan" then Some Py.NaN
  else None.

(** Categories of which three are floats, two of them in one bin. *)
Definition demo_float_categories : list (string * Z) :=
  [("0", 1); ("low", 2); ("1", 1); ("3.5", 3)]%string.

(** ** [EBMPreprocessor]: the histogram of a fitted column (ebm.py, lines
    345-388)

    [fit] stores different attributes for the different column types; a
    fitted column is the attributes of its type. *)

Module EBMPreprocessorHistogram.

Inductive fitted_column : Type :=
| Continuous (hist_counts : list Z) (hist_edges : list Q)
             (col_min : Q) (col_bin_edges : list Q) (col_max : Q)
| Ordinal (col_mapping : list (string * Z))
| Categorical (col_bin_counts : list Z) (col_mapping : list (string * Z))
| OtherType (col_type : string).

Inductive labels : Type :=
| FloatLabels (l : list Q)
| StringLabels (l : list string).

Definition _get_hist_counts (col : fitted_column) : Py.result (list Z) :=
  match col with
  | Continuous hist_counts _ _ _ _ => Py.ret hist_counts
  | Categorical col_bin_counts _ => Py.ret (tl col_bin_counts)
  | _ => Py.raise (Py.Exception "Cannot get counts for type")
  end.

Definition _get_hist_edges (col : fitted_column) : Py.result labels :=
  match col with
  | Continuous _ hist_edges _ _ _ => Py.ret (FloatLabels hist_edges)
  | Categorical _ col_mapping => Py.ret (StringLabels (map fst col_mapping))
  | _ => Py.raise (Py.Exception "Cannot get counts for type")
  end.

Definition _get_bin_labels (col : fitted_column) : Py.result labels :=
  match col with
  | Continuous _ _ col_min col_bin_edges col_max =>
      Py.ret (FloatLabels ([col_min] ++ col_bin_edges ++ [col_max]))
  | Ordinal col_mapping => Py.ret (StringLabels (map fst col_mapping))
  | Categorical _ col_mapping => Py.ret (StringLabels (map fst col_mapping))
  | OtherType _ => Py.raise (Py.Exception "Unknown column type")
  end.

End EBMPreprocessorHistogram.

(** ** [BaseEBM.fit]: the pairs to boost (ebm.py, lines 912-946)

    A term is the list of its feature indexes; the tuples the code uses
    as dict and set keys are lists here. *)

Module PairSelection.

(** Lines 930-938: one turn of the loop that drops the duplicate
    interaction terms; [existing_terms] is the set of the sorted tuples
    seen so far. *)
Definition dedup_step (state : list (list Z) * list (list Z)) (term : list Z)
    : list (list Z) * list (list Z) :=
  let '(existing_terms, unique_terms) := state in
  let sorted_tuple := MergeEBMs.sorted_idxs term in
  if existsb (MergeEBMs.idxs_eqb sorted_tuple) existing_terms then state
  else (existing_terms ++ [sorted_tuple], unique_terms ++ [term]).

(** Lines 928-943: the pairs when [interactions] is a list. *)
Definition listed_pairs (interactions : list (list Z)) : list (list Z) :=
  let pair_indices := interactions in
  let unique_terms := snd (fold_left dedup_step pair_indices ([], [])) in
  if negb (length unique_terms =? length pair_indices)%nat then unique_terms
  else pair_indices.

End PairSelection.

(* ===================================================================== *)
(** * Part II: theorems *)
(* ===================================================================== *)

(** C6. Seed normalisation is the identity on [-2147483646, 2147483646];
    at or above 2147483647 it is [seed % 2147483647]; at or below
    -2147483647 it negates, reduces and negates back; the result always
    lies in the identity range; 2147483647 goes to 0 and -2147483648
    to -1. *)
Theorem normalize_initial_random_seed_spec :
  forall s : Z,
    (-2147483646 <= s <= 2147483646 ->
       EBMUtils.normalize_initial_random_seed s = s) /\
    (2147483647 <= s ->
       EBMUtils.normalize_initial_random_seed s = s mod 2147483647) /\
    (s <= -2147483647 ->
       EBMUtils.normalize_initial_random_seed s = - ((- s) mod 2147483647)) /\
    -2147483646 <= EBMUtils.normalize_initial_random_seed s <= 2147483646 /\
    EBMUtils.normalize_initial_random_seed 2147483647 = 0 /\
    EBMUtils.normalize_initial_random_seed (-2147483648) = -1.
Proof.
  intro s. unfold EBMUtils.normalize_initial_random_seed.
  repeat split.
  - intros [Hlo Hhi].
    destruct (2147483647 <=? s) eqn:E1; [apply Z.leb_le in E1; lia|].
    destruct (s <=? -2147483647) eqn:E2; [apply Z.leb_le in E2; lia|].
    reflexivity.
  - intro H. apply Z.leb_le in H. now rewrite H.
  - intro H.
    destruct (2147483647 <=? s) eqn:E1; [apply Z.leb_le in E1; lia|].
    apply Z.leb_le in H. now rewrite H.
  - destruct (2147483647 <=? s) eqn:E1.
    + pose proof (Z.mod_pos_bound s 2147483647 ltac:(lia)). lia.
    + destruct (s <=? -2147483647) eqn:E2.
      * pose proof (Z.mod_pos_bound (- s) 2147483647 ltac:(lia)). lia.
      * apply Z.leb_gt in E1, E2. lia.
  - destruct (2147483647 <=? s) eqn:E1.
    + pose proof (Z.mod_pos_bound s 2147483647 ltac:(lia)). lia.
    + destruct (s <=? -2147483647) eqn:E2.
      * pose proof (Z.mod_pos_bound (- s) 2147483647 ltac:(lia)). lia.
      * apply Z.leb_gt in E1, E2. lia.
Qed.

Lemma normalize_initial_random_seed_witness :
  EBMUtils.normalize_initial_random_seed 42 = 42 /\
  EBMUtils.normalize_initial_random_seed 4294967301 = 4294967301 mod 2147483647 /\
  EBMUtils.normalize_initial_random_seed (-4294967301) =
    - ((- -4294967301) mod 2147483647).
Proof.
  split; [|split].
  - apply (proj1 (normalize_initial_random_seed_spec 42)). lia.
  - apply (proj1 (proj2 (normalize_initial_random_seed_spec 4294967301))). lia.
  - apply (proj1 (proj2 (proj2 (normalize_initial_random_seed_spec (-4294967301))))). lia.
Defined.

(** ** Privacy-parameter validation *)

Lemma invalid_eps_delta_iff (eps delta : option Py.pyfloat) :
  DPUtils.invalid_eps_delta eps delta = true <->
  (eps = None \/ (exists e, eps = Some e /\ Py.le e (Py.Finite 0) = true) \/
   delta = None \/ (exists d, delta = Some d /\ Py.le d (Py.Finite 0) = true)).
Proof.
  unfold DPUtils.invalid_eps_delta. split.
  - destruct eps as [e|]; [|now left].
    destruct (Py.le e (Py.Finite 0)) eqn:He.
    + intros _. right; left. now exists e.
    + destruct delta as [d|]; [|intros _; now (right; right; left)].
      intro Hd. right; right; right. now exists d.
  - intros [H | [[e [-> He]] | [H | [d [-> Hd]]]]].
    + now subst.
    + now rewrite He.
    + subst. destruct eps as [e|]; [|reflexivity].
      now destruct (Py.le e (Py.Finite 0)).
    + destruct eps as [e|]; [|reflexivity].
      now destruct (Py.le e (Py.Finite 0)).
Qed.

Section FitLog.

Context {raw_X fitted : Type}.
Variable clean_X : raw_X -> Py.result (raw_X * Z).
Variable clean_vector : bool -> list Q -> Py.result (list Q).

Lemma clean_inputs_log (self : @BaseEBM.estimator fitted) X y w log :
  fst (BaseEBM.clean_inputs clean_X clean_vector self X y w log)
  = log ++ [BaseEBM.CleanInputs].
Proof.
  unfold BaseEBM.clean_inputs, BaseEBM.mbind, BaseEBM.enter, BaseEBM.lift,
    BaseEBM.mraise, BaseEBM.mret. simpl.
  destruct (clean_X X) as [e | [X' n]]; [reflexivity|].
  destruct (n <=? 0); [reflexivity|].
  destruct (clean_vector (BaseEBM.is_classifier self) y) as [e | y']; [reflexivity|].
  destruct (negb (n =? Z.of_nat (length y'))); [reflexivity|].
  destruct w as [w|]; [|reflexivity].
  destruct (clean_vector false w) as [e | w']; [reflexivity|].
  now destruct (negb (n =? Z.of_nat (length w'))).
Qed.

End FitLog.

(** C8. [validate_eps_delta] raises a [ValueError] exactly when epsilon is
    unset or [<= 0] or delta is unset or [<= 0]; and a private [fit] whose
    parameters are invalid in that sense raises, has entered no stage but
    the input cleaning and the validation itself (no target bounds, budget
    split, bin construction, noise scale or boosting), and leaves [self]
    as it was.  When the inputs pass the cleaning, the error raised is the
    one of [validate_eps_delta]. *)
Theorem validate_eps_delta_fails_fast :
  forall (raw_X binning fitted : Type)
         (clean_X : raw_X -> Py.result (raw_X * Z))
         (clean_vector : bool -> list Q -> Py.result (list Q))
         (construct_bins :
            raw_X -> Z -> option Py.pyfloat -> option Py.pyfloat -> Py.result binning)
         (calc_classic : binning -> Py.pyfloat -> Py.pyfloat -> Q -> Py.pyfloat)
         (calc_gdp : binning -> Py.pyfloat -> Py.pyfloat -> Py.pyfloat)
         (boost :
            raw_X -> list Q -> list Q -> binning -> option Py.pyfloat -> Py.result fitted)
         (eps delta : option Py.pyfloat),
    ((exists msg, DPUtils.validate_eps_delta eps delta = inl (Py.ValueError msg)) <->
     (eps = None \/ (exists e, eps = Some e /\ Py.le e (Py.Finite 0) = true) \/
      delta = None \/ (exists d, delta = Some d /\ Py.le d (Py.Finite 0) = true))) /\
    (DPUtils.validate_eps_delta eps delta = inr tt <->
     DPUtils.invalid_eps_delta eps delta = false) /\
    forall (self : @BaseEBM.estimator fitted) X y w,
      BaseEBM.is_private self = true ->
      BaseEBM.epsilon self = eps ->
      BaseEBM.delta self = delta ->
      DPUtils.invalid_eps_delta eps delta = true ->
      let '(log, res, self') :=
        BaseEBM.fit clean_X clean_vector construct_bins calc_classic calc_gdp boost
          self X y w in
      (exists e, res = inl e) /\
      self' = self /\
      (forall s, In s log -> s = BaseEBM.CleanInputs \/ s = BaseEBM.ValidateEpsDelta) /\
      ((exists v, snd (BaseEBM.clean_inputs clean_X clean_vector self X y w []) = inr v) ->
       res = DPUtils.validate_eps_delta eps delta /\
       log = [BaseEBM.CleanInputs; BaseEBM.ValidateEpsDelta]).
Proof.
  intros raw_X binning fitted clean_X clean_vector construct_bins calc_classic
    calc_gdp boost eps delta.
  split; [|split].
  - rewrite <- invalid_eps_delta_iff. unfold DPUtils.validate_eps_delta.
    destruct (DPUtils.invalid_eps_delta eps delta); split.
    + reflexivity.
    + intros _. eexists. reflexivity.
    + intros [msg H]. discriminate.
    + discriminate.
  - unfold DPUtils.validate_eps_delta.
    destruct (DPUtils.invalid_eps_delta eps delta); split;
      try discriminate; reflexivity.
  - intros self X y w Hpriv Heps Hdelta Hinv.
    unfold BaseEBM.fit, BaseEBM.fit_body, BaseEBM.mbind.
    pose proof (clean_inputs_log clean_X clean_vector self X y w []) as Hlog.
    destruct (BaseEBM.clean_inputs clean_X clean_vector self X y w [])
      as [log1 [e | [[X' y'] w']]] eqn:Hclean; simpl in Hlog; subst log1.
    + split; [now exists e|]. split; [reflexivity|]. split.
      * intros s [<- | []]. now left.
      * intros [v Hv]. discriminate.
    + unfold BaseEBM.privacy_calculations, BaseEBM.mbind, BaseEBM.enter,
        BaseEBM.lift. rewrite Hpriv, Heps, Hdelta.
      unfold DPUtils.validate_eps_delta. rewrite Hinv. simpl.
      split; [eexists; reflexivity|]. split; [reflexivity|]. split.
      * intros s [<- | [<- | []]]; [now left | now right].
      * intros _. split; reflexivity.
Qed.

Lemma validate_eps_delta_fails_fast_witness :
  BaseEBM.is_private demo_private_estimator = true /\
  DPUtils.invalid_eps_delta (Some (Py.Finite 0)) (Some (Py.Finite (1 # 100000))) = true /\
  let '(log, res, self') :=
    BaseEBM.fit (fun X : unit => inr (X, 2)) (fun _ v => inr v)
      (fun _ _ _ _ => inr tt) (fun _ _ _ _ => Py.NaN) (fun _ _ _ => Py.NaN)
      (fun _ _ _ _ _ => inr tt)
      demo_private_estimator tt [1%Q; 2%Q] None in
  (exists e, res = inl e) /\
  self' = demo_private_estimator /\
  (forall s, In s log -> s = BaseEBM.CleanInputs \/ s = BaseEBM.ValidateEpsDelta) /\
  ((exists v,
      snd (BaseEBM.clean_inputs (fun X : unit => inr (X, 2)) (fun _ v => inr v)
             demo_private_estimator tt [1%Q; 2%Q] None []) = inr v) ->
   res = DPUtils.validate_eps_delta (Some (Py.Finite 0)) (Some (Py.Finite (1 # 100000))) /\
   log = [BaseEBM.CleanInputs; BaseEBM.ValidateEpsDelta]).
Proof.
  split; [reflexivity|]. split; [reflexivity|].
  exact (proj2 (proj2
    (validate_eps_delta_fails_fast unit unit unit
       (fun X : unit => inr (X, 2)) (fun _ v => inr v)
       (fun _ _ _ _ => inr tt) (fun _ _ _ _ => Py.NaN) (fun _ _ _ => Py.NaN)
       (fun _ _ _ _ _ => inr tt)
       (Some (Py.Finite 0)) (Some (Py.Finite (1 # 100000)))))
    demo_private_estimator tt [1%Q; 2%Q] None
    eq_refl eq_refl eq_refl eq_refl).
Defined.

(** ** Sums of rationals *)

Open Scope Q_scope.

Section QsumFacts.

Import Tensor.

Lemma Qsum_app (l1 l2 : list Q) : Qsum (l1 ++ l2) == Qsum l1 + Qsum l2.
Proof.
  induction l1 as [|x l1 IH]; simpl.
  - ring.
  - rewrite IH. ring.
Qed.

Lemma Qsum_nonneg (l : list Q) :
  Forall (fun x => 0 <= x) l -> 0 <= Qsum l.
Proof.
  induction 1 as [|x l Hx _ IH]; simpl.
  - apply Qle_refl.
  - lra.
Qed.

Lemma Qsum_zero_all (l : list Q) :
  Forall (fun x => 0 <= x) l -> Qsum l == 0 -> Forall (fun x => x == 0) l.
Proof.
  induction 1 as [|x l Hx Hl IH]; simpl; intro Hsum.
  - constructor.
  - pose proof (Qsum_nonneg l Hl) as Hnn.
    constructor; [lra|]. apply IH. lra.
Qed.

Lemma Qsum_ext {A} (f g : A -> Q) (l : list A) :
  (forall a, In a l -> f a == g a) ->
  Qsum (map f l) == Qsum (map g l).
Proof.
  induction l as [|a l IH]; simpl; intro H.
  - reflexivity.
  - rewrite (H a (or_introl eq_refl)), IH; [reflexivity|].
    intros b Hb. apply H. now right.
Qed.

Lemma Qsum_scale (c : Q) (l : list Q) :
  Qsum (map (fun v => v * c) l) == Qsum l * c.
Proof.
  induction l as [|x l IH]; simpl.
  - ring.
  - rewrite IH. ring.
Qed.

End QsumFacts.

Lemma length_indices (shape : list nat) :
  length (Tensor.indices shape) = Tensor.prod shape.
Proof.
  induction shape as [|n shape IH]; simpl; [reflexivity|].
  generalize 0%nat. induction n as [|n IHn]; intro start; simpl; [reflexivity|].
  rewrite length_app, length_map, IH, IHn. reflexivity.
Qed.

Lemma shape_eqb_eq (s1 s2 : list nat) :
  Postprocess.shape_eqb s1 s2 = true -> s1 = s2.
Proof.
  unfold Postprocess.shape_eqb. revert s2.
  induction s1 as [|a s1 IH]; intros [|b s2] H; simpl in *;
    try discriminate; try reflexivity.
  apply andb_prop in H as [Hlen H]. apply andb_prop in H as [Hab H].
  apply Nat.eqb_eq in Hab. subst b. f_equal. apply IH.
  rewrite Hlen. exact H.
Qed.

Lemma shape_eqb_refl (s : list nat) : Postprocess.shape_eqb s s = true.
Proof.
  unfold Postprocess.shape_eqb. rewrite Nat.eqb_refl. simpl.
  induction s as [|a s IH]; simpl; [reflexivity|].
  now rewrite Nat.eqb_refl.
Qed.

(** ** The centering loop *)

Lemma dot_subtract (a w : list Q) (m : Q) :
  length a = length w ->
  Postprocess.dot (map (fun v => v - m) a) w
  == Postprocess.dot a w - m * Tensor.Qsum w.
Proof.
  unfold Postprocess.dot. revert w.
  induction a as [|x a IH]; intros [|y w] Hlen; simpl in *; try discriminate.
  - ring.
  - rewrite IH by congruence. ring.
Qed.

Lemma center_spec :
  forall terms ws i0 ts' i',
    Postprocess.center terms ws i0 = inr (ts', i') ->
    length ts' = length terms /\
    i' == i0 + Tensor.Qsum (Postprocess.removed_means terms ws) /\
    forall k a, nth_error terms k = Some a ->
      exists w, nth_error ws k = Some w /\
                Tensor.shape a = Tensor.shape w /\
                ~ Tensor.sum w == 0 /\
                nth_error ts' k
                = Some (Postprocess.subtract a (Postprocess.weighted_mean a w)).
Proof.
  induction terms as [|a terms IH]; intros ws i0 ts' i' H; simpl in H.
  - inversion H; subst. repeat split; simpl; [ring|].
    intros [|k] a Hk; discriminate.
  - destruct ws as [|w ws]; [discriminate|].
    unfold Postprocess.average in H.
    destruct (Postprocess.shape_eqb (Tensor.shape a) (Tensor.shape w)) eqn:Hshape;
      simpl in H; [|discriminate].
    destruct (Qeq_bool (Tensor.sum w) 0) eqn:Hsum; simpl in H; [discriminate|].
    destruct (Postprocess.center terms ws (i0 + Postprocess.weighted_mean a w))
      as [e | [ts1 i1]] eqn:Hrest; simpl in H; [discriminate|].
    inversion H; subst ts' i'; clear H.
    destruct (IH _ _ _ _ Hrest) as [Hlen [Hint Hnth]].
    split; [simpl; congruence|]. split.
    + simpl. rewrite Hint. ring.
    + intros [|k] b Hk; simpl in Hk.
      * inversion Hk; subst b. exists w. repeat split.
        -- now apply shape_eqb_eq.
        -- intro Hz. apply Qeq_bool_neq in Hsum. contradiction.
      * destruct (Hnth k b Hk) as [w' Hw']. exists w'. exact Hw'.
Qed.

Lemma restore_nth :
  forall ts ws k t w,
    nth_error ts k = Some t -> nth_error ws k = Some w ->
    nth_error (Postprocess._restore_missing_value_zeros2 ts ws) k
    = Some (Postprocess._zero_tensor t (Postprocess.lower_flags w)
              (Postprocess.higher_flags w)).
Proof.
  induction ts as [|t0 ts IH]; intros ws [|k] t w Ht Hw;
    destruct ws as [|w0 ws]; simpl in *; try discriminate.
  - congruence.
  - now apply IH.
Qed.

Lemma restore_length :
  forall ts ws, length (Postprocess._restore_missing_value_zeros2 ts ws) = length ts.
Proof.
  induction ts as [|t ts IH]; intros [|w ws]; simpl; try reflexivity.
  now rewrite IH.
Qed.

(** ** Zero restoration *)

Lemma on_cleared_slice_inv :
  forall shape low high idx,
    Postprocess.on_cleared_slice low high shape idx = true ->
    exists d,
      (nth d low false = true /\ nth d idx 0%nat = 0%nat) \/
      (nth d high false = true /\ nth d idx 0%nat = (nth d shape 0 - 1)%nat).
Proof.
  induction shape as [|n shape IH]; intros low high idx H; simpl in H.
  - discriminate.
  - destruct idx as [|i idx]; [discriminate|].
    apply orb_prop in H as [H | H]; [apply orb_prop in H as [H | H]|].
    + apply andb_prop in H as [Hf Hi]. apply Nat.eqb_eq in Hi.
      exists 0%nat. left. destruct low; simpl in *; [discriminate|]. now split.
    + apply andb_prop in H as [Hf Hi]. apply Nat.eqb_eq in Hi.
      exists 0%nat. right. destruct high; simpl in *; [discriminate|]. now split.
    + destruct (IH _ _ _ H) as [d Hd]. exists (S d).
      destruct low, high; simpl in *; destruct d; exact Hd.
Qed.

Lemma nth_flags (f : nat -> bool) (n d : nat) :
  nth d (map f (seq 0 n)) false = true -> f d = true.
Proof.
  intro H. destruct (Nat.lt_ge_cases d n) as [Hlt | Hge].
  - rewrite (nth_indep _ false (f 0%nat)) in H by now rewrite length_map, length_seq.
    rewrite map_nth, seq_nth in H by assumption. exact H.
  - rewrite nth_overflow in H by now rewrite length_map, length_seq.
    discriminate.
Qed.

Lemma slice_zero_cells (w : Tensor.t) (d k : nat) :
  Forall (fun x => 0 <= x) (Tensor.data w) ->
  Postprocess.slice_sum w d k == 0 ->
  forall idx v, In (idx, v) (Tensor.cells w) -> nth d idx 0%nat = k -> v == 0.
Proof.
  intros Hnn Hsum idx v Hin Hk. unfold Postprocess.slice_sum in Hsum.
  set (p := fun c : list nat * Q => (nth d (fst c) 0 =? k)%nat) in *.
  assert (Hall : Forall (fun x => x == 0) (map snd (filter p (Tensor.cells w)))).
  { apply Qsum_zero_all in Hsum; [exact Hsum|].
    apply Forall_forall. intros x Hx. apply in_map_iff in Hx as [[i y] [<- Hy]].
    apply filter_In in Hy as [Hy _]. unfold Tensor.cells in Hy.
    apply in_combine_r in Hy. rewrite Forall_forall in Hnn. now apply Hnn. }
  rewrite Forall_forall in Hall. apply Hall.
  apply in_map_iff. exists (idx, v). split; [reflexivity|].
  apply filter_In. split; [exact Hin|]. unfold p. simpl. now apply Nat.eqb_eq.
Qed.

Lemma dot_cleared (clear : list nat -> bool) :
  forall (idxs : list (list nat)) (dt dw : list Q),
    length idxs = length dt ->
    (forall idx v, In (idx, v) (combine idxs dw) -> clear idx = true -> v == 0) ->
    Postprocess.dot
      (map (fun c : list nat * Q => if clear (fst c) then 0 else snd c)
           (combine idxs dt)) dw
    == Postprocess.dot dt dw.
Proof.
  unfold Postprocess.dot.
  induction idxs as [|idx idxs IH]; intros [|x dt] dw Hlen Hz; simpl in *;
    try discriminate; [reflexivity|].
  destruct dw as [|y dw]; simpl; [reflexivity|].
  rewrite IH; [| congruence | intros i v Hin; apply Hz; now right].
  destruct (clear idx) eqn:Hc; [|reflexivity].
  rewrite (Hz idx y (or_introl eq_refl) Hc). ring.
Qed.

Lemma zero_tensor_dot (t w : Tensor.t) :
  Tensor.wf t ->
  Tensor.shape t = Tensor.shape w ->
  Forall (fun x => 0 <= x) (Tensor.data w) ->
  Postprocess.dot
    (Tensor.data (Postprocess._zero_tensor t (Postprocess.lower_flags w)
                    (Postprocess.higher_flags w)))
    (Tensor.data w)
  == Postprocess.dot (Tensor.data t) (Tensor.data w).
Proof.
  intros Hwf Hshape Hnn. unfold Postprocess._zero_tensor, Tensor.cells. simpl.
  apply (dot_cleared
           (Postprocess.on_cleared_slice (Postprocess.lower_flags w)
              (Postprocess.higher_flags w) (Tensor.shape t))).
  - rewrite length_indices. symmetry. exact Hwf.
  - intros idx v Hin Hclear.
    apply on_cleared_slice_inv in Hclear as [d [[Hf Hi] | [Hf Hi]]].
    + unfold Postprocess.lower_flags in Hf. apply nth_flags in Hf.
      apply Qeq_bool_eq in Hf.
      apply (slice_zero_cells w d 0%nat Hnn Hf idx v); [|exact Hi].
      unfold Tensor.cells. now rewrite <- Hshape.
    + unfold Postprocess.higher_flags in Hf. apply nth_flags in Hf.
      apply Qeq_bool_eq in Hf.
      apply (slice_zero_cells w d _ Hnn Hf idx v).
      * unfold Tensor.cells. now rewrite <- Hshape.
      * now rewrite <- Hshape.
Qed.

Lemma mapM_spec {A B} (f : A -> Py.result B) :
  forall l r, Tensor.mapM f l = inr r ->
    length r = length l /\
    forall k b, nth_error r k = Some b ->
      exists a, nth_error l k = Some a /\ f a = inr b.
Proof.
  induction l as [|a l IH]; intros r H; simpl in H.
  - inversion H; subst. split; [reflexivity|]. intros [|k] b Hk; discriminate.
  - destruct (f a) as [e | b0] eqn:Hfa; simpl in H; [discriminate|].
    destruct (Tensor.mapM f l) as [e | bs] eqn:Hrest; simpl in H; [discriminate|].
    inversion H; subst r; clear H.
    destruct (IH bs eq_refl) as [Hlen Hnth].
    split; [simpl; congruence|].
    intros [|k] b Hk; simpl in Hk.
    + inversion Hk; subst. now exists a.
    + now apply Hnth.
Qed.

Lemma add_lists_fold_length (n : nat) (z : list Q) (ls : list (list Q)) :
  length z = n -> Forall (fun l => length l = n) ls ->
  length (fold_right Postprocess.add_lists z ls) = n.
Proof.
  intros Hz. induction 1 as [|l ls Hl _ IH]; simpl; [exact Hz|].
  revert IH Hl. generalize (fold_right Postprocess.add_lists z ls). clear.
  intros acc. revert n acc.
  induction l as [|x l IHl]; intros n [|y acc] Hacc Hl; simpl in *; try congruence.
  destruct n; [discriminate|]. f_equal. apply IHl; congruence.
Qed.

Lemma average_bags_wf (bags : list Tensor.t) (ws : option (list Q)) (a : Tensor.t) :
  Forall Tensor.wf bags ->
  Postprocess.average_bags bags ws = inr a -> Tensor.wf a.
Proof.
  intros Hwf H. unfold Postprocess.average_bags in H.
  destruct bags as [|first rest]; [discriminate|].
  destruct (Postprocess.all_same_shape (Tensor.shape first) (first :: rest)) eqn:Hsame;
    cbn [negb] in H; [|discriminate].
  cbv zeta in H.
  set (wl := match ws with Some ws0 => ws0 | None => map (fun _ => 1) (first :: rest) end) in *.
  destruct (length wl =? length (first :: rest))%nat; cbn [negb] in H; [|discriminate].
  destruct (Qeq_bool (Tensor.Qsum wl) 0); [discriminate|].
  inversion H; subst a; clear H. unfold Tensor.wf. cbn [Tensor.data Tensor.shape].
  rewrite length_map.
  assert (Hfirst : Tensor.wf first) by now inversion Hwf.
  rewrite <- Hfirst.
  apply add_lists_fold_length; [now rewrite length_map|].
  apply Forall_forall. intros l Hl. apply in_map_iff in Hl as [[b wb] [<- Hb]].
  cbn [fst snd]. rewrite length_map.
  change (In (b, wb) (combine (first :: rest) wl)) in Hb.
  apply in_combine_l in Hb.
  unfold Postprocess.all_same_shape in Hsame. rewrite forallb_forall in Hsame.
  specialize (Hsame b Hb). apply shape_eqb_eq in Hsame.
  rewrite Forall_forall in Hwf. specialize (Hwf b Hb).
  unfold Tensor.wf in *. rewrite Hwf, Hfirst. now rewrite Hsame.
Qed.

(** C1. After the postprocessing of a fit with at most two classes, every
    term's score tensor, taken after the zero restoration, has weighted sum
    (and so weighted average) zero under that term's bin weights, and the
    intercept is the sum of the weighted means that the centering removed.
    Bin weights are masses: they are taken non-negative, and the arrays
    well formed.  Arithmetic is exact. *)
Theorem centering_invariant :
  forall (multiclass_postprocess2 :
            Z -> list Tensor.t -> Q -> list Tensor.t -> Py.result (list Tensor.t * Q))
         (n_classes : Z) (bagged_additive_terms : list (list Tensor.t))
         (bin_weights : list Tensor.t) (terms' : list Tensor.t) (intercept' : Q),
    (n_classes <= 2)%Z ->
    Forall (Forall Tensor.wf) bagged_additive_terms ->
    Forall Tensor.wf bin_weights ->
    Forall (fun w => Forall (fun x => 0 <= x) (Tensor.data w)) bin_weights ->
    Postprocess.fit_postprocess multiclass_postprocess2 n_classes
      bagged_additive_terms bin_weights = inr (terms', intercept') ->
    exists additive_terms,
      Tensor.mapM (fun bags => Postprocess.average_bags bags None)
        bagged_additive_terms = inr additive_terms /\
      length terms' = length bagged_additive_terms /\
      intercept' == Tensor.Qsum (Postprocess.removed_means additive_terms bin_weights) /\
      forall k t', nth_error terms' k = Some t' ->
        exists a w,
          nth_error additive_terms k = Some a /\
          nth_error bin_weights k = Some w /\
          t' = Postprocess._zero_tensor
                 (Postprocess.subtract a (Postprocess.weighted_mean a w))
                 (Postprocess.lower_flags w) (Postprocess.higher_flags w) /\
          Postprocess.dot (Tensor.data t') (Tensor.data w) == 0 /\
          exists avg, Postprocess.average t' w = inr avg /\ avg == 0.
Proof.
  intros mc n_classes bagged bin_weights terms' intercept' Hcls Hwfb Hwfw Hnn H.
  unfold Postprocess.fit_postprocess in H.
  destruct (Tensor.mapM (fun bags => Postprocess.average_bags bags None) bagged)
    as [e | additive_terms] eqn:Havg; simpl in H; [discriminate|].
  apply Z.leb_le in Hcls. rewrite Hcls in H.
  destruct (Postprocess.center additive_terms bin_weights 0)
    as [e | [centered i1]] eqn:Hcenter; simpl in H; [discriminate|].
  inversion H; subst terms' intercept'; clear H.
  destruct (mapM_spec _ _ _ Havg) as [Hlen_avg Havg_nth].
  destruct (center_spec _ _ _ _ _ Hcenter) as [Hlen_c [Hint Hc_nth]].
  exists additive_terms. split; [reflexivity|].
  split; [rewrite restore_length; congruence|].
  split; [rewrite Hint; ring|].
  intros k t' Hk.
  assert (Hk_lt : (k < length additive_terms)%nat).
  { rewrite <- Hlen_c, <- (restore_length centered bin_weights).
    apply nth_error_Some. congruence. }
  destruct (nth_error additive_terms k) as [a|] eqn:Ha;
    [|apply nth_error_None in Ha; lia].
  destruct (Hc_nth k a Ha) as [w [Hw [Hshape [Hsum Hcent]]]].
  exists a, w. split; [reflexivity|]. split; [exact Hw|].
  rewrite (restore_nth _ _ _ _ _ Hcent Hw) in Hk. inversion Hk; subst t'; clear Hk.
  split; [reflexivity|].
  assert (Hwf_a : Tensor.wf a).
  { destruct (Havg_nth k a Ha) as [bags [Hbags Hab]].
    apply (average_bags_wf bags None a); [|exact Hab].
    rewrite Forall_forall in Hwfb. apply Hwfb. eapply nth_error_In; eauto. }
  assert (Hwf_w : Tensor.wf w).
  { rewrite Forall_forall in Hwfw. apply Hwfw. eapply nth_error_In; eauto. }
  assert (Hnn_w : Forall (fun x => 0 <= x) (Tensor.data w)).
  { rewrite Forall_forall in Hnn. apply Hnn. eapply nth_error_In; eauto. }
  assert (Hdot :
    Postprocess.dot
      (Tensor.data (Postprocess._zero_tensor
                      (Postprocess.subtract a (Postprocess.weighted_mean a w))
                      (Postprocess.lower_flags w) (Postprocess.higher_flags w)))
      (Tensor.data w) == 0).
  { rewrite zero_tensor_dot.
    - simpl. rewrite dot_subtract.
      + unfold Postprocess.weighted_mean, Tensor.sum. field. exact Hsum.
      + unfold Tensor.wf in *. rewrite Hwf_a, Hwf_w. now rewrite Hshape.
    - unfold Tensor.wf in *. simpl. now rewrite length_map.
    - exact Hshape.
    - exact Hnn_w. }
  split; [exact Hdot|].
  unfold Postprocess.average. simpl. rewrite Hshape, shape_eqb_refl. simpl.
  destruct (Qeq_bool (Tensor.sum w) 0) eqn:Hz.
  - apply Qeq_bool_eq in Hz. contradiction.
  - eexists. split; [reflexivity|].
    unfold Postprocess.weighted_mean. rewrite Hdot.
    unfold Qdiv. ring.
Qed.

Lemma centering_invariant_witness :
  exists additive_terms,
    Tensor.mapM (fun bags => Postprocess.average_bags bags None)
      demo_bagged_terms = inr additive_terms /\
    length [Tensor.mk [2; 2]%nat [0; 0; -192 # 128; 64 # 128]] = length demo_bagged_terms /\
    352 # 64 == Tensor.Qsum (Postprocess.removed_means additive_terms demo_bin_weights) /\
    forall k t',
      nth_error [Tensor.mk [2; 2]%nat [0; 0; -192 # 128; 64 # 128]] k = Some t' ->
      exists a w,
        nth_error additive_terms k = Some a /\
        nth_error demo_bin_weights k = Some w /\
        t' = Postprocess._zero_tensor
               (Postprocess.subtract a (Postprocess.weighted_mean a w))
               (Postprocess.lower_flags w) (Postprocess.higher_flags w) /\
        Postprocess.dot (Tensor.data t') (Tensor.data w) == 0 /\
        exists avg, Postprocess.average t' w = inr avg /\ avg == 0.
Proof.
  apply (centering_invariant no_multiclass 2 demo_bagged_terms demo_bin_weights).
  - lia.
  - repeat constructor.
  - repeat constructor.
  - repeat (constructor; try (unfold Qle; simpl; lia)).
  - vm_compute. reflexivity.
Defined.

Close Scope Q_scope.

(** ** Early stopping *)

Section EarlyStopping.

Context {Booster Model : Type}.
Variable generate_term_update : Booster -> nat -> Booster.
Variable noisy_term_update : Booster -> nat -> Booster.
Variable apply_term_update : Booster -> Booster * Py.pyfloat.
Variable noise_scale : option Py.pyfloat.
Variable n_terms : nat.
Variable early_stopping_rounds : Z.
Variable early_stopping_tolerance : Py.pyfloat.

Local Abbreviation loop_state := (@Boosting.loop_state Booster).
Let round :=
  Boosting.round generate_term_update noisy_term_update apply_term_update
    noise_scale n_terms early_stopping_tolerance.
Let rounds :=
  Boosting.rounds generate_term_update noisy_term_update apply_term_update
    noise_scale n_terms early_stopping_rounds early_stopping_tolerance.

(** The streak length on entry to round [i], for a loop entered with
    streak length [r0]. *)
Let entry_run (r0 : Z) (tr : list loop_state) (i : nat) : Z :=
  match i with
  | O => r0
  | S k => match nth_error tr k with
           | Some s => Boosting.no_change_run_length s
           | None => 0
           end
  end.

Lemma round_run_length (episode : nat) (s : loop_state) :
  Boosting.no_change_run_length (round episode s)
  = if Boosting.improved early_stopping_tolerance (round episode s) then 0
    else Boosting.no_change_run_length s + 1.
Proof.
  unfold round, Boosting.round, Boosting.improved.
  destruct (Boosting.boost_terms generate_term_update noisy_term_update
              apply_term_update noise_scale (seq 0 n_terms)
              (Boosting.booster s) (Boosting.min_metric s)) as [b m].
  reflexivity.
Qed.

Lemma round_episode_index (episode : nat) (s : loop_state) :
  Boosting.episode_index (round episode s) = episode.
Proof.
  unfold round, Boosting.round.
  destruct (Boosting.boost_terms generate_term_update noisy_term_update
              apply_term_update noise_scale (seq 0 n_terms)
              (Boosting.booster s) (Boosting.min_metric s)) as [b m].
  reflexivity.
Qed.

Lemma rounds_cons (episode : nat) (rest : list nat) (s : loop_state) :
  rounds (episode :: rest) s
  = if Boosting.should_break early_stopping_rounds (round episode s)
    then [round episode s]
    else round episode s :: rounds rest (round episode s).
Proof. reflexivity. Qed.

Lemma rounds_length_le (episodes : list nat) :
  forall s, (length (rounds episodes s) <= length episodes)%nat.
Proof.
  induction episodes as [|e rest IH]; intro s; [apply Nat.le_refl|].
  rewrite rounds_cons.
  destruct (Boosting.should_break early_stopping_rounds (round e s)); simpl.
  - lia.
  - specialize (IH (round e s)). lia.
Qed.

Lemma rounds_disabled (episodes : list nat) :
  early_stopping_rounds < 0 ->
  forall s, map Boosting.episode_index (rounds episodes s) = episodes.
Proof.
  intro Hneg.
  induction episodes as [|e rest IH]; intro s; [reflexivity|].
  rewrite rounds_cons. unfold Boosting.should_break.
  replace (early_stopping_rounds >=? 0) with false
    by (symmetry; rewrite Z.geb_leb; apply Z.leb_gt; lia).
  simpl. now rewrite round_episode_index, IH.
Qed.

Lemma rounds_step (episodes : list nat) :
  forall s k sk,
    nth_error (rounds episodes s) k = Some sk ->
    Boosting.no_change_run_length sk
    = if Boosting.improved early_stopping_tolerance sk then 0
      else entry_run (Boosting.no_change_run_length s) (rounds episodes s) k + 1.
Proof.
  induction episodes as [|e rest IH]; intros s k sk Hk.
  - destruct k; discriminate.
  - rewrite rounds_cons in *.
    destruct (Boosting.should_break early_stopping_rounds (round e s)) eqn:Hb.
    + destruct k as [|[|k]]; simpl in Hk; try discriminate.
      inversion Hk; subst sk. apply round_run_length.
    + destruct k as [|k]; simpl in Hk.
      * inversion Hk; subst sk. apply round_run_length.
      * rewrite (IH _ _ _ Hk). destruct k; reflexivity.
Qed.

Lemma rounds_continue (episodes : list nat) :
  forall s k sk,
    nth_error (rounds episodes s) k = Some sk ->
    (S k < length (rounds episodes s))%nat ->
    Boosting.should_break early_stopping_rounds sk = false.
Proof.
  induction episodes as [|e rest IH]; intros s k sk Hk Hlen.
  - destruct k; discriminate.
  - rewrite rounds_cons in *.
    destruct (Boosting.should_break early_stopping_rounds (round e s)) eqn:Hb.
    + simpl in Hlen. lia.
    + destruct k as [|k]; simpl in Hk, Hlen.
      * inversion Hk; subst sk. exact Hb.
      * apply (IH _ _ _ Hk). lia.
Qed.

Lemma rounds_stop (episodes : list nat) :
  forall s,
    (length (rounds episodes s) < length episodes)%nat ->
    exists sk,
      nth_error (rounds episodes s) (length (rounds episodes s) - 1) = Some sk /\
      Boosting.should_break early_stopping_rounds sk = true.
Proof.
  induction episodes as [|e rest IH]; intros s Hlen; [simpl in Hlen; lia|].
  rewrite rounds_cons in *.
  destruct (Boosting.should_break early_stopping_rounds (round e s)) eqn:Hb.
  - exists (round e s). now split.
  - simpl in Hlen. destruct (IH (round e s)) as [sk [Hsk Hbreak]]; [lia|].
    exists sk. split; [|exact Hbreak].
    simpl. rewrite Nat.sub_0_r.
    destruct (length (rounds rest (round e s))) as [|n] eqn:Hn.
    + destruct (rounds rest (round e s)); [discriminate | discriminate].
    + simpl in Hsk. rewrite Nat.sub_0_r in Hsk. exact Hsk.
Qed.

(** Inside a streak that began at round [i], the streak length after
    round [j] is the number of rounds of the streak so far. *)
Lemma streak_length (episodes : list nat) (s : loop_state) (i : nat) :
  entry_run (Boosting.no_change_run_length s) (rounds episodes s) i = 0 ->
  forall d sj,
    (forall k sk, (i <= k <= i + d)%nat ->
       nth_error (rounds episodes s) k = Some sk ->
       Boosting.improved early_stopping_tolerance sk = false) ->
    nth_error (rounds episodes s) (i + d) = Some sj ->
    Boosting.no_change_run_length sj = Z.of_nat d + 1.
Proof.
  intros Hstart.
  induction d as [|d IH]; intros sj Hno Hj.
  - rewrite Nat.add_0_r in Hj.
    rewrite (rounds_step _ _ _ _ Hj), (Hno i sj ltac:(lia) Hj), Hstart.
    reflexivity.
  - replace (i + S d)%nat with (S (i + d)) in Hj by lia.
    assert (Hprev : exists sp, nth_error (rounds episodes s) (i + d) = Some sp).
    { destruct (nth_error (rounds episodes s) (i + d)) as [sp|] eqn:E;
        [now exists sp|].
      apply nth_error_None in E.
      assert (nth_error (rounds episodes s) (S (i + d)) = None)
        by (apply nth_error_None; lia).
      congruence. }
    destruct Hprev as [sp Hsp].
    rewrite (rounds_step _ _ _ _ Hj).
    rewrite (Hno (S (i + d)) sj ltac:(lia) Hj).
    unfold entry_run. rewrite Hsp.
    rewrite (IH sp); [lia | | exact Hsp].
    intros k sk Hk. apply Hno. lia.
Qed.

(** C7. With [early_stopping_rounds >= 0], a no-improvement streak that
    begins at round [i] (streak length 0 on entry) and still lasts at
    round [j] (no round from [i] to [j] improved, a round improving only
    when the running minimum plus the tolerance is below the metric at
    the start of the streak) has at most [max early_stopping_rounds 1]
    rounds, and the loop ends with the round at which the streak reaches
    [early_stopping_rounds]; the loop ends early only through that rule.
    With [early_stopping_rounds < 0] the loop runs every one of the
    [max_rounds] rounds. *)
Theorem early_stopping_termination :
  forall (b : Booster) (max_rounds : Z),
    let tr :=
      Boosting.trace generate_term_update noisy_term_update apply_term_update
        b n_terms early_stopping_rounds early_stopping_tolerance max_rounds
        noise_scale in
    (length tr <= Z.to_nat max_rounds)%nat /\
    (early_stopping_rounds < 0 ->
       map Boosting.episode_index tr = seq 0 (Z.to_nat max_rounds)) /\
    (0 <= early_stopping_rounds ->
       (forall i j sj,
          (i <= j)%nat ->
          nth_error tr j = Some sj ->
          Boosting.run_length_before tr i = 0 ->
          (forall k sk, (i <= k <= j)%nat -> nth_error tr k = Some sk ->
             Boosting.improved early_stopping_tolerance sk = false) ->
          Z.of_nat (j - i) + 1 <= Z.max early_stopping_rounds 1 /\
          (early_stopping_rounds <= Z.of_nat (j - i) + 1 -> length tr = S j)) /\
       ((length tr < Z.to_nat max_rounds)%nat ->
          exists sk,
            nth_error tr (length tr - 1) = Some sk /\
            early_stopping_rounds <= Boosting.no_change_run_length sk)).
Proof.
  intros b max_rounds tr.
  assert (Htr : tr = rounds (seq 0 (Z.to_nat max_rounds)) (Boosting.initial_state b))
    by reflexivity.
  split; [|split].
  - rewrite Htr. etransitivity; [apply rounds_length_le|]. now rewrite length_seq.
  - intro Hneg. rewrite Htr. now apply rounds_disabled.
  - intro Hpos. split.
    + intros i j sj Hij Hj Hstart Hno.
      assert (Hentry :
        entry_run (Boosting.no_change_run_length (Boosting.initial_state b))
          (rounds (seq 0 (Z.to_nat max_rounds)) (Boosting.initial_state b)) i = 0).
      { rewrite <- Htr. exact Hstart. }
      assert (Hlen_at : forall d sd,
                (i + d <= j)%nat -> nth_error tr (i + d) = Some sd ->
                Boosting.no_change_run_length sd = Z.of_nat d + 1).
      { intros d sd Hd Hsd. rewrite Htr in Hsd.
        apply (streak_length _ _ _ Hentry d sd); [|exact Hsd].
        intros k sk Hk Hsk. apply (Hno k sk); [lia | now rewrite Htr]. }
      assert (Hbreak_iff : forall s : loop_state,
                Boosting.should_break early_stopping_rounds s = false ->
                Boosting.no_change_run_length s < early_stopping_rounds).
      { intros s Hs. unfold Boosting.should_break in Hs.
        apply andb_false_iff in Hs as [Hs | Hs];
          rewrite Z.geb_leb in Hs; apply Z.leb_gt in Hs; lia. }
      assert (Hj_lt : (j < length tr)%nat) by (apply nth_error_Some; congruence).
      split.
      * destruct (Nat.eq_dec j i) as [-> | Hne]; [rewrite Nat.sub_diag; lia|].
        assert (Hprev : exists sp, nth_error tr (i + (j - 1 - i)) = Some sp).
        { destruct (nth_error tr (i + (j - 1 - i))) as [sp|] eqn:E;
            [now exists sp|]. apply nth_error_None in E. lia. }
        destruct Hprev as [sp Hsp].
        pose proof (Hlen_at (j - 1 - i)%nat sp ltac:(lia) Hsp) as Hrun.
        assert (Hcont : Boosting.should_break early_stopping_rounds sp = false).
        { rewrite Htr in Hsp, Hj_lt.
          apply (rounds_continue _ _ _ _ Hsp). lia. }
        apply Hbreak_iff in Hcont. lia.
      * intro Hreach.
        destruct (Nat.eq_dec (length tr) (S j)) as [E | E]; [exact E|].
        replace j with (i + (j - i))%nat in Hj by lia.
        pose proof (Hlen_at (j - i)%nat sj ltac:(lia) Hj) as Hrun.
        assert (Hcont : Boosting.should_break early_stopping_rounds sj = false).
        { rewrite Htr in Hj, Hj_lt, E.
          apply (rounds_continue _ _ _ _ Hj). lia. }
        apply Hbreak_iff in Hcont. lia.
    + intro Hshort. rewrite Htr in *.
      destruct (rounds_stop (seq 0 (Z.to_nat max_rounds)) (Boosting.initial_state b))
        as [sk [Hsk Hbreak]]; [now rewrite length_seq|].
      exists sk. split; [exact Hsk|].
      unfold Boosting.should_break in Hbreak.
      apply andb_prop in Hbreak as [_ Hbreak].
      rewrite Z.geb_leb in Hbreak. now apply Z.leb_le in Hbreak.
Qed.

End EarlyStopping.

Lemma early_stopping_termination_witness :
  0 <= 2 /\
  (exists sj, nth_error demo_trace 5 = Some sj) /\
  Boosting.run_length_before demo_trace 4 = 0 /\
  Z.of_nat (5 - 4) + 1 <= Z.max 2 1 /\
  (2 <= Z.of_nat (5 - 4) + 1 -> length demo_trace = 6%nat).
Proof.
  split; [lia|].
  destruct (nth_error demo_trace 5) as [sj|] eqn:Hj; [|vm_compute in Hj; discriminate].
  split; [now exists sj|]. split; [reflexivity|].
  refine (proj1 (proj2 (proj2
    (early_stopping_termination (fun b _ => b) (fun b _ => b) demo_apply_term_update
       None 1%nat 2 (Py.Finite 0) 0%nat 10)) ltac:(lia)) 4%nat 5%nat sj ltac:(lia) Hj eq_refl _).
  intros k sk Hk Hsk.
  assert (Hcases : k = 4%nat \/ k = 5%nat) by lia.
  destruct Hcases as [-> | ->]; vm_compute in Hsk; inversion Hsk; reflexivity.
Defined.

(** ** Private categorical binning *)

Open Scope Q_scope.

Lemma Qltb_false_le (x y : Q) : DPUtils.Qltb x y = false -> y <= x.
Proof.
  unfold DPUtils.Qltb. intro H. apply negb_false_iff in H.
  now apply Qle_bool_iff.
Qed.

Lemma Qltb_true_lt (x y : Q) : DPUtils.Qltb x y = true -> x < y.
Proof.
  unfold DPUtils.Qltb. intro H. apply negb_true_iff in H.
  apply Qnot_le_lt. intro Hle. apply Qle_bool_iff in Hle. congruence.
Qed.

Lemma clip0_nonneg (x : Q) : 0 <= DPUtils.clip0 x.
Proof. unfold DPUtils.clip0. apply Q.le_max_l. Qed.

Lemma noisy_weights_nonneg (ws : list Q) (noise : nat -> Q) :
  Forall (fun w => 0 <= w) (DPUtils.noisy_weights ws noise).
Proof.
  unfold DPUtils.noisy_weights. apply Forall_forall. intros w Hw.
  apply in_map_iff in Hw as [p [<- _]]. apply clip0_nonneg.
Qed.

Lemma noisy_weights_length (ws : list Q) (noise : nat -> Q) :
  length (DPUtils.noisy_weights ws noise) = length ws.
Proof.
  unfold DPUtils.noisy_weights.
  now rewrite length_map, length_combine, length_seq, Nat.min_id.
Qed.

Lemma DP_Qsum_nonneg (l : list Q) :
  Forall (fun x => 0 <= x) l -> 0 <= DPUtils.Qsum l.
Proof.
  induction 1 as [|x l Hx _ IH]; simpl; [apply Qle_refl | lra].
Qed.

Lemma argmin_from_bound (l : list Q) :
  forall best_idx best idx,
    (best_idx < idx)%nat ->
    (DPUtils.argmin_from best_idx best idx l < idx + length l)%nat.
Proof.
  induction l as [|x l IH]; intros best_idx best idx Hlt; simpl; [lia|].
  destruct (DPUtils.Qltb x best).
  - specialize (IH idx x (S idx) ltac:(lia)). lia.
  - specialize (IH best_idx best (S idx) ltac:(lia)). lia.
Qed.

Lemma argmin_bound (l : list Q) : l <> [] -> (DPUtils.argmin l < length l)%nat.
Proof.
  destruct l as [|x l]; [congruence|]. intros _. simpl.
  pose proof (argmin_from_bound l 0%nat x 1%nat ltac:(lia)). lia.
Qed.

Lemma add_to_last_snoc (l : list Q) (y x : Q) :
  DPUtils.add_to_last (l ++ [y]) x = l ++ [y + x].
Proof.
  unfold DPUtils.add_to_last. rewrite rev_app_distr. simpl.
  now rewrite rev_involutive.
Qed.

Lemma delete_at_app {A} (i : nat) (l1 l2 : list A) :
  (i < length l1)%nat ->
  DPUtils.delete_at i (l1 ++ l2) = DPUtils.delete_at i l1 ++ l2.
Proof.
  intro Hi. unfold DPUtils.delete_at.
  rewrite firstn_app, skipn_app.
  replace (i - length l1)%nat with 0%nat by lia.
  replace (S i - length l1)%nat with 0%nat by lia.
  simpl. now rewrite app_nil_r, app_assoc.
Qed.

Lemma delete_at_length {A} (i : nat) (l : list A) :
  (i < length l)%nat -> length (DPUtils.delete_at i l) = (length l - 1)%nat.
Proof.
  intro Hi. unfold DPUtils.delete_at.
  rewrite length_app, length_firstn, length_skipn. lia.
Qed.

Lemma delete_at_Forall {A} (P : A -> Prop) (i : nat) (l : list A) :
  Forall P l -> Forall P (DPUtils.delete_at i l).
Proof.
  intro H. unfold DPUtils.delete_at.
  rewrite <- (firstn_skipn i l) in H. apply Forall_app in H as [H1 H2].
  apply Forall_app. split; [exact H1|].
  rewrite <- (firstn_skipn 1 (skipn i l)) in H2. apply Forall_app in H2 as [_ H2].
  rewrite skipn_skipn in H2. exact H2.
Qed.

Lemma filter_all {A} (p : A -> bool) (l : list A) :
  forallb p l = true -> filter p l = l.
Proof.
  induction l as [|a l IH]; simpl; [reflexivity|].
  intro H. apply andb_prop in H as [Ha Hl]. rewrite Ha. f_equal. now apply IH.
Qed.

Lemma filter_none {A} (p : A -> bool) (l : list A) :
  forallb (fun a => negb (p a)) l = true -> filter p l = [].
Proof.
  induction l as [|a l IH]; simpl; [reflexivity|].
  intro H. apply andb_prop in H as [Ha Hl]. apply negb_true_iff in Ha.
  rewrite Ha. now apply IH.
Qed.

(** C10. Whenever [max_bins >= 1] (and the sample weights, if given, are
    as many as the rows), [private_categorical_binning] returns, with one
    weight per returned category, and every returned weight is at least
    the target [total_sample_weight / max_bins]: the surviving categories
    already meet it, DPOther meets it at once or after absorbing one
    surviving bin, and when nothing survives and DPOther is short the
    single weight is the target itself. *)
Theorem private_categorical_binning_floor :
  forall (col_data : list string) (sample_weight : option (list Q))
         (noise : nat -> Q) (max_bins : Z),
    (1 <= max_bins)%Z ->
    match sample_weight with
    | Some ws => length ws = length col_data
    | None => True
    end ->
    let target_weight :=
      DPUtils.sample_weight_total col_data sample_weight / inject_Z max_bins in
    let noisy :=
      DPUtils.noisy_weights
        (DPUtils.bincount (DPUtils.unique col_data) col_data
           match sample_weight with
           | Some ws => ws
           | None => map (fun _ => 1) col_data
           end) noise in
    exists uniq_vals weights,
      DPUtils.private_categorical_binning col_data sample_weight noise max_bins
      = inr (uniq_vals, weights) /\
      length uniq_vals = length weights /\
      Forall (fun w => target_weight <= w) weights /\
      (noisy <> [] ->
       forallb (fun w => DPUtils.Qltb w target_weight) noisy = true ->
       DPUtils.Qltb (DPUtils.Qsum noisy) target_weight = true ->
       weights = [target_weight]).
Proof.
  intros col_data sample_weight noise max_bins Hbins Hlen target noisy.
  unfold DPUtils.private_categorical_binning.
  set (ws := match sample_weight with
             | Some ws => ws
             | None => map (fun _ => 1) col_data
             end) in *.
  assert (Hws :
    match sample_weight with
    | None => Some (map (fun _ => 1) col_data)
    | Some ws0 => if (length ws0 =? length col_data)%nat then Some ws0 else None
    end = Some ws).
  { unfold ws. destruct sample_weight as [ws0|]; [|reflexivity].
    now rewrite Hlen, Nat.eqb_refl. }
  rewrite Hws.
  replace (max_bins =? 0)%Z with false by (symmetry; apply Z.eqb_neq; lia).
  fold target. fold noisy.
  pose proof (noisy_weights_nonneg
                (DPUtils.bincount (DPUtils.unique col_data) col_data ws) noise) as Hnn.
  fold noisy in Hnn.
  assert (Hlen_noisy : length (DPUtils.unique col_data) = length noisy).
  { unfold noisy. rewrite noisy_weights_length. unfold DPUtils.bincount.
    now rewrite length_map. }
  cbv beta zeta.
  set (is_small := fun w : Q => DPUtils.Qltb w target).
  destruct (existsb is_small noisy) eqn:Hex.
  - set (kept := filter (fun p : string * Q => negb (DPUtils.Qltb (snd p) target))
                        (combine (DPUtils.unique col_data) noisy)).
    set (other := DPUtils.Qsum (filter is_small noisy)).
    assert (Hkept : Forall (fun w => target <= w) (map snd kept)).
    { apply Forall_forall. intros w Hw. apply in_map_iff in Hw as [p [<- Hp]].
      apply filter_In in Hp as [_ Hp]. apply negb_true_iff in Hp.
      now apply Qltb_false_le. }
    assert (Hother : 0 <= other).
    { apply DP_Qsum_nonneg. apply Forall_forall. intros w Hw.
      apply filter_In in Hw as [Hw _]. rewrite Forall_forall in Hnn. now apply Hnn. }
    assert (Hall_small :
      forallb (fun w => DPUtils.Qltb w target) noisy = true -> kept = []).
    { intro Hall. unfold kept. apply filter_none.
      apply forallb_forall. intros [u w] Hp. rewrite negb_involutive.
      rewrite forallb_forall in Hall. apply Hall.
      apply (in_combine_r _ _ u w Hp). }
    destruct (DPUtils.Qltb other target) eqn:Hsmall.
    + destruct (length (map snd kept ++ [other]) =? 1)%nat eqn:Hone.
      * exists (map fst kept ++ ["DPOther"%string]), [target].
        split; [reflexivity|]. split.
        -- apply Nat.eqb_eq in Hone. rewrite length_app, length_map in *.
           simpl in *. lia.
        -- split; [constructor; [apply Qle_refl | constructor]|]. reflexivity.
      * apply Nat.eqb_neq in Hone. rewrite length_app, length_map in Hone.
        simpl in Hone.
        assert (Hne : map snd kept <> []).
        { intro E. apply (f_equal (@length Q)) in E. rewrite length_map in E.
          simpl in E. lia. }
        rewrite removelast_last.
        pose proof (argmin_bound (map snd kept) Hne) as Hc.
        set (c := DPUtils.argmin (map snd kept)) in *.
        rewrite add_to_last_snoc.
        rewrite !delete_at_app by (rewrite ?length_map in *; exact Hc).
        eexists _, _. split; [reflexivity|]. split.
        -- rewrite !length_app, !delete_at_length by (rewrite ?length_map in *; exact Hc).
           now rewrite !length_map.
        -- split.
           ++ apply Forall_app. split; [now apply delete_at_Forall|].
              constructor; [|constructor].
              rewrite app_nth1 by exact Hc.
              assert (target <= nth c (map snd kept) 0).
              { rewrite Forall_forall in Hkept. apply Hkept. now apply nth_In. }
              lra.
           ++ intros _ Hall _. apply Hall_small in Hall. rewrite Hall in Hne.
              now contradiction Hne.
    + exists (map fst kept ++ ["DPOther"%string]), (map snd kept ++ [other]).
      split; [reflexivity|]. split; [now rewrite !length_app, !length_map|].
      split.
      * apply Forall_app. split; [exact Hkept|].
        constructor; [now apply Qltb_false_le | constructor].
      * intros _ Hall Hsum. exfalso.
        assert (Hfilter : filter is_small noisy = noisy) by now apply filter_all.
        unfold other in Hsmall. rewrite Hfilter in Hsmall. congruence.
  - exists (DPUtils.unique col_data), noisy.
    split; [reflexivity|]. split; [exact Hlen_noisy|]. split.
    + apply Forall_forall. intros w Hw. apply Qltb_false_le.
      destruct (DPUtils.Qltb w target) eqn:E; [|reflexivity].
      assert (existsb is_small noisy = true)
        by (apply existsb_exists; now exists w).
      congruence.
    + intros Hne Hall _. exfalso.
      destruct noisy as [|w rest]; [now contradiction Hne|].
      simpl in Hall, Hex. apply andb_prop in Hall as [Hw _].
      rewrite Hw in Hex. discriminate.
Qed.

Lemma private_categorical_binning_floor_witness :
  (1 <= 3)%Z /\
  exists uniq_vals weights,
    DPUtils.private_categorical_binning demo_categories None (fun _ => 0) 3
    = inr (uniq_vals, weights) /\
    length uniq_vals = length weights /\
    Forall (fun w =>
              DPUtils.sample_weight_total demo_categories None / inject_Z 3 <= w)
           weights.
Proof.
  split; [lia|].
  destruct (private_categorical_binning_floor demo_categories None (fun _ => 0) 3
              ltac:(lia) I) as [uniq_vals [weights [Hrun [Hlen [Hfloor _]]]]].
  exists uniq_vals, weights. repeat split; assumption.
Defined.

(** ** Private numeric binning *)

Lemma DP_Qsum_app (l1 l2 : list Q) :
  DPUtils.Qsum (l1 ++ l2) == DPUtils.Qsum l1 + DPUtils.Qsum l2.
Proof.
  induction l1 as [|x l1 IH]; simpl; [ring | rewrite IH; ring].
Qed.

(** What the greedy loop leaves behind, in terms of the threshold scan. *)
Lemma collapse_fold (T : Q) :
  forall (buckets : list (Q * Q)) (s : DPUtils.collapse_state),
    let s' := fold_left (DPUtils.collapse_step T) buckets s in
    let crossings := DPUtils.threshold_scan T (DPUtils.curr_weight s) buckets in
    DPUtils.bin_cuts s' = DPUtils.bin_cuts s ++ crossings /\
    exists ws,
      DPUtils.bin_weights s' = DPUtils.bin_weights s ++ ws /\
      length ws = length crossings /\
      Forall (fun w => T <= w) ws /\
      DPUtils.Qsum ws + DPUtils.curr_weight s'
        == DPUtils.curr_weight s + DPUtils.Qsum (map fst buckets) /\
      (Forall (fun w => 0 <= w) (map fst buckets) -> 0 <= DPUtils.curr_weight s ->
         Forall (fun w => 0 <= w) ws /\ 0 <= DPUtils.curr_weight s') /\
      (buckets <> [] -> crossings = [] -> DPUtils.curr_weight s' < T).
Proof.
  induction buckets as [|[w e] buckets IH]; intros s; simpl.
  - split; [now rewrite app_nil_r|]. exists []. rewrite app_nil_r.
    split; [reflexivity|]. split; [reflexivity|]. split; [constructor|].
    split; [simpl; ring|].
    split; [intros _ Hc; split; [constructor | exact Hc]|].
    intros H; now contradiction H.
  - remember (DPUtils.collapse_step T s (w, e)) as s1 eqn:Hs1.
    destruct (IH s1) as [Hcuts [ws [Hws [Hlen [Hfloor [Hsum [Hnn Hshort]]]]]]].
    unfold DPUtils.collapse_step in Hs1. simpl in Hs1.
    destruct (Qle_bool T (DPUtils.curr_weight s + w)) eqn:Hreach.
    + assert (Hc1 : DPUtils.bin_cuts s1 = DPUtils.bin_cuts s ++ [e]) by now subst s1.
      assert (Hw1 : DPUtils.bin_weights s1
                    = DPUtils.bin_weights s ++ [DPUtils.curr_weight s + w])
        by now subst s1.
      assert (Hr1 : DPUtils.curr_weight s1 = 0) by now subst s1.
      clear Hs1. rewrite Hc1 in Hcuts. rewrite Hw1 in Hws. rewrite Hr1 in *.
      split.
      * rewrite Hcuts. simpl. now rewrite <- app_assoc.
      * exists ((DPUtils.curr_weight s + w) :: ws).
        split; [rewrite Hws; now rewrite <- app_assoc|].
        split; [simpl; congruence|].
        split; [constructor; [now apply Qle_bool_iff | exact Hfloor]|].
        split; [simpl; rewrite <- Qplus_assoc, Hsum; ring|].
        split.
        -- intros Hb Hc. apply Forall_cons_iff in Hb as [Hw0 Hb].
           destruct (Hnn Hb ltac:(apply Qle_refl)) as [Hn1 Hn2].
           split; [constructor; [lra | exact Hn1] | exact Hn2].
        -- intros _ Habs. discriminate.
    + assert (Hc1 : DPUtils.bin_cuts s1 = DPUtils.bin_cuts s) by now subst s1.
      assert (Hw1 : DPUtils.bin_weights s1 = DPUtils.bin_weights s) by now subst s1.
      assert (Hr1 : DPUtils.curr_weight s1 = DPUtils.curr_weight s + w) by now subst s1.
      clear Hs1. rewrite Hc1 in Hcuts. rewrite Hw1 in Hws. rewrite Hr1 in *.
      split; [exact Hcuts|].
      exists ws. split; [exact Hws|]. split; [exact Hlen|].
      split; [exact Hfloor|].
      split; [rewrite Hsum; simpl; ring|].
      split.
      * intros Hb Hc. apply Forall_cons_iff in Hb as [Hw0 Hb].
        apply Hnn; [exact Hb | lra].
      * intros _ Hnil. destruct buckets as [|b buckets].
        -- simpl. apply Qnot_le_lt. intro Hle. apply Qle_bool_iff in Hle.
           congruence.
        -- apply Hshort; [discriminate | exact Hnil].
Qed.

Lemma combine_fst {A B} (l1 : list A) (l2 : list B) :
  length l1 = length l2 -> map fst (combine l1 l2) = l1.
Proof.
  revert l2. induction l1 as [|a l1 IH]; intros [|b l2] H; simpl in *;
    try discriminate; [reflexivity|]. f_equal. apply IH. congruence.
Qed.

Lemma combine_snd {A B} (l1 : list A) (l2 : list B) :
  length l1 = length l2 -> map snd (combine l1 l2) = l2.
Proof.
  revert l2. induction l1 as [|a l1 IH]; intros [|b l2] H; simpl in *;
    try discriminate; [reflexivity|]. f_equal. apply IH. congruence.
Qed.

(** The shape of what [np.histogram] returns. *)
Lemma histogram_inv (a : list Q) (bins : Z) (range : Q * Q) (weights : option (list Q))
    (counts edges : list Q) :
  DPUtils.histogram a bins range weights = inr (counts, edges) ->
  (0 < bins)%Z /\
  length counts = Z.to_nat bins /\
  exists first last,
    fst range <= snd range /\
    (fst range < snd range -> first = fst range /\ last = snd range) /\
    first < last /\
    edges = map (fun i => first + inject_Z (Z.of_nat i) * (last - first) / inject_Z bins)
                (seq 0 (S (Z.to_nat bins))).
Proof.
  unfold DPUtils.histogram. intro H.
  destruct (bins <=? 0)%Z eqn:Hbins; [discriminate|]. apply Z.leb_gt in Hbins.
  destruct range as [lo hi].
  destruct (DPUtils.Qltb hi lo) eqn:Hrange; [discriminate|].
  apply Qltb_false_le in Hrange.
  destruct (Qeq_bool lo hi) eqn:Heq.
  - destruct (match weights with
              | Some ws => if (length ws =? length a)%nat then Some ws else None
              | None => Some (map (fun _ => 1) a)
              end) as [ws|]; [|discriminate].
    inversion H; subst counts edges; clear H.
    split; [exact Hbins|]. split; [now rewrite length_map, length_seq|].
    exists (lo - (1 # 2)), (hi + (1 # 2)). simpl.
    apply Qeq_bool_eq in Heq.
    split; [exact Hrange|]. split; [intro Hlt; lra|]. split; [lra | reflexivity].
  - destruct (match weights with
              | Some ws => if (length ws =? length a)%nat then Some ws else None
              | None => Some (map (fun _ => 1) a)
              end) as [ws|]; [|discriminate].
    inversion H; subst counts edges; clear H.
    split; [exact Hbins|]. split; [now rewrite length_map, length_seq|].
    exists lo, hi. simpl. apply Qeq_bool_neq in Heq.
    split; [exact Hrange|]. split; [intro Hlt; now split|]. split; [lra | reflexivity].
Qed.

Lemma add_to_last_sum (l : list Q) (x : Q) :
  l <> [] -> DPUtils.Qsum (DPUtils.add_to_last l x) == DPUtils.Qsum l + x.
Proof.
  intro Hne. destruct (exists_last Hne) as [l' [y ->]].
  rewrite add_to_last_snoc, !DP_Qsum_app. simpl. ring.
Qed.

Lemma add_to_last_nonneg (l : list Q) (x : Q) :
  Forall (fun w => 0 <= w) l -> 0 <= x ->
  Forall (fun w => 0 <= w) (DPUtils.add_to_last l x).
Proof.
  intros Hl Hx. destruct l as [|a l0]; [constructor|].
  destruct (@exists_last _ (a :: l0) ltac:(discriminate)) as [l' [y E]].
  rewrite E in *. rewrite add_to_last_snoc.
  apply Forall_app in Hl as [Hl' Hy]. apply Forall_app. split; [exact Hl'|].
  inversion Hy; subst. constructor; [lra | constructor].
Qed.

Lemma add_to_last_length (l : list Q) (x : Q) :
  length (DPUtils.add_to_last l x) = length l.
Proof.
  destruct l as [|a l0]; [reflexivity|].
  destruct (@exists_last _ (a :: l0) ltac:(discriminate)) as [l' [y E]].
  rewrite E. rewrite add_to_last_snoc. now rewrite !length_app.
Qed.

(** The threshold scan only looks at the weights up to [==]. *)
Lemma threshold_scan_ext (T : Q) :
  forall (ws ws' es : list Q) (r r' : Q),
    Forall2 Qeq ws ws' -> r == r' ->
    DPUtils.threshold_scan T r (combine ws es)
    = DPUtils.threshold_scan T r' (combine ws' es).
Proof.
  intros ws ws' es r r' Hws. revert es r r'.
  induction Hws as [|w w' ws ws' Hw _ IH]; intros es r r' Hr; [reflexivity|].
  destruct es as [|e es]; [reflexivity|]. simpl.
  assert (Hb : Qle_bool T (r + w) = Qle_bool T (r' + w')).
  { apply eq_true_iff_eq. rewrite !Qle_bool_iff. now rewrite Hw, Hr. }
  rewrite Hb. destruct (Qle_bool T (r' + w')).
  - f_equal. apply IH. reflexivity.
  - apply IH. now rewrite Hw, Hr.
Qed.

Lemma noisy_weights_zero_noise (ws : list Q) (noise : nat -> Q) :
  (forall i, noise i == 0) ->
  Forall2 Qeq (DPUtils.noisy_weights ws noise) (map DPUtils.clip0 ws).
Proof.
  intro Hzero. unfold DPUtils.noisy_weights. generalize 0%nat.
  induction ws as [|w ws IH]; intro start; simpl; constructor.
  - unfold DPUtils.clip0. simpl.
    destruct (Q.max_spec 0 (w + noise start)) as [[H1 ->] | [H1 ->]];
      destruct (Q.max_spec 0 w) as [[H2 ->] | [H2 ->]];
      pose proof (Hzero start); lra.
  - apply IH.
Qed.

(** The cuts [private_numeric_binning] returns are the crossings of the
    threshold scan but the last. *)
Lemma private_numeric_binning_cuts :
  forall (col_data : list Q) (sample_weight : option (list Q)) (noise : nat -> Q)
         (max_bins : Z) (min_val max_val : Q)
         (uniform_weights uniform_edges cuts weights : list Q),
    DPUtils.histogram col_data (max_bins * 2) (min_val, max_val) sample_weight
    = inr (uniform_weights, uniform_edges) ->
    DPUtils.private_numeric_binning col_data sample_weight noise max_bins
      min_val max_val = inr (cuts, weights) ->
    cuts = removelast
             (DPUtils.threshold_scan
                (DPUtils.sample_weight_total col_data sample_weight / inject_Z max_bins)
                0
                (combine (DPUtils.noisy_weights uniform_weights noise)
                         (tl uniform_edges))).
Proof.
  intros col_data sample_weight noise max_bins min_val max_val uniform_weights
    uniform_edges cuts weights Hhist Hrun.
  unfold DPUtils.private_numeric_binning in Hrun. rewrite Hhist in Hrun.
  simpl Py.bind in Hrun.
  set (T := DPUtils.sample_weight_total col_data sample_weight / inject_Z max_bins) in *.
  set (buckets := combine (DPUtils.noisy_weights uniform_weights noise)
                          (tl uniform_edges)) in *.
  set (s0 := {| DPUtils.bin_cuts := [hd 0 uniform_edges];
                DPUtils.bin_weights := [0];
                DPUtils.curr_weight := 0 |}) in *.
  destruct (collapse_fold T buckets s0) as [Hcuts [ws [Hws [Hlen _]]]].
  simpl in Hcuts, Hws, Hlen.
  set (s' := fold_left (DPUtils.collapse_step T) buckets s0) in *.
  rewrite Hws in Hrun. simpl length in Hrun.
  destruct ws as [|w0 ws0].
  - simpl in Hrun. inversion Hrun; subst.
    destruct (DPUtils.threshold_scan T 0 buckets); [reflexivity | discriminate].
  - simpl Nat.eqb in Hrun. cbv iota in Hrun. inversion Hrun; subst.
    rewrite Hcuts. reflexivity.
Qed.

(** C4 (amended). Whenever the histogram can be built,
    [private_numeric_binning] returns; its bin weights are non-negative;
    its cuts are the edges at which the threshold scan over the noisy,
    clipped bucket weights crosses [total_weight / max_bins], the last
    crossing left out.  When the scan crosses at least once, the weights
    sum to the total of the noisy, clipped bucket weights and there is one
    weight per crossing after the leading 0; when it never crosses (that
    total is below the target), the weights are [0] and the target.  With
    the noise all zero, the scan is the one over the clipped bucket
    counts. *)
Theorem private_numeric_binning_postcondition :
  forall (col_data : list Q) (sample_weight : option (list Q)) (noise : nat -> Q)
         (max_bins : Z) (min_val max_val : Q) (uniform_weights uniform_edges : list Q),
    DPUtils.histogram col_data (max_bins * 2) (min_val, max_val) sample_weight
    = inr (uniform_weights, uniform_edges) ->
    let target_weight :=
      DPUtils.sample_weight_total col_data sample_weight / inject_Z max_bins in
    let noisy := DPUtils.noisy_weights uniform_weights noise in
    let crossings :=
      DPUtils.threshold_scan target_weight 0 (combine noisy (tl uniform_edges)) in
    exists cuts weights,
      DPUtils.private_numeric_binning col_data sample_weight noise max_bins
        min_val max_val = inr (cuts, weights) /\
      Forall (fun w => 0 <= w) weights /\
      cuts = removelast crossings /\
      (crossings <> [] ->
         DPUtils.Qsum weights == DPUtils.Qsum noisy /\
         length weights = S (length crossings)) /\
      (crossings = [] ->
         weights = [0; target_weight] /\ DPUtils.Qsum noisy < target_weight) /\
      ((forall i, noise i == 0) ->
         crossings
         = DPUtils.threshold_scan target_weight 0
             (combine (map DPUtils.clip0 uniform_weights) (tl uniform_edges))).
Proof.
  intros col_data sample_weight noise max_bins min_val max_val uniform_weights
    uniform_edges Hhist target noisy crossings.
  destruct (histogram_inv _ _ _ _ _ _ Hhist)
    as [Hbins [Hlen_w [first [last [_ [_ [_ Hedges]]]]]]].
  assert (Hlen_noisy : length noisy = Z.to_nat (max_bins * 2)).
  { unfold noisy. now rewrite noisy_weights_length. }
  assert (Hlen_tl : length (tl uniform_edges) = Z.to_nat (max_bins * 2)).
  { rewrite Hedges. simpl. now rewrite length_map, length_seq. }
  assert (Hfst : map fst (combine noisy (tl uniform_edges)) = noisy)
    by (apply combine_fst; congruence).
  assert (Hnonempty : combine noisy (tl uniform_edges) <> []).
  { intro E. apply (f_equal (@length _)) in E.
    rewrite length_combine, Hlen_noisy, Hlen_tl in E. simpl in E. lia. }
  unfold DPUtils.private_numeric_binning. rewrite Hhist. simpl Py.bind.
  fold target. fold noisy.
  set (s0 := {| DPUtils.bin_cuts := [hd 0 uniform_edges];
                DPUtils.bin_weights := [0];
                DPUtils.curr_weight := 0 |}).
  destruct (collapse_fold target (combine noisy (tl uniform_edges)) s0)
    as [Hcuts [ws [Hws [Hlen [Hfloor [Hsum [Hnn Hshort]]]]]]].
  simpl in Hcuts, Hws, Hlen, Hsum, Hnn, Hshort. fold crossings in Hcuts, Hlen, Hshort.
  rewrite Hfst in Hsum, Hnn.
  destruct (Hnn (noisy_weights_nonneg _ _) (Qle_refl 0)) as [Hws_nn Hcurr_nn].
  set (s' := fold_left (DPUtils.collapse_step target)
               (combine noisy (tl uniform_edges)) s0) in *.
  assert (Hzero : (forall i, noise i == 0) ->
            crossings
            = DPUtils.threshold_scan target 0
                (combine (map DPUtils.clip0 uniform_weights) (tl uniform_edges))).
  { intro Hz. unfold crossings.
    apply threshold_scan_ext; [now apply noisy_weights_zero_noise | reflexivity]. }
  rewrite Hws. simpl length.
  destruct ws as [|w0 ws0].
  - simpl. assert (Hnil : crossings = []) by (destruct crossings; [reflexivity | discriminate]).
    exists [], [0; target]. split; [reflexivity|].
    specialize (Hshort Hnonempty Hnil). simpl in Hsum.
    split; [repeat constructor; [apply Qle_refl | lra]|].
    split; [now rewrite Hnil|].
    split; [intro Hne; now contradiction Hne|].
    split; [intros _; split; [reflexivity | lra]|]. exact Hzero.
  - simpl Nat.eqb. cbv iota.
    assert (Hne : crossings <> []) by (intro E; rewrite E in Hlen; discriminate).
    eexists _, _. split; [reflexivity|].
    split.
    + apply add_to_last_nonneg; [|exact Hcurr_nn].
      constructor; [apply Qle_refl | exact Hws_nn].
    + split; [rewrite Hcuts; reflexivity|].
      split.
      * intros _. split.
        -- rewrite add_to_last_sum by discriminate.
           simpl in Hsum |- *. lra.
        -- rewrite add_to_last_length. simpl. simpl in Hlen. congruence.
      * split; [intro E; now contradiction Hne | exact Hzero].
Qed.


Lemma private_numeric_binning_postcondition_witness :
  exists uniform_weights uniform_edges,
    DPUtils.histogram demo_column (2 * 2) (0, 1) None
    = inr (uniform_weights, uniform_edges) /\
    exists cuts weights,
      DPUtils.private_numeric_binning demo_column None (fun _ => 0) 2 0 1
      = inr (cuts, weights) /\
      Forall (fun w => 0 <= w) weights /\
      cuts = removelast
               (DPUtils.threshold_scan
                  (DPUtils.sample_weight_total demo_column None / inject_Z 2) 0
                  (combine (DPUtils.noisy_weights uniform_weights (fun _ => 0))
                           (tl uniform_edges))).
Proof.
  destruct (DPUtils.histogram demo_column (2 * 2) (0, 1) None)
    as [e | [uniform_weights uniform_edges]] eqn:Hhist;
    [vm_compute in Hhist; discriminate|].
  exists uniform_weights, uniform_edges. split; [reflexivity|].
  destruct (private_numeric_binning_postcondition demo_column None (fun _ => 0)
              2 0 1 uniform_weights uniform_edges Hhist)
    as [cuts [weights [Hrun [Hnn [Hcuts _]]]]].
  exists cuts, weights. repeat split; assumption.
Defined.

(** C4, as first stated, fails: with one sample of weight 1 and a noise
    draw of -5 on every bucket, every clipped bucket weight is 0, yet the
    returned weights are 0 and the target 1/2. *)
Lemma private_numeric_binning_sum_counterexample :
  ~ (forall (col_data : list Q) (sample_weight : option (list Q)) (noise : nat -> Q)
            (max_bins : Z) (min_val max_val : Q)
            (uniform_weights uniform_edges cuts weights : list Q),
       (2 <= max_bins)%Z ->
       DPUtils.histogram col_data (max_bins * 2) (min_val, max_val) sample_weight
       = inr (uniform_weights, uniform_edges) ->
       DPUtils.private_numeric_binning col_data sample_weight noise max_bins
         min_val max_val = inr (cuts, weights) ->
       Forall (fun w => 0 <= w) weights /\
       DPUtils.Qsum weights
       == DPUtils.Qsum (DPUtils.noisy_weights uniform_weights noise)).
Proof.
  intro H.
  destruct (DPUtils.histogram [1 # 10] (2 * 2) (0, 1) None)
    as [e | [uniform_weights uniform_edges]] eqn:Hhist;
    [vm_compute in Hhist; discriminate|].
  destruct (DPUtils.private_numeric_binning [1 # 10] None (fun _ => - (5)) 2 0 1)
    as [e | [cuts weights]] eqn:Hrun; [vm_compute in Hrun; discriminate|].
  destruct (H [1 # 10] None (fun _ => - (5)) 2%Z 0 1 uniform_weights uniform_edges
              cuts weights ltac:(lia) Hhist Hrun) as [_ Hsum].
  vm_compute in Hhist, Hrun.
  inversion Hhist; subst uniform_weights uniform_edges.
  inversion Hrun; subst cuts weights.
  vm_compute in Hsum. discriminate.
Qed.

(** ** Bounds on the cuts of a continuous column *)

Lemma threshold_scan_sorted (T : Q) :
  forall (buckets : list (Q * Q)) (r : Q),
    StronglySorted Qlt (map snd buckets) ->
    StronglySorted Qlt (DPUtils.threshold_scan T r buckets) /\
    incl (DPUtils.threshold_scan T r buckets) (map snd buckets) /\
    (length (DPUtils.threshold_scan T r buckets) <= length buckets)%nat.
Proof.
  induction buckets as [|[w e] buckets IH]; intros r Hsorted; simpl.
  - repeat split; [constructor | apply incl_refl | apply Nat.le_refl].
  - simpl in Hsorted. apply StronglySorted_inv in Hsorted as [Hrest Hhead].
    destruct (Qle_bool T (r + w)).
    + destruct (IH 0 Hrest) as [Hs [Hincl Hlen]].
      split; [|split].
      * constructor; [exact Hs|]. apply Forall_forall. intros x Hx.
        rewrite Forall_forall in Hhead. apply Hhead. now apply Hincl.
      * intros x [<- | Hx]; [now left | right; now apply Hincl].
      * simpl. lia.
    + destruct (IH (r + w) Hrest) as [Hs [Hincl Hlen]].
      split; [exact Hs|]. split; [|lia].
      intros x Hx. right. now apply Hincl.
Qed.

Lemma removelast_sorted (l : list Q) :
  StronglySorted Qlt l -> StronglySorted Qlt (removelast l).
Proof.
  induction 1 as [|a l Hl IH Ha]; simpl; [constructor|].
  destruct l as [|b l']; [constructor|].
  constructor; [exact IH|].
  apply Forall_forall. intros x Hx. rewrite Forall_forall in Ha. apply Ha.
  clear - Hx. revert b Hx. induction l' as [|c l' IHl]; intros b Hx; simpl in *.
  - contradiction.
  - destruct Hx as [<- | Hx]; [now left | right; now apply IHl].
Qed.

Lemma removelast_below (l : list Q) :
  StronglySorted Qlt l ->
  forall c, In c (removelast l) -> In c l /\ exists c', In c' l /\ c < c'.
Proof.
  induction 1 as [|a l Hl IH Ha]; simpl; intros c Hc; [contradiction|].
  destruct l as [|b l']; [contradiction|].
  destruct Hc as [<- | Hc].
  - split; [now left|]. exists b. split; [right; now left|].
    now inversion Ha.
  - destruct (IH c Hc) as [Hin [c' [Hc' Hlt]]].
    split; [now right|]. exists c'. split; [now right | exact Hlt].
Qed.

Lemma removelast_length_pred {A} (l : list A) :
  length (removelast l) = (length l - 1)%nat.
Proof.
  induction l as [|a l IH]; [reflexivity|].
  destruct l as [|b l']; [reflexivity|].
  change (removelast (a :: b :: l')) with (a :: removelast (b :: l')).
  simpl length in *. lia.
Qed.

Lemma inject_nat_lt (i j : nat) :
  (i < j)%nat -> inject_Z (Z.of_nat i) < inject_Z (Z.of_nat j).
Proof. intro H. rewrite <- Zlt_Qlt. lia. Qed.

Lemma edge_lt (first last b : Q) (i j : nat) :
  first < last -> 0 < b -> (i < j)%nat ->
  first + inject_Z (Z.of_nat i) * (last - first) / b
  < first + inject_Z (Z.of_nat j) * (last - first) / b.
Proof.
  intros Hfl Hb Hij. apply inject_nat_lt in Hij.
  assert (Hinv : 0 < / b) by now apply Qinv_lt_0_compat.
  assert (Hd : 0 < (last - first) * / b).
  { apply Qmult_lt_0_compat; [lra | exact Hinv]. }
  unfold Qdiv. rewrite <- !Qmult_assoc.
  set (k := (last - first) * / b) in *.
  assert (inject_Z (Z.of_nat i) * k < inject_Z (Z.of_nat j) * k)
    by (apply Qmult_lt_compat_r; assumption).
  lra.
Qed.

Lemma edges_sorted (first last b : Q) :
  first < last -> 0 < b ->
  forall len start,
    StronglySorted Qlt
      (map (fun i => first + inject_Z (Z.of_nat i) * (last - first) / b)
           (seq start len)).
Proof.
  intros Hfl Hb. induction len as [|len IH]; intro start; simpl; constructor.
  - apply IH.
  - apply Forall_forall. intros x Hx. apply in_map_iff in Hx as [j [<- Hj]].
    apply in_seq in Hj. apply edge_lt; [assumption | assumption | lia].
Qed.

(** C5 (amended). For the quantile, humanized quantile and uniform modes,
    [EBMPreprocessor.fit] asks the native cutter for [max_bins - 2] cuts,
    so under the cutters' contract the cuts it returns are strictly
    increasing and at most [max_bins - 2] in number.
    [private_numeric_binning], for every noise draw, returns strictly
    increasing cuts, all strictly inside the declared range when that
    range is not a single point, and at most [2 * max_bins - 1] of them.
    Values are rationals, hence finite. *)
Theorem continuous_cut_bound :
  (forall (cut_quantile : list Q -> Z -> Z -> Z -> list Q)
          (cut_uniform : list Q -> Z -> list Q),
     (forall col m h, EBMPreprocessor.native_cut_contract (cut_quantile col m h)) ->
     (forall col, EBMPreprocessor.native_cut_contract (cut_uniform col)) ->
     forall binning max_bins epsilon delta col_data cuts,
       EBMPreprocessor.continuous_cuts cut_quantile cut_uniform binning max_bins
         epsilon delta col_data = inr cuts ->
       StronglySorted Qlt cuts /\ (Z.of_nat (length cuts) <= max_bins - 2)%Z) /\
  (forall (col_data : list Q) (sample_weight : option (list Q)) (noise : nat -> Q)
          (max_bins : Z) (min_val max_val : Q) (cuts weights : list Q),
     DPUtils.private_numeric_binning col_data sample_weight noise max_bins
       min_val max_val = inr (cuts, weights) ->
     StronglySorted Qlt cuts /\
     (Z.of_nat (length cuts) <= 2 * max_bins - 1)%Z /\
     (min_val < max_val -> forall c, In c cuts -> min_val < c < max_val)).
Proof.
  split.
  - intros cut_quantile cut_uniform Hq Hu binning max_bins epsilon delta col_data
      cuts H.
    unfold EBMPreprocessor.continuous_cuts in H.
    destruct (if EBMPreprocessor.mentions_private binning
              then DPUtils.validate_eps_delta epsilon delta
              else Py.ret tt) as [e | []]; simpl in H; [discriminate|].
    destruct (max_bins <? 2)%Z eqn:Hbins; [discriminate|]. apply Z.ltb_ge in Hbins.
    destruct (String.eqb binning "private"); [discriminate|].
    destruct (String.eqb binning "quantile" || String.eqb binning "quantile_humanized").
    + inversion H; subst cuts.
      destruct (Hq col_data 1%Z
                  (if String.eqb binning "quantile_humanized" then 1%Z else 0%Z)
                  (max_bins - 2)%Z) as [Hs Hl].
      split; [exact Hs | lia].
    + destruct (String.eqb binning "uniform"); [|discriminate].
      inversion H; subst cuts.
      destruct (Hu col_data (max_bins - 2)%Z) as [Hs Hl]. split; [exact Hs | lia].
  - intros col_data sample_weight noise max_bins min_val max_val cuts weights Hrun.
    destruct (DPUtils.histogram col_data (max_bins * 2) (min_val, max_val) sample_weight)
      as [e | [uniform_weights uniform_edges]] eqn:Hhist.
    { unfold DPUtils.private_numeric_binning in Hrun. rewrite Hhist in Hrun.
      discriminate. }
    pose proof (private_numeric_binning_cuts _ _ _ _ _ _ _ _ _ _ Hhist Hrun) as Hcuts.
    destruct (histogram_inv _ _ _ _ _ _ Hhist)
      as [Hbins [Hlen_w [first [last [_ [Hrange [Hfl Hedges]]]]]]].
    simpl in Hrange.
    set (T := DPUtils.sample_weight_total col_data sample_weight / inject_Z max_bins) in *.
    set (noisy := DPUtils.noisy_weights uniform_weights noise) in *.
    set (n := Z.to_nat (max_bins * 2)) in *.
    set (f := fun i : nat =>
                first + inject_Z (Z.of_nat i) * (last - first) / inject_Z (max_bins * 2)) in *.
    assert (Hb : 0 < inject_Z (max_bins * 2)) by (rewrite <- (Zlt_Qlt 0); lia).
    assert (Htl : tl uniform_edges = map f (seq 1 n)) by (rewrite Hedges; reflexivity).
    assert (Hlen_noisy : length noisy = n)
      by (unfold noisy; now rewrite noisy_weights_length).
    assert (Hsnd : map snd (combine noisy (tl uniform_edges)) = map f (seq 1 n)).
    { rewrite combine_snd; [exact Htl|].
      rewrite Htl, length_map, length_seq. exact Hlen_noisy. }
    destruct (threshold_scan_sorted T (combine noisy (tl uniform_edges)) 0)
      as [Hsorted [Hincl Hlen]].
    { rewrite Hsnd. apply edges_sorted; assumption. }
    rewrite Hsnd in Hincl.
    split; [rewrite Hcuts; now apply removelast_sorted|].
    split.
    + rewrite Hcuts, removelast_length_pred.
      assert (Hlen_tl : length (tl uniform_edges) = n)
        by now rewrite Htl, length_map, length_seq.
      rewrite length_combine, Hlen_noisy, Hlen_tl, Nat.min_id in Hlen.
      unfold n in Hlen. lia.
    + intros Hlt c Hc. destruct (Hrange Hlt) as [-> ->].
      rewrite Hcuts in Hc.
      destruct (removelast_below _ Hsorted c Hc) as [Hin [c' [Hc' Hcc']]].
      apply Hincl in Hin. apply Hincl in Hc'.
      apply in_map_iff in Hin as [i [<- Hi]]. apply in_map_iff in Hc' as [j [<- Hj]].
      apply in_seq in Hi. apply in_seq in Hj.
      assert (Hf0 : f 0%nat == min_val) by (unfold f, Qdiv; simpl; ring).
      assert (Hfn : f n == max_val).
      { unfold f, n. rewrite Z2Nat.id by lia. field. lra. }
      split.
      * rewrite <- Hf0. apply edge_lt; [assumption | assumption | lia].
      * apply Qlt_le_trans with (f j); [exact Hcc'|].
        rewrite <- Hfn.
        destruct (Nat.eq_dec j n) as [-> | Hne]; [apply Qle_refl|].
        apply Qlt_le_weak. apply edge_lt; [assumption | assumption | lia].
Qed.

Lemma continuous_cut_bound_witness :
  (StronglySorted Qlt [1 # 2] /\ (Z.of_nat (length [1 # 2]) <= 3 - 2)%Z) /\
  exists cuts weights,
    DPUtils.private_numeric_binning demo_column None (fun _ => 0) 2 0 1
    = inr (cuts, weights) /\
    StronglySorted Qlt cuts /\
    (Z.of_nat (length cuts) <= 2 * 2 - 1)%Z /\
    forall c, In c cuts -> 0 < c < 1.
Proof.
  assert (Hcontract : EBMPreprocessor.native_cut_contract EBMPreprocessor.demo_cutter).
  { intros k. unfold EBMPreprocessor.demo_cutter.
    destruct (1 <=? k)%Z eqn:E; simpl.
    - apply Z.leb_le in E. split.
      + constructor; constructor.
      + lia.
    - split.
      + constructor.
      + lia. }
  split.
  - apply (proj1 continuous_cut_bound
             (fun _ _ _ => EBMPreprocessor.demo_cutter)
             (fun _ => EBMPreprocessor.demo_cutter)
             (fun _ _ _ => Hcontract) (fun _ => Hcontract)
             "quantile"%string 3%Z None None demo_column).
    reflexivity.
  - destruct (DPUtils.private_numeric_binning demo_column None (fun _ => 0) 2 0 1)
      as [e | [cuts weights]] eqn:Hrun; [vm_compute in Hrun; discriminate|].
    exists cuts, weights. split; [reflexivity|].
    destruct (proj2 continuous_cut_bound demo_column None (fun _ => 0) 2%Z 0 1
                cuts weights Hrun) as [Hs [Hl Hin]].
    split; [exact Hs|]. split; [exact Hl|]. apply Hin. reflexivity.
Defined.

(** C5, as first stated, fails for the private mode: without any noise,
    two samples at 0.1 and 0.9 on the range [0, 1] with [max_bins = 2]
    give the cut 0.25, one more than [max_bins - 2 = 0]. *)
Lemma private_cut_count_counterexample :
  ~ (forall (col_data : list Q) (sample_weight : option (list Q)) (noise : nat -> Q)
            (max_bins : Z) (min_val max_val : Q) (cuts weights : list Q),
       (2 <= max_bins)%Z ->
       DPUtils.private_numeric_binning col_data sample_weight noise max_bins
         min_val max_val = inr (cuts, weights) ->
       StronglySorted Qlt cuts /\ (Z.of_nat (length cuts) <= max_bins - 2)%Z).
Proof.
  intro H.
  destruct (DPUtils.private_numeric_binning demo_column None (fun _ => 0) 2 0 1)
    as [e | [cuts weights]] eqn:Hrun; [vm_compute in Hrun; discriminate|].
  destruct (H demo_column None (fun _ => 0) 2%Z 0 1 cuts weights ltac:(lia) Hrun)
    as [_ Hlen].
  vm_compute in Hrun. inversion Hrun; subst cuts weights.
  simpl in Hlen. lia.
Qed.

(** ** Arrays: offsets and enumeration *)

Close Scope Q_scope.
Open Scope nat_scope.

Lemma mapM_ok {A B} (f : A -> Py.result B) (g : A -> B) (l : list A) :
  (forall a, In a l -> f a = inr (g a)) ->
  Tensor.mapM f l = inr (map g l).
Proof.
  induction l as [|a l IH]; intro H; simpl; [reflexivity|].
  rewrite (H a (or_introl eq_refl)). simpl.
  rewrite IH by (intros b Hb; apply H; now right). reflexivity.
Qed.

Lemma normalize_index_nat (n i : nat) :
  i < n -> Tensor.normalize_index n (Z.of_nat i) = inr i.
Proof.
  intro H. unfold Tensor.normalize_index.
  replace (Z.of_nat i <? 0)%Z with false by (symmetry; apply Z.ltb_ge; lia).
  replace (0 <=? Z.of_nat i)%Z with true by (symmetry; apply Z.leb_le; lia).
  replace (Z.of_nat i <? Z.of_nat n)%Z with true by (symmetry; apply Z.ltb_lt; lia).
  simpl. now rewrite Nat2Z.id.
Qed.

Lemma normalize_index_last (n : nat) :
  0 < n -> Tensor.normalize_index n (-1)%Z = inr (n - 1).
Proof.
  intro H. unfold Tensor.normalize_index.
  change (-1 <? 0)%Z with true. cbv iota.
  replace (0 <=? -1 + Z.of_nat n)%Z with true by (symmetry; apply Z.leb_le; lia).
  replace (-1 + Z.of_nat n <? Z.of_nat n)%Z with true by (symmetry; apply Z.ltb_lt; lia).
  cbn [andb]. unfold Py.ret. f_equal. lia.
Qed.

Lemma prod_app (l1 l2 : list nat) :
  Tensor.prod (l1 ++ l2) = Tensor.prod l1 * Tensor.prod l2.
Proof.
  induction l1 as [|a l1 IH]; simpl; [lia|]. rewrite IH. lia.
Qed.

Lemma prod_rev (l : list nat) : Tensor.prod (rev l) = Tensor.prod l.
Proof.
  induction l as [|a l IH]; simpl; [reflexivity|].
  rewrite prod_app, IH. simpl. lia.
Qed.

Lemma flat_index_snoc (shape : list nat) (s : nat) :
  forall (idx : list nat) (o : nat),
    Forall2 lt idx shape -> o < s ->
    Tensor.flat_index (shape ++ [s]) (map Z.of_nat (idx ++ [o]))
    = match Tensor.flat_index shape (map Z.of_nat idx) with
      | inr c => inr (c * s + o)
      | inl e => inl e
      end.
Proof.
  induction shape as [|n shape IH]; intros idx o Hidx Ho.
  - inversion Hidx; subst. simpl. rewrite normalize_index_nat by exact Ho.
    simpl. unfold Py.ret. f_equal. lia.
  - inversion Hidx as [|i n' idx' shape' Hi Hrest]; subst. simpl.
    rewrite normalize_index_nat by exact Hi. simpl.
    rewrite (IH idx' o Hrest Ho).
    destruct (Tensor.flat_index shape (map Z.of_nat idx')) as [e | c]; simpl;
      [reflexivity|].
    rewrite prod_app. simpl. unfold Py.ret. f_equal. lia.
Qed.

Lemma Forall2_lt_rev (idx shape : list nat) :
  Forall2 lt idx shape -> Forall2 lt (rev idx) (rev shape).
Proof.
  induction 1 as [|i n idx shape Hi _ IH]; simpl; [constructor|].
  apply Forall2_app; [exact IH | now repeat constructor].
Qed.

Lemma flat_index_offset_rev (rsizes : list nat) :
  forall ridx,
    Forall2 lt ridx rsizes ->
    Tensor.flat_index (rev rsizes) (map Z.of_nat (rev ridx))
    = inr (offset_rev rsizes ridx).
Proof.
  induction rsizes as [|s rsizes IH]; intros ridx H.
  - inversion H; subst. reflexivity.
  - inversion H as [|o s' ridx' rsizes' Ho Hrest]; subst. simpl.
    rewrite flat_index_snoc; [|now apply Forall2_lt_rev | exact Ho].
    rewrite (IH ridx' Hrest). f_equal. lia.
Qed.

Lemma offset_rev_bound (rsizes : list nat) :
  forall ridx, Forall2 lt ridx rsizes -> offset_rev rsizes ridx < Tensor.prod rsizes.
Proof.
  induction rsizes as [|s rsizes IH]; intros ridx H.
  - inversion H; subst. simpl. lia.
  - inversion H as [|o s' ridx' rsizes' Ho Hrest]; subst. simpl.
    specialize (IH ridx' Hrest). nia.
Qed.

Lemma decompose_length (sizes : list nat) :
  forall c, length (Harmonize.decompose c sizes) = length sizes.
Proof.
  induction sizes as [|n sizes IH]; intro c; simpl; [reflexivity|]. now rewrite IH.
Qed.

Lemma decompose_bound (sizes : list nat) :
  forall c, Forall (fun n => 0 < n) sizes ->
            Forall2 lt (Harmonize.decompose c sizes) sizes.
Proof.
  induction sizes as [|n sizes IH]; intros c H; simpl; [constructor|].
  inversion H; subst. constructor; [apply Nat.mod_upper_bound; lia | now apply IH].
Qed.

Lemma offset_decompose (sizes : list nat) :
  forall c, c < Tensor.prod sizes ->
            offset_rev sizes (Harmonize.decompose c sizes) = c.
Proof.
  induction sizes as [|n sizes IH]; intros c H; simpl in *; [lia|].
  assert (Hn : n <> 0) by (intro E; subst; simpl in H; lia).
  rewrite IH.
  - rewrite (Nat.div_mod_eq c n) at 3. lia.
  - apply Nat.Div0.div_lt_upper_bound. lia.
Qed.

Lemma decompose_offset (sizes : list nat) :
  forall ridx, Forall2 lt ridx sizes ->
               Harmonize.decompose (offset_rev sizes ridx) sizes = ridx.
Proof.
  induction sizes as [|n sizes IH]; intros ridx H.
  - inversion H; subst. reflexivity.
  - inversion H as [|o n' ridx' sizes' Ho Hrest]; subst. simpl.
    assert (Hmod : (o + n * offset_rev sizes ridx') mod n = o).
    { rewrite Nat.mul_comm, Nat.Div0.mod_add. now apply Nat.mod_small. }
    assert (Hdiv : (o + n * offset_rev sizes ridx') / n = offset_rev sizes ridx').
    { rewrite Nat.mul_comm, Nat.div_add by lia. rewrite Nat.div_small by exact Ho.
      reflexivity. }
    rewrite Hmod, Hdiv. f_equal. now apply IH.
Qed.

Lemma mapM_map {A B C} (f : B -> Py.result C) (h : A -> B) (l : list A) :
  Tensor.mapM (fun a => f (h a)) l = Tensor.mapM f (map h l).
Proof.
  induction l as [|a l IH]; simpl; [reflexivity|]. now rewrite IH.
Qed.

Lemma mapM_ext {A B} (f g : A -> Py.result B) (l : list A) :
  (forall a, In a l -> f a = g a) -> Tensor.mapM f l = Tensor.mapM g l.
Proof.
  induction l as [|a l IH]; intro H; simpl; [reflexivity|].
  rewrite (H a (or_introl eq_refl)), IH; [reflexivity|].
  intros b Hb. apply H. now right.
Qed.

Lemma seq_blocks (P : nat) :
  forall n start,
    flat_map (fun i => seq (i * P) P) (seq start n) = seq (start * P) (n * P).
Proof.
  induction n as [|n IH]; intro start; simpl; [reflexivity|].
  rewrite IH, seq_app. do 2 f_equal. lia.
Qed.

Lemma map_flat_map {A B C} (f : B -> C) (g : A -> list B) (l : list A) :
  map f (flat_map g l) = flat_map (fun a => map f (g a)) l.
Proof.
  induction l as [|a l IH]; simpl; [reflexivity|]. now rewrite map_app, IH.
Qed.

Lemma flat_map_ext_in {A B} (f g : A -> list B) (l : list A) :
  (forall a, In a l -> f a = g a) -> flat_map f l = flat_map g l.
Proof.
  induction l as [|a l IH]; intro H; simpl; [reflexivity|].
  rewrite (H a (or_introl eq_refl)), IH; [reflexivity|].
  intros b Hb. apply H. now right.
Qed.

Lemma indices_valid (shape : list nat) :
  forall idx, In idx (Tensor.indices shape) -> Forall2 lt idx shape.
Proof.
  induction shape as [|n shape IH]; intros idx H; simpl in H.
  - destruct H as [<- | []]. constructor.
  - apply in_flat_map in H as [i [Hi H]]. apply in_map_iff in H as [idx' [<- H]].
    apply in_seq in Hi. constructor; [lia | now apply IH].
Qed.

Lemma indices_offsets (shape : list nat) :
  map (fun idx => Tensor.flat_index shape (map Z.of_nat idx)) (Tensor.indices shape)
  = map inr (seq 0 (Tensor.prod shape)).
Proof.
  induction shape as [|n shape IH]; [reflexivity|].
  change (Tensor.indices (n :: shape))
    with (flat_map (fun i => map (cons i) (Tensor.indices shape)) (seq 0 n)).
  rewrite map_flat_map.
  rewrite (flat_map_ext_in _
             (fun i => map (@inr Py.exn nat)
                           (seq (i * Tensor.prod shape) (Tensor.prod shape)))).
  - change (Tensor.prod (n :: shape)) with (n * Tensor.prod shape).
    rewrite <- map_flat_map. f_equal. rewrite seq_blocks. reflexivity.
  - intros i Hi. apply in_seq in Hi. rewrite map_map. simpl.
    rewrite normalize_index_nat by lia. simpl.
    transitivity (map (fun r : Py.result nat =>
                         match r with
                         | inr c => inr (i * Tensor.prod shape + c)
                         | inl e => inl e
                         end)
                      (map (fun idx => Tensor.flat_index shape (map Z.of_nat idx))
                           (Tensor.indices shape))).
    + rewrite map_map. apply map_ext. intro idx.
      now destruct (Tensor.flat_index shape (map Z.of_nat idx)).
    + rewrite IH, map_map.
      assert (Hshift : forall len start k,
                map (fun x => @inr Py.exn nat (k + x)) (seq start len)
                = map inr (seq (k + start) len)).
      { induction len as [|len IHlen]; intros start k; simpl; [reflexivity|].
        rewrite IHlen. now replace (k + S start) with (S (k + start)) by lia. }
      rewrite Hshift. now rewrite Nat.add_0_r.
Qed.

Lemma mapM_nth_error {A} (pre data : list A) :
  Tensor.mapM (fun c => match nth_error (pre ++ data) c with
                        | Some v => Py.ret v
                        | None => Py.raise Py.IndexError
                        end)
              (seq (length pre) (length data))
  = inr data.
Proof.
  revert pre. induction data as [|x data IH]; intro pre; simpl; [reflexivity|].
  rewrite nth_error_app2 by lia. rewrite Nat.sub_diag. simpl.
  specialize (IH (pre ++ [x])). rewrite <- app_assoc, length_app in IH. simpl in IH.
  rewrite Nat.add_1_r in IH. rewrite IH. reflexivity.
Qed.

(** Reading an array cell by cell in row-major order gives its data. *)
Lemma mapM_get_indices (a : Tensor.t) :
  Tensor.wf a ->
  Tensor.mapM (fun idx => Tensor.get a (map Z.of_nat idx)) (Tensor.indices (Tensor.shape a))
  = inr (Tensor.data a).
Proof.
  intro Hwf. unfold Tensor.get.
  rewrite (mapM_map
             (fun r : Py.result nat =>
                c <- r ;;
                match nth_error (Tensor.data a) c with
                | Some v => Py.ret v
                | None => Py.raise Py.IndexError
                end)
             (fun idx => Tensor.flat_index (Tensor.shape a) (map Z.of_nat idx))).
  rewrite indices_offsets. rewrite <- mapM_map. simpl.
  unfold Tensor.wf in Hwf. change (fold_right Nat.mul 1 (Tensor.shape a))
    with (Tensor.prod (Tensor.shape a)) in Hwf.
  rewrite <- Hwf. exact (mapM_nth_error [] (Tensor.data a)).
Qed.

(** ** Axes in the same order: the transposition is the identity *)

Lemma list_index_skip (x : Z) (pre rest : list Z) :
  Forall (fun y => y <> x) pre ->
  Harmonize.list_index x (pre ++ x :: rest) = Some (length pre).
Proof.
  induction 1 as [|y pre Hy _ IH]; simpl.
  - now rewrite Z.eqb_refl.
  - replace (x =? y)%Z with false by (symmetry; apply Z.eqb_neq; congruence).
    now rewrite IH.
Qed.

Lemma set_nth_middle {A} (pre rest : list A) (x y : A) :
  Harmonize.set_nth (length pre) y (pre ++ x :: rest) = (pre ++ [y]) ++ rest.
Proof.
  induction pre as [|a pre IH]; simpl; [reflexivity|]. now rewrite IH.
Qed.

Lemma find_axes_same_order (fs : list Z) :
  Forall (fun f => 0 <= f)%Z fs ->
  forall pre,
    Forall (fun y => y = (-1)%Z) pre ->
    Harmonize.find_axes fs (pre ++ fs) = inr (seq (length pre) (length fs)).
Proof.
  induction 1 as [|f fs Hf _ IH]; intros pre Hpre; simpl; [reflexivity|].
  rewrite list_index_skip.
  - rewrite set_nth_middle. rewrite IH.
    + rewrite length_app. simpl. now rewrite Nat.add_1_r.
    + apply Forall_app. split; [exact Hpre | now repeat constructor].
  - eapply Forall_impl; [|exact Hpre]. simpl. intros y ->. lia.
Qed.

Lemma position_seq (n : nat) :
  forall start k, k < n -> Tensor.position (start + k) (seq start n) = Some k.
Proof.
  induction n as [|n IH]; intros start k Hk; [lia|]. simpl.
  destruct k as [|k].
  - now rewrite Nat.add_0_r, Nat.eqb_refl.
  - replace (start + S k =? start) with false by (symmetry; apply Nat.eqb_neq; lia).
    replace (start + S k) with (S start + k) by lia.
    rewrite IH by lia. reflexivity.
Qed.

Lemma position_seq0 (n k : nat) :
  k < n -> Tensor.position k (seq 0 n) = Some k.
Proof. intro H. exact (position_seq n 0 k H). Qed.

Lemma map_nth_seq {A} (l : list A) (d : A) :
  map (fun k => nth k l d) (seq 0 (length l)) = l.
Proof.
  induction l as [|a l IH]; simpl; [reflexivity|].
  f_equal. rewrite <- seq_shift, map_map. exact IH.
Qed.

Lemma transpose_identity (a : Tensor.t) :
  Tensor.wf a -> Tensor.transpose a (seq 0 (Tensor.ndim a)) = inr a.
Proof.
  intro Hwf. unfold Tensor.transpose.
  assert (Hperm : Tensor.is_axes_permutation (seq 0 (Tensor.ndim a)) (Tensor.ndim a) = true).
  { unfold Tensor.is_axes_permutation. rewrite length_seq, Nat.eqb_refl. simpl.
    apply forallb_forall. intros k Hk. apply in_seq in Hk.
    now rewrite position_seq0 by lia. }
  rewrite Hperm.
  assert (Hshape : map (fun ax => nth ax (Tensor.shape a) 0) (seq 0 (Tensor.ndim a))
                   = Tensor.shape a) by apply map_nth_seq.
  rewrite Hshape.
  rewrite (mapM_ext _ (fun idx => Tensor.get a (map Z.of_nat idx))).
  - rewrite (mapM_get_indices a Hwf). simpl. destruct a. reflexivity.
  - intros idx Hidx. f_equal. apply indices_valid in Hidx.
    assert (Hlen : length idx = Tensor.ndim a)
      by (unfold Tensor.ndim; eapply Forall2_length; eauto).
    rewrite <- Hlen.
    rewrite (map_ext_in _ (fun k => Z.of_nat (nth k idx 0))).
    + rewrite <- (map_map (fun k => nth k idx 0) Z.of_nat). now rewrite map_nth_seq.
    + intros k Hk. apply in_seq in Hk.
      now rewrite position_seq0 by lia.
Qed.

(** ** The value of a new cell when old bins stand for themselves *)

Lemma py_index_default (n : nat) (l : Z) :
  Tensor.normalize_index n l = inr (old_position n l) ->
  old_position n l < n /\
  Tensor.py_index (default_mapping n) l = inr [Z.of_nat (old_position n l)].
Proof.
  intro H.
  assert (Hlt : old_position n l < n).
  { unfold Tensor.normalize_index in H.
    destruct ((0 <=? (if (l <? 0)%Z then (l + Z.of_nat n)%Z else l))%Z
              && ((if (l <? 0)%Z then (l + Z.of_nat n)%Z else l) <? Z.of_nat n)%Z) eqn:E;
      [|discriminate].
    apply andb_prop in E as [E1 E2]. apply Z.leb_le in E1. apply Z.ltb_lt in E2.
    unfold old_position. destruct (l <? 0)%Z; lia. }
  split; [exact Hlt|].
  unfold Tensor.py_index, default_mapping. rewrite length_map, length_seq, H. simpl.
  rewrite nth_error_map, nth_error_seq.
  replace (old_position n l <? n) with true by (symmetry; now apply Nat.ltb_lt).
  reflexivity.
Qed.

Lemma cell_map_simple :
  forall (sizes : list nat) (axes : list Harmonize.axis) (positions : list nat),
    Forall2 simple_axis sizes axes ->
    Forall2 lt positions (lookup_sizes axes) ->
    Tensor.mapM (fun p : Harmonize.axis * Z =>
                   Tensor.py_index (Harmonize.mapping (fst p)) (snd p))
      (combine axes
         (map (fun p : Harmonize.axis * nat =>
                 nth (snd p) (Harmonize.lookup (fst p)) 0%Z)
              (combine axes positions)))
    = inr (map (fun o => [Z.of_nat o]) (old_positions sizes axes positions)) /\
    Forall2 lt (old_positions sizes axes positions) sizes.
Proof.
  intros sizes axes positions Hsimple. revert positions.
  induction Hsimple as [|s a sizes axes [Hmap Hlook] _ IH]; intros positions Hpos.
  - simpl. split; [reflexivity | constructor].
  - inversion Hpos as [|pos n positions' sizes' Hp Hrest]; subst.
    destruct (IH positions' Hrest) as [IH1 IH2].
    assert (Hin : In (nth pos (Harmonize.lookup a) 0%Z) (Harmonize.lookup a))
      by now apply nth_In.
    rewrite Forall_forall in Hlook. specialize (Hlook _ Hin).
    destruct (py_index_default s _ Hlook) as [Hlt Hidx].
    split.
    + simpl. rewrite Hmap, Hidx. simpl. rewrite IH1. reflexivity.
    + simpl. constructor; assumption.
Qed.

Lemma prod_ones {A} (l : list A) : Tensor.prod (map (fun _ => 1) l) = 1.
Proof. induction l as [|a l IH]; simpl; [reflexivity|]. rewrite IH. reflexivity. Qed.

Lemma decompose_ones {A} (l : list A) :
  Harmonize.decompose 0 (map (fun _ => 1) l) = map (fun _ => 0) l.
Proof. induction l as [|a l IH]; simpl; [reflexivity|]. now rewrite IH. Qed.

Lemma gather_singletons (old_tensor : Tensor.t) (evidence : option Tensor.t)
    (olds : list nat) (v : Q) :
  Tensor.get old_tensor (rev (map Z.of_nat olds)) = inr v ->
  Harmonize.gather old_tensor evidence (map (fun o => [Z.of_nat o]) olds)
  = inr (v, 0%Q).
Proof.
  intro Hget. unfold Harmonize.gather.
  rewrite map_map. simpl length.
  rewrite prod_ones. simpl seq. simpl fold_left. rewrite decompose_ones.
  assert (Hidx :
    map (fun p : list Z * nat => nth (snd p) (fst p) 0%Z)
        (combine (map (fun o => [Z.of_nat o]) olds) (map (fun _ => 0) olds))
    = map Z.of_nat olds).
  { clear. induction olds as [|o olds IH]; simpl; [reflexivity|]. now rewrite IH. }
  rewrite Hidx, Hget. reflexivity.
Qed.

Lemma get_offset (old_tensor : Tensor.t) (rsizes olds : list nat) :
  Tensor.wf old_tensor ->
  Tensor.shape old_tensor = rev rsizes ->
  Forall2 lt olds rsizes ->
  Tensor.get old_tensor (rev (map Z.of_nat olds))
  = inr (nth (offset_rev rsizes olds) (Tensor.data old_tensor) 0%Q).
Proof.
  intros Hwf Hshape Holds. unfold Tensor.get.
  rewrite Hshape, <- map_rev, flat_index_offset_rev by exact Holds. simpl.
  pose proof (offset_rev_bound rsizes olds Holds) as Hb.
  assert (Hlen : length (Tensor.data old_tensor) = Tensor.prod rsizes).
  { unfold Tensor.wf in Hwf. rewrite Hwf, Hshape.
    change (fold_right Nat.mul 1 (rev rsizes)) with (Tensor.prod (rev rsizes)).
    apply prod_rev. }
  destruct (nth_error (Tensor.data old_tensor) (offset_rev rsizes olds)) as [v|] eqn:E.
  - now rewrite (nth_error_nth _ _ _ E).
  - apply nth_error_None in E. lia.
Qed.

(** What [new_cell] computes on simple axes. *)
Lemma new_cell_simple (old_tensor : Tensor.t) (evidence : option Tensor.t)
    (rsizes : list nat) (raxes : list Harmonize.axis) (cell_idx : nat) :
  Tensor.wf old_tensor ->
  Tensor.shape old_tensor = rev rsizes ->
  Forall2 simple_axis rsizes raxes ->
  Forall (fun n => 0 < n) (lookup_sizes raxes) ->
  let positions := Harmonize.decompose cell_idx (lookup_sizes raxes) in
  let old_value :=
    nth (offset_rev rsizes (old_positions rsizes raxes positions))
        (Tensor.data old_tensor) 0%Q in
  Harmonize.new_cell old_tensor evidence raxes cell_idx
  = inr (match evidence with
         | None => (old_value * cell_fraction raxes positions)%Q
         | Some _ => old_value
         end).
Proof.
  intros Hwf Hshape Hsimple Hpos positions old_value.
  unfold Harmonize.new_cell. fold (lookup_sizes raxes). fold positions.
  destruct (cell_map_simple rsizes raxes positions Hsimple
              (decompose_bound _ cell_idx Hpos)) as [Hmap Holds].
  rewrite Hmap. simpl Py.bind.
  rewrite (gather_singletons old_tensor evidence _ old_value).
  - simpl Py.bind. cbv iota beta.
    destruct evidence as [ev|]; [|reflexivity].
    reflexivity.
  - now apply get_offset.
Qed.

(** ** Rearranging sums *)

Open Scope Q_scope.

Lemma Qsum_map_add {A} (f g : A -> Q) (l : list A) :
  Tensor.Qsum (map (fun a => f a + g a) l)
  == Tensor.Qsum (map f l) + Tensor.Qsum (map g l).
Proof.
  induction l as [|a l IH]; simpl; [ring|]. rewrite IH. ring.
Qed.

Lemma Qsum_map_scale {A} (f : A -> Q) (c : Q) (l : list A) :
  Tensor.Qsum (map (fun a => f a * c) l) == Tensor.Qsum (map f l) * c.
Proof.
  induction l as [|a l IH]; simpl; [ring|]. rewrite IH. ring.
Qed.

Lemma Qsum_zeros {A} (l : list A) : Tensor.Qsum (map (fun _ => 0) l) == 0.
Proof. induction l as [|a l IH]; simpl; [reflexivity|]. rewrite IH. ring. Qed.

Lemma Qsum_indicator (g : nat -> Q) (x : Q) (k : nat) :
  forall s start,
    (start <= k < start + s)%nat ->
    Tensor.Qsum (map (fun o => g o * (if (k =? o)%nat then x else 0)) (seq start s))
    == g k * x.
Proof.
  induction s as [|s IH]; intros start Hk; [lia|]. simpl.
  destruct (Nat.eq_dec k start) as [-> | Hne].
  - rewrite Nat.eqb_refl.
    rewrite (Qsum_ext _ (fun _ => 0)).
    + rewrite Qsum_zeros. ring.
    + intros o Ho. apply in_seq in Ho.
      replace (start =? o)%nat with false by (symmetry; apply Nat.eqb_neq; lia). ring.
  - replace (k =? start)%nat with false by (symmetry; now apply Nat.eqb_neq).
    rewrite IH by lia. ring.
Qed.

(** Grouping a sum over new bins by the old bin they look up. *)
Lemma Qsum_regroup (g : nat -> Q) (h : nat -> nat) (p : nat -> Q) (s : nat) :
  forall l : list nat,
    (forall i, In i l -> (h i < s)%nat) ->
    Tensor.Qsum (map (fun i => g (h i) * p i) l)
    == Tensor.Qsum
         (map (fun o =>
                 g o * Tensor.Qsum (map (fun i => if (h i =? o)%nat then p i else 0) l))
              (seq 0 s)).
Proof.
  induction l as [|i l IH]; intro Hh; simpl.
  - rewrite (Qsum_ext _ (fun _ => 0)); [now rewrite Qsum_zeros|]. intros; ring.
  - rewrite IH by (intros j Hj; apply Hh; now right).
    rewrite (Qsum_ext
               (fun o => g o * ((if (h i =? o)%nat then p i else 0)
                                + Tensor.Qsum (map (fun i0 => if (h i0 =? o)%nat
                                                              then p i0 else 0) l)))
               (fun o => g o * (if (h i =? o)%nat then p i else 0)
                         + g o * Tensor.Qsum (map (fun i0 => if (h i0 =? o)%nat
                                                             then p i0 else 0) l)))
      by (intros; ring).
    rewrite Qsum_map_add.
    rewrite (Qsum_indicator g (p i) (h i) s 0%nat)
      by (specialize (Hh i (or_introl eq_refl)); lia).
    reflexivity.
Qed.

Lemma seq_from (k n : nat) : seq k n = map (fun i => (k + i)%nat) (seq 0 n).
Proof.
  revert k. induction n as [|n IH]; intro k; simpl; [reflexivity|].
  rewrite Nat.add_0_r. f_equal.
  rewrite (IH (S k)), (IH 1%nat), map_map. apply map_ext. intro i. lia.
Qed.

(** A sum over flat indexes is the double sum over quotient and
    remainder. *)
Lemma Qsum_divmod (F : nat -> nat -> Q) (L : nat) :
  (0 < L)%nat ->
  forall N,
    Tensor.Qsum (map (fun c => F (c mod L)%nat (c / L)%nat) (seq 0 (L * N)))
    == Tensor.Qsum (map (fun q => Tensor.Qsum (map (fun i => F i q) (seq 0 L)))
                        (seq 0 N)).
Proof.
  intros HL. induction N as [|N IH].
  - rewrite Nat.mul_0_r. reflexivity.
  - replace (L * S N)%nat with (L * N + L)%nat by lia.
    rewrite seq_app, map_app, Qsum_app, IH.
    rewrite (seq_S N 0), map_app, Qsum_app. simpl.
    apply Qplus_comp; [reflexivity|].
    rewrite Qplus_0_r.
    rewrite (seq_from (L * N) L).
    rewrite !map_map. apply Qsum_ext. intros i Hi. apply in_seq in Hi.
    replace ((L * N + i) mod L)%nat with i
      by (rewrite Nat.add_comm, Nat.mul_comm, Nat.Div0.mod_add;
          symmetry; apply Nat.mod_small; lia).
    replace ((L * N + i) / L)%nat with N
      by (rewrite Nat.add_comm, Nat.mul_comm, Nat.div_add by lia;
          rewrite Nat.div_small by lia; reflexivity).
    reflexivity.
Qed.

Lemma block_sums (s M : nat) (data : list Q) :
  length data = (s * M)%nat ->
  Tensor.Qsum
    (map (fun b => Tensor.Qsum (map (fun o => nth (o + s * b) data 0) (seq 0 s)))
         (seq 0 M))
  == Tensor.Qsum data.
Proof.
  intro Hlen. destruct s as [|s'].
  - simpl in Hlen. destruct data; [|discriminate]. simpl.
    apply (Qsum_zeros (seq 0 M)).
  - set (s := S s') in *.
    rewrite <- (Qsum_divmod (fun o b => nth (o + s * b) data 0) s ltac:(unfold s; lia) M).
    rewrite <- Hlen.
    rewrite (map_ext (fun c => nth ((c mod s) + s * (c / s)) data 0)
                     (fun c => nth c data 0)).
    + now rewrite map_nth_seq.
    + intro c. f_equal. rewrite (Nat.div_mod_eq c s) at 3. lia.
Qed.

Lemma simple_axis_position (s : nat) (a : Harmonize.axis) (i : nat) :
  simple_axis s a -> (i < length (Harmonize.lookup a))%nat ->
  (old_position s (nth i (Harmonize.lookup a) 0%Z) < s)%nat.
Proof.
  intros [_ Hlook] Hi. rewrite Forall_forall in Hlook.
  apply (py_index_default s). apply Hlook. now apply nth_In.
Qed.

(** The harmonized weights add up to the old weights. *)
Lemma harmonized_sum :
  forall (raxes : list Harmonize.axis) (rsizes : list nat),
    Forall2 simple_axis rsizes raxes ->
    Forall2 unity_axis rsizes raxes ->
    Forall (fun n => (0 < n)%nat) (lookup_sizes raxes) ->
    forall data : list Q,
      length data = Tensor.prod rsizes ->
      Tensor.Qsum
        (map (fun c =>
                nth (offset_rev rsizes
                       (old_positions rsizes raxes
                          (Harmonize.decompose c (lookup_sizes raxes))))
                    data 0
                * cell_fraction raxes (Harmonize.decompose c (lookup_sizes raxes)))
             (seq 0 (Tensor.prod (lookup_sizes raxes))))
      == Tensor.Qsum data.
Proof.
  induction raxes as [|a ra IH]; intros rsizes Hsimple Hunity Hpos data Hlen.
  - inversion Hsimple; subst. simpl in *.
    destruct data as [|x [|y data]]; try discriminate. simpl.
    unfold cell_fraction. simpl. ring.
  - inversion Hsimple as [|s a' rs ra' Hs Hsimple']; subst.
    inversion Hunity as [|s' a' rs' ra' Hu Hunity']; subst.
    inversion Hpos as [|L' lens' HL Hpos']; subst.
    set (L := length (Harmonize.lookup a)) in *.
    set (lens := lookup_sizes ra) in *.
    set (h := fun i => old_position s (nth i (Harmonize.lookup a) 0%Z)).
    set (p := fun i => nth i (Harmonize.percentage a) 0).
    set (off := fun q => offset_rev rs (old_positions rs ra (Harmonize.decompose q lens))).
    set (frac := fun q => cell_fraction ra (Harmonize.decompose q lens)).
    set (data' := map (fun b => Tensor.Qsum
                                  (map (fun o => nth (o + s * b) data 0) (seq 0 s)))
                      (seq 0 (Tensor.prod rs))).
    change (lookup_sizes (a :: ra)) with (L :: lens).
    change (Tensor.prod (L :: lens)) with (L * Tensor.prod lens)%nat.
    set (F := fun i q => nth (h i + s * off q) data 0 * (p i * frac q)).
    apply Qeq_trans with
      (Tensor.Qsum (map (fun q => Tensor.Qsum (map (fun i => F i q) (seq 0 L)))
                        (seq 0 (Tensor.prod lens)))).
    { rewrite <- (Qsum_divmod F L HL (Tensor.prod lens)).
      apply Qsum_ext. intros c _. reflexivity. }
    rewrite (Qsum_ext _ (fun q => nth (off q) data' 0 * frac q)).
    + unfold off, frac. rewrite (IH rs Hsimple' Hunity' Hpos' data').
      * apply block_sums. simpl in Hlen. exact Hlen.
      * unfold data'. now rewrite length_map, length_seq.
    + intros q _.
      assert (Hoff : (off q < Tensor.prod rs)%nat).
      { apply offset_rev_bound.
        apply (cell_map_simple rs ra (Harmonize.decompose q lens) Hsimple').
        now apply decompose_bound. }
      set (g := fun o => nth (o + s * off q) data 0).
      apply Qeq_trans with (Tensor.Qsum (map (fun i => g (h i) * p i) (seq 0 L)) * frac q).
      { rewrite <- Qsum_map_scale. apply Qsum_ext. intros i _. unfold F, g. ring. }
      rewrite (Qsum_regroup g h p s).
      * rewrite (Qsum_ext _ g).
        -- unfold data'.
           rewrite (nth_indep _ 0 (Tensor.Qsum (map (fun o => nth (o + s * 0) data 0)
                                                    (seq 0 s))))
             by now rewrite length_map, length_seq.
           rewrite (map_nth (fun b => Tensor.Qsum
                                        (map (fun o => nth (o + s * b) data 0) (seq 0 s)))).
           rewrite seq_nth by exact Hoff. reflexivity.
        -- intros o Ho. apply in_seq in Ho.
           unfold h, p, L. rewrite (Hu o) by lia. ring.
      * intros i Hi. apply in_seq in Hi. unfold h.
        apply simple_axis_position; [exact Hs | lia].
Qed.

(** ** A continuous axis on a finer grid *)

Lemma plan_axis_continuous (n_new n_old : nat)
    (new_bounds : option (list (Q * Q))) (new_bins : list (list Harmonize.feature_bins))
    (old_bounds : option (list (Q * Q))) (old_bins : list (list Harmonize.feature_bins))
    (old_mapping : list (list Harmonize.mapping_level)) (feature_idx : Z) (g : grid) :
  continuous_feature n_new n_old new_bounds new_bins old_bounds old_bins old_mapping
    feature_idx g ->
  Harmonize.plan_axis n_new n_old new_bounds new_bins old_bounds old_bins old_mapping
    feature_idx
  = inr (continuous_plan g).
Proof.
  intros [[ol [Hol Hos]] [[ml [Hml Hms]] [[nl [Hnl Hns]] [Hnb Hob]]]].
  unfold Harmonize.plan_axis.
  rewrite Hol. cbv beta iota delta [Py.bind]. rewrite Hos. cbv beta iota delta [Py.bind].
  rewrite Hml. cbv beta iota delta [Py.bind]. rewrite Hms. cbv beta iota delta [Py.bind].
  rewrite Hnl. cbv beta iota delta [Py.bind]. rewrite Hns. cbv beta iota delta [Py.bind].
  rewrite Hnb. cbv beta iota delta [Py.bind]. rewrite Hob. cbv beta iota delta [Py.bind].
  reflexivity.
Qed.

Lemma searchsorted_left_le (a : list Q) (v : Q) :
  (Harmonize.searchsorted_left a v <= length a)%nat.
Proof.
  induction a as [|x a IH]; simpl; [lia|]. destruct (Qle_bool v x); lia.
Qed.

Lemma searchsorted_left_below (a : list Q) (v : Q) :
  forall t, (t < Harmonize.searchsorted_left a v)%nat -> nth t a 0 < v.
Proof.
  induction a as [|x a IH]; simpl; intros t Ht; [lia|].
  destruct (Qle_bool v x) eqn:E; [lia|].
  destruct t as [|t].
  - apply Qnot_le_lt. intro H. apply Qle_bool_iff in H. congruence.
  - apply IH. lia.
Qed.

Lemma searchsorted_left_at (a : list Q) (v : Q) :
  (Harmonize.searchsorted_left a v < length a)%nat ->
  v <= nth (Harmonize.searchsorted_left a v) a 0.
Proof.
  induction a as [|x a IH]; simpl; intro H; [lia|].
  destruct (Qle_bool v x) eqn:E.
  - now apply Qle_bool_iff.
  - apply IH. lia.
Qed.

Lemma sorted_nth_lt (l : list Q) :
  StronglySorted Qlt l ->
  forall i j, (i < j < length l)%nat -> nth i l 0 < nth j l 0.
Proof.
  induction 1 as [|x l Hl IH Hx]; intros i j Hij; simpl in Hij; [lia|].
  destruct j as [|j]; [lia|]. destruct i as [|i]; simpl.
  - rewrite Forall_forall in Hx. apply Hx. apply nth_In. lia.
  - apply IH. lia.
Qed.

Lemma sorted_nth_le (l : list Q) :
  StronglySorted Qlt l ->
  forall i j, (i <= j < length l)%nat -> nth i l 0 <= nth j l 0.
Proof.
  intros Hl i j Hij. destruct (Nat.eq_dec i j) as [-> | Hne]; [apply Qle_refl|].
  apply Qlt_le_weak. apply sorted_nth_lt; [exact Hl | lia].
Qed.

Lemma sorted_nth_lt_inv (l : list Q) :
  StronglySorted Qlt l ->
  forall i j, (i < length l)%nat -> (j < length l)%nat ->
              nth i l 0 < nth j l 0 -> (i < j)%nat.
Proof.
  intros Hl i j Hi Hj Hlt. destruct (Nat.lt_ge_cases i j) as [H | H]; [exact H|].
  pose proof (sorted_nth_le l Hl j i ltac:(lia)). lra.
Qed.

(** At and after the insertion point the cuts are not below [v]. *)
Lemma searchsorted_left_above (a : list Q) (v : Q) :
  StronglySorted Qlt a ->
  forall t, (Harmonize.searchsorted_left a v <= t < length a)%nat -> v <= nth t a 0.
Proof.
  intros Ha t Ht.
  apply Qle_trans with (nth (Harmonize.searchsorted_left a v) a 0).
  - apply searchsorted_left_at. lia.
  - apply sorted_nth_le; [exact Ha | lia].
Qed.

Lemma clamp_below (lo hi x : Q) : lo <= hi -> x <= lo -> clamp lo hi x == lo.
Proof.
  intros H1 H2. unfold clamp.
  destruct (Q.max_spec x lo) as [[H3 E] | [H3 E]];
    destruct (Q.min_spec (Qmax x lo) hi) as [[H4 E'] | [H4 E']];
    rewrite E'; lra.
Qed.

Lemma clamp_above (lo hi x : Q) : lo <= hi -> hi <= x -> clamp lo hi x == hi.
Proof.
  intros H1 H2. unfold clamp.
  destruct (Q.max_spec x lo) as [[H3 E] | [H3 E]];
    destruct (Q.min_spec (Qmax x lo) hi) as [[H4 E'] | [H4 E']];
    rewrite E'; lra.
Qed.

Lemma clamp_inside (lo hi x : Q) : lo <= x -> x <= hi -> clamp lo hi x == x.
Proof.
  intros H1 H2. unfold clamp.
  destruct (Q.max_spec x lo) as [[H3 E] | [H3 E]];
    destruct (Q.min_spec (Qmax x lo) hi) as [[H4 E'] | [H4 E']];
    rewrite E'; lra.
Qed.

(** The share [percentage_of] computes is the length of the part of the
    new bin inside the old bin, over the length of the old bin. *)
Lemma share_is_clamped (nl nh ol oh : Q) :
  ol < oh ->
  (nl <= nh \/ nl <= ol \/ oh <= nh) ->
  (if Qle_bool oh nl || Qle_bool nh ol then 0
   else ((if Qle_bool nh oh then nh else oh) - (if Qle_bool ol nl then nl else ol))
        / (oh - ol))
  == (clamp ol oh nh - clamp ol oh nl) / (oh - ol).
Proof.
  intros Hw Hcond.
  assert (Hdiv : forall a b, a == b -> a / (oh - ol) == b / (oh - ol))
    by (intros a b E; now rewrite E).
  destruct (Qle_bool oh nl) eqn:E1.
  - apply Qle_bool_iff in E1. simpl.
    assert (Hnh : oh <= nh) by (destruct Hcond as [H | [H | H]]; lra).
    rewrite (clamp_above ol oh nh), (clamp_above ol oh nl) by lra.
    field. lra.
  - assert (H1 : nl < oh).
    { apply Qnot_le_lt. intro H. apply Qle_bool_iff in H. congruence. }
    destruct (Qle_bool nh ol) eqn:E2.
    + apply Qle_bool_iff in E2. simpl.
      assert (Hnl : nl <= ol) by (destruct Hcond as [H | [H | H]]; lra).
      rewrite (clamp_below ol oh nh), (clamp_below ol oh nl) by lra.
      field. lra.
    + assert (H2 : ol < nh).
      { apply Qnot_le_lt. intro H. apply Qle_bool_iff in H. congruence. }
      simpl. apply Hdiv.
      destruct (Qle_bool nh oh) eqn:E3; destruct (Qle_bool ol nl) eqn:E4.
      * apply Qle_bool_iff in E3. apply Qle_bool_iff in E4.
        rewrite (clamp_inside ol oh nh), (clamp_inside ol oh nl) by lra. reflexivity.
      * apply Qle_bool_iff in E3.
        assert (H4 : nl < ol).
        { apply Qnot_le_lt. intro H. apply Qle_bool_iff in H. congruence. }
        rewrite (clamp_inside ol oh nh), (clamp_below ol oh nl) by lra. reflexivity.
      * apply Qle_bool_iff in E4.
        assert (H3 : oh < nh).
        { apply Qnot_le_lt. intro H. apply Qle_bool_iff in H. congruence. }
        rewrite (clamp_above ol oh nh), (clamp_inside ol oh nl) by lra. reflexivity.
      * assert (H3 : oh < nh).
        { apply Qnot_le_lt. intro H. apply Qle_bool_iff in H. congruence. }
        assert (H4 : nl < ol).
        { apply Qnot_le_lt. intro H. apply Qle_bool_iff in H. congruence. }
        rewrite (clamp_above ol oh nh), (clamp_below ol oh nl) by lra. reflexivity.
Qed.

Lemma percentage_of_edges (g : grid) (k o : nat) :
  Harmonize.percentage_of (new_row g) (old_row g) (new_cuts g) (old_cuts g) k (Z.of_nat o)
  = (if Qle_bool (old_high g o) (new_low g k) || Qle_bool (new_high g k) (old_low g o)
     then 0
     else ((if Qle_bool (new_high g k) (old_high g o) then new_high g k else old_high g o)
           - (if Qle_bool (old_low g o) (new_low g k) then new_low g k else old_low g o))
          / (old_high g o - old_low g o)).
Proof.
  unfold Harmonize.percentage_of, new_low, new_high, old_low, old_high.
  replace (Z.of_nat o =? 1)%Z with (o =? 1)%nat
    by (destruct (Nat.eqb_spec o 1); symmetry; [apply Z.eqb_eq | apply Z.eqb_neq]; lia).
  replace (Z.of_nat (length (old_cuts g)) <? Z.of_nat o)%Z
    with (length (old_cuts g) <? o)%nat
    by (destruct (Nat.ltb_spec (length (old_cuts g)) o); symmetry;
        [apply Z.ltb_lt | apply Z.ltb_ge]; lia).
  replace (Z.to_nat (Z.of_nat o - 2)) with (o - 2)%nat by lia.
  replace (Z.to_nat (Z.of_nat o - 1)) with (o - 1)%nat by lia.
  reflexivity.
Qed.

Section FinerGrid.

Variable g : grid.
Hypothesis Hfiner : finer_grid g.

Let n := length (old_cuts g).
Let m := length (new_cuts g).

Lemma old_cut_bounds (t : nat) :
  (t < n)%nat -> fst (old_row g) < nth t (old_cuts g) 0 < snd (old_row g).
Proof.
  intro Ht. destruct Hfiner as [_ [_ [_ [_ [_ [_ Hb]]]]]].
  apply Hb. apply nth_In. exact Ht.
Qed.

Lemma old_bin_nonempty (o : nat) :
  (1 <= o <= n + 1)%nat -> old_low g o < old_high g o.
Proof.
  intro Ho. destruct Hfiner as [Hso [_ [_ [_ [_ [Hrow _]]]]]].
  unfold old_low, old_high. fold n.
  destruct (Nat.eqb_spec o 1) as [E | Hne];
    destruct (Nat.ltb_spec n o) as [Hlt | Hge].
  - exact Hrow.
  - apply old_cut_bounds. lia.
  - apply old_cut_bounds. lia.
  - apply sorted_nth_lt; [exact Hso | fold n; lia].
Qed.

Lemma old_low_above_min (o : nat) :
  (1 <= o <= n + 1)%nat -> fst (old_row g) <= old_low g o.
Proof.
  intro Ho. unfold old_low. destruct (Nat.eqb_spec o 1); [apply Qle_refl|].
  apply Qlt_le_weak. apply old_cut_bounds. lia.
Qed.

Lemma old_high_below_max (o : nat) :
  (1 <= o <= n + 1)%nat -> old_high g o <= snd (old_row g).
Proof.
  intro Ho. unfold old_high. fold n.
  destruct (Nat.ltb_spec n o); [apply Qle_refl|].
  apply Qlt_le_weak. apply old_cut_bounds. lia.
Qed.

Lemma old_bins_ordered (o o' : nat) :
  (1 <= o < o')%nat -> (o' <= n + 1)%nat -> old_high g o <= old_low g o'.
Proof.
  intros Ho Ho'. destruct Hfiner as [Hso _].
  unfold old_low, old_high. fold n.
  destruct (Nat.ltb_spec n o); [lia|].
  destruct (Nat.eqb_spec o' 1); [lia|].
  apply sorted_nth_le; [exact Hso | fold n; lia].
Qed.

Lemma new_cuts_increase (k : nat) :
  (0 < k < m)%nat -> new_low g k < new_high g k.
Proof.
  intro Hk. destruct Hfiner as [_ [Hsn _]].
  unfold new_low, new_high. fold m.
  destruct (Nat.eqb_spec k 0); [lia|].
  destruct (Nat.leb_spec m k); [lia|].
  apply sorted_nth_lt; [exact Hsn | fold m; lia].
Qed.

Lemma new_high_next (k : nat) :
  (k < m)%nat -> new_high g k = new_low g (S k).
Proof.
  intro Hk. unfold new_low, new_high. fold m.
  destruct (Nat.leb_spec m k); [lia|]. simpl. now rewrite Nat.sub_0_r.
Qed.

Lemma looked_up_range (k : nat) : (1 <= looked_up g k <= n + 1)%nat.
Proof.
  unfold looked_up. fold m n. destruct (k <? m)%nat; [|lia].
  pose proof (searchsorted_left_le (old_cuts g) (nth k (new_cuts g) 0)).
  fold n in H. lia.
Qed.

(** A new bin ends at or before the upper edge of the old bin it looks
    up, and begins after that bin's lower edge. *)
Lemma looked_up_upper (k : nat) :
  (k <= m)%nat -> (looked_up g k <= n)%nat ->
  (k < m)%nat /\ new_high g k <= old_high g (looked_up g k).
Proof.
  intros Hk Hj. unfold looked_up in *. fold m n in Hj |- *.
  destruct (Nat.ltb_spec k m) as [Hlt | Hge]; [|lia].
  split; [exact Hlt|].
  unfold new_high, old_high. fold m n.
  destruct (Nat.leb_spec m k); [lia|].
  set (ss := Harmonize.searchsorted_left (old_cuts g) (nth k (new_cuts g) 0)) in *.
  destruct (Nat.ltb_spec n (ss + 1)); [lia|].
  replace (ss + 1 - 1)%nat with ss by lia.
  apply searchsorted_left_at. fold n. lia.
Qed.

Lemma looked_up_lower (k : nat) :
  (k < m)%nat -> (2 <= looked_up g k)%nat ->
  old_low g (looked_up g k) < new_high g k.
Proof.
  intros Hk Hj. unfold looked_up in *. fold m n in Hj |- *.
  destruct (Nat.ltb_spec k m) as [Hlt | Hge]; [|lia].
  unfold new_high, old_low. fold m n.
  destruct (Nat.leb_spec m k); [lia|].
  set (ss := Harmonize.searchsorted_left (old_cuts g) (nth k (new_cuts g) 0)) in *.
  destruct (Nat.eqb_spec (ss + 1) 1); [lia|].
  apply searchsorted_left_below. fold ss. lia.
Qed.

(** An old cut below a new cut is at or below the new cut before it. *)
Lemma old_cut_before (t k : nat) :
  (t < n)%nat -> (k <= m)%nat ->
  ((k < m)%nat -> nth t (old_cuts g) 0 < nth k (new_cuts g) 0) ->
  (1 <= k)%nat /\ nth t (old_cuts g) 0 <= nth (k - 1) (new_cuts g) 0.
Proof.
  intros Ht Hk Hlt. destruct Hfiner as [_ [Hsn [Hsup _]]].
  destruct (Hsup (nth t (old_cuts g) 0) ltac:(apply nth_In; exact Ht))
    as [c' [Hin Heq]].
  destruct (In_nth _ _ 0 Hin) as [u [Hu Hnth]]. fold m in Hu.
  destruct (Nat.eq_dec k m) as [-> | Hne].
  - split; [lia|]. rewrite <- Heq, <- Hnth.
    apply sorted_nth_le; [exact Hsn | fold m; lia].
  - specialize (Hlt ltac:(lia)).
    assert (Huk : (u < k)%nat).
    { apply (sorted_nth_lt_inv _ Hsn); [fold m; lia | fold m; lia|].
      rewrite Hnth, Heq. exact Hlt. }
    split; [lia|]. rewrite <- Heq, <- Hnth.
    apply sorted_nth_le; [exact Hsn | fold m; lia].
Qed.

End FinerGrid.

Section FinerGridShares.

Variable g : grid.
Hypothesis Hfiner : finer_grid g.

Let n := length (old_cuts g).
Let m := length (new_cuts g).

(** Whether or not the new bin at position [k] looks up old bin [o], its
    contribution to [o] is the clamped length over the length of [o]. *)
Lemma share_of_old_bin (k o : nat) :
  (k <= m)%nat -> (1 <= o <= n + 1)%nat ->
  (if (looked_up g k =? o)%nat
   then Harmonize.percentage_of (new_row g) (old_row g) (new_cuts g) (old_cuts g) k
          (Z.of_nat (looked_up g k))
   else 0)
  == (clamp (old_low g o) (old_high g o) (new_high g k)
      - clamp (old_low g o) (old_high g o) (new_low g k))
     / (old_high g o - old_low g o).
Proof.
  intros Hk Ho.
  pose proof (old_bin_nonempty g Hfiner o Ho) as Hw. fold n in Ho.
  pose proof (old_low_above_min g Hfiner o Ho) as Hlow.
  pose proof (old_high_below_max g Hfiner o Ho) as Hhigh.
  pose proof (looked_up_range g k) as Hj. fold n in Hj.
  assert (Hnew_lo : fst (new_row g) <= fst (old_row g)) by apply Hfiner.
  assert (Hnew_hi : snd (old_row g) <= snd (new_row g)) by apply Hfiner.
  assert (Hfirst : k = 0%nat -> new_low g k <= old_low g o).
  { intros ->. unfold new_low. simpl. lra. }
  assert (Hlast : k = m -> old_high g o <= new_high g k).
  { intros ->. unfold new_high. fold m. rewrite Nat.leb_refl. lra. }
  destruct (Nat.eqb_spec (looked_up g k) o) as [E | Hne].
  - rewrite E, percentage_of_edges. apply share_is_clamped; [exact Hw|].
    destruct (Nat.eq_dec k 0) as [Hk0 | Hk0]; [right; left; now apply Hfirst|].
    destruct (Nat.eq_dec k m) as [Hkm | Hkm]; [right; right; now apply Hlast|].
    left. apply Qlt_le_weak. apply new_cuts_increase; [exact Hfiner | fold m; lia].
  - destruct (Nat.lt_ge_cases (looked_up g k) o) as [Hlt | Hge].
    + destruct (looked_up_upper g k Hk ltac:(fold n; lia)) as [Hkm Hup].
      pose proof (old_bins_ordered g Hfiner (looked_up g k) o ltac:(lia) ltac:(fold n; lia))
        as Hord.
      assert (Hnl : new_low g k <= old_low g o).
      { destruct (Nat.eq_dec k 0) as [Hk0 | Hk0]; [now apply Hfirst|].
        pose proof (new_cuts_increase g Hfiner k ltac:(fold m; lia)). lra. }
      rewrite (clamp_below _ _ (new_high g k)), (clamp_below _ _ (new_low g k)) by lra.
      field. lra.
    + assert (Hon : (o <= n)%nat) by lia.
      pose proof (old_bins_ordered g Hfiner o (looked_up g k) ltac:(lia) ltac:(fold n; lia))
        as Hord.
      assert (Hcut : old_high g o = nth (o - 1) (old_cuts g) 0).
      { unfold old_high. fold n. destruct (Nat.ltb_spec n o); [lia | reflexivity]. }
      assert (Hnh : (k < m)%nat -> old_high g o < new_high g k).
      { intro Hkm. pose proof (looked_up_lower g k Hkm ltac:(lia)). lra. }
      assert (Hnh' : old_high g o <= new_high g k).
      { destruct (Nat.eq_dec k m) as [Hkm | Hkm]; [now apply Hlast|].
        apply Qlt_le_weak. apply Hnh. lia. }
      destruct (old_cut_before g Hfiner (o - 1) k ltac:(fold n; lia) Hk) as [Hk1 Hbefore].
      { intro Hkm. rewrite <- Hcut. specialize (Hnh Hkm).
        unfold new_high in Hnh. fold m in Hnh.
        destruct (Nat.leb_spec m k); [lia | exact Hnh]. }
      assert (Hnl : old_high g o <= new_low g k).
      { unfold new_low. destruct (Nat.eqb_spec k 0); [lia|]. now rewrite Hcut. }
      rewrite (clamp_above _ _ (new_high g k)), (clamp_above _ _ (new_low g k)) by lra.
      field. lra.
Qed.

Lemma Qsum_telescope (u : nat -> Q) (K : nat) :
  Tensor.Qsum (map (fun k => u (S k) - u k) (seq 0 K)) == u K - u 0%nat.
Proof.
  induction K as [|K IH]; [simpl; ring|].
  rewrite seq_S, map_app, Qsum_app, IH. simpl. ring.
Qed.

(** The shares of the new bins that look up old bin [o] add up to 1. *)
Lemma continuous_shares_unity (o : nat) :
  (1 <= o <= n + 1)%nat ->
  Tensor.Qsum
    (map (fun k =>
            if (looked_up g k =? o)%nat
            then Harmonize.percentage_of (new_row g) (old_row g) (new_cuts g)
                   (old_cuts g) k (Z.of_nat (looked_up g k))
            else 0)
         (seq 0 (m + 1)))
  == 1.
Proof.
  intro Ho.
  pose proof (old_bin_nonempty g Hfiner o Ho) as Hw.
  pose proof (old_low_above_min g Hfiner o Ho) as Hlow.
  pose proof (old_high_below_max g Hfiner o Ho) as Hhigh.
  assert (Hnew_lo : fst (new_row g) <= fst (old_row g)) by apply Hfiner.
  assert (Hnew_hi : snd (old_row g) <= snd (new_row g)) by apply Hfiner.
  set (OL := old_low g o) in *. set (OH := old_high g o) in *.
  set (u := fun k => clamp OL OH (if (k <=? m)%nat then new_low g k else snd (new_row g))).
  apply Qeq_trans with
    (Tensor.Qsum (map (fun k => (u (S k) - u k) * / (OH - OL)) (seq 0 (m + 1)))).
  - apply Qsum_ext. intros k Hk. apply in_seq in Hk.
    rewrite (share_of_old_bin k o) by (fold m n; lia). fold OL OH.
    unfold Qdiv. apply Qmult_comp; [|reflexivity].
    unfold u. destruct (Nat.leb_spec k m); [|lia].
    destruct (Nat.leb_spec (S k) m).
    + rewrite (new_high_next g k) by (fold m; lia). reflexivity.
    + assert (k = m) by lia. subst k. unfold new_high. fold m.
      rewrite Nat.leb_refl. reflexivity.
  - rewrite Qsum_map_scale, Qsum_telescope. unfold u.
    destruct (Nat.leb_spec (m + 1) m); [lia|]. simpl.
    rewrite (clamp_above OL OH (snd (new_row g))) by lra.
    rewrite (clamp_below OL OH (new_low g 0)) by (unfold new_low; simpl; lra).
    field. lra.
Qed.

End FinerGridShares.

Lemma combine_map_r {A B} (h : A -> B) (l : list A) :
  combine l (map h l) = map (fun x => (x, h x)) l.
Proof. induction l as [|a l IH]; simpl; [reflexivity|]. now rewrite IH. Qed.

Lemma map_seq_nth {A B} (F : A -> B) (l : list A) (d : A) :
  map (fun k => F (nth k l d)) (seq 0 (length l)) = map F l.
Proof.
  rewrite <- (map_map (fun k => nth k l d) F). now rewrite map_nth_seq.
Qed.

Lemma old_position_nat (s j : nat) : old_position s (Z.of_nat j) = j.
Proof.
  unfold old_position.
  replace (Z.of_nat j <? 0)%Z with false by (symmetry; apply Z.ltb_ge; lia).
  apply Nat2Z.id.
Qed.

Lemma old_position_last (s : nat) : (0 < s)%nat -> old_position s (-1)%Z = (s - 1)%nat.
Proof. intro H. unfold old_position. change (-1 <? 0)%Z with true. cbv iota. lia. Qed.

Section ContinuousPlan.

Variable g : grid.

Let n := length (old_cuts g).
Let m := length (new_cuts g).

Lemma continuous_lookup :
  Harmonize.lookup (continuous_plan g)
  = 0%Z :: map (fun k => Z.of_nat (looked_up g k)) (seq 0 (m + 1)) ++ [(-1)%Z].
Proof.
  unfold continuous_plan, Harmonize.continuous_axis. simpl.
  do 2 f_equal. rewrite seq_app, map_app. simpl. f_equal.
  - rewrite <- (map_seq_nth
                  (fun v => (Z.of_nat (Harmonize.searchsorted_left (old_cuts g) v) + 1)%Z)
                  (new_cuts g) 0).
    fold m. apply map_ext_in. intros k Hk. apply in_seq in Hk.
    unfold looked_up. fold m. destruct (Nat.ltb_spec k m); lia.
  - unfold looked_up. fold m n. rewrite Nat.ltb_irrefl. f_equal. lia.
Qed.

Lemma continuous_percentage :
  Harmonize.percentage (continuous_plan g)
  = 1 :: map (fun k =>
                Harmonize.percentage_of (new_row g) (old_row g) (new_cuts g)
                  (old_cuts g) k (Z.of_nat (looked_up g k)))
             (seq 0 (m + 1)) ++ [1].
Proof.
  pose proof continuous_lookup as Hl.
  unfold continuous_plan, Harmonize.continuous_axis in *. simpl in *.
  injection Hl as Hl. apply app_inj_tail in Hl as [Hl _].
  do 2 f_equal. rewrite Hl, length_map, length_seq, combine_map_r, map_map. reflexivity.
Qed.

Lemma continuous_plan_simple : simple_axis (n + 3) (continuous_plan g).
Proof.
  split; [reflexivity|]. rewrite continuous_lookup.
  constructor; [apply (normalize_index_nat (n + 3) 0); lia|]. apply Forall_app. split.
  - apply Forall_forall. intros l Hl. apply in_map_iff in Hl as [k [<- _]].
    rewrite old_position_nat. apply normalize_index_nat.
    pose proof (looked_up_range g k). fold n in H. lia.
  - constructor; [|constructor].
    rewrite old_position_last, normalize_index_last by lia. reflexivity.
Qed.

Lemma continuous_plan_size : length (Harmonize.lookup (continuous_plan g)) = (m + 3)%nat.
Proof.
  rewrite continuous_lookup. simpl. rewrite length_app, length_map, length_seq.
  simpl. lia.
Qed.

Hypothesis Hfiner : finer_grid g.

Lemma continuous_plan_unity : unity_axis (n + 3) (continuous_plan g).
Proof.
  intros o Ho. rewrite continuous_plan_size.
  replace (m + 3)%nat with (S (m + 1 + 1)) by lia.
  rewrite <- cons_seq, <- seq_shift, (seq_app (m + 1) 1 0).
  change (seq (0 + (m + 1)) 1) with [(m + 1)%nat].
  rewrite continuous_lookup, continuous_percentage.
  set (LM := map (fun k => Z.of_nat (looked_up g k)) (seq 0 (m + 1))).
  set (PM := map (fun k =>
                    Harmonize.percentage_of (new_row g) (old_row g) (new_cuts g)
                      (old_cuts g) k (Z.of_nat (looked_up g k)))
                 (seq 0 (m + 1))).
  rewrite (map_app S), map_cons, map_app, map_map.
  cbn [map].
  assert (HLM : length LM = (m + 1)%nat) by (unfold LM; now rewrite length_map, length_seq).
  assert (HPM : length PM = (m + 1)%nat) by (unfold PM; now rewrite length_map, length_seq).
  assert (Hmid :
    Tensor.Qsum
      (map (fun k =>
              if (old_position (n + 3) (nth (S k) (0%Z :: LM ++ [(-1)%Z]) 0%Z) =? o)%nat
              then nth (S k) (1 :: PM ++ [1]) 0 else 0)
           (seq 0 (m + 1)))
    == Tensor.Qsum
         (map (fun k =>
                 if (looked_up g k =? o)%nat
                 then Harmonize.percentage_of (new_row g) (old_row g) (new_cuts g)
                        (old_cuts g) k (Z.of_nat (looked_up g k))
                 else 0)
              (seq 0 (m + 1)))).
  { apply Qsum_ext. intros k Hk. apply in_seq in Hk. simpl nth.
    rewrite !app_nth1 by lia. unfold LM, PM.
    rewrite (nth_indep _ 0%Z (Z.of_nat (looked_up g 0))) by (rewrite length_map, length_seq; lia).
    rewrite (map_nth (fun k => Z.of_nat (looked_up g k))), seq_nth by lia.
    rewrite (nth_indep _ 0 (Harmonize.percentage_of (new_row g) (old_row g) (new_cuts g)
                              (old_cuts g) 0 (Z.of_nat (looked_up g 0))))
      by (rewrite length_map, length_seq; lia).
    rewrite (map_nth (fun k => Harmonize.percentage_of (new_row g) (old_row g)
                                 (new_cuts g) (old_cuts g) k (Z.of_nat (looked_up g k)))),
      seq_nth by lia.
    simpl. rewrite old_position_nat. reflexivity. }
  cbn [Tensor.Qsum fold_right]. rewrite Qsum_app, Hmid. cbn [Tensor.Qsum fold_right].
  replace (nth (S (m + 1)) (0%Z :: LM ++ [(-1)%Z]) 0%Z) with (-1)%Z
    by (simpl; rewrite app_nth2, HLM, Nat.sub_diag by lia; reflexivity).
  replace (nth (S (m + 1)) (1 :: PM ++ [1]) 0) with 1
    by (simpl; rewrite app_nth2, HPM, Nat.sub_diag by lia; reflexivity).
  rewrite old_position_last by lia.
  cbn [nth]. change (old_position (n + 3) 0%Z) with 0%nat.
  destruct (Nat.eq_dec o 0) as [-> | Ho0].
  - simpl. replace (n + 3 - 1 =? 0)%nat with false by (symmetry; apply Nat.eqb_neq; lia).
    rewrite (Qsum_ext _ (fun _ => 0)).
    + rewrite Qsum_zeros. lra.
    + intros k _. pose proof (looked_up_range g k).
      replace (looked_up g k =? 0)%nat with false by (symmetry; apply Nat.eqb_neq; lia).
      reflexivity.
  - replace (0 =? o)%nat with false by (symmetry; apply Nat.eqb_neq; lia).
    destruct (Nat.eq_dec o (n + 2)) as [-> | Hon].
    + replace (n + 3 - 1 =? n + 2)%nat with true by (symmetry; apply Nat.eqb_eq; lia).
      rewrite (Qsum_ext _ (fun _ => 0)).
      * rewrite Qsum_zeros. cbv iota. lra.
      * intros k _. pose proof (looked_up_range g k). fold n in H.
        replace (looked_up g k =? n + 2)%nat with false
          by (symmetry; apply Nat.eqb_neq; lia).
        reflexivity.
    + replace (n + 3 - 1 =? o)%nat with false by (symmetry; apply Nat.eqb_neq; lia).
      assert (Hs := continuous_shares_unity g Hfiner o).
      fold n m in Hs. rewrite Hs by lia. cbv iota. lra.
Qed.

End ContinuousPlan.

(** ** Harmonizing a tensor of continuous features *)

Lemma Forall2_rev_gen {A B} (R : A -> B -> Prop) (l : list A) (l' : list B) :
  Forall2 R l l' -> Forall2 R (rev l) (rev l').
Proof.
  induction 1 as [|a b l l' Hab _ IH]; simpl; [constructor|].
  apply Forall2_app; [exact IH | now repeat constructor].
Qed.

Lemma combine_snoc {A B} (l : list A) (l' : list B) (a : A) (b : B) :
  length l = length l' ->
  combine (l ++ [a]) (l' ++ [b]) = combine l l' ++ [(a, b)].
Proof.
  revert l'. induction l as [|x l IH]; intros [|y l'] H; simpl in *;
    try discriminate; [reflexivity|].
  rewrite IH by lia. reflexivity.
Qed.

Lemma combine_rev {A B} (l : list A) (l' : list B) :
  length l = length l' -> combine (rev l) (rev l') = rev (combine l l').
Proof.
  revert l'. induction l as [|x l IH]; intros [|y l'] H; simpl in *;
    try discriminate; [reflexivity|].
  rewrite combine_snoc by (rewrite !length_rev; lia).
  rewrite IH by lia. reflexivity.
Qed.

Lemma lookup_sizes_plans (grids : list grid) :
  lookup_sizes (rev (map continuous_plan grids)) = rev (map new_size grids).
Proof.
  unfold lookup_sizes. rewrite map_rev, map_map. f_equal.
  apply map_ext. intro g. apply continuous_plan_size.
Qed.

Lemma plans_simple (grids : list grid) :
  Forall2 simple_axis (rev (map old_size grids)) (rev (map continuous_plan grids)).
Proof.
  apply Forall2_rev_gen. induction grids as [|g grids IH]; simpl; constructor.
  - apply continuous_plan_simple.
  - exact IH.
Qed.

Lemma plans_unity (grids : list grid) :
  Forall finer_grid grids ->
  Forall2 unity_axis (rev (map old_size grids)) (rev (map continuous_plan grids)).
Proof.
  intro H. apply Forall2_rev_gen. induction H as [|g grids Hg _ IH]; simpl; constructor.
  - now apply continuous_plan_unity.
  - exact IH.
Qed.

Lemma new_sizes_positive (grids : list grid) :
  Forall (fun n => (0 < n)%nat) (rev (map new_size grids)).
Proof.
  apply Forall_rev. apply Forall_forall. intros s Hs.
  apply in_map_iff in Hs as [g [<- _]]. unfold new_size. lia.
Qed.

Lemma plan_axes_continuous (n_new n_old : nat)
    (new_bounds : option (list (Q * Q))) (new_bins : list (list Harmonize.feature_bins))
    (old_bounds : option (list (Q * Q))) (old_bins : list (list Harmonize.feature_bins))
    (old_mapping : list (list Harmonize.mapping_level))
    (feature_idxs : list Z) (grids : list grid) :
  Forall2 (continuous_feature n_new n_old new_bounds new_bins old_bounds old_bins
             old_mapping) feature_idxs grids ->
  Tensor.mapM (Harmonize.plan_axis n_new n_old new_bounds new_bins old_bounds old_bins
                 old_mapping) feature_idxs
  = inr (map continuous_plan grids).
Proof.
  induction 1 as [|f g fs gs Hf _ IH]; simpl; [reflexivity|].
  rewrite (plan_axis_continuous _ _ _ _ _ _ _ _ _ Hf). simpl Py.bind.
  rewrite IH. reflexivity.
Qed.

(** [_harmonize_tensor] on continuous features listed in the same order in
    the old and in the new term: no axis moves, and every new cell is
    [harmonized_cell]. *)
Lemma harmonize_continuous
    (feature_idxs : list Z) (grids : list grid)
    (new_bounds : option (list (Q * Q))) (new_bins : list (list Harmonize.feature_bins))
    (old_bounds : option (list (Q * Q))) (old_bins : list (list Harmonize.feature_bins))
    (old_mapping : list (list Harmonize.mapping_level))
    (old_tensor : Tensor.t) (evidence : option Tensor.t) :
  Forall (fun f => 0 <= f)%Z feature_idxs ->
  Forall2 (continuous_feature (length feature_idxs) (length feature_idxs)
             new_bounds new_bins old_bounds old_bins old_mapping) feature_idxs grids ->
  Tensor.wf old_tensor ->
  Tensor.shape old_tensor = map old_size grids ->
  (forall w, evidence = Some w ->
             Tensor.wf w /\ Tensor.shape w = Tensor.shape old_tensor) ->
  Harmonize._harmonize_tensor feature_idxs new_bounds new_bins feature_idxs
    old_bounds old_bins old_mapping old_tensor evidence
  = inr (Tensor.mk (map new_size grids)
           (map (harmonized_cell grids old_tensor evidence)
                (seq 0 (Tensor.prod (map new_size grids))))).
Proof.
  intros Hidx Hfeat Hwf Hshape Hev.
  pose proof (Forall2_length Hfeat) as Hlen.
  assert (Hndim : Tensor.ndim old_tensor = length feature_idxs).
  { unfold Tensor.ndim. rewrite Hshape, length_map. lia. }
  unfold Harmonize._harmonize_tensor.
  pose proof (find_axes_same_order feature_idxs Hidx [] (Forall_nil _)) as Hfa.
  cbn [app length] in Hfa. rewrite Hfa.
  cbv beta iota delta [Py.bind]. cbn [length].
  rewrite length_seq, <- Hndim, Nat.eqb_refl. cbn [negb].
  rewrite (transpose_identity old_tensor Hwf).
  assert (Hshape' : map (fun a => length (Harmonize.lookup a)) (map continuous_plan grids)
                    = map new_size grids).
  { rewrite map_map. apply map_ext. intro g. apply continuous_plan_size. }
  assert (Hcells :
    Tensor.mapM (Harmonize.new_cell old_tensor evidence (rev (map continuous_plan grids)))
      (seq 0 (Tensor.prod (map new_size grids)))
    = inr (map (harmonized_cell grids old_tensor evidence)
             (seq 0 (Tensor.prod (map new_size grids))))).
  { apply mapM_ok. intros c _. unfold harmonized_cell.
    apply (new_cell_simple old_tensor evidence (rev (map old_size grids))).
    - exact Hwf.
    - now rewrite rev_involutive.
    - apply plans_simple.
    - rewrite lookup_sizes_plans. apply new_sizes_positive. }
  destruct evidence as [w|].
  - destruct (Hev w eq_refl) as [Hw Hs].
    replace (Tensor.ndim old_tensor) with (Tensor.ndim w) at 1
      by (unfold Tensor.ndim; now rewrite Hs).
    rewrite (transpose_identity w Hw). cbv beta iota delta [Py.ret].
    rewrite Hndim, (plan_axes_continuous _ _ _ _ _ _ _ _ _ Hfeat), Hshape', Hcells.
    reflexivity.
  - cbv beta iota delta [Py.ret].
    rewrite Hndim, (plan_axes_continuous _ _ _ _ _ _ _ _ _ Hfeat), Hshape', Hcells.
    reflexivity.
Qed.

Lemma old_position_plan (g : grid) (p : nat) :
  (p < new_size g)%nat ->
  old_position (old_size g) (nth p (Harmonize.lookup (continuous_plan g)) 0%Z)
  = old_bin_of g p.
Proof.
  unfold new_size, old_size, old_bin_of. intro Hp. rewrite continuous_lookup.
  destruct p as [|p]; [reflexivity|].
  cbn [nth Nat.eqb].
  destruct (Nat.leb_spec (length (new_cuts g) + 2) (S p)) as [Hlast | Hmid].
  - rewrite app_nth2 by (rewrite length_map, length_seq; lia).
    rewrite length_map, length_seq.
    replace (p - (length (new_cuts g) + 1))%nat with 0%nat by lia.
    cbn [nth]. rewrite old_position_last by lia. lia.
  - rewrite app_nth1 by (rewrite length_map, length_seq; lia).
    rewrite (nth_indep _ 0%Z (Z.of_nat (looked_up g 0)))
      by (rewrite length_map, length_seq; lia).
    rewrite (map_nth (fun k => Z.of_nat (looked_up g k))), seq_nth by lia.
    rewrite old_position_nat. f_equal. lia.
Qed.

Lemma old_bin_of_bound (g : grid) (p : nat) : (old_bin_of g p < old_size g)%nat.
Proof.
  unfold old_bin_of, old_size. destruct (p =? 0)%nat; [lia|].
  destruct (_ <=? p)%nat; [lia|]. pose proof (looked_up_range g (p - 1)). lia.
Qed.

Lemma old_positions_plans (grids : list grid) :
  forall idx,
    Forall2 lt idx (map new_size grids) ->
    old_positions (rev (map old_size grids)) (rev (map continuous_plan grids)) (rev idx)
    = rev (old_cell grids idx)
    /\ Forall2 lt (old_cell grids idx) (map old_size grids).
Proof.
  induction grids as [|g grids IH]; intros idx Hidx.
  - inversion Hidx; subst. split; [reflexivity | constructor].
  - simpl in Hidx. inversion Hidx as [|p s idx' ss Hp Hidx' E1 E2]; subst.
    destruct (IH idx' Hidx') as [IH1 IH2].
    pose proof (Forall2_length Hidx') as Hlen. rewrite length_map in Hlen.
    split.
    + unfold old_positions, old_cell in *. simpl.
      rewrite !combine_snoc
        by (rewrite ?length_combine, !length_rev, ?length_map; lia).
      rewrite map_app, IH1. cbn [map fst snd].
      rewrite old_position_plan by exact Hp. reflexivity.
    + unfold old_cell. simpl. constructor; [apply old_bin_of_bound | exact IH2].
Qed.

Lemma get_new_cell (a : Tensor.t) (idx : list nat) :
  Tensor.wf a ->
  Forall2 lt idx (Tensor.shape a) ->
  Tensor.get a (map Z.of_nat idx)
  = inr (nth (offset_rev (rev (Tensor.shape a)) (rev idx)) (Tensor.data a) 0).
Proof.
  intros Hwf Hidx.
  rewrite <- (get_offset a (rev (Tensor.shape a)) (rev idx)).
  - now rewrite map_rev, rev_involutive.
  - exact Hwf.
  - now rewrite rev_involutive.
  - now apply Forall2_lt_rev.
Qed.

(** The new bin at position [k] is inside the old bin it looks up. *)
Lemma looked_up_inside (g : grid) (k : nat) :
  finer_grid g -> (k <= length (new_cuts g))%nat -> inside_old_bin g k (looked_up g k).
Proof.
  intros Hfiner Hk. split.
  - intro Ho.
    pose proof (looked_up_range g k) as Hr.
    apply (old_cut_before g Hfiner (looked_up g k - 2) k); [lia | exact Hk|].
    intro Hkm. pose proof (looked_up_lower g k Hkm Ho) as Hlow.
    unfold old_low, new_high in Hlow.
    destruct (Nat.eqb_spec (looked_up g k) 1); [lia|].
    destruct (Nat.leb_spec (length (new_cuts g)) k); [lia | exact Hlow].
  - intro Ho. destruct (looked_up_upper g k Hk Ho) as [Hkm Hup].
    split; [exact Hkm|]. unfold new_high, old_high in Hup.
    destruct (Nat.leb_spec (length (new_cuts g)) k); [lia|].
    destruct (Nat.ltb_spec (length (old_cuts g)) (looked_up g k)); [lia | exact Hup].
Qed.

(** C3 (harmonization onto a finer grid).  The features of a term are
    continuous, listed in the same order in the old and in the new term,
    and for each of them the new cuts contain the old cuts, the old bounds
    enclose the old cuts and the new bounds enclose the old bounds.  Then
    harmonizing a weight tensor returns a tensor of the new shape whose sum
    is the sum of the old tensor; harmonizing a score tensor returns a
    tensor of which every cell holds the value of the old cell [old_cell]
    names; and along every axis a new bin between cuts is taken from the
    old bin between cuts that contains it. *)
Theorem harmonize_finer_grid
    (feature_idxs : list Z) (grids : list grid)
    (new_bounds : option (list (Q * Q))) (new_bins : list (list Harmonize.feature_bins))
    (old_bounds : option (list (Q * Q))) (old_bins : list (list Harmonize.feature_bins))
    (old_mapping : list (list Harmonize.mapping_level))
    (old_tensor : Tensor.t) :
  Forall (fun f => 0 <= f)%Z feature_idxs ->
  Forall2 (continuous_feature (length feature_idxs) (length feature_idxs)
             new_bounds new_bins old_bounds old_bins old_mapping) feature_idxs grids ->
  Forall finer_grid grids ->
  Tensor.wf old_tensor ->
  Tensor.shape old_tensor = map old_size grids ->
  (exists new_weights,
     Harmonize._harmonize_tensor feature_idxs new_bounds new_bins feature_idxs
       old_bounds old_bins old_mapping old_tensor None = inr new_weights /\
     Tensor.shape new_weights = map new_size grids /\
     Tensor.sum new_weights == Tensor.sum old_tensor) /\
  (forall evidence,
     Tensor.wf evidence -> Tensor.shape evidence = Tensor.shape old_tensor ->
     exists new_scores,
       Harmonize._harmonize_tensor feature_idxs new_bounds new_bins feature_idxs
         old_bounds old_bins old_mapping old_tensor (Some evidence) = inr new_scores /\
       Tensor.shape new_scores = map new_size grids /\
       forall idx,
         Forall2 lt idx (map new_size grids) ->
         exists v,
           Tensor.get new_scores (map Z.of_nat idx) = inr v /\
           Tensor.get old_tensor (map Z.of_nat (old_cell grids idx)) = inr v) /\
  (forall g p,
     In g grids -> (1 <= p <= length (new_cuts g) + 1)%nat ->
     (1 <= old_bin_of g p <= length (old_cuts g) + 1)%nat /\
     inside_old_bin g (p - 1) (old_bin_of g p)).
Proof.
  intros Hidx Hfeat Hfiner Hwf Hshape.
  split; [|split].
  - rewrite (harmonize_continuous feature_idxs grids _ _ _ _ _ old_tensor None
               Hidx Hfeat Hwf Hshape) by discriminate.
    eexists. split; [reflexivity|]. split; [reflexivity|].
    unfold Tensor.sum. cbn [Tensor.data]. unfold harmonized_cell.
    rewrite <- (prod_rev (map new_size grids)), <- lookup_sizes_plans.
    apply harmonized_sum.
    + apply plans_simple.
    + now apply plans_unity.
    + rewrite lookup_sizes_plans. apply new_sizes_positive.
    + rewrite prod_rev, <- Hshape. exact Hwf.
  - intros evidence Hev_wf Hev_shape.
    rewrite (harmonize_continuous feature_idxs grids _ _ _ _ _ old_tensor (Some evidence)
               Hidx Hfeat Hwf Hshape)
      by (intros w E; injection E as <-; now split).
    eexists. split; [reflexivity|]. split; [reflexivity|].
    intros idx Hlt.
    destruct (old_positions_plans grids idx Hlt) as [Hold Hbound].
    set (N := Tensor.prod (map new_size grids)).
    set (c := offset_rev (rev (map new_size grids)) (rev idx)).
    assert (Hc : (c < N)%nat).
    { unfold c, N. rewrite <- (prod_rev (map new_size grids)).
      apply offset_rev_bound. now apply Forall2_lt_rev. }
    eexists. split.
    + rewrite get_new_cell.
      * cbn [Tensor.shape Tensor.data]. fold c.
        rewrite (nth_indep _ 0 (harmonized_cell grids old_tensor (Some evidence) 0%nat))
          by (rewrite length_map, length_seq; exact Hc).
        rewrite (map_nth (harmonized_cell grids old_tensor (Some evidence))).
        rewrite seq_nth by exact Hc. cbn [Nat.add].
        unfold harmonized_cell. rewrite lookup_sizes_plans. unfold c.
        rewrite decompose_offset by (now apply Forall2_lt_rev).
        rewrite Hold. reflexivity.
      * unfold Tensor.wf. cbn [Tensor.shape Tensor.data].
        now rewrite length_map, length_seq.
      * exact Hlt.
    + rewrite get_new_cell; [now rewrite Hshape | exact Hwf | now rewrite Hshape].
  - intros g p Hg Hp. rewrite Forall_forall in Hfiner. specialize (Hfiner g Hg).
    unfold old_bin_of.
    destruct (Nat.eqb_spec p 0); [lia|].
    destruct (Nat.leb_spec (length (new_cuts g) + 2) p); [lia|].
    split; [apply looked_up_range|].
    apply looked_up_inside; [exact Hfiner | lia].
Qed.

Lemma harmonize_finer_grid_witness :
  (exists new_weights,
     Harmonize._harmonize_tensor [0%Z] (Some [(0, 20)]) [[Harmonize.Cuts [5; 10; 15]]]
       [0%Z] (Some [(0, 20)]) [[Harmonize.Cuts [10]]] [[None]] demo_old_tensor None
     = inr new_weights /\
     Tensor.shape new_weights = map new_size [demo_grid] /\
     Tensor.sum new_weights == Tensor.sum demo_old_tensor) /\
  (forall evidence,
     Tensor.wf evidence -> Tensor.shape evidence = Tensor.shape demo_old_tensor ->
     exists new_scores,
       Harmonize._harmonize_tensor [0%Z] (Some [(0, 20)]) [[Harmonize.Cuts [5; 10; 15]]]
         [0%Z] (Some [(0, 20)]) [[Harmonize.Cuts [10]]] [[None]] demo_old_tensor
         (Some evidence) = inr new_scores /\
       Tensor.shape new_scores = map new_size [demo_grid] /\
       forall idx,
         Forall2 lt idx (map new_size [demo_grid]) ->
         exists v,
           Tensor.get new_scores (map Z.of_nat idx) = inr v /\
           Tensor.get demo_old_tensor (map Z.of_nat (old_cell [demo_grid] idx)) = inr v) /\
  (forall g p,
     In g [demo_grid] -> (1 <= p <= length (new_cuts g) + 1)%nat ->
     (1 <= old_bin_of g p <= length (old_cuts g) + 1)%nat /\
     inside_old_bin g (p - 1) (old_bin_of g p)).
Proof.
  apply (harmonize_finer_grid [0%Z] [demo_grid] (Some [(0, 20)])
           [[Harmonize.Cuts [5; 10; 15]]] (Some [(0, 20)]) [[Harmonize.Cuts [10]]]
           [[None]] demo_old_tensor).
  - repeat constructor. discriminate.
  - repeat constructor; eexists; split; reflexivity.
  - constructor; [|constructor]. unfold finer_grid. cbn.
    split; [repeat constructor|].
    split; [repeat constructor; reflexivity|].
    split; [intros x [<- | []]; exists 10; split; [tauto | reflexivity]|].
    split; [discriminate|]. split; [discriminate|]. split; [reflexivity|].
    intros x [<- | []]. split; reflexivity.
  - reflexivity.
  - reflexivity.
Defined.

(** A feature whose range is a single point: the one old bin has no width,
    the new bin gets share 0 of it and the weight is lost. *)
Lemma harmonize_degenerate_range_counterexample :
  exists new_weights,
    Harmonize._harmonize_tensor [0%Z] (Some [(5, 5)]) [[Harmonize.Cuts []]]
      [0%Z] (Some [(5, 5)]) [[Harmonize.Cuts []]] [[None]] demo_constant_weights None
    = inr new_weights /\
    Tensor.sum new_weights == 0 /\
    Tensor.sum demo_constant_weights == 7 /\
    ~ Tensor.sum new_weights == Tensor.sum demo_constant_weights.
Proof.
  eexists. split; [vm_compute; reflexivity|].
  split; [reflexivity|]. split; [reflexivity|]. discriminate.
Qed.

(** New bounds inside the old ones lose the weight outside them: the
    old bin [0, 10) keeps only its part above the new minimum 5. *)
Lemma harmonize_narrow_bounds_example :
  exists new_weights,
    Harmonize._harmonize_tensor [0%Z] (Some [(5, 20)]) [[Harmonize.Cuts [10]]]
      [0%Z] (Some [(0, 20)]) [[Harmonize.Cuts [10]]] [[None]] demo_old_tensor None
    = inr new_weights /\
    Tensor.sum new_weights == 8 /\
    Tensor.sum demo_old_tensor == 11.
Proof.
  eexists. split; [vm_compute; reflexivity|]. split; reflexivity.
Qed.

(** ** The model-type dispatch of [merge_ebms] *)

Lemma mem_In (name : string) (names : list string) :
  MergeTypes.mem name names = true <-> In name names.
Proof.
  unfold MergeTypes.mem. rewrite existsb_exists. split.
  - intros [x [Hx E]]. apply String.eqb_eq in E. now subst.
  - intro H. exists name. split; [exact H | apply String.eqb_refl].
Qed.

Lemma mem_not_In (name : string) (names : list string) :
  ~ In name names -> MergeTypes.mem name names = false.
Proof.
  intro H. destruct (MergeTypes.mem name names) eqn:E; [|reflexivity].
  apply mem_In in E. contradiction.
Qed.

(** The distinct names of a list in which exactly the names [a] and [b]
    occur. *)
Lemma two_types (a b : string) (names : list string) :
  a <> b -> In a names -> In b names ->
  (forall x, In x names -> x = a \/ x = b) ->
  length (nodup string_dec names) = 2%nat.
Proof.
  intros Hab Ha Hb Hall.
  apply Nat.le_antisymm.
  - apply (NoDup_incl_length (l' := [a; b])); [apply NoDup_nodup|].
    intros x Hx. apply nodup_In in Hx. destruct (Hall x Hx) as [-> | ->]; simpl; auto.
  - apply (NoDup_incl_length (l := [a; b])).
    + constructor; [simpl; intuition congruence|]. constructor; [simpl; tauto | constructor].
    + intros x [<- | [<- | []]]; now apply nodup_In.
Qed.

Lemma select_type_classifiers (names : list string) :
  In MergeTypes.Classifier names -> In MergeTypes.DPClassifier names ->
  (forall x, In x names -> x = MergeTypes.Classifier \/ x = MergeTypes.DPClassifier) ->
  MergeTypes.select_type names
  = inr {| MergeTypes.ebm_type := MergeTypes.Classifier;
           MergeTypes.is_classifier := true; MergeTypes.is_private := false |}.
Proof.
  intros Hc Hd Hall. unfold MergeTypes.select_type.
  destruct names as [|n names]; [destruct Hc|]. cbn [length Nat.eqb].
  rewrite (two_types MergeTypes.Classifier MergeTypes.DPClassifier)
    by (try discriminate; assumption).
  cbn [Nat.eqb].
  rewrite (proj2 (mem_In _ _)) by (now apply nodup_In).
  rewrite (proj2 (mem_In _ _)) by (now apply nodup_In).
  reflexivity.
Qed.

Lemma select_type_regressors (names : list string) :
  In MergeTypes.Regressor names -> In MergeTypes.DPRegressor names ->
  (forall x, In x names -> x = MergeTypes.Regressor \/ x = MergeTypes.DPRegressor) ->
  MergeTypes.select_type names
  = inr {| MergeTypes.ebm_type := MergeTypes.Regressor;
           MergeTypes.is_classifier := false; MergeTypes.is_private := false |}.
Proof.
  intros Hc Hd Hall. unfold MergeTypes.select_type.
  destruct names as [|n names]; [destruct Hc|]. cbn [length Nat.eqb].
  rewrite (two_types MergeTypes.Regressor MergeTypes.DPRegressor)
    by (try discriminate; assumption).
  cbn [Nat.eqb].
  rewrite (mem_not_In MergeTypes.Classifier).
  - cbn [andb].
    rewrite (proj2 (mem_In _ _)) by (now apply nodup_In).
    rewrite (proj2 (mem_In _ _)) by (now apply nodup_In).
    reflexivity.
  - intro H. apply nodup_In in H. destruct (Hall _ H); discriminate.
Qed.

(** Two different types that are not a classifier with its private
    variant, nor a regressor with its private variant, are refused. *)
Lemma select_type_mixture (names : list string) (a b : string) :
  In a names -> In b names -> a <> b ->
  ~ (forall x, In x names -> x = MergeTypes.Classifier \/ x = MergeTypes.DPClassifier) ->
  ~ (forall x, In x names -> x = MergeTypes.Regressor \/ x = MergeTypes.DPRegressor) ->
  MergeTypes.select_type names
  = inl (Py.Exception "Inconsistent model types attempting to be merged.")
  \/ MergeTypes.select_type names
     = inl (Py.Exception "Inconsistent model types being merged.").
Proof.
  intros Ha Hb Hab Hnc Hnr. unfold MergeTypes.select_type.
  destruct names as [|n names]; [destruct Ha|]. cbn [length Nat.eqb].
  set (ts := nodup string_dec (n :: names)).
  assert (Hnd : NoDup ts) by apply NoDup_nodup.
  assert (Hin : forall x, In x ts <-> In x (n :: names)) by (intro x; apply nodup_In).
  apply Hin in Ha. apply Hin in Hb.
  destruct ts as [|x [|y [|z ts]]].
  - destruct Ha.
  - destruct Ha as [<- | []]. destruct Hb as [<- | []]. now contradiction Hab.
  - left. cbn [length Nat.eqb].
    inversion Hnd as [|? ? Hxy _]; subst.
    assert (Hne : x <> y) by (intro E; apply Hxy; left; now symmetry).
    destruct (MergeTypes.mem MergeTypes.Classifier [x; y]) eqn:E1;
      [destruct (MergeTypes.mem MergeTypes.DPClassifier [x; y]) eqn:E2|].
    + exfalso. apply Hnc. intros v Hv. apply Hin in Hv.
      apply mem_In in E1. apply mem_In in E2. simpl in *.
      assert (MergeTypes.Classifier <> MergeTypes.DPClassifier) by discriminate.
      intuition congruence.
    + cbn [andb]. destruct (MergeTypes.mem MergeTypes.Regressor [x; y]) eqn:E3;
        [destruct (MergeTypes.mem MergeTypes.DPRegressor [x; y]) eqn:E4|];
        try reflexivity.
      exfalso. apply Hnr. intros v Hv. apply Hin in Hv.
      apply mem_In in E3. apply mem_In in E4. simpl in *.
      assert (MergeTypes.Regressor <> MergeTypes.DPRegressor) by discriminate.
      intuition congruence.
    + cbn [andb]. destruct (MergeTypes.mem MergeTypes.Regressor [x; y]) eqn:E3;
        [destruct (MergeTypes.mem MergeTypes.DPRegressor [x; y]) eqn:E4|];
        try reflexivity.
      exfalso. apply Hnr. intros v Hv. apply Hin in Hv.
      apply mem_In in E3. apply mem_In in E4. simpl in *.
      assert (MergeTypes.Regressor <> MergeTypes.DPRegressor) by discriminate.
      intuition congruence.
  - right. reflexivity.
Qed.

Section MergeDispatch.

Variable _convert_categorical_to_continuous :
  list (string * Z) -> Py.result (list Q * list (list Z) * Q * Q).

Variable multiclass_postprocess2 :
  Z -> list Tensor.t -> Q -> list Tensor.t -> Py.result (list Tensor.t * Q).

Local Abbreviation merged_attributes :=
  (MergeEBMs.merged_attributes _convert_categorical_to_continuous multiclass_postprocess2).
Local Abbreviation merge_ebms :=
  (MergeEBMs.merge_ebms _convert_categorical_to_continuous multiclass_postprocess2).

(** An exception raised before line 932 is the result of [merge_ebms]. *)
Lemma merge_ebms_raises (models : list MergeEBMs.model) (e : Py.exn) :
  merged_attributes models = inl e -> merge_ebms models = inl e.
Proof. intro H. unfold MergeEBMs.merge_ebms. rewrite H. reflexivity. Qed.

(** When line 932 is reached, its assignment raises. *)
Lemma merge_ebms_assignment (models : list MergeEBMs.model) (ebm : MergeEBMs.model) :
  merged_attributes models = inr ebm ->
  merge_ebms models = inl (Py.AttributeError "can't set attribute").
Proof. intro H. unfold MergeEBMs.merge_ebms. rewrite H. reflexivity. Qed.

(** [merge_ebms] returns no model, whatever the models are. *)
Lemma merge_ebms_never_returns (models : list MergeEBMs.model) :
  exists e, merge_ebms models = inl e.
Proof.
  destruct (merged_attributes models) as [e | ebm] eqn:E.
  - exists e. now apply merge_ebms_raises.
  - eexists. exact (merge_ebms_assignment models ebm E).
Qed.

(** A refused dispatch is the result of [merge_ebms], whatever the models
    hold. *)
Lemma merged_attributes_refused (models : list MergeEBMs.model) (e : Py.exn) :
  MergeTypes.select_type (map MergeEBMs.type_name models) = inl e ->
  merged_attributes models = inl e.
Proof. intro H. unfold MergeEBMs.merged_attributes. rewrite H. reflexivity. Qed.

(** The type of the model that is assembled is the type the dispatch
    chose. *)
Lemma merged_attributes_type (models : list MergeEBMs.model) (d : MergeTypes.decision)
    (merged : MergeEBMs.model) :
  MergeTypes.select_type (map MergeEBMs.type_name models) = inr d ->
  merged_attributes models = inr merged ->
  MergeEBMs.type_name merged = MergeTypes.ebm_type d
  /\ (MergeTypes.is_private d = true -> False).
Proof.
  intros Hd Hm. unfold MergeEBMs.merged_attributes in Hm. rewrite Hd in Hm.
  cbv beta iota delta [Py.bind] in Hm.
  repeat match type of Hm with
         | match ?x with _ => _ end = _ =>
             let E := fresh "E" in destruct x eqn:E; try discriminate
         end.
  injection Hm as <-. split; [reflexivity|].
  intro Hp. rewrite Hp in *. cbn [negb andb] in *. discriminate.
Qed.

End MergeDispatch.

(** X30.  The type dispatch of [merge_ebms].  For a list of models that
    holds a classifier and a private classifier and nothing else, the
    dispatch chooses the non-private classifier, and the model that is
    assembled before the last assignment has that type; likewise for
    regressors.  With no model, with a classifier-kind and a
    regressor-kind model, and with any two different types that are not
    such a pair, [merge_ebms] raises the exception of the dispatch,
    whatever bins and tensors the models hold. *)
Theorem merge_dispatch_decides_type
    (_convert_categorical_to_continuous :
       list (string * Z) -> Py.result (list Q * list (list Z) * Q * Q))
    (multiclass_postprocess2 :
       Z -> list Tensor.t -> Q -> list Tensor.t -> Py.result (list Tensor.t * Q))
    (models : list MergeEBMs.model) :
  let names := map MergeEBMs.type_name models in
  let assembled :=
    MergeEBMs.merged_attributes _convert_categorical_to_continuous
      multiclass_postprocess2 in
  let merge :=
    MergeEBMs.merge_ebms _convert_categorical_to_continuous multiclass_postprocess2 in
  (In MergeTypes.Classifier names -> In MergeTypes.DPClassifier names ->
   (forall x, In x names -> x = MergeTypes.Classifier \/ x = MergeTypes.DPClassifier) ->
   MergeTypes.select_type names
   = inr {| MergeTypes.ebm_type := MergeTypes.Classifier;
            MergeTypes.is_classifier := true; MergeTypes.is_private := false |}
   /\ forall merged, assembled models = inr merged ->
                     MergeEBMs.type_name merged = MergeTypes.Classifier) /\
  (In MergeTypes.Regressor names -> In MergeTypes.DPRegressor names ->
   (forall x, In x names -> x = MergeTypes.Regressor \/ x = MergeTypes.DPRegressor) ->
   MergeTypes.select_type names
   = inr {| MergeTypes.ebm_type := MergeTypes.Regressor;
            MergeTypes.is_classifier := false; MergeTypes.is_private := false |}
   /\ forall merged, assembled models = inr merged ->
                     MergeEBMs.type_name merged = MergeTypes.Regressor) /\
  (models = [] -> merge models = inl (Py.Exception "0 models to merge.")) /\
  (forall a b,
     In a names -> In b names ->
     a = MergeTypes.Classifier \/ a = MergeTypes.DPClassifier ->
     b = MergeTypes.Regressor \/ b = MergeTypes.DPRegressor ->
     exists msg, merge models = inl (Py.Exception msg)) /\
  (forall a b,
     In a names -> In b names -> a <> b ->
     ~ (forall x, In x names -> x = MergeTypes.Classifier \/ x = MergeTypes.DPClassifier) ->
     ~ (forall x, In x names -> x = MergeTypes.Regressor \/ x = MergeTypes.DPRegressor) ->
     exists msg, merge models = inl (Py.Exception msg)).
Proof.
  intros names assembled merge.
  assert (Hmix : forall a b,
            In a names -> In b names -> a <> b ->
            ~ (forall x, In x names ->
                         x = MergeTypes.Classifier \/ x = MergeTypes.DPClassifier) ->
            ~ (forall x, In x names ->
                         x = MergeTypes.Regressor \/ x = MergeTypes.DPRegressor) ->
            exists msg, merge models = inl (Py.Exception msg)).
  { intros a b Ha Hb Hab Hnc Hnr.
    destruct (select_type_mixture names a b Ha Hb Hab Hnc Hnr) as [H | H];
      eexists; apply merge_ebms_raises, merged_attributes_refused; exact H. }
  split; [|split; [|split; [|split]]].
  - intros Hc Hd Hall.
    pose proof (select_type_classifiers names Hc Hd Hall) as Hsel.
    split; [exact Hsel|]. intros merged Hm.
    apply (merged_attributes_type _ _ models _ merged Hsel Hm).
  - intros Hc Hd Hall.
    pose proof (select_type_regressors names Hc Hd Hall) as Hsel.
    split; [exact Hsel|]. intros merged Hm.
    apply (merged_attributes_type _ _ models _ merged Hsel Hm).
  - intros ->. reflexivity.
  - intros a b Ha Hb Hca Hrb. apply (Hmix a b Ha Hb).
    + destruct Hca as [-> | ->]; destruct Hrb as [-> | ->]; discriminate.
    + intro Hall. destruct (Hall b Hb) as [E | E]; destruct Hrb as [-> | ->]; discriminate.
    + intro Hall. destruct (Hall a Ha) as [E | E]; destruct Hca as [-> | ->]; discriminate.
  - exact Hmix.
Qed.

Lemma merge_dispatch_decides_type_witness :
  exists merged,
    MergeEBMs.merged_attributes no_conversion no_multiclass
      [demo_regressor; demo_dp_regressor]
    = inr merged
    /\ MergeEBMs.type_name merged = MergeTypes.Regressor.
Proof.
  eexists. split; [vm_compute; reflexivity|].
  apply (proj2 (proj1 (proj2 (merge_dispatch_decides_type no_conversion no_multiclass
                                [demo_regressor; demo_dp_regressor]))
                  (or_introl eq_refl) (or_intror (or_introl eq_refl))
                  (fun x H => match H with
                              | or_introl E => or_introl (eq_sym E)
                              | or_intror (or_introl E) => or_intror (eq_sym E)
                              | or_intror (or_intror F) => match F with end
                              end))).
  vm_compute. reflexivity.
Defined.

(** C9 (merge type compatibility).  The dispatch accepts a regressor
    together with a differentially private regressor, and the pair is
    merged into a model of the non-private type; the last assignment of
    [merge_ebms] then raises, so that the call does not succeed. *)
Theorem mixed_merge_raises :
  MergeTypes.select_type
    (map MergeEBMs.type_name [demo_regressor; demo_dp_regressor])
  = inr {| MergeTypes.ebm_type := MergeTypes.Regressor;
           MergeTypes.is_classifier := false; MergeTypes.is_private := false |}
  /\ (exists ebm,
        MergeEBMs.merged_attributes no_conversion no_multiclass
          [demo_regressor; demo_dp_regressor] = inr ebm
        /\ MergeEBMs.type_name ebm = MergeTypes.Regressor)
  /\ MergeEBMs.merge_ebms no_conversion no_multiclass
       [demo_regressor; demo_dp_regressor]
     = inl (Py.AttributeError "can't set attribute").
Proof.
  split; [reflexivity|].
  assert (H : exists ebm,
            MergeEBMs.merged_attributes no_conversion no_multiclass
              [demo_regressor; demo_dp_regressor] = inr ebm
            /\ MergeEBMs.type_name ebm = MergeTypes.Regressor)
    by (eexists; split; [vm_compute; reflexivity | reflexivity]).
  split; [exact H|].
  destruct H as [ebm [H _]].
  exact (merge_ebms_assignment no_conversion no_multiclass _ ebm H).
Qed.

(** ** Merging a model with itself *)

(** A model whose ordinal feature numbers its categories low, high: the
    model assembled from it and itself numbers them alphabetically, high,
    low, and the cells of the score tensor of that feature change places
    with them. *)
Lemma self_merge_reorders_categories :
  exists terms intercept merged,
    own_terms no_multiclass demo_ordinal_model = inr (terms, intercept)
    /\ Forall2 tensor_equiv terms (MergeEBMs.additive_terms_ demo_ordinal_model)
    /\ MergeEBMs.merged_attributes no_conversion no_multiclass
         [demo_ordinal_model; demo_ordinal_model] = inr merged
    /\ MergeEBMs.bins_ merged
       = [[Harmonize.Cuts [10]];
          [Harmonize.Categories [("high"%string, 1%Z); ("low"%string, 2%Z)]]]
    /\ MergeEBMs.bins_ merged <> MergeEBMs.bins_ demo_ordinal_model
    /\ ~ Forall2 tensor_equiv (MergeEBMs.additive_terms_ merged)
           (MergeEBMs.additive_terms_ demo_ordinal_model).
Proof.
  eexists. eexists. eexists.
  split; [vm_compute; reflexivity|].
  split; [repeat constructor|].
  split; [vm_compute; reflexivity|].
  split; [reflexivity|].
  split; [discriminate|].
  intro H. vm_compute in H.
  inversion H as [|a b l l' _ H2]; subst.
  inversion H2 as [|a' b' l2 l2' [_ Hd] _]; subst.
  cbn in Hd.
  inversion Hd as [|x y d d' _ Hd1]; subst.
  inversion Hd1 as [|x1 y1 d1 d1' Hx _]; subst.
  discriminate Hx.
Qed.

(** *** Sorting what is sorted already *)

Section InsertSorted.

Context {A : Type}.
Variable cmp : A -> A -> comparison.
Variable ins : A -> list A -> list A.

Hypothesis ins_nil : forall x, ins x [] = [x].
Hypothesis ins_cons :
  forall x y l,
    ins x (y :: l) = match cmp x y with
                     | Lt => x :: y :: l
                     | Eq => y :: l
                     | Gt => y :: ins x l
                     end.
Hypothesis cmp_antisym : forall x y, cmp x y = CompOpp (cmp y x).

Let below (a b : A) : Prop := cmp a b = Lt.

Lemma cmp_refl (x : A) : cmp x x = Eq.
Proof. pose proof (cmp_antisym x x) as H. destruct (cmp x x); simpl in H; congruence. Qed.

Lemma ins_least (x : A) (l : list A) : Forall (below x) l -> ins x l = x :: l.
Proof.
  intro H. destruct l as [|y l]; [apply ins_nil|].
  rewrite ins_cons. inversion H as [|? ? Hxy _]; subst. unfold below in Hxy.
  now rewrite Hxy.
Qed.

Lemma ins_member (x : A) (l : list A) :
  StronglySorted below l -> In x l -> ins x l = l.
Proof.
  induction 1 as [|y l Hl IH Hy]; intro Hin; [destruct Hin|].
  rewrite ins_cons. destruct Hin as [-> | Hin].
  - now rewrite cmp_refl.
  - rewrite Forall_forall in Hy. specialize (Hy x Hin). unfold below in Hy.
    rewrite cmp_antisym, Hy. simpl. now rewrite IH.
Qed.

Lemma fold_ins_sorted (l : list A) : StronglySorted below l -> fold_right ins [] l = l.
Proof.
  induction 1 as [|y l Hl IH Hy]; [reflexivity|].
  simpl. rewrite IH. now apply ins_least.
Qed.

Lemma fold_ins_members (l l' : list A) :
  StronglySorted below l -> incl l' l -> fold_right ins l l' = l.
Proof.
  intros Hl. induction l' as [|x l' IH]; intro Hincl; [reflexivity|].
  simpl. rewrite IH by (intros y Hy; apply Hincl; now right).
  apply ins_member; [exact Hl | apply Hincl; now left].
Qed.

Lemma fold_ins_twice (l : list A) :
  StronglySorted below l -> fold_right ins [] (l ++ l) = l.
Proof.
  intro Hl. rewrite fold_right_app, (fold_ins_sorted l Hl).
  apply fold_ins_members; [exact Hl | apply incl_refl].
Qed.

End InsertSorted.

Lemma StronglySorted_impl {A} (R R' : A -> A -> Prop) (l : list A) :
  (forall a b, R a b -> R' a b) -> StronglySorted R l -> StronglySorted R' l.
Proof.
  intros HR. induction 1 as [|a l Hl IH Ha]; constructor; [exact IH|].
  eapply Forall_impl; [|exact Ha]. intros b Hb. now apply HR.
Qed.

Lemma sorted_set_twice (cuts : list Q) :
  StronglySorted Qlt cuts -> MergeEBMs.sorted_set (cuts ++ cuts) = cuts.
Proof.
  intro H. unfold MergeEBMs.sorted_set.
  apply (fold_ins_twice Qcompare MergeEBMs.insert_cut).
  - reflexivity.
  - reflexivity.
  - intros x y. symmetry. apply Qcompare_antisym.
  - eapply StronglySorted_impl; [|exact H]. intros a b Hab. now apply Qlt_alt.
Qed.

Lemma unique_twice (keys : list string) :
  StronglySorted (fun a b => String.compare a b = Lt) keys ->
  DPUtils.unique (keys ++ keys) = keys.
Proof.
  intro H. unfold DPUtils.unique.
  apply (fold_ins_twice String.compare DPUtils.insert_unique).
  - reflexivity.
  - reflexivity.
  - apply String.compare_antisym.
  - exact H.
Qed.

Lemma compare_idxs_antisym (a : list Z) :
  forall b, MergeEBMs.compare_idxs a b = CompOpp (MergeEBMs.compare_idxs b a).
Proof.
  induction a as [|x a IH]; intros [|y b]; simpl; try reflexivity.
  rewrite (Z.compare_antisym y x). destruct (y ?= x)%Z; simpl; auto.
Qed.

Lemma compare_terms_antisym (a b : list Z) :
  MergeEBMs.compare_terms a b = CompOpp (MergeEBMs.compare_terms b a).
Proof.
  unfold MergeEBMs.compare_terms.
  rewrite (compare_idxs_antisym (Z.of_nat (length a) :: MergeEBMs.sorted_idxs a)).
  destruct (MergeEBMs.compare_idxs (Z.of_nat (length b) :: MergeEBMs.sorted_idxs b)
              (Z.of_nat (length a) :: MergeEBMs.sorted_idxs a));
    simpl; try reflexivity.
  apply compare_idxs_antisym.
Qed.

Lemma insert_terms_twice (terms : list (list Z)) :
  StronglySorted (fun a b => MergeEBMs.compare_terms a b = Lt) terms ->
  fold_right MergeEBMs.insert_term [] (terms ++ terms) = terms.
Proof.
  intro H.
  apply (fold_ins_twice MergeEBMs.compare_terms MergeEBMs.insert_term).
  - reflexivity.
  - reflexivity.
  - apply compare_terms_antisym.
  - exact H.
Qed.

(** [sorted] leaves an ascending list as it is. *)
Lemma sorted_idxs_ascending (term : list Z) :
  StronglySorted Z.lt term -> MergeEBMs.sorted_idxs term = term.
Proof.
  induction 1 as [|x l Hl IH Hx]; [reflexivity|].
  unfold MergeEBMs.sorted_idxs in *. simpl. rewrite IH.
  destruct l as [|y l]; [reflexivity|]. simpl.
  inversion Hx as [|? ? Hxy _]; subst.
  destruct (Z.leb_spec x y); [reflexivity | lia].
Qed.

Lemma compare_idxs_refl (a : list Z) : MergeEBMs.compare_idxs a a = Eq.
Proof. induction a as [|x a IH]; simpl; [reflexivity|]. now rewrite Z.compare_refl. Qed.

Lemma compare_idxs_eq (a : list Z) :
  forall b, MergeEBMs.compare_idxs a b = Eq -> a = b.
Proof.
  induction a as [|x a IH]; intros [|y b]; simpl; try discriminate; [reflexivity|].
  destruct (x ?= y)%Z eqn:E; try discriminate.
  intro H. apply Z.compare_eq in E. subst. f_equal. now apply IH.
Qed.

(** *** The merged bins of a model and itself *)

Lemma index_nat_nth {A} (l : list A) (i : nat) (d : A) :
  (i < length l)%nat -> MergeEBMs.index_nat l i = inr (nth i l d).
Proof.
  intro H. unfold MergeEBMs.index_nat. now rewrite (nth_error_nth' l d H).
Qed.

Lemma py_index_nat {A} (l : list A) (i : nat) (d : A) :
  (i < length l)%nat -> Tensor.py_index l (Z.of_nat i) = inr (nth i l d).
Proof.
  intro H. unfold Tensor.py_index. rewrite normalize_index_nat by exact H.
  cbv beta iota delta [Py.bind]. now rewrite (nth_error_nth' l d H).
Qed.

Lemma level_of_nth (bin_levels : list Harmonize.feature_bins) (level_idx : nat)
    (d : Harmonize.feature_bins) :
  (level_idx < length bin_levels)%nat ->
  MergeEBMs.level_of bin_levels level_idx = inr (nth level_idx bin_levels d).
Proof.
  intro H. unfold MergeEBMs.level_of.
  replace (Z.min (Z.of_nat level_idx) (Z.of_nat (length bin_levels) - 1))
    with (Z.of_nat level_idx) by lia.
  now apply py_index_nat.
Qed.

Lemma combine_fst_snd {A B} (l : list (A * B)) : combine (map fst l) (map snd l) = l.
Proof. induction l as [|[a b] l IH]; simpl; [reflexivity|]. now rewrite IH. Qed.

Lemma merged_categories_twice (categories : list (string * Z)) :
  alphabetical categories ->
  MergeEBMs.merged_categories
    [Harmonize.Categories categories; Harmonize.Categories categories]
  = Harmonize.Categories categories.
Proof.
  intros [Hkeys Hvals]. unfold MergeEBMs.merged_categories. simpl flat_map.
  rewrite app_nil_r, (unique_twice _ Hkeys), length_map, <- Hvals.
  now rewrite combine_fst_snd.
Qed.

Lemma merged_cuts_twice (cuts : list Q) :
  StronglySorted Qlt cuts ->
  MergeEBMs.merged_cuts [Harmonize.Cuts cuts; Harmonize.Cuts cuts]
  = inr (Harmonize.Cuts cuts).
Proof.
  intro H. unfold MergeEBMs.merged_cuts. simpl.
  rewrite app_nil_r, (sorted_set_twice _ H). reflexivity.
Qed.

Lemma same_types_all (bin_levels : list Harmonize.feature_bins)
    (first : Harmonize.feature_bins) :
  MergeEBMs.same_types bin_levels = true ->
  forall b, In b bin_levels ->
            Harmonize.is_dict b = Harmonize.is_dict (hd first bin_levels).
Proof.
  destruct bin_levels as [|b0 rest]; [discriminate|]. simpl. intros H b [<- | Hb].
  - reflexivity.
  - rewrite forallb_forall in H. specialize (H b Hb).
    apply Bool.eqb_prop in H. now symmetry.
Qed.

Section SelfMergeBins.

Variable _convert_categorical_to_continuous :
  list (string * Z) -> Py.result (list Q * list (list Z) * Q * Q).

Variable m : MergeEBMs.model.

(** One level of a regular feature merges with itself into itself. *)
Lemma merge_level_twice (row : option (Q * Q)) (categorical : bool)
    (b : Harmonize.feature_bins) :
  regular_level row b -> Harmonize.is_dict b = categorical ->
  (if categorical then
     Py.ret (MergeEBMs.merged_categories [b; b], map MergeEBMs.keep_level [b; b])
   else
     olds <-
       Tensor.mapM (fun p : MergeEBMs.model * Harmonize.feature_bins =>
                      MergeEBMs.convert_level _convert_categorical_to_continuous
                        (categorical && negb categorical)
                        (MergeEBMs.feature_bounds_ (fst p)) (snd p))
                   (combine [m; m] [b; b]) ;;
     merged_bins <- MergeEBMs.merged_cuts (map MergeEBMs.old_level_bins olds) ;;
     Py.ret (merged_bins, olds))
  = inr (b, [MergeEBMs.keep_level b; MergeEBMs.keep_level b]).
Proof.
  intros Hreg <-. destruct b as [cuts | categories]; simpl in *.
  - destruct Hreg as [Hsorted _].
    now rewrite app_nil_r, (sorted_set_twice _ Hsorted).
  - now rewrite (merged_categories_twice _ Hreg).
Qed.

Lemma merge_feature_twice (row : option (Q * Q)) (feature_idx : nat) :
  (feature_idx < length (MergeEBMs.bins_ m))%nat ->
  regular_feature row (nth feature_idx (MergeEBMs.bins_ m) []) ->
  exists feature_type,
    MergeEBMs.merge_feature _convert_categorical_to_continuous [m; m] feature_idx
    = inr {| MergeEBMs.new_feature_type := feature_type;
             MergeEBMs.new_leveled_bins := nth feature_idx (MergeEBMs.bins_ m) [];
             MergeEBMs.old_levels := kept_twice (nth feature_idx (MergeEBMs.bins_ m) []) |}.
Proof.
  intros Hidx [Hne [Hsame Hreg]].
  set (bin_levels := nth feature_idx (MergeEBMs.bins_ m) []) in *.
  destruct bin_levels as [|b0 rest] eqn:Elevels; [now contradiction Hne|].
  rewrite <- Elevels in *.
  assert (Hlen : (0 < length bin_levels)%nat) by (rewrite Elevels; simpl; lia).
  unfold MergeEBMs.merge_feature. cbn [Tensor.mapM].
  rewrite (index_nat_nth _ _ [] Hidx). fold bin_levels.
  cbv beta iota delta [Py.bind Py.ret]. cbn [Tensor.mapM].
  unfold MergeEBMs.first_is_dict.
  rewrite (index_nat_nth bin_levels 0 b0 Hlen).
  cbv beta iota delta [Py.bind Py.ret].
  set (categorical := Harmonize.is_dict (nth 0 bin_levels b0)).
  assert (Hcat : forall b, In b bin_levels -> Harmonize.is_dict b = categorical).
  { intros b Hb. rewrite (same_types_all bin_levels b0 Hsame b Hb).
    unfold categorical. now rewrite Elevels. }
  assert (Hall : forallb (fun d : bool => d) [categorical; categorical] = categorical)
    by (destruct categorical; reflexivity).
  assert (Hmixed : existsb (fun d : bool => d) [categorical; categorical]
                   && negb (forallb (fun d : bool => d) [categorical; categorical])
                   = categorical && negb categorical)
    by (destruct categorical; reflexivity).
  rewrite Hmixed, Hall.
  assert (Hend : list_max (map (@length Harmonize.feature_bins) [bin_levels; bin_levels])
                 = length bin_levels) by (simpl; lia).
  rewrite Hend.
  rewrite (mapM_ok _ (fun level_idx =>
                        (nth level_idx bin_levels b0,
                         [MergeEBMs.keep_level (nth level_idx bin_levels b0);
                          MergeEBMs.keep_level (nth level_idx bin_levels b0)]))).
  - eexists. f_equal. f_equal.
    + rewrite map_map. cbn [fst]. apply map_nth_seq.
    + cbn [length seq map]. unfold kept_twice.
      rewrite !map_map. cbn [fst snd nth].
      rewrite <- (map_map (fun k => nth k bin_levels b0) MergeEBMs.keep_level).
      now rewrite map_nth_seq.
  - intros level_idx Hlevel. apply in_seq in Hlevel. cbn [Tensor.mapM].
    rewrite (level_of_nth bin_levels level_idx b0) by lia.
    cbv beta iota delta [Py.bind Py.ret].
    assert (Hin : In (nth level_idx bin_levels b0) bin_levels) by (apply nth_In; lia).
    rewrite Forall_forall in Hreg.
    exact (merge_level_twice row categorical _ (Hreg _ Hin) (Hcat _ Hin)).
Qed.

End SelfMergeBins.

Lemma mapM_exists {A B} (f : A -> Py.result B) (P : A -> B -> Prop) (l : list A) :
  (forall a, In a l -> exists b, f a = inr b /\ P a b) ->
  exists bs, Tensor.mapM f l = inr bs /\ Forall2 P l bs.
Proof.
  induction l as [|a l IH]; intro H.
  - exists []. split; [reflexivity | constructor].
  - destruct (H a (or_introl eq_refl)) as [b [Hb Pb]].
    destruct IH as [bs [Hbs Pbs]]; [intros x Hx; apply H; now right|].
    exists (b :: bs). split; [|now constructor].
    simpl. rewrite Hb. cbv beta iota delta [Py.bind]. now rewrite Hbs.
Qed.

Lemma Forall2_map_eq {A B C} (g : B -> C) (h : A -> C) (l : list A) (bs : list B) :
  Forall2 (fun a b => g b = h a) l bs -> map g bs = map h l.
Proof. induction 1 as [|a b l bs E _ IH]; simpl; [reflexivity|]. now rewrite E, IH. Qed.

Lemma combine_map_snd {A B C} (g : B -> C) (l : list A) (l' : list B) :
  combine l (map g l') = map (fun p : A * B => (fst p, g (snd p))) (combine l l').
Proof.
  revert l'. induction l as [|a l IH]; intros [|b l']; simpl; try reflexivity.
  now rewrite IH.
Qed.

Lemma widen_by_kept (bin_levels : list Harmonize.feature_bins) (row : option (Q * Q)) :
  fold_left MergeEBMs.widen_by (map MergeEBMs.keep_level bin_levels) row = row.
Proof. induction bin_levels as [|b l IH]; simpl; [reflexivity | exact IH]. Qed.

Lemma kept_twice_nth (bin_levels : list Harmonize.feature_bins) (model_idx : nat) :
  (model_idx < 2)%nat ->
  nth model_idx (kept_twice bin_levels) [] = map MergeEBMs.keep_level bin_levels.
Proof. intro H. destruct model_idx as [|[|k]]; [reflexivity | reflexivity | lia]. Qed.

Lemma Forall2_nth_both {A B} (R : A -> B -> Prop) (l : list A) (l' : list B)
    (d : A) (d' : B) :
  Forall2 R l l' -> forall i, (i < length l')%nat -> R (nth i l d) (nth i l' d').
Proof.
  induction 1 as [|a b l l' Hab _ IH]; intros i Hi; simpl in Hi; [lia|].
  destruct i as [|i]; simpl; [exact Hab|]. apply IH. lia.
Qed.

Section SelfMergeFeatures.

Variable _convert_categorical_to_continuous :
  list (string * Z) -> Py.result (list Q * list (list Z) * Q * Q).

Variable m : MergeEBMs.model.
Variable rows : list (option (Q * Q)).

Hypothesis Hbounds : MergeEBMs.feature_bounds_ m = Some rows.
Hypothesis Hregular : Forall2 regular_feature rows (MergeEBMs.bins_ m).

Lemma regular_feature_nth (feature_idx : nat) :
  (feature_idx < length (MergeEBMs.bins_ m))%nat ->
  regular_feature (nth feature_idx rows None) (nth feature_idx (MergeEBMs.bins_ m) []).
Proof. apply Forall2_nth_both. exact Hregular. Qed.

Lemma merge_features_twice :
  exists features,
    Tensor.mapM (MergeEBMs.merge_feature _convert_categorical_to_continuous [m; m])
      (seq 0 (length (MergeEBMs.bins_ m)))
    = inr features
    /\ map MergeEBMs.new_leveled_bins features = MergeEBMs.bins_ m
    /\ map MergeEBMs.old_levels features = map kept_twice (MergeEBMs.bins_ m).
Proof.
  destruct (mapM_exists
              (MergeEBMs.merge_feature _convert_categorical_to_continuous [m; m])
              (fun feature_idx f =>
                 MergeEBMs.new_leveled_bins f = nth feature_idx (MergeEBMs.bins_ m) []
                 /\ MergeEBMs.old_levels f
                    = kept_twice (nth feature_idx (MergeEBMs.bins_ m) []))
              (seq 0 (length (MergeEBMs.bins_ m))))
    as [features [Hf HP]].
  - intros feature_idx Hin. apply in_seq in Hin.
    destruct (merge_feature_twice _convert_categorical_to_continuous m
                (nth feature_idx rows None) feature_idx)
      as [feature_type E]; [lia | apply regular_feature_nth; lia|].
    eexists. split; [exact E|]. split; reflexivity.
  - exists features. split; [exact Hf|]. split.
    + rewrite (Forall2_map_eq MergeEBMs.new_leveled_bins
                 (fun k => nth k (MergeEBMs.bins_ m) []) (seq 0 (length (MergeEBMs.bins_ m)))).
      * apply map_nth_seq.
      * eapply Forall2_impl; [|exact HP]. intros a b [E _]. exact E.
    + rewrite (Forall2_map_eq MergeEBMs.old_levels
                 (fun k => kept_twice (nth k (MergeEBMs.bins_ m) []))
                 (seq 0 (length (MergeEBMs.bins_ m)))).
      * rewrite <- (map_map (fun k => nth k (MergeEBMs.bins_ m) []) kept_twice).
        now rewrite map_nth_seq.
      * eapply Forall2_impl; [|exact HP]. intros a b [_ E]. exact E.
Qed.

Variable features : list MergeEBMs.feature_result.
Hypothesis Hfeatures : map MergeEBMs.old_levels features = map kept_twice (MergeEBMs.bins_ m).

Lemma old_bins_twice (model_idx : nat) :
  (model_idx < 2)%nat -> MergeEBMs.old_bins_of features model_idx = MergeEBMs.bins_ m.
Proof.
  intro H. unfold MergeEBMs.old_bins_of.
  rewrite <- (map_map MergeEBMs.old_levels
                (fun ol => map MergeEBMs.old_level_bins (nth model_idx ol []))).
  rewrite Hfeatures, map_map. rewrite <- (map_id (MergeEBMs.bins_ m)) at 2.
  apply map_ext. intro bin_levels. rewrite kept_twice_nth by exact H.
  rewrite map_map. apply map_id.
Qed.

Lemma old_mapping_twice (model_idx : nat) :
  (model_idx < 2)%nat ->
  MergeEBMs.old_mapping_of features model_idx
  = map (map (fun _ : Harmonize.feature_bins => @None (list (list Z)))) (MergeEBMs.bins_ m).
Proof.
  intro H. unfold MergeEBMs.old_mapping_of.
  rewrite <- (map_map MergeEBMs.old_levels
                (fun ol => map MergeEBMs.old_level_mapping (nth model_idx ol []))).
  rewrite Hfeatures, map_map.
  apply map_ext. intro bin_levels. rewrite kept_twice_nth by exact H.
  now rewrite map_map.
Qed.

Lemma old_bounds_twice (model_idx : nat) :
  (model_idx < 2)%nat -> MergeEBMs.old_bounds_of features model_idx m = Some rows.
Proof.
  intro H. unfold MergeEBMs.old_bounds_of. rewrite Hbounds. f_equal.
  assert (Hlen : length rows = length features).
  { rewrite (Forall2_length Hregular), <- (length_map kept_twice),
      <- Hfeatures, length_map. reflexivity. }
  rewrite <- (combine_fst rows features Hlen) at 2.
  apply map_ext_in. intros [row f] Hin. cbn [fst snd].
  assert (Hf : In (MergeEBMs.old_levels f) (map kept_twice (MergeEBMs.bins_ m))).
  { rewrite <- Hfeatures. apply in_map. eapply in_combine_r. exact Hin. }
  apply in_map_iff in Hf as [bin_levels [E _]]. rewrite <- E.
  rewrite kept_twice_nth by exact H. apply widen_by_kept.
Qed.

End SelfMergeFeatures.

(** *** The axis of a feature harmonized onto itself *)

Lemma identity_lookup_length (size : nat) :
  (2 <= size)%nat -> length (identity_lookup size) = size.
Proof.
  intro H. unfold identity_lookup. simpl.
  rewrite length_app, length_map, length_seq. simpl. lia.
Qed.

Lemma identity_lookup_nth (size p : nat) :
  (p < size)%nat -> old_position size (nth p (identity_lookup size) 0%Z) = p.
Proof.
  intro Hp. unfold identity_lookup. destruct p as [|p]; [reflexivity|].
  cbn [nth].
  destruct (Nat.lt_ge_cases p (size - 2)) as [Hmid | Hlast].
  - rewrite app_nth1 by (rewrite length_map, length_seq; exact Hmid).
    rewrite (nth_indep _ 0%Z (Z.of_nat 0)) by (rewrite length_map, length_seq; exact Hmid).
    rewrite map_nth, seq_nth by exact Hmid. apply old_position_nat.
  - rewrite app_nth2 by (rewrite length_map, length_seq; exact Hlast).
    rewrite length_map, length_seq.
    replace (p - (size - 2))%nat with 0%nat by lia.
    cbn [nth]. rewrite old_position_last by lia. lia.
Qed.

Lemma identity_axis_simple (size : nat) (a : Harmonize.axis) :
  identity_axis size a -> simple_axis size a.
Proof.
  intros [Hsize [Hmap [Hlook _]]]. split; [exact Hmap|].
  rewrite Hlook. unfold identity_lookup.
  constructor; [apply (normalize_index_nat size 0); lia|]. apply Forall_app. split.
  - apply Forall_forall. intros l Hl. apply in_map_iff in Hl as [k [<- Hk]].
    apply in_seq in Hk. rewrite old_position_nat. apply normalize_index_nat. lia.
  - constructor; [|constructor].
    rewrite old_position_last, normalize_index_last by lia. reflexivity.
Qed.

Lemma searchsorted_left_self (cuts : list Q) :
  StronglySorted Qlt cuts ->
  forall k, (k < length cuts)%nat ->
            Harmonize.searchsorted_left cuts (nth k cuts 0) = k.
Proof.
  induction 1 as [|x cuts Hs IH Hx]; intros k Hk; simpl in Hk; [lia|].
  destruct k as [|k]; simpl.
  - replace (Qle_bool x x) with true; [reflexivity|].
    symmetry. apply Qle_bool_iff. apply Qle_refl.
  - assert (Hlt : x < nth k cuts 0).
    { rewrite Forall_forall in Hx. apply Hx. apply nth_In. lia. }
    replace (Qle_bool (nth k cuts 0) x) with false.
    + f_equal. apply IH. lia.
    + symmetry. apply not_true_is_false. intro H. apply Qle_bool_iff in H. lra.
Qed.

Section SameGrid.

Variable cuts : list Q.
Variable row : Q * Q.

Hypothesis Hsorted : StronglySorted Qlt cuts.
Hypothesis Hrange : fst row < snd row.
Hypothesis Hinside : forall c, In c cuts -> fst row < c < snd row.

Let g := same_grid cuts row.

Lemma same_grid_finer : finer_grid g.
Proof.
  unfold finer_grid, g. simpl.
  split; [exact Hsorted|]. split; [exact Hsorted|].
  split; [intros c Hc; exists c; split; [exact Hc | reflexivity]|].
  split; [apply Qle_refl|]. split; [apply Qle_refl|]. split; [exact Hrange | exact Hinside].
Qed.

Lemma same_grid_looked_up (k : nat) :
  (k <= length cuts)%nat -> looked_up g k = (k + 1)%nat.
Proof.
  intro Hk. unfold looked_up, g. simpl.
  destruct (Nat.ltb_spec k (length cuts)) as [Hlt | Hge].
  - now rewrite (searchsorted_left_self cuts Hsorted k Hlt).
  - lia.
Qed.

Lemma same_grid_share (k : nat) :
  (k <= length cuts)%nat ->
  Harmonize.percentage_of row row cuts cuts k (Z.of_nat (looked_up g k)) == 1.
Proof.
  intro Hk.
  change (Harmonize.percentage_of (new_row g) (old_row g) (new_cuts g) (old_cuts g) k
            (Z.of_nat (looked_up g k)) == 1).
  rewrite percentage_of_edges, (same_grid_looked_up k Hk).
  assert (Hlow : new_low g k = old_low g (k + 1)).
  { unfold new_low, old_low, g. simpl.
    destruct k as [|k]; [reflexivity|].
    replace (S k + 1 =? 1)%nat with false by (symmetry; apply Nat.eqb_neq; lia).
    cbn [Nat.eqb]. f_equal. lia. }
  assert (Hhigh : new_high g k = old_high g (k + 1)).
  { unfold new_high, old_high, g. simpl.
    destruct (Nat.leb_spec (length cuts) k); destruct (Nat.ltb_spec (length cuts) (k + 1));
      try lia; [reflexivity|]. f_equal. lia. }
  pose proof (old_bin_nonempty g same_grid_finer (k + 1)) as Hw.
  simpl in Hw. specialize (Hw ltac:(lia)).
  rewrite Hlow, Hhigh.
  set (L := old_low g (k + 1)) in *. set (H := old_high g (k + 1)) in *.
  replace (Qle_bool H L) with false
    by (symmetry; apply not_true_is_false; intro E; apply Qle_bool_iff in E; lra).
  cbn [orb].
  replace (Qle_bool H H) with true by (symmetry; apply Qle_bool_iff; apply Qle_refl).
  replace (Qle_bool L L) with true by (symmetry; apply Qle_bool_iff; apply Qle_refl).
  field. lra.
Qed.

Lemma same_grid_identity : identity_axis (length cuts + 3) (continuous_plan g).
Proof.
  split; [lia|]. split; [reflexivity|]. split; [|split].
  - rewrite continuous_lookup. unfold identity_lookup.
    change (length (new_cuts g)) with (length cuts).
    do 2 f_equal. replace (length cuts + 3 - 2)%nat with (length cuts + 1)%nat by lia.
    rewrite <- seq_shift, map_map. apply map_ext_in. intros k Hk. apply in_seq in Hk.
    rewrite (same_grid_looked_up k) by lia. f_equal. lia.
  - rewrite continuous_percentage.
    change (length (new_cuts g)) with (length cuts).
    cbn [length]. rewrite length_app, length_map, length_seq. cbn [length]. lia.
  - rewrite continuous_percentage.
    change (length (new_cuts g)) with (length cuts).
    constructor; [reflexivity|].
    apply Forall_app. split; [|repeat constructor; reflexivity].
    apply Forall_forall. intros p Hp. apply in_map_iff in Hp as [k [<- Hk]].
    apply in_seq in Hk. apply same_grid_share. lia.
Qed.

End SameGrid.

(** *** A category map harmonized onto itself *)

Lemma reversed_add_fresh (bin_idx : Z) (category : string)
    (reversed : list (Z * list string)) :
  ~ In bin_idx (map fst reversed) ->
  Harmonize.reversed_add bin_idx category reversed = reversed ++ [(bin_idx, [category])].
Proof.
  induction reversed as [|[k cs] rest IH]; intro H; simpl; [reflexivity|].
  simpl in H. destruct (Z.eqb_spec k bin_idx) as [E | E]; [tauto|].
  rewrite IH by tauto. reflexivity.
Qed.

Lemma reverse_dict_from (d : list (string * Z)) :
  forall acc,
    NoDup (map fst acc ++ map snd d) ->
    fold_left (fun reversed item => Harmonize.reversed_add (snd item) (fst item) reversed)
              d acc
    = acc ++ map (fun item : string * Z => (snd item, [fst item])) d.
Proof.
  induction d as [|[k i] d IH]; intros acc H; simpl; [now rewrite app_nil_r|].
  simpl in H. rewrite reversed_add_fresh.
  - rewrite IH.
    + now rewrite <- app_assoc.
    + rewrite map_app, <- app_assoc. exact H.
  - apply NoDup_remove_2 in H. intro Hin. apply H. apply in_or_app. now left.
Qed.

Lemma reverse_dict_distinct (d : list (string * Z)) :
  NoDup (map snd d) ->
  Harmonize.reverse_dict d = map (fun item : string * Z => (snd item, [fst item])) d.
Proof. intro H. unfold Harmonize.reverse_dict. now rewrite reverse_dict_from. Qed.

Lemma sorted_items_ascending (d : list (string * Z)) :
  forall start,
    map snd d = map Z.of_nat (seq start (length d)) ->
    Harmonize.sorted_items (map (fun item : string * Z => (snd item, [fst item])) d)
    = map (fun item : string * Z => (snd item, [fst item])) d.
Proof.
  unfold Harmonize.sorted_items.
  induction d as [|[k i] d IH]; intros start H; [reflexivity|].
  simpl in H. injection H as Hi Hd. simpl. rewrite (IH (S start) Hd).
  destruct d as [|[k' i'] d']; [reflexivity|].
  simpl in Hd. injection Hd as Hi' _. simpl.
  destruct (Z.leb_spec i i'); [reflexivity | lia].
Qed.

Lemma dict_get_member (d : list (string * Z)) (k : string) (i : Z) :
  NoDup (map fst d) -> In (k, i) d -> Harmonize.dict_get d k = Some i.
Proof.
  unfold Harmonize.dict_get.
  induction d as [|[k' i'] d IH]; intros Hnd Hin; [destruct Hin|].
  simpl in *. inversion Hnd as [|? ? Hk' Hnd']; subst.
  destruct Hin as [E | Hin].
  - injection E as -> ->. now rewrite String.eqb_refl.
  - destruct (String.eqb_spec k' k) as [-> | Hne].
    + exfalso. apply Hk'. apply in_map_iff. exists (k, i). now split.
    + now apply IH.
Qed.

Lemma reversed_get_member (d : list (string * Z)) (k : string) (i : Z) :
  NoDup (map snd d) -> In (k, i) d ->
  Harmonize.reversed_get (map (fun item : string * Z => (snd item, [fst item])) d) i = [k].
Proof.
  unfold Harmonize.reversed_get.
  induction d as [|[k' i'] d IH]; intros Hnd Hin; [destruct Hin|].
  simpl in *. inversion Hnd as [|? ? Hi' Hnd']; subst.
  destruct Hin as [E | Hin].
  - injection E as -> ->. now rewrite Z.eqb_refl.
  - destruct (Z.eqb_spec i' i) as [-> | Hne].
    + exfalso. apply Hi'. apply in_map_iff. exists (k, i). now split.
    + now apply IH.
Qed.

Lemma strictly_sorted_NoDup (keys : list string) :
  StronglySorted (fun a b => String.compare a b = Lt) keys -> NoDup keys.
Proof.
  induction 1 as [|k keys Hs IH Hk]; constructor; [|exact IH].
  intro Hin. rewrite Forall_forall in Hk. specialize (Hk k Hin).
  pose proof (String.compare_antisym k k) as Ha. rewrite Hk in Ha. discriminate.
Qed.

Lemma numbered_NoDup (start n : nat) : NoDup (map Z.of_nat (seq start n)).
Proof.
  revert start. induction n as [|n IH]; intro start; simpl; constructor; [|apply IH].
  intro Hin. apply in_map_iff in Hin as [x [E Hx]]. apply in_seq in Hx. lia.
Qed.

Lemma categorical_axis_identity (categories : list (string * Z)) :
  alphabetical categories ->
  identity_axis (length categories + 2)
    {| Harmonize.mapping := default_mapping (length categories + 2);
       Harmonize.lookup := fst (Harmonize.categorical_axis categories categories);
       Harmonize.percentage := snd (Harmonize.categorical_axis categories categories) |}.
Proof.
  intros [Hkeys Hvals].
  assert (Hnk : NoDup (map fst categories)) by now apply strictly_sorted_NoDup.
  assert (Hnv : NoDup (map snd categories)) by (rewrite Hvals; apply numbered_NoDup).
  unfold Harmonize.categorical_axis.
  rewrite (reverse_dict_distinct _ Hnv), (sorted_items_ascending _ 1%nat Hvals).
  match goal with
  | |- context [map ?F (map (fun item : string * Z => (snd item, [fst item])) categories)] =>
      assert (Hentries :
        map F (map (fun item : string * Z => (snd item, [fst item])) categories)
        = map (fun item : string * Z => (snd item, inject_Z 1 / inject_Z 1)) categories)
  end.
  { rewrite map_map. apply map_ext_in. intros [k i] Hin. cbn [fst snd hd].
    rewrite (dict_get_member _ k i Hnk Hin).
    assert (Hi : (0 <= i)%Z).
    { assert (Hin' : In i (map snd categories))
        by (apply in_map_iff; exists (k, i); now split).
      rewrite Hvals in Hin'. apply in_map_iff in Hin' as [x [<- _]]. lia. }
    replace (0 <=? i)%Z with true by (symmetry; apply Z.leb_le; exact Hi).
    rewrite (reversed_get_member _ k i Hnv Hin). reflexivity. }
  rewrite Hentries.
  cbn [fst snd Harmonize.mapping Harmonize.lookup Harmonize.percentage].
  rewrite !map_map. cbn [fst snd].
  split; [lia|]. split; [reflexivity|]. split; [|split].
  - unfold identity_lookup.
    replace (length categories + 2 - 2)%nat with (length categories) by lia.
    rewrite <- Hvals. reflexivity.
  - simpl. rewrite length_app, length_map. simpl. lia.
  - constructor; [reflexivity|]. apply Forall_app. split; [|repeat constructor; reflexivity].
    apply Forall_forall. intros p Hp. apply in_map_iff in Hp as [item [<- _]]. reflexivity.
Qed.

(** *** Harmonizing a tensor onto the bins it has *)

Lemma identity_sizes (sizes : list nat) (axes : list Harmonize.axis) :
  Forall2 identity_axis sizes axes -> lookup_sizes axes = sizes.
Proof.
  induction 1 as [|s a sizes axes [Hs [_ [Hl _]]] _ IH]; simpl; [reflexivity|].
  rewrite Hl, identity_lookup_length by exact Hs. f_equal. exact IH.
Qed.

Lemma identity_positions (sizes : list nat) (axes : list Harmonize.axis) :
  Forall2 identity_axis sizes axes ->
  forall positions,
    Forall2 lt positions sizes ->
    old_positions sizes axes positions = positions
    /\ cell_fraction axes positions == 1.
Proof.
  induction 1 as [|s a sizes axes [Hs [_ [Hl [Hlen Hp]]]] _ IH]; intros positions Hpos.
  - inversion Hpos; subst. split; [reflexivity|]. unfold cell_fraction. simpl. reflexivity.
  - inversion Hpos as [|p s' ps ss Hlt Hpos']; subst.
    destruct (IH ps Hpos') as [IH1 IH2]. split.
    + unfold old_positions in *. simpl. rewrite IH1, Hl.
      now rewrite identity_lookup_nth.
    + unfold cell_fraction in *. simpl.
      assert (Hone : nth p (Harmonize.percentage a) 0 == 1).
      { rewrite Forall_forall in Hp. apply Hp. apply nth_In. lia. }
      rewrite Hone, IH2. ring.
Qed.

Lemma Forall2_Qeq_nth (data data' : list Q) :
  length data' = length data ->
  (forall c, (c < length data)%nat -> nth c data' 0 == nth c data 0) ->
  Forall2 Qeq data' data.
Proof.
  revert data'. induction data as [|x data IH]; intros [|y data'] Hlen H;
    simpl in Hlen; try discriminate; constructor.
  - apply (H 0%nat). simpl. lia.
  - apply IH; [lia|]. intros c Hc. apply (H (S c)). simpl. lia.
Qed.

(** With the same features in the same order and every axis an identity
    axis, [_harmonize_tensor] returns the scores as they are and the
    weights as numbers equal to them. *)
Lemma harmonize_identity
    (feature_idxs : list Z) (axes : list Harmonize.axis)
    (new_bounds : option (list (Q * Q))) (new_bins : list (list Harmonize.feature_bins))
    (old_bounds : option (list (Q * Q))) (old_bins : list (list Harmonize.feature_bins))
    (old_mapping : list (list Harmonize.mapping_level))
    (old_tensor : Tensor.t) (evidence : option Tensor.t) :
  Forall (fun f => 0 <= f)%Z feature_idxs ->
  Tensor.mapM (Harmonize.plan_axis (length feature_idxs) (length feature_idxs)
                 new_bounds new_bins old_bounds old_bins old_mapping) feature_idxs
  = inr axes ->
  Forall2 identity_axis (Tensor.shape old_tensor) axes ->
  Tensor.wf old_tensor ->
  (forall w, evidence = Some w ->
             Tensor.wf w /\ Tensor.shape w = Tensor.shape old_tensor) ->
  exists new_tensor,
    Harmonize._harmonize_tensor feature_idxs new_bounds new_bins feature_idxs
      old_bounds old_bins old_mapping old_tensor evidence
    = inr new_tensor
    /\ tensor_equiv new_tensor old_tensor
    /\ (evidence <> None -> new_tensor = old_tensor).
Proof.
  intros Hidx Hplan Hid Hwf Hev.
  set (sizes := Tensor.shape old_tensor) in *.
  assert (Hndim : Tensor.ndim old_tensor = length feature_idxs).
  { unfold Tensor.ndim. fold sizes. rewrite (Forall2_length Hid).
    destruct (mapM_spec _ _ _ Hplan) as [Hl _]. exact Hl. }
  pose proof (identity_sizes sizes axes Hid) as Hsizes.
  assert (Hrid : Forall2 identity_axis (rev sizes) (rev axes)) by now apply Forall2_rev_gen.
  pose proof (identity_sizes _ _ Hrid) as Hrsizes.
  assert (Hpositive : Forall (fun n => (0 < n)%nat) (rev sizes)).
  { apply Forall_rev. clear -Hid. induction Hid as [|s a ss aa [Hs _] _ IH]; constructor;
      [lia | exact IH]. }
  assert (Hlen : length (Tensor.data old_tensor) = Tensor.prod sizes) by exact Hwf.
  set (cell := fun c : nat =>
                 match evidence with
                 | None =>
                     nth c (Tensor.data old_tensor) 0
                     * cell_fraction (rev axes) (Harmonize.decompose c (rev sizes))
                 | Some _ => nth c (Tensor.data old_tensor) 0
                 end).
  assert (Hcells :
    Tensor.mapM (Harmonize.new_cell old_tensor evidence (rev axes))
      (seq 0 (Tensor.prod sizes))
    = inr (map cell (seq 0 (Tensor.prod sizes)))).
  { apply mapM_ok. intros c Hc. apply in_seq in Hc.
    rewrite (new_cell_simple old_tensor evidence (rev sizes) (rev axes) c Hwf);
      [|fold sizes; now rewrite rev_involutive
       |clear -Hrid; induction Hrid; constructor; [now apply identity_axis_simple | assumption]
       |rewrite Hrsizes; exact Hpositive].
    rewrite Hrsizes.
    destruct (identity_positions _ _ Hrid (Harmonize.decompose c (rev sizes))
                (decompose_bound _ c Hpositive)) as [Hold _].
    rewrite Hold, offset_decompose by (rewrite prod_rev; lia).
    reflexivity. }
  unfold Harmonize._harmonize_tensor.
  pose proof (find_axes_same_order feature_idxs Hidx [] (Forall_nil _)) as Hfa.
  cbn [app length] in Hfa. rewrite Hfa.
  cbv beta iota delta [Py.bind]. cbn [length].
  rewrite length_seq, <- Hndim, Nat.eqb_refl. cbn [negb].
  rewrite (transpose_identity old_tensor Hwf).
  assert (Hshape' : map (fun a => length (Harmonize.lookup a)) axes = sizes)
    by exact Hsizes.
  assert (Hresult :
    tensor_equiv (Tensor.mk sizes (map cell (seq 0 (Tensor.prod sizes)))) old_tensor
    /\ (evidence <> None ->
        Tensor.mk sizes (map cell (seq 0 (Tensor.prod sizes))) = old_tensor)).
  { split.
    - split; [reflexivity|]. cbn [Tensor.data].
      apply Forall2_Qeq_nth; [rewrite length_map, length_seq; now symmetry|].
      intros c Hc. rewrite Hlen in Hc.
      rewrite (nth_indep _ 0 (cell 0%nat)) by (rewrite length_map, length_seq; exact Hc).
      rewrite (map_nth cell), seq_nth by exact Hc. cbn [Nat.add]. unfold cell.
      destruct evidence; [reflexivity|].
      destruct (identity_positions _ _ Hrid (Harmonize.decompose c (rev sizes))
                  (decompose_bound _ c Hpositive)) as [_ Hfrac].
      rewrite Hfrac. ring.
    - intro Hsome. destruct old_tensor as [shape data]. cbn [Tensor.shape Tensor.data] in *.
      f_equal. unfold cell. destruct evidence; [|now contradiction Hsome].
      rewrite <- Hlen. apply map_nth_seq. }
  destruct evidence as [w|].
  - destruct (Hev w eq_refl) as [Hw Hs].
    pose proof (transpose_identity w Hw) as Htw.
    replace (Tensor.ndim w) with (Tensor.ndim old_tensor) in Htw
      by (unfold Tensor.ndim; now rewrite Hs).
    rewrite Htw. cbv beta iota delta [Py.ret].
    rewrite Hndim, Hplan, Hshape', Hcells.
    eexists. split; [reflexivity | exact Hresult].
  - cbv beta iota delta [Py.ret].
    rewrite Hndim, Hplan, Hshape', Hcells.
    eexists. split; [reflexivity | exact Hresult].
Qed.

(** *** The plan of a term of a model merged with itself *)

Lemma py_index_map {A B} (g : A -> B) (l : list A) (i : Z) (x : A) :
  Tensor.py_index l i = inr x -> Tensor.py_index (map g l) i = inr (g x).
Proof.
  unfold Tensor.py_index. rewrite length_map.
  destruct (Tensor.normalize_index (length l) i) as [e | j]; [discriminate|].
  cbv beta iota delta [Py.bind]. rewrite nth_error_map.
  destruct (nth_error l j); [|discriminate].
  intro H. injection H as <-. reflexivity.
Qed.

Lemma select_level_map {A B} (g : A -> B) (levels : list A) (n : nat) (x : A) :
  Harmonize.select_level levels n = inr x ->
  Harmonize.select_level (map g levels) n = inr (g x).
Proof.
  unfold Harmonize.select_level. rewrite length_map. apply py_index_map.
Qed.

Lemma select_level_nth {A} (levels : list A) (n : nat) (d : A) :
  levels <> [] -> (1 <= n)%nat ->
  Harmonize.select_level levels n = inr (nth (Nat.min (length levels) n - 1) levels d).
Proof.
  intros Hne Hn. unfold Harmonize.select_level.
  assert (Hlen : (0 < length levels)%nat) by (destruct levels; [congruence | simpl; lia]).
  replace (Z.min (Z.of_nat (length levels)) (Z.of_nat n) - 1)%Z
    with (Z.of_nat (Nat.min (length levels) n - 1)) by lia.
  apply py_index_nat. lia.
Qed.

Section SelfMergePlan.

Variable bins : list (list Harmonize.feature_bins).
Variable rows : list (option (Q * Q)).

Hypothesis Hregular : Forall2 regular_feature rows bins.

Let mapping : list (list Harmonize.mapping_level) :=
  map (map (fun _ : Harmonize.feature_bins => @None (list (list Z)))) bins.

Let bounds : option (list (Q * Q)) := Some (MergeEBMs.finite_rows rows).

Lemma plan_axis_self (n : nat) (f : Z) :
  (1 <= n)%nat -> (0 <= f < Z.of_nat (length bins))%Z ->
  exists b a,
    term_level bins n f = inr b
    /\ Harmonize.plan_axis n n bounds bins bounds bins mapping f = inr a
    /\ identity_axis (level_size b) a.
Proof.
  intros Hn Hf.
  set (k := Z.to_nat f).
  assert (Ef : f = Z.of_nat k) by (unfold k; lia).
  assert (Hk : (k < length bins)%nat) by lia.
  pose proof (Forall2_nth_both _ _ _ None [] Hregular k Hk) as [Hne [_ Hlevels]].
  set (bin_levels := nth k bins []) in *. set (row := nth k rows None) in *.
  assert (Hbins : Tensor.py_index bins f = inr bin_levels)
    by (rewrite Ef; now apply py_index_nat).
  set (b := nth (Nat.min (length bin_levels) n - 1) bin_levels (Harmonize.Cuts [])).
  assert (Hsel : Harmonize.select_level bin_levels n = inr b)
    by now apply select_level_nth.
  assert (Hb : regular_level row b).
  { rewrite Forall_forall in Hlevels. apply Hlevels. apply nth_In.
    assert (0 < length bin_levels)%nat
      by (destruct bin_levels; [congruence | simpl; lia]).
    lia. }
  assert (Hrow : Tensor.py_index rows f = inr row).
  { rewrite Ef. apply py_index_nat. rewrite (Forall2_length Hregular). exact Hk. }
  exists b.
  unfold term_level, Harmonize.plan_axis. rewrite Hbins.
  cbv beta iota delta [Py.bind]. rewrite Hsel.
  unfold mapping. rewrite (py_index_map _ _ _ _ Hbins).
  rewrite (select_level_map _ _ _ _ Hsel).
  destruct b as [cuts | categories]; cbn [Harmonize.bins_length Harmonize.is_dict].
  - destruct Hb as [Hsorted [lo [hi [Erow [Hrange Hinside]]]]].
    unfold bounds, Harmonize.bounds_row, MergeEBMs.finite_rows.
    rewrite (py_index_map _ _ _ _ Hrow), Erow.
    pose proof (same_grid_identity cuts (lo, hi) Hsorted Hrange Hinside) as Hid.
    unfold continuous_plan, same_grid in Hid. cbn [old_cuts new_cuts old_row new_row] in Hid.
    destruct (Harmonize.continuous_axis (lo, hi) (lo, hi) cuts cuts) as [lookup percentage].
    eexists. split; [reflexivity|]. split; [reflexivity|]. exact Hid.
  - pose proof (categorical_axis_identity categories Hb) as Hid.
    destruct (Harmonize.categorical_axis categories categories) as [lookup percentage].
    eexists. split; [reflexivity|]. split; [reflexivity|]. exact Hid.
Qed.

Lemma plan_term_self (n : nat) (term : list Z) :
  (1 <= n)%nat ->
  Forall (fun f => (0 <= f < Z.of_nat (length bins))%Z) term ->
  exists sizes axes,
    Tensor.mapM (fun f => b <- term_level bins n f ;; Py.ret (level_size b)) term
    = inr sizes
    /\ Tensor.mapM (Harmonize.plan_axis n n bounds bins bounds bins mapping) term
       = inr axes
    /\ Forall2 identity_axis sizes axes.
Proof.
  intros Hn. induction 1 as [|f term Hf _ IH].
  - exists [], []. repeat split. constructor.
  - destruct (plan_axis_self n f Hn Hf) as [b [a [Hb [Ha Hid]]]].
    destruct IH as [sizes [axes [Hs [Hp Hids]]]].
    exists (level_size b :: sizes), (a :: axes).
    cbn [Tensor.mapM]. rewrite Hb, Ha, Hs, Hp. repeat split. now constructor.
Qed.

End SelfMergePlan.

(** *** One term of a model merged with itself *)

Lemma irreflexive_sorted_NoDup {A} (R : A -> A -> Prop) (l : list A) :
  (forall x, ~ R x x) -> StronglySorted R l -> NoDup l.
Proof.
  intro Hirr. induction 1 as [|a l Hs IH Ha]; constructor; [|exact IH].
  intro Hin. rewrite Forall_forall in Ha. exact (Hirr a (Ha a Hin)).
Qed.

Lemma idxs_eqb_eq (a b : list Z) : MergeEBMs.idxs_eqb a b = true <-> a = b.
Proof.
  unfold MergeEBMs.idxs_eqb. split.
  - destruct (MergeEBMs.compare_idxs a b) eqn:E; try discriminate.
    intros _. now apply compare_idxs_eq.
  - intros ->. now rewrite compare_idxs_refl.
Qed.

Lemma term_index_skip (fg : list Z) (l : list (list Z)) :
  (forall t, In t l -> MergeEBMs.sorted_idxs t <> fg) ->
  forall start found,
    fold_left
      (fun (found : option nat) (entry : nat * list Z) =>
         if MergeEBMs.idxs_eqb (MergeEBMs.sorted_idxs (snd entry)) fg
         then Some (fst entry) else found)
      (combine (seq start (length l)) l) found
    = found.
Proof.
  induction l as [|t l IH]; intros H start found; [reflexivity|].
  simpl. destruct (MergeEBMs.idxs_eqb (MergeEBMs.sorted_idxs t) fg) eqn:E.
  - apply idxs_eqb_eq in E. exfalso. apply (H t); [now left | exact E].
  - apply IH. intros t' Ht'. apply H. now right.
Qed.

Lemma term_index_found (l : list (list Z)) :
  Forall (fun t => MergeEBMs.sorted_idxs t = t) l -> NoDup l ->
  forall start found i,
    (i < length l)%nat ->
    fold_left
      (fun (found : option nat) (entry : nat * list Z) =>
         if MergeEBMs.idxs_eqb (MergeEBMs.sorted_idxs (snd entry)) (nth i l [])
         then Some (fst entry) else found)
      (combine (seq start (length l)) l) found
    = Some (start + i)%nat.
Proof.
  induction l as [|t l IH]; intros Hasc Hnd start found i Hi; simpl in Hi; [lia|].
  inversion Hasc as [|? ? Ht Hasc']; subst. inversion Hnd as [|? ? Hnotin Hnd']; subst.
  destruct i as [|i]; cbn [length seq combine fold_left nth fst snd].
  - rewrite Ht, (proj2 (idxs_eqb_eq t t) eq_refl).
    rewrite term_index_skip; [f_equal; lia|].
    intros t' Ht' E. rewrite Forall_forall in Hasc'. rewrite (Hasc' t' Ht') in E.
    subst. contradiction.
  - rewrite Ht.
    destruct (MergeEBMs.idxs_eqb t (nth i l [])) eqn:E.
    + apply idxs_eqb_eq in E. exfalso. apply Hnotin. rewrite E. apply nth_In. lia.
    + rewrite (IH Hasc' Hnd' (S start) found i) by lia. f_equal. lia.
Qed.

Lemma add_lists_self (x y : list Q) :
  Forall2 Qeq x y ->
  Forall2 (fun a b => a == 2 * b) (Postprocess.add_lists x x) y.
Proof.
  induction 1 as [|a b x y E _ IH]; simpl; constructor; [|exact IH].
  rewrite E. ring.
Qed.

Lemma Forall2_nth_intro {A B} (R : A -> B -> Prop) (l : list A) (l' : list B)
    (d : A) (d' : B) :
  length l = length l' ->
  (forall i, (i < length l')%nat -> R (nth i l d) (nth i l' d')) ->
  Forall2 R l l'.
Proof.
  revert l'. induction l as [|a l IH]; intros [|b l'] Hlen H; simpl in Hlen;
    try discriminate; constructor.
  - apply (H 0%nat). simpl. lia.
  - apply IH; [lia|]. intros i Hi. apply (H (S i)). simpl. lia.
Qed.

Section SelfMergeTerm.

Variable m : MergeEBMs.model.
Variable rows : list (option (Q * Q)).
Variable features : list MergeEBMs.feature_result.
Variable n_classes : Z.
Variable bags : list (list Tensor.t).
Variable n_bags : nat.

Hypothesis Hbounds : MergeEBMs.feature_bounds_ m = Some rows.
Hypothesis Hregular : Forall2 regular_feature rows (MergeEBMs.bins_ m).
Hypothesis Hfeatures :
  map MergeEBMs.old_levels features = map kept_twice (MergeEBMs.bins_ m).
Hypothesis Hsorted :
  StronglySorted (fun a b => MergeEBMs.compare_terms a b = Lt) (MergeEBMs.term_features_ m).
Hypothesis Hterms :
  Forall (fun term =>
            term <> [] /\ StronglySorted Z.lt term
            /\ Forall (fun f => (0 <= f < Z.of_nat (length (MergeEBMs.bins_ m)))%Z) term)
         (MergeEBMs.term_features_ m).
Hypothesis Hbags : MergeEBMs.bagged_additive_terms_ m = Some bags.
Hypothesis Hn_bags : (1 <= n_bags)%nat.
Hypothesis Hlen_weights :
  length (MergeEBMs.bin_weights_ m) = length (MergeEBMs.term_features_ m).
Hypothesis Hlen_bags : length bags = length (MergeEBMs.term_features_ m).
Hypothesis Htensors :
  forall i,
    (i < length (MergeEBMs.term_features_ m))%nat ->
    let weights := nth i (MergeEBMs.bin_weights_ m) (Tensor.mk [] []) in
    Tensor.wf weights
    /\ term_shape (MergeEBMs.bins_ m) (nth i (MergeEBMs.term_features_ m) [])
       = inr (Tensor.shape weights)
    /\ length (nth i bags []) = n_bags
    /\ Forall (fun bag => Tensor.wf bag /\ Tensor.shape bag = Tensor.shape weights)
              (nth i bags []).

Let s : MergeEBMs.merge_state :=
  {| MergeEBMs.models_ := [m; m];
     MergeEBMs.features_ := features;
     MergeEBMs.new_bins_ := MergeEBMs.bins_ m;
     MergeEBMs.new_bounds_ := Some rows;
     MergeEBMs.n_classes_ := n_classes |}.

Let terms := MergeEBMs.term_features_ m.

Lemma term_index_self (i : nat) :
  (i < length terms)%nat -> MergeEBMs.term_index m (nth i terms []) = Some i.
Proof.
  intro Hi. unfold MergeEBMs.term_index. fold terms.
  rewrite (term_index_found terms); [reflexivity | | | exact Hi].
  - eapply Forall_impl; [|exact Hterms]. intros t [_ [Hasc _]].
    now apply sorted_idxs_ascending.
  - apply (irreflexive_sorted_NoDup (fun a b => MergeEBMs.compare_terms a b = Lt));
      [|exact Hsorted].
    intros x H. pose proof (compare_terms_antisym x x) as Ha. rewrite H in Ha. discriminate.
Qed.

(** Harmonizing a tensor of term [i] onto the merged bins gives it back. *)
Lemma harmonize_self (i model_idx : nat) (tensor : Tensor.t) (evidence : option Tensor.t) :
  (i < length terms)%nat -> (model_idx < 2)%nat ->
  Tensor.wf tensor ->
  Tensor.shape tensor
  = Tensor.shape (nth i (MergeEBMs.bin_weights_ m) (Tensor.mk [] [])) ->
  (forall w, evidence = Some w ->
             Tensor.wf w /\ Tensor.shape w = Tensor.shape tensor) ->
  exists new_tensor,
    MergeEBMs.harmonize s (nth i terms []) model_idx m i tensor evidence = inr new_tensor
    /\ tensor_equiv new_tensor tensor
    /\ (evidence <> None -> new_tensor = tensor).
Proof.
  intros Hi Hmodel Hwf Hshape Hev.
  destruct (Htensors i Hi) as [_ [Hterm_shape _]].
  assert (Hterm : nth i terms [] <> []
                  /\ Forall (fun f => (0 <= f < Z.of_nat (length (MergeEBMs.bins_ m)))%Z)
                            (nth i terms [])).
  { rewrite Forall_forall in Hterms.
    destruct (Hterms (nth i terms []) (nth_In _ _ Hi)) as [Hne [_ Hvalid]]. now split. }
  destruct Hterm as [Hne Hvalid].
  assert (Hn : (1 <= length (nth i terms []))%nat)
    by (destruct (nth i terms []); [congruence | simpl; lia]).
  destruct (plan_term_self (MergeEBMs.bins_ m) rows Hregular (length (nth i terms []))
              (nth i terms []) Hn Hvalid) as [sizes [axes [Hsizes [Hplan Hid]]]].
  unfold term_shape in Hterm_shape. fold terms in Hterm_shape.
  rewrite Hsizes in Hterm_shape. injection Hterm_shape as Esizes.
  unfold MergeEBMs.harmonize, s. cbn [MergeEBMs.new_bounds_ MergeEBMs.features_
                                       MergeEBMs.new_bins_].
  fold terms. rewrite (index_nat_nth terms i [] Hi).
  cbv beta iota delta [Py.bind].
  rewrite (old_bounds_twice m rows Hbounds Hregular features Hfeatures model_idx Hmodel).
  rewrite (old_bins_twice m features Hfeatures model_idx Hmodel).
  rewrite (old_mapping_twice m features Hfeatures model_idx Hmodel).
  cbn [option_map].
  apply (harmonize_identity (nth i terms []) axes).
  - eapply Forall_impl; [|exact Hvalid]. intros f Hf. cbv beta in Hf. apply Hf.
  - exact Hplan.
  - rewrite Hshape, <- Esizes. exact Hid.
  - exact Hwf.
  - exact Hev.
Qed.

Lemma n_outer_bags_self (i : nat) :
  (i < length terms)%nat -> MergeEBMs.n_outer_bags m = Z.of_nat n_bags.
Proof.
  intro Hi. unfold MergeEBMs.n_outer_bags. rewrite Hbags.
  assert (H0 : (0 < length terms)%nat) by lia.
  destruct (Htensors 0%nat H0) as [_ [_ [Hlen _]]].
  destruct bags as [|first rest]; [simpl in Hlen_bags; fold terms in Hlen_bags; lia|].
  simpl in Hlen. now rewrite Hlen.
Qed.

Lemma weights_self (i model_idx : nat) :
  (i < length terms)%nat -> (model_idx < 2)%nat ->
  exists harmonized,
    MergeEBMs.harmonize s (nth i terms []) model_idx m i
      (nth i (MergeEBMs.bin_weights_ m) (Tensor.mk [] [])) None
    = inr harmonized
    /\ tensor_equiv harmonized (nth i (MergeEBMs.bin_weights_ m) (Tensor.mk [] [])).
Proof.
  intros Hi Hmodel. destruct (Htensors i Hi) as [Hwf _].
  destruct (harmonize_self i model_idx _ None Hi Hmodel Hwf eq_refl)
    as [harmonized [E [Hequiv _]]]; [discriminate|].
  exists harmonized. now split.
Qed.

Lemma scores_self (i model_idx bag_idx : nat) :
  (i < length terms)%nat -> (model_idx < 2)%nat -> (bag_idx < n_bags)%nat ->
  MergeEBMs.harmonize s (nth i terms []) model_idx m i
    (nth bag_idx (nth i bags []) (Tensor.mk [] []))
    (Some (nth i (MergeEBMs.bin_weights_ m) (Tensor.mk [] [])))
  = inr (nth bag_idx (nth i bags []) (Tensor.mk [] [])).
Proof.
  intros Hi Hmodel Hbag. destruct (Htensors i Hi) as [Hwf [_ [Hlen Hall]]].
  rewrite Forall_forall in Hall.
  destruct (Hall (nth bag_idx (nth i bags []) (Tensor.mk [] [])))
    as [Hbag_wf Hbag_shape]; [apply nth_In; lia|].
  destruct (harmonize_self i model_idx _
              (Some (nth i (MergeEBMs.bin_weights_ m) (Tensor.mk [] [])))
              Hi Hmodel Hbag_wf Hbag_shape)
    as [harmonized [E [_ Hsame]]].
  - intros w Ew. injection Ew as <-. split; [exact Hwf | now symmetry].
  - rewrite E, Hsame by discriminate. reflexivity.
Qed.

Lemma term_of_model_self (i model_idx : nat) (percentages : Tensor.t) :
  (i < length terms)%nat -> (model_idx < 2)%nat ->
  exists harmonized,
    MergeEBMs.term_of_model s (nth i terms []) percentages model_idx m
    = inr (harmonized, nth i bags [])
    /\ tensor_equiv harmonized (nth i (MergeEBMs.bin_weights_ m) (Tensor.mk [] [])).
Proof.
  intros Hi Hmodel.
  destruct (weights_self i model_idx Hi Hmodel) as [harmonized [Hw Hequiv]].
  destruct (Htensors i Hi) as [_ [_ [Hlen _]]].
  exists harmonized. split; [|exact Hequiv].
  unfold MergeEBMs.term_of_model. rewrite (term_index_self i Hi).
  rewrite (index_nat_nth (MergeEBMs.bin_weights_ m) i (Tensor.mk [] []))
    by (rewrite Hlen_weights; exact Hi).
  cbv beta iota delta [Py.bind]. rewrite Hw, Hbags.
  rewrite (n_outer_bags_self i Hi), Nat2Z.id.
  rewrite (mapM_ok _ (fun bag_idx => nth bag_idx (nth i bags []) (Tensor.mk [] []))).
  - unfold Py.ret. do 2 f_equal. rewrite <- Hlen. apply map_nth_seq.
  - intros bag_idx Hbag. apply in_seq in Hbag.
    rewrite (index_nat_nth bags i []) by (rewrite Hlen_bags; exact Hi).
    rewrite (index_nat_nth (nth i bags []) bag_idx (Tensor.mk [] [])) by lia.
    apply scores_self; [exact Hi | exact Hmodel | lia].
Qed.

Lemma add_lists_equiv (x x' y : list Q) :
  Forall2 Qeq x y -> Forall2 Qeq x' y ->
  Forall2 (fun a b => a == 2 * b) (Postprocess.add_lists x x') y.
Proof.
  intro H. revert x'. induction H as [|a b x y E _ IH]; intros x' H';
    inversion H' as [|a' b' x'' y' E' H'']; subst; simpl; constructor.
  - rewrite E, E'. ring.
  - now apply IH.
Qed.

Lemma percentages_self (i : nat) :
  (i < length terms)%nat ->
  exists percentages,
    MergeEBMs.bin_weight_percentages s (nth i terms []) = inr percentages.
Proof.
  intro Hi.
  destruct (weights_self i 0 Hi ltac:(lia)) as [w0 [Hw0 [Hs0 _]]].
  destruct (weights_self i 1 Hi ltac:(lia)) as [w1 [Hw1 [Hs1 _]]].
  unfold MergeEBMs.bin_weight_percentages.
  change (MergeEBMs.models_ s) with [m; m].
  cbn [length seq combine Tensor.mapM fst snd].
  rewrite (term_index_self i Hi).
  rewrite (index_nat_nth (MergeEBMs.bin_weights_ m) i (Tensor.mk [] []))
    by (rewrite Hlen_weights; exact Hi).
  cbv beta iota delta [Py.bind]. rewrite Hw0, Hw1.
  cbv beta iota delta [Py.ret MergeEBMs.present]. cbn [flat_map app].
  unfold MergeEBMs.sum_tensors, Postprocess.all_same_shape.
  cbn [forallb MergeEBMs.scale Tensor.shape].
  rewrite shape_eqb_refl, Hs0, <- Hs1, shape_eqb_refl. cbn [andb negb].
  eexists. reflexivity.
Qed.

(** A term of the merged model: the bags of both copies, and weights that
    are twice the weights of the model. *)
Lemma merge_term_self (i : nat) :
  (i < length terms)%nat ->
  exists new_bin_weights,
    MergeEBMs.merge_term s (nth i terms [])
    = inr (new_bin_weights, nth i bags [] ++ nth i bags [])
    /\ tensor_scaled 2 new_bin_weights
         (nth i (MergeEBMs.bin_weights_ m) (Tensor.mk [] [])).
Proof.
  intro Hi.
  destruct (percentages_self i Hi) as [percentages Hp].
  destruct (term_of_model_self i 0 percentages Hi ltac:(lia)) as [w0 [Hw0 [Hs0 Hd0]]].
  destruct (term_of_model_self i 1 percentages Hi ltac:(lia)) as [w1 [Hw1 [Hs1 Hd1]]].
  unfold MergeEBMs.merge_term. rewrite Hp. cbv beta iota delta [Py.bind].
  change (MergeEBMs.models_ s) with [m; m].
  cbn [length seq combine Tensor.mapM fst snd].
  rewrite Hw0, Hw1. cbv beta iota delta [Py.bind Py.ret].
  cbn [map fst snd concat]. rewrite app_nil_r.
  unfold MergeEBMs.sum_tensors, Postprocess.all_same_shape. cbn [forallb].
  rewrite shape_eqb_refl, Hs0, <- Hs1, shape_eqb_refl. cbn [andb negb].
  eexists. split; [reflexivity|].
  split; [cbn [Tensor.shape]; congruence|].
  cbn [Tensor.data map fold_left]. now apply add_lists_equiv.
Qed.

Lemma merge_terms_self :
  exists merged_terms,
    Tensor.mapM (MergeEBMs.merge_term s) terms = inr merged_terms
    /\ map snd merged_terms = map (fun term_bags => term_bags ++ term_bags) bags
    /\ Forall2 (tensor_scaled 2) (map fst merged_terms) (MergeEBMs.bin_weights_ m).
Proof.
  destruct (mapM_exists
              (fun i => MergeEBMs.merge_term s (nth i terms []))
              (fun i (y : Tensor.t * list Tensor.t) =>
                 snd y = nth i bags [] ++ nth i bags []
                 /\ tensor_scaled 2 (fst y)
                      (nth i (MergeEBMs.bin_weights_ m) (Tensor.mk [] [])))
              (seq 0 (length terms)))
    as [merged_terms [Hm HP]].
  - intros i Hi. apply in_seq in Hi.
    destruct (merge_term_self i) as [w [E Hw]]; [lia|].
    eexists. split; [exact E|]. split; [reflexivity | exact Hw].
  - exists merged_terms. split; [|split].
    + assert (E : Tensor.mapM (MergeEBMs.merge_term s) terms
                  = Tensor.mapM (MergeEBMs.merge_term s)
                      (map (fun i => nth i terms []) (seq 0 (length terms))))
        by (now rewrite map_nth_seq).
      rewrite E, <- mapM_map. exact Hm.
    + rewrite (Forall2_map_eq snd (fun i => nth i bags [] ++ nth i bags [])
                 (seq 0 (length terms))).
      * rewrite <- (map_map (fun i => nth i bags []) (fun b => b ++ b)).
        fold terms in Hlen_bags. rewrite <- Hlen_bags. now rewrite map_nth_seq.
      * eapply Forall2_impl; [|exact HP]. intros a b [E _]. exact E.
    + pose proof (Forall2_length HP) as Hlen. rewrite length_seq in Hlen.
      apply Forall2_nth_intro with (d := Tensor.mk [] []) (d' := Tensor.mk [] []).
      * rewrite length_map, <- Hlen. fold terms in Hlen_weights. now rewrite Hlen_weights.
      * intros i Hi. fold terms in Hlen_weights. rewrite Hlen_weights in Hi.
        pose proof (Forall2_nth_both _ _ _ 0%nat (Tensor.mk [] [], [])
                      HP i ltac:(lia)) as [_ Hw].
        rewrite seq_nth in Hw by exact Hi. cbn [Nat.add] in Hw.
        change (Tensor.mk [] []) with (fst (Tensor.mk [] [], @nil Tensor.t)) at 1.
        rewrite map_nth. exact Hw.
Qed.

End SelfMergeTerm.

(** *** Averaging every bag twice, centering on doubled weights *)

Lemma add_lists_length (a b : list Q) :
  length (Postprocess.add_lists a b) = Nat.min (length a) (length b).
Proof.
  revert b. induction a as [|x a IH]; intros [|y b]; simpl; try reflexivity.
  now rewrite IH.
Qed.

Lemma add_lists_nth (a b : list Q) (j : nat) :
  (j < length a)%nat -> (j < length b)%nat ->
  nth j (Postprocess.add_lists a b) 0 == nth j a 0 + nth j b 0.
Proof.
  revert b j. induction a as [|x a IH]; intros [|y b] j Ha Hb; simpl in *; try lia.
  destruct j as [|j]; [reflexivity|]. apply IH; lia.
Qed.

(** Column [j] of the sum of rows of one length. *)
Lemma fold_add_lists_nth (size : nat) (rows : list (list Q)) :
  Forall (fun row => length row = size) rows ->
  forall acc,
    length acc = size ->
    length (fold_right Postprocess.add_lists acc rows) = size
    /\ forall j, (j < size)%nat ->
                 nth j (fold_right Postprocess.add_lists acc rows) 0
                 == nth j acc 0 + Tensor.Qsum (map (fun row => nth j row 0) rows).
Proof.
  induction 1 as [|row rows Hrow _ IH]; intros acc Hacc; simpl.
  - split; [exact Hacc|]. intros j _. ring.
  - destruct (IH acc Hacc) as [Hlen Hnth]. split.
    + rewrite add_lists_length. lia.
    + intros j Hj. rewrite add_lists_nth by lia. rewrite (Hnth j Hj). ring.
Qed.

Lemma Qeq_bool_scaled (x y : Q) : x == 2 * y -> Qeq_bool x 0 = Qeq_bool y 0.
Proof.
  intro H. destruct (Qeq_bool y 0) eqn:E.
  - apply Qeq_bool_iff in E. apply Qeq_bool_iff. rewrite H, E. ring.
  - apply not_true_is_false. intro E'. apply Qeq_bool_iff in E'.
    assert (Hy : y == 0) by lra. apply Qeq_bool_iff in Hy. congruence.
Qed.

Lemma Qsum_scaled (c : Q) (x y : list Q) :
  Forall2 (fun a b => a == c * b) x y -> Tensor.Qsum x == c * Tensor.Qsum y.
Proof.
  induction 1 as [|a b x y E _ IH]; simpl; [ring|]. rewrite E, IH. ring.
Qed.

Lemma dot_scaled (c : Q) (a' a w' w : list Q) :
  Forall2 Qeq a' a -> Forall2 (fun x y => x == c * y) w' w ->
  Postprocess.dot a' w' == c * Postprocess.dot a w.
Proof.
  unfold Postprocess.dot. intro Ha. revert w' w.
  induction Ha as [|x' x a' a Ex _ IH]; intros w' w Hw.
  - simpl. ring.
  - inversion Hw as [|y' y w'' w0 Ey Hw']; subst; simpl; [ring|].
    rewrite (IH _ _ Hw'), Ex, Ey. ring.
Qed.

Lemma all_equal_twice (bag_weights : list Q) :
  Postprocess.all_equal (bag_weights ++ bag_weights) = Postprocess.all_equal bag_weights.
Proof.
  unfold Postprocess.all_equal.
  replace (hd 0 (bag_weights ++ bag_weights)) with (hd 0 bag_weights)
    by (destruct bag_weights; reflexivity).
  rewrite forallb_app. apply andb_diag.
Qed.

Lemma combine_app_same {A B} (l1 l2 : list A) (l1' l2' : list B) :
  length l1 = length l1' ->
  combine (l1 ++ l2) (l1' ++ l2') = combine l1 l1' ++ combine l2 l2'.
Proof.
  revert l1'. induction l1 as [|a l1 IH]; intros [|b l1'] H; simpl in *;
    try discriminate; [reflexivity|].
  rewrite IH by lia. reflexivity.
Qed.

Lemma nth_map_default {A B} (f : A -> B) (l : list A) (j : nat) (d : A) (d' : B) :
  (j < length l)%nat -> nth j (map f l) d' = f (nth j l d).
Proof.
  intro H. rewrite (nth_indep _ d' (f d)) by (rewrite length_map; exact H).
  apply map_nth.
Qed.

(** The weighted average of every bag taken twice is the weighted average
    of the bags. *)
Lemma average_bags_twice (score_tensors : list Tensor.t) (bag_weights : option (list Q))
    (averaged : Tensor.t) :
  Forall (fun bag => Tensor.wf bag
                     /\ Tensor.shape bag
                        = Tensor.shape (hd (Tensor.mk [] []) score_tensors))
         score_tensors ->
  Postprocess.average_bags score_tensors bag_weights = inr averaged ->
  exists averaged',
    Postprocess.average_bags (score_tensors ++ score_tensors)
      (option_map (fun ws => ws ++ ws) bag_weights)
    = inr averaged'
    /\ tensor_equiv averaged' averaged.
Proof.
  intros Hbags. unfold Postprocess.average_bags.
  destruct score_tensors as [|first rest] eqn:Ebags; [discriminate|].
  rewrite <- Ebags in *. cbn [hd] in Hbags.
  assert (Eapp : score_tensors ++ score_tensors = first :: rest ++ score_tensors)
    by (rewrite Ebags; reflexivity).
  rewrite Eapp. rewrite <- Eapp.
  unfold Postprocess.all_same_shape. rewrite forallb_app.
  destruct (forallb (fun a => Postprocess.shape_eqb (Tensor.shape first) (Tensor.shape a))
                    score_tensors) eqn:Eshape; [|discriminate].
  cbn [andb negb].
  set (ws := match bag_weights with
             | Some ws => ws
             | None => map (fun _ : Tensor.t => 1) score_tensors
             end).
  assert (Ews : match option_map (fun ws => ws ++ ws) bag_weights with
                | Some ws => ws
                | None => map (fun _ : Tensor.t => 1) (score_tensors ++ score_tensors)
                end = ws ++ ws).
  { unfold ws. destruct bag_weights; cbn [option_map]; [reflexivity | apply map_app]. }
  rewrite Ews.
  destruct (Nat.eqb_spec (length ws) (length score_tensors)) as [Hlen | Hlen];
    [|discriminate].
  cbn [negb].
  replace (length (ws ++ ws) =? length (score_tensors ++ score_tensors))%nat with true
    by (symmetry; apply Nat.eqb_eq; rewrite !length_app; lia).
  cbn [negb].
  assert (Hsum : Tensor.Qsum (ws ++ ws) == 2 * Tensor.Qsum ws)
    by (rewrite Qsum_app; ring).
  rewrite (Qeq_bool_scaled _ _ Hsum).
  destruct (Qeq_bool (Tensor.Qsum ws) 0) eqn:Ezero; [discriminate|].
  assert (Hnz : ~ Tensor.Qsum ws == 0)
    by (intro E; apply Qeq_bool_iff in E; congruence).
  intro H. injection H as <-.
  eexists. split; [reflexivity|]. split; [reflexivity|]. cbn [Tensor.data].
  rewrite combine_app_same by (symmetry; exact Hlen).
  rewrite map_app, fold_right_app.
  set (size := length (Tensor.data first)).
  set (weighted := map (fun p : Tensor.t * Q =>
                          map (fun v => v * snd p) (Tensor.data (fst p)))
                       (combine score_tensors ws)).
  set (zero := map (fun _ : Q => 0) (Tensor.data first)).
  assert (Hrows : Forall (fun row => length row = size) weighted).
  { apply Forall_forall. intros row Hrow. apply in_map_iff in Hrow as [[bag w] [<- Hin]].
    cbn [fst snd]. rewrite length_map. apply in_combine_l in Hin.
    rewrite Forall_forall in Hbags.
    destruct (Hbags bag Hin) as [Hwf Hs]. destruct (Hbags first) as [Hwf1 _];
      [rewrite Ebags; now left|].
    rewrite Ebags in Hs. cbn [hd] in Hs.
    unfold size. unfold Tensor.wf in *. now rewrite Hwf, Hwf1, Hs. }
  assert (Hzero : length zero = size) by (unfold zero; now rewrite length_map).
  destruct (fold_add_lists_nth size weighted Hrows zero Hzero) as [Hlen1 Hnth1].
  destruct (fold_add_lists_nth size weighted Hrows
              (fold_right Postprocess.add_lists zero weighted) Hlen1) as [Hlen2 Hnth2].
  apply Forall2_nth_intro with (d := 0) (d' := 0); [now rewrite !length_map, Hlen1, Hlen2|].
  intros j Hj. rewrite length_map, Hlen1 in Hj.
  rewrite (nth_map_default (fun v => v / Tensor.Qsum (ws ++ ws)) _ j 0 0)
    by (rewrite Hlen2; exact Hj).
  rewrite (nth_map_default (fun v => v / Tensor.Qsum ws) _ j 0 0)
    by (rewrite Hlen1; exact Hj).
  rewrite (Hnth2 j Hj), (Hnth1 j Hj), Hsum.
  assert (Hz : nth j zero 0 == 0).
  { unfold zero. rewrite (nth_map_default (fun _ : Q => 0) _ j 0 0) by exact Hj.
    reflexivity. }
  rewrite Hz. field. exact Hnz.
Qed.

Lemma average_scaled (term' term weights' weights : Tensor.t) (mean : Q) :
  tensor_equiv term' term -> tensor_scaled 2 weights' weights ->
  Postprocess.average term weights = inr mean ->
  exists mean', Postprocess.average term' weights' = inr mean' /\ mean' == mean.
Proof.
  intros [Hts Htd] [Hws Hwd]. unfold Postprocess.average, Tensor.sum.
  rewrite Hts, Hws.
  destruct (Postprocess.shape_eqb (Tensor.shape term) (Tensor.shape weights));
    [|discriminate].
  cbn [negb].
  pose proof (Qsum_scaled 2 _ _ Hwd) as Hsum.
  rewrite (Qeq_bool_scaled _ _ Hsum).
  destruct (Qeq_bool (Tensor.Qsum (Tensor.data weights)) 0) eqn:Ezero; [discriminate|].
  assert (Hnz : ~ Tensor.Qsum (Tensor.data weights) == 0)
    by (intro E; apply Qeq_bool_iff in E; congruence).
  intro H. injection H as <-. eexists. split; [reflexivity|].
  unfold Postprocess.weighted_mean, Tensor.sum.
  rewrite (dot_scaled 2 _ _ _ _ Htd Hwd), Hsum. field. exact Hnz.
Qed.

Lemma subtract_equiv (term' term : Tensor.t) (mean' mean : Q) :
  tensor_equiv term' term -> mean' == mean ->
  tensor_equiv (Postprocess.subtract term' mean') (Postprocess.subtract term mean).
Proof.
  intros [Hs Hd] Hm. split; [exact Hs|]. cbn [Postprocess.subtract Tensor.data].
  induction Hd as [|x y l l' E _ IH]; simpl; constructor; [|exact IH].
  rewrite E, Hm. reflexivity.
Qed.

(** Centering equal terms on doubled weights removes the same means. *)
Lemma center_scaled (terms' terms : list Tensor.t) :
  Forall2 tensor_equiv terms' terms ->
  forall (weights' weights : list Tensor.t) (intercept' intercept : Q)
         (centered : list Tensor.t * Q),
    Forall2 (tensor_scaled 2) weights' weights ->
    intercept' == intercept ->
    Postprocess.center terms weights intercept = inr centered ->
    exists centered',
      Postprocess.center terms' weights' intercept' = inr centered'
      /\ Forall2 tensor_equiv (fst centered') (fst centered)
      /\ snd centered' == snd centered.
Proof.
  induction 1 as [|term' term terms' terms Hterm _ IH];
    intros weights' weights intercept' intercept centered Hw Hi Hc; simpl in *.
  - injection Hc as <-. eexists. split; [reflexivity|]. split; [constructor | exact Hi].
  - destruct weights as [|w weights]; [discriminate|].
    inversion Hw as [|w' w0 ws' ws0 Hw1 Hw2]; subst.
    destruct (Postprocess.average term w) as [e | mean] eqn:Emean; [discriminate|].
    destruct (average_scaled term' term w' w mean Hterm Hw1 Emean) as [mean' [E' Hm]].
    rewrite E'. cbv beta iota delta [Py.bind] in *.
    destruct (Postprocess.center terms weights (intercept + mean)) as [e | rest] eqn:Erest;
      [discriminate|].
    destruct (IH ws' weights (intercept' + mean') (intercept + mean) rest Hw2)
      as [rest' [Er' [Hr1 Hr2]]]; [now rewrite Hi, Hm | exact Erest|].
    rewrite Er'. injection Hc as <-. eexists. split; [reflexivity|].
    cbn [fst snd]. split; [|exact Hr2].
    constructor; [now apply subtract_equiv | exact Hr1].
Qed.

Lemma filter_sum_scaled (P : list nat -> bool) (idxs : list (list nat)) (data' data : list Q) :
  Forall2 (fun x y => x == 2 * y) data' data ->
  Tensor.Qsum (map snd (filter (fun c : list nat * Q => P (fst c)) (combine idxs data')))
  == 2 * Tensor.Qsum
           (map snd (filter (fun c : list nat * Q => P (fst c)) (combine idxs data))).
Proof.
  intro H. revert idxs. induction H as [|x y data' data E _ IH]; intros [|i idxs]; simpl;
    try ring.
  destruct (P i); simpl; rewrite (IH idxs); [rewrite E|]; ring.
Qed.

Lemma flags_scaled (weights' weights : Tensor.t) :
  tensor_scaled 2 weights' weights ->
  Postprocess.lower_flags weights' = Postprocess.lower_flags weights
  /\ Postprocess.higher_flags weights' = Postprocess.higher_flags weights.
Proof.
  intros [Hs Hd].
  unfold Postprocess.lower_flags, Postprocess.higher_flags, Postprocess.slice_sum,
    Tensor.cells, Tensor.ndim.
  rewrite Hs. split; apply map_ext; intro d; apply Qeq_bool_scaled.
  - apply (filter_sum_scaled (fun idx => (nth d idx 0 =? 0)%nat)). exact Hd.
  - apply (filter_sum_scaled
             (fun idx => (nth d idx 0 =? nth d (Tensor.shape weights) 0 - 1)%nat)).
    exact Hd.
Qed.

Lemma zero_tensor_equiv (tensor' tensor : Tensor.t) (zero_low zero_high : list bool) :
  tensor_equiv tensor' tensor ->
  tensor_equiv (Postprocess._zero_tensor tensor' zero_low zero_high)
               (Postprocess._zero_tensor tensor zero_low zero_high).
Proof.
  intros [Hs Hd]. split; [exact Hs|].
  unfold Postprocess._zero_tensor, Tensor.cells. cbn [Tensor.data]. rewrite Hs.
  generalize (Tensor.indices (Tensor.shape tensor)) as idxs.
  induction Hd as [|x y data' data E _ IH]; intros [|i idxs]; simpl; try constructor.
  - cbn [fst snd].
    destruct (Postprocess.on_cleared_slice zero_low zero_high (Tensor.shape tensor) i);
      [reflexivity | exact E].
  - apply IH.
Qed.

Lemma restore_scaled (terms' terms : list Tensor.t) :
  Forall2 tensor_equiv terms' terms ->
  forall weights' weights,
    Forall2 (tensor_scaled 2) weights' weights ->
    Forall2 tensor_equiv
      (Postprocess._restore_missing_value_zeros2 terms' weights')
      (Postprocess._restore_missing_value_zeros2 terms weights).
Proof.
  induction 1 as [|term' term terms' terms Hterm Hterms IH]; intros weights' weights Hw.
  - destruct weights', weights; constructor.
  - inversion Hw as [|w' w ws' ws Hw1 Hw2]; subst; simpl.
    + constructor; assumption.
    + destruct (flags_scaled w' w Hw1) as [-> ->].
      constructor; [now apply zero_tensor_equiv | now apply IH].
Qed.

Lemma mapM_compat {A A' B} (f : A -> Py.result B) (f' : A' -> Py.result B)
    (h : A -> A') (R : B -> B -> Prop) (l : list A) :
  forall r,
    Tensor.mapM f l = inr r ->
    (forall a b, In a l -> f a = inr b -> exists b', f' (h a) = inr b' /\ R b' b) ->
    exists r', Tensor.mapM f' (map h l) = inr r' /\ Forall2 R r' r.
Proof.
  induction l as [|a l IH]; intros r Hr H; simpl in *.
  - injection Hr as <-. exists []. split; [reflexivity | constructor].
  - destruct (f a) as [e | b] eqn:Eb; [discriminate|].
    cbv beta iota delta [Py.bind] in Hr.
    destruct (Tensor.mapM f l) as [e | bs] eqn:Ebs; [discriminate|].
    injection Hr as <-.
    destruct (H a b (or_introl eq_refl) Eb) as [b' [Eb' Rb]].
    destruct (IH bs eq_refl) as [bs' [Ebs' Rbs]];
      [intros a0 b0 Hin; apply H; now right|].
    exists (b' :: bs'). split; [|now constructor].
    rewrite Eb'. cbv beta iota delta [Py.bind]. now rewrite Ebs'.
Qed.

Section ProcessTwice.

Variable multiclass_postprocess2 :
  Z -> list Tensor.t -> Q -> list Tensor.t -> Py.result (list Tensor.t * Q).

(** [_process_terms] on the bags of a model taken twice, twice its bin
    weights and its bag weights taken twice gives the terms and the
    intercept of the model. *)
Lemma process_terms_twice (n_classes : Z) (bags : list (list Tensor.t))
    (weights' weights : list Tensor.t) (bag_weights : list Q)
    (result : list Tensor.t * Q) :
  (n_classes <= 2)%Z ->
  Forall (fun term_bags =>
            Forall (fun bag => Tensor.wf bag
                               /\ Tensor.shape bag
                                  = Tensor.shape (hd (Tensor.mk [] []) term_bags))
                   term_bags)
         bags ->
  Forall2 (tensor_scaled 2) weights' weights ->
  Postprocess._process_terms multiclass_postprocess2 n_classes bags weights bag_weights
  = inr result ->
  exists result',
    Postprocess._process_terms multiclass_postprocess2 n_classes
      (map (fun term_bags => term_bags ++ term_bags) bags) weights'
      (bag_weights ++ bag_weights)
    = inr result'
    /\ Forall2 tensor_equiv (fst result') (fst result)
    /\ snd result' == snd result.
Proof.
  intros Hclasses Hbags Hweights. unfold Postprocess._process_terms.
  replace (n_classes <=? 2)%Z with true by (symmetry; apply Z.leb_le; exact Hclasses).
  match goal with
  | |- Py.bind (Tensor.mapM ?f bags) _ = _ -> _ =>
      destruct (Tensor.mapM f bags) as [e | averaged] eqn:Eavg; [discriminate|]
  end.
  cbv beta iota delta [Py.bind].
  destruct (Postprocess.center averaged weights 0) as [e | centered] eqn:Ecenter;
    [discriminate|].
  intro H. injection H as <-.
  match type of Eavg with
  | Tensor.mapM ?f bags = _ =>
      destruct (mapM_compat f
                  (fun score_tensors =>
                     match bag_weights ++ bag_weights with
                     | [] => Py.raise Py.IndexError
                     | _ :: _ =>
                         if Postprocess.all_equal (bag_weights ++ bag_weights)
                         then Postprocess.average_bags score_tensors None
                         else Postprocess.average_bags score_tensors
                                (Some (bag_weights ++ bag_weights))
                     end)
                  (fun term_bags => term_bags ++ term_bags) tensor_equiv bags averaged Eavg)
        as [averaged' [Eavg' Havg]]
  end.
  - intros term_bags a Hin Ha. rewrite Forall_forall in Hbags.
    rewrite all_equal_twice.
    destruct bag_weights as [|w ws]; [discriminate|]. cbn [app].
    destruct (Postprocess.all_equal (w :: ws)).
    + exact (average_bags_twice term_bags None a (Hbags _ Hin) Ha).
    + exact (average_bags_twice term_bags (Some (w :: ws)) a (Hbags _ Hin) Ha).
  - rewrite Eavg'.
    destruct (center_scaled averaged' averaged Havg weights' weights 0 0 centered
                Hweights ltac:(reflexivity) Ecenter) as [centered' [Ec' [Hc1 Hc2]]].
    rewrite Ec'. eexists. split; [reflexivity|]. cbn [fst snd].
    split; [now apply restore_scaled | exact Hc2].
Qed.

End ProcessTwice.

(** *** The steps of [merge_ebms] on a model and itself *)

Lemma select_type_self (ty : string) :
  ty = MergeTypes.Classifier \/ ty = MergeTypes.Regressor ->
  MergeTypes.select_type [ty; ty]
  = inr {| MergeTypes.ebm_type := ty;
           MergeTypes.is_classifier := String.eqb ty MergeTypes.Classifier;
           MergeTypes.is_private := false |}.
Proof. intros [-> | ->]; reflexivity. Qed.

Lemma check_bin_types_regular (m : MergeEBMs.model) (rows : list (option (Q * Q))) :
  Forall2 regular_feature rows (MergeEBMs.bins_ m) ->
  MergeEBMs.check_bin_types m = inr tt.
Proof.
  intro H. unfold MergeEBMs.check_bin_types.
  replace (forallb MergeEBMs.same_types (MergeEBMs.bins_ m)) with true; [reflexivity|].
  symmetry. induction H as [|row levels rows bins [_ [Hsame _]] _ IH]; simpl;
    [reflexivity|]. now rewrite Hsame, IH.
Qed.

Lemma merge_names_first (names : list string) :
  MergeEBMs.merge_names (repeat None (length names)) (map Some names)
  = inr (map Some names).
Proof.
  induction names as [|name names IH]; simpl; [reflexivity|]. now rewrite IH.
Qed.

Lemma merge_names_same (names : list string) :
  MergeEBMs.merge_names (map Some names) (map Some names) = inr (map Some names).
Proof.
  induction names as [|name names IH]; simpl; [reflexivity|].
  rewrite IH. cbv beta iota delta [Py.bind]. now rewrite String.eqb_refl.
Qed.

Lemma merged_feature_names_self (m : MergeEBMs.model) (names : list string) :
  MergeEBMs.feature_names_in_ m = Some (map Some names) ->
  names <> [] ->
  MergeEBMs.merged_feature_names (length names) [m; m] = inr (Some (map Some names)).
Proof.
  intros Hnames Hne. unfold MergeEBMs.merged_feature_names. cbn [fold_left].
  rewrite Hnames. cbv beta iota delta [Py.bind Py.ret].
  rewrite merge_names_first, merge_names_same.
  destruct names as [|name names]; [congruence|]. reflexivity.
Qed.

Lemma Qmin_same (x : Q) : Qmin x x = x.
Proof. unfold Qmin, GenericMinMax.gmin. now destruct (x ?= x). Qed.

Lemma Qmax_same (x : Q) : Qmax x x = x.
Proof. unfold Qmax, GenericMinMax.gmax. now destruct (x ?= x). Qed.

Lemma widen_rows_same (rows : list (option (Q * Q))) :
  MergeEBMs.widen_rows rows rows = rows.
Proof.
  induction rows as [|[[lo hi]|] rows IH]; simpl; [reflexivity | |]; rewrite IH;
    [|reflexivity].
  now rewrite Qmin_same, Qmax_same.
Qed.

Lemma merged_bounds_self (rows : list (option (Q * Q))) (row : Q * Q) :
  In (Some row) rows ->
  MergeEBMs.merged_bounds [Some rows; Some rows] = Some rows.
Proof.
  intro Hin. unfold MergeEBMs.merged_bounds. cbn [MergeEBMs.present flat_map app fold_left].
  rewrite widen_rows_same.
  replace (existsb _ rows) with true; [reflexivity|].
  symmetry. apply existsb_exists. exists (Some row). now split.
Qed.

Lemma sorted_fgs_self (m : MergeEBMs.model) :
  MergeEBMs.term_features_ m <> [] ->
  StronglySorted (fun a b => MergeEBMs.compare_terms a b = Lt) (MergeEBMs.term_features_ m) ->
  Forall (fun term => StronglySorted Z.lt term) (MergeEBMs.term_features_ m) ->
  MergeEBMs.sorted_fgs [m; m] = inr (MergeEBMs.term_features_ m).
Proof.
  intros Hne Hsorted Hasc. unfold MergeEBMs.sorted_fgs. cbn [flat_map].
  rewrite app_nil_r.
  assert (E : map MergeEBMs.sorted_idxs (MergeEBMs.term_features_ m)
              = MergeEBMs.term_features_ m).
  { rewrite <- (map_id (MergeEBMs.term_features_ m)) at 2. apply map_ext_in.
    intros t Ht. rewrite Forall_forall in Hasc. now apply sorted_idxs_ascending, Hasc. }
  rewrite E, (insert_terms_twice _ Hsorted).
  destruct (MergeEBMs.term_features_ m); [congruence | reflexivity].
Qed.

Lemma check_term_names_self (names : list string) (terms : list (list Z)) :
  Forall (Forall (fun f => (0 <= f < Z.of_nat (length names))%Z)) terms ->
  MergeEBMs.check_term_names (Some (map Some names)) terms = inr tt.
Proof.
  intro H. unfold MergeEBMs.check_term_names.
  rewrite (mapM_ok _ (fun grp => map (fun _ => tt) grp)); [reflexivity|].
  intros grp Hgrp. rewrite Forall_forall in H. specialize (H grp Hgrp).
  apply mapM_ok. intros f Hf. rewrite Forall_forall in H. specialize (H f Hf).
  replace f with (Z.of_nat (Z.to_nat f)) by lia.
  rewrite (py_index_nat (map Some names) (Z.to_nat f) None) by (rewrite length_map; lia).
  cbv beta iota delta [Py.bind].
  rewrite (nth_map_default Some names (Z.to_nat f) EmptyString None) by lia.
  reflexivity.
Qed.

Lemma classes_eqb_refl (classes : list Z) : MergeEBMs.classes_eqb classes classes = true.
Proof.
  unfold MergeEBMs.classes_eqb. rewrite Nat.eqb_refl. cbn [andb].
  induction classes as [|c classes IH]; simpl; [reflexivity|].
  now rewrite Z.eqb_refl, IH.
Qed.

Lemma Forall2_Qeq_trans (x y z : list Q) :
  Forall2 Qeq x y -> Forall2 Qeq y z -> Forall2 Qeq x z.
Proof.
  intro H. revert z. induction H as [|a b x y E _ IH]; intros z Hz;
    inversion Hz as [|b' c y' z' E' Hz']; subst; constructor.
  - now rewrite E.
  - now apply IH.
Qed.

Lemma Forall2_tensor_equiv_trans (x y z : list Tensor.t) :
  Forall2 tensor_equiv x y -> Forall2 tensor_equiv y z -> Forall2 tensor_equiv x z.
Proof.
  intro H. revert z. induction H as [|a b x y [Es Ed] _ IH]; intros z Hz;
    inversion Hz as [|b' c y' z' [Es' Ed'] Hz']; subst; constructor.
  - split; [congruence | exact (Forall2_Qeq_trans _ _ _ Ed Ed')].
  - now apply IH.
Qed.

(** X29.  Merging a model with itself rebuilds the model, up to the last
    assignment.  For a model [m] that is [self_mergeable], the model that
    [merge_ebms [m; m]] has assembled when it reaches the assignment of
    line 932 has the bins and the terms of [m], score tensors with the
    shapes of the score tensors of [m] and elements equal to theirs as
    numbers, and the intercept of [m]. *)
Theorem self_merge_rebuilds_model
    (_convert_categorical_to_continuous :
       list (string * Z) -> Py.result (list Q * list (list Z) * Q * Q))
    (multiclass_postprocess2 :
       Z -> list Tensor.t -> Q -> list Tensor.t -> Py.result (list Tensor.t * Q))
    (m : MergeEBMs.model) :
  self_mergeable multiclass_postprocess2 m ->
  exists merged,
    MergeEBMs.merged_attributes _convert_categorical_to_continuous multiclass_postprocess2 [m; m]
    = inr merged
    /\ MergeEBMs.bins_ merged = MergeEBMs.bins_ m
    /\ MergeEBMs.term_features_ merged = MergeEBMs.term_features_ m
    /\ Forall2 tensor_equiv (MergeEBMs.additive_terms_ merged) (MergeEBMs.additive_terms_ m)
    /\ MergeEBMs.intercept_ merged == MergeEBMs.intercept_ m.
Proof.
  intros [Htype Hclasses Hfitted Hcounts [names Hnames] [rows [Hbounds [Hregular [row Hrow]]]]
            Htrimmed Hdedup Hsamples [Hne [Hsorted Hterms]]
            [bags [n_bags [Hbags [Hn_bags [Hlen_w [Hlen_b Htensors]]]]]]
            [own [own_intercept [Hown [Hown_terms Hown_intercept]]]]].
  (* the features *)
  destruct (merge_features_twice _convert_categorical_to_continuous m rows Hregular)
    as [features [Hfeatures [Hnew_bins Hold_levels]]].
  (* the names *)
  assert (Hn_names : length names = length (MergeEBMs.bins_ m)).
  { unfold MergeEBMs.check_feature_counts in Hcounts. rewrite Hnames in Hcounts.
    cbn [MergeEBMs.optional_length app forallb] in Hcounts.
    destruct (Nat.eqb_spec (length (MergeEBMs.bins_ m)) (length (map Some names)))
      as [E | E].
    - rewrite length_map in E. now symmetry.
    - rewrite Nat.eqb_refl in Hcounts. cbn [andb] in Hcounts. discriminate. }
  assert (Hvalid : Forall (Forall (fun f => (0 <= f < Z.of_nat (length names))%Z))
                          (MergeEBMs.term_features_ m)).
  { eapply Forall_impl; [|exact Hterms]. intros t [_ [_ H]]. now rewrite Hn_names. }
  assert (Hnames_ne : names <> []).
  { destruct (MergeEBMs.term_features_ m) as [|t ts] eqn:Et; [congruence|].
    inversion Hterms as [|? ? [Ht [_ Hf]] _]; subst.
    destruct t as [|f t]; [congruence|]. inversion Hf as [|? ? Hf0 _]; subst.
    intro E. rewrite <- Hn_names, E in Hf0. simpl in Hf0. lia. }
  (* the bag weights and the terms of the model itself *)
  unfold own_terms in Hown.
  destruct (MergeEBMs.model_bag_weights m) as [e | bag_weights] eqn:Ebw; [discriminate|].
  cbv beta iota delta [Py.bind] in Hown. rewrite Hbags in Hown.
  (* the terms of the merged model *)
  set (n_classes := own_n_classes m) in *.
  destruct (merge_terms_self m rows features n_classes bags n_bags Hbounds Hregular
              Hold_levels Hsorted Hterms Hbags Hn_bags Hlen_w Hlen_b Htensors)
    as [merged_terms [Hmerged [Hmerged_bags Hmerged_weights]]].
  assert (Hn_classes : (n_classes <= 2)%Z).
  { unfold n_classes, own_n_classes.
    destruct (_ || _); lia. }
  assert (Hall_bags :
    Forall (fun term_bags =>
              Forall (fun bag => Tensor.wf bag
                                 /\ Tensor.shape bag
                                    = Tensor.shape (hd (Tensor.mk [] []) term_bags))
                     term_bags)
           bags).
  { apply Forall_forall. intros term_bags Hin.
    destruct (In_nth _ _ [] Hin) as [i [Hi E]]. rewrite Hlen_b in Hi.
    destruct (Htensors i Hi) as [_ [_ [_ Hall]]]. rewrite E in Hall.
    apply Forall_forall. intros bag Hbag. rewrite Forall_forall in Hall.
    destruct (Hall bag Hbag) as [Hwf Hs]. split; [exact Hwf|].
    destruct term_bags as [|first rest]; [destruct Hbag|].
    cbn [hd]. destruct (Hall first (or_introl eq_refl)) as [_ Hs1]. congruence. }
  destruct (process_terms_twice multiclass_postprocess2 n_classes bags
              (map fst merged_terms) (MergeEBMs.bin_weights_ m) bag_weights
              (own, own_intercept) Hn_classes Hall_bags Hmerged_weights Hown)
    as [processed [Hprocessed [Hp_terms Hp_intercept]]].
  (* the run *)
  unfold MergeEBMs.merged_attributes. cbn [map].
  rewrite (select_type_self _ Htype).
  cbv beta iota zeta delta [Py.bind Py.ret].
  cbn [existsb MergeTypes.is_private MergeTypes.is_classifier MergeTypes.ebm_type
         Tensor.mapM length seq combine map fst snd].
  rewrite Hfitted. cbn [negb orb].
  rewrite Hcounts, (check_bin_types_regular m rows Hregular).
  cbv beta iota zeta delta [Py.bind Py.ret].
  rewrite Hfeatures, Hnew_bins, Hdedup.
  rewrite <- Hn_names, (merged_feature_names_self m names Hnames Hnames_ne).
  rewrite classes_eqb_refl. cbn [negb orb].
  assert (Hnc : n_classes
                = if (MergeEBMs.type_name m =? MergeTypes.Classifier)%string
                  then Z.of_nat (length (MergeEBMs.classes_ m)) else (-1)%Z).
  { unfold n_classes, own_n_classes. destruct Htype as [-> | ->]; reflexivity. }
  destruct (MergeEBMs.type_name m =? MergeTypes.Classifier)%string;
    rewrite <- Hnc; clear Hnc.
  all: rewrite Ebw, (sorted_fgs_self m Hne Hsorted);
    [|eapply Forall_impl; [|exact Hterms]; intros t [_ [H _]]; exact H].
  all: rewrite !(old_bounds_twice m rows Hbounds Hregular features Hold_levels) by lia.
  all: rewrite (merged_bounds_self rows row Hrow), Hmerged.
  all: cbn [forallb andb concat].
  all: destruct (MergeEBMs.n_samples_ m) as [n_samples|] eqn:En; [|congruence].
  all: cbn [andb]; rewrite app_nil_r, Hmerged_bags, Hprocessed.
  all: rewrite Htrimmed, Hdedup, (check_term_names_self names _ Hvalid).
  all: eexists; split; [reflexivity|].
  all: cbn [MergeEBMs.bins_ MergeEBMs.term_features_ MergeEBMs.additive_terms_
              MergeEBMs.intercept_].
  all: split; [reflexivity|]; split; [reflexivity|]; split;
    [exact (Forall2_tensor_equiv_trans _ _ _ Hp_terms Hown_terms)
    |now rewrite Hp_intercept].
Qed.


(** [demo_regressor] is [self_mergeable]. *)
Lemma self_merge_rebuilds_model_witness :
  self_mergeable no_multiclass demo_regressor
  /\ exists merged,
       MergeEBMs.merged_attributes no_conversion no_multiclass [demo_regressor; demo_regressor]
       = inr merged
       /\ MergeEBMs.bins_ merged = MergeEBMs.bins_ demo_regressor
       /\ MergeEBMs.term_features_ merged = MergeEBMs.term_features_ demo_regressor
       /\ Forall2 tensor_equiv (MergeEBMs.additive_terms_ merged)
            (MergeEBMs.additive_terms_ demo_regressor)
       /\ MergeEBMs.intercept_ merged == MergeEBMs.intercept_ demo_regressor.
Proof.
  assert (H : self_mergeable no_multiclass demo_regressor).
  { constructor.
    - right. reflexivity.
    - simpl. lia.
    - reflexivity.
    - reflexivity.
    - exists ["x"%string]. reflexivity.
    - exists [Some (0, 20)]. split; [reflexivity|]. split.
      + constructor; [|constructor]. split; [discriminate|]. split; [reflexivity|].
        constructor; [|constructor]. split.
        * constructor; [constructor | constructor].
        * exists 0, 20. split; [reflexivity|]. split; [reflexivity|].
          intros c [<- | []]. split; reflexivity.
      + exists (0, 20). left. reflexivity.
    - reflexivity.
    - reflexivity.
    - discriminate.
    - split; [discriminate|]. split.
      + constructor; [constructor | constructor].
      + constructor; [|constructor]. split; [discriminate|]. split.
        * constructor; [constructor | constructor].
        * constructor; [|constructor]. simpl. lia.
    - exists [[Tensor.mk [4%nat] [0; 1; 2; 0]; Tensor.mk [4%nat] [0; 3; 4; 0]]], 2%nat.
      split; [reflexivity|]. split; [lia|]. split; [reflexivity|]. split; [reflexivity|].
      intros [|i] Hi; [|simpl in Hi; lia].
      split; [reflexivity|]. split; [reflexivity|]. split; [reflexivity|].
      repeat constructor.
    - eexists _, _. split; [vm_compute; reflexivity|]. split; [|reflexivity].
      constructor; [|constructor]. split; [reflexivity|].
      repeat constructor. }
  split; [exact H|].
  exact (self_merge_rebuilds_model no_conversion no_multiclass demo_regressor H).
Defined.

(** C2 (self-merge round trip).  [demo_regressor] merged with itself:
    the model is rebuilt, and the last assignment of [merge_ebms] raises,
    so that no model is returned. *)
Theorem self_merge_raises :
  (exists ebm,
     MergeEBMs.merged_attributes no_conversion no_multiclass
       [demo_regressor; demo_regressor] = inr ebm
     /\ MergeEBMs.bins_ ebm = MergeEBMs.bins_ demo_regressor)
  /\ MergeEBMs.merge_ebms no_conversion no_multiclass [demo_regressor; demo_regressor]
     = inl (Py.AttributeError "can't set attribute")
  /\ forall (_convert_categorical_to_continuous :
               list (string * Z) -> Py.result (list Q * list (list Z) * Q * Q))
            (multiclass_postprocess2 :
               Z -> list Tensor.t -> Q -> list Tensor.t -> Py.result (list Tensor.t * Q))
            (m : MergeEBMs.model),
       exists e,
         MergeEBMs.merge_ebms _convert_categorical_to_continuous
           multiclass_postprocess2 [m; m] = inl e.
Proof.
  assert (H : exists ebm,
            MergeEBMs.merged_attributes no_conversion no_multiclass
              [demo_regressor; demo_regressor] = inr ebm
            /\ MergeEBMs.bins_ ebm = MergeEBMs.bins_ demo_regressor)
    by (eexists; split; [vm_compute; reflexivity | reflexivity]).
  split; [exact H|]. split.
  - destruct H as [ebm [H _]].
    exact (merge_ebms_assignment no_conversion no_multiclass _ ebm H).
  - intros conv mp m. apply merge_ebms_never_returns.
Qed.

(** * Intervals and cuts *)

Lemma map_tl {A B} (f : A -> B) (l : list A) : map f (tl l) = tl (map f l).
Proof. destruct l; reflexivity. Qed.

Lemma map_removelast {A B} (f : A -> B) (l : list A) :
  map f (removelast l) = removelast (map f l).
Proof.
  induction l as [|a [|b l] IH]; try reflexivity.
  change (f a :: map f (removelast (b :: l)) = f a :: removelast (map f (b :: l))).
  now rewrite IH.
Qed.

Lemma combine_shift_fst {A} (a z : A) (l : list A) :
  map fst (combine (a :: l) (l ++ [z])) = a :: l.
Proof.
  revert a. induction l as [|b l IH]; intro a; [reflexivity|].
  change (a :: map fst (combine (b :: l) (l ++ [z])) = a :: b :: l). now rewrite IH.
Qed.

Lemma combine_shift_snd {A} (a z : A) (l : list A) :
  map snd (combine (a :: l) (l ++ [z])) = l ++ [z].
Proof.
  revert a. induction l as [|b l IH]; intro a; [reflexivity|].
  change (b :: map snd (combine (b :: l) (l ++ [z])) = b :: l ++ [z]). now rewrite IH.
Qed.

Lemma combine_shift_inner {A} (p : A * A -> bool) (a z : A) (l : list A) :
  existsb p (combine (a :: l) (l ++ [z])) = false ->
  existsb p (combine l (tl l)) = false.
Proof.
  revert a. induction l as [|b l IH]; intros a H; [reflexivity|].
  change (existsb p ((a, b) :: combine (b :: l) (l ++ [z])) = false) in H.
  cbn [existsb] in H. apply orb_false_iff in H as [_ H].
  destruct l as [|c l]; [reflexivity|].
  cbn [tl]. change (existsb p ((b, c) :: combine (c :: l) l) = false).
  cbn [existsb]. apply orb_false_iff. split.
  - change (existsb p ((b, c) :: combine (c :: l) (l ++ [z])) = false) in H.
    cbn [existsb] in H. now apply orb_false_iff in H.
  - exact (IH b H).
Qed.

Lemma float_eqb_refl (x : Py.pyfloat) :
  Intervals.isnan x = false -> Intervals.float_eqb x x = true.
Proof.
  destruct x; simpl; try reflexivity; [|discriminate].
  intros _. apply Qeq_bool_iff. reflexivity.
Qed.

Lemma adjacent_self (cuts : list Py.pyfloat) :
  existsb Intervals.isnan cuts = false ->
  existsb (fun x : Py.pyfloat * Py.pyfloat => negb (Intervals.float_eqb (fst x) (snd x)))
          (combine cuts cuts) = false.
Proof.
  induction cuts as [|c cuts IH]; [reflexivity|]. cbn [existsb combine fst snd].
  intro H. apply orb_false_iff in H as [Hc H].
  now rewrite (float_eqb_refl c Hc), (IH H).
Qed.

Lemma last_map_pair (intervals : list (Py.pyfloat * Py.pyfloat)) :
  intervals <> [] ->
  last (last (map (fun x : Py.pyfloat * Py.pyfloat => [fst x; snd x]) intervals) []) Py.NaN
  = last (map snd intervals) Py.NaN.
Proof.
  induction intervals as [|x [|y l] IH]; intro H; [congruence | reflexivity|].
  change (last (last (map (fun x : Py.pyfloat * Py.pyfloat => [fst x; snd x]) (y :: l)) [])
               Py.NaN
          = last (map snd (y :: l)) Py.NaN).
  apply IH. discriminate.
Qed.

Lemma convert_to_cuts_shifted (cuts : list Py.pyfloat) :
  existsb Intervals.isnan cuts = false ->
  existsb (fun x : Py.pyfloat * Py.pyfloat => Py.le (snd x) (fst x))
          (combine (Py.NegInf :: cuts) (cuts ++ [Py.PosInf])) = false ->
  Intervals.convert_to_cuts
    (map (fun x : Py.pyfloat * Py.pyfloat => [fst x; snd x])
         (combine (Py.NegInf :: cuts) (cuts ++ [Py.PosInf])))
  = inr cuts.
Proof.
  intros Enan Einc.
  pose proof (combine_shift_inner _ _ _ _ Einc) as Hinner.
  pose proof (combine_shift_fst Py.NegInf Py.PosInf cuts) as Hfst.
  pose proof (combine_shift_snd Py.NegInf Py.PosInf cuts) as Hsnd.
  remember (combine (Py.NegInf :: cuts) (cuts ++ [Py.PosInf])) as pairs eqn:Epairs.
  clear Epairs Einc.
  assert (Hne : pairs <> []) by (intro E; rewrite E in Hfst; discriminate).
  unfold Intervals.convert_to_cuts.
  rewrite length_map.
  replace (length pairs =? 0)%nat with false by (destruct pairs; [congruence | reflexivity]).
  match goal with
  | |- context [existsb ?p (map ?f pairs)] =>
      replace (existsb p (map f pairs)) with false
        by (symmetry; clear; induction pairs as [|x l IH]; [reflexivity | exact IH])
  end.
  match goal with
  | |- context [hd Py.NaN (hd [] (map ?f pairs))] =>
      replace (hd Py.NaN (hd [] (map f pairs))) with Py.NegInf
        by (destruct pairs; [congruence | cbn [map hd]; cbn [map] in Hfst; congruence])
  end.
  cbn [Intervals.float_eqb negb].
  rewrite (last_map_pair pairs Hne), Hsnd, last_last.
  cbn [Intervals.float_eqb negb]. cbv zeta.
  rewrite map_tl, map_removelast, !map_map.
  cbn [nth]. change (map (fun x : Py.pyfloat * Py.pyfloat => fst x) pairs) with (map fst pairs).
  change (map (fun x : Py.pyfloat * Py.pyfloat => snd x) pairs) with (map snd pairs).
  rewrite Hfst, Hsnd, removelast_last. cbn [tl].
  now rewrite Enan, (adjacent_self cuts Enan), Hinner.
Qed.

(** X1.  Cuts to intervals and back: whenever [convert_to_intervals]
    accepts an array of cuts, [convert_to_cuts] accepts the intervals it
    returns and gives the cuts back. *)
Theorem intervals_round_trip (cuts : list Py.pyfloat) (intervals : list (list Py.pyfloat)) :
  Intervals.convert_to_intervals cuts = inr intervals ->
  Intervals.convert_to_cuts intervals = inr cuts.
Proof.
  unfold Intervals.convert_to_intervals.
  destruct (existsb Intervals.isnan cuts) eqn:Enan; [discriminate|].
  destruct (existsb Intervals.isinf cuts) eqn:Einf; [discriminate|].
  cbv zeta.
  destruct (existsb _ (combine (Py.NegInf :: cuts) (cuts ++ [Py.PosInf]))) eqn:Einc;
    [discriminate|].
  intro H. injection H as <-. exact (convert_to_cuts_shifted cuts Enan Einc).
Qed.

Lemma intervals_round_trip_witness :
  Intervals.convert_to_cuts
    [[Py.NegInf; Py.Finite 1]; [Py.Finite 1; Py.Finite (5 # 2)]; [Py.Finite (5 # 2); Py.PosInf]]
  = inr [Py.Finite 1; Py.Finite (5 # 2)].
Proof.
  apply (intervals_round_trip [Py.Finite 1; Py.Finite (5 # 2)]). reflexivity.
Defined.

Lemma finite_flags (cuts : list Py.pyfloat) :
  Forall finite cuts
  <-> existsb Intervals.isnan cuts = false /\ existsb Intervals.isinf cuts = false.
Proof.
  induction cuts as [|c cuts IH]; cbn [existsb].
  - split; [now split | constructor].
  - split.
    + intro H. inversion H as [|? ? Hc Hcuts]; subst. apply IH in Hcuts as [-> ->].
      now destruct c.
    + intros [H1 H2]. apply orb_false_iff in H1 as [Hn H1], H2 as [Hi H2].
      constructor; [now destruct c | apply IH; now split].
Qed.

Lemma ascending_pairs (cuts : list Py.pyfloat) :
  Forall finite cuts ->
  forall a,
    a = Py.NegInf \/ finite a ->
    (existsb (fun x : Py.pyfloat * Py.pyfloat => Py.le (snd x) (fst x))
             (combine (a :: cuts) (cuts ++ [Py.PosInf])) = false
     <-> increasing (a :: cuts)).
Proof.
  unfold increasing.
  induction 1 as [|c cuts Hc Hcuts IH]; intros a Ha.
  - cbn [combine app existsb fst snd]. split.
    + intros _. repeat constructor.
    + intros _. now destruct Ha as [-> | Ha]; [|destruct a].
  - change (combine (a :: c :: cuts) ((c :: cuts) ++ [Py.PosInf]))
      with ((a, c) :: combine (c :: cuts) (cuts ++ [Py.PosInf])).
    cbn [existsb fst snd]. rewrite orb_false_iff, (IH c (or_intror Hc)).
    assert (E : Py.le c a = false <-> Py.lt a c = true).
    { destruct c as [y| | |]; try contradiction.
      destruct Ha as [-> | Ha]; [now split|].
      destruct a as [x| | |]; try contradiction. cbn [Py.le Py.lt].
      destruct (Qle_bool y x); now split. }
    rewrite E. split.
    + intros [H1 H2]. constructor; [exact H2 | now constructor].
    + intro H. inversion H as [|? ? Hs Hr]; subst. inversion Hr; subst. now split.
Qed.

(** X2.  [convert_to_intervals] accepts an array of cuts exactly when all
    of them are finite and every cut is less than the next one; anything
    else raises. *)
Theorem convert_to_intervals_accepts (cuts : list Py.pyfloat) :
  (exists intervals, Intervals.convert_to_intervals cuts = inr intervals)
  <-> Forall finite cuts /\ increasing cuts.
Proof.
  unfold Intervals.convert_to_intervals. cbv zeta. split.
  - intros [intervals H].
    destruct (existsb Intervals.isnan cuts) eqn:Enan; [discriminate|].
    destruct (existsb Intervals.isinf cuts) eqn:Einf; [discriminate|].
    destruct (existsb _ (combine (Py.NegInf :: cuts) (cuts ++ [Py.PosInf]))) eqn:Einc;
      [discriminate|].
    assert (Hfin : Forall finite cuts) by (apply finite_flags; now split).
    split; [exact Hfin|].
    apply (ascending_pairs cuts Hfin Py.NegInf (or_introl eq_refl)) in Einc.
    unfold increasing in *. now inversion Einc.
  - intros [Hfin Hinc]. destruct (proj1 (finite_flags cuts) Hfin) as [-> ->].
    assert (Hall : increasing (Py.NegInf :: cuts)).
    { unfold increasing in *. constructor; [exact Hinc|].
      destruct Hfin as [|c cuts Hc _]; constructor. now destruct c. }
    apply (ascending_pairs cuts Hfin Py.NegInf (or_introl eq_refl)) in Hall.
    rewrite Hall. eexists. reflexivity.
Qed.

Lemma as_pairs (intervals : list (list Py.pyfloat)) :
  existsb (fun x : list Py.pyfloat => negb (length x =? 2)%nat) intervals = false ->
  intervals
  = map (fun x : Py.pyfloat * Py.pyfloat => [fst x; snd x])
        (map (fun x => (nth 0 x Py.NaN, nth 1 x Py.NaN)) intervals).
Proof.
  induction intervals as [|x l IH]; [reflexivity|]. cbn [existsb map fst snd].
  intro H. apply orb_false_iff in H as [Hx H]. rewrite <- (IH H). f_equal.
  destruct x as [|a [|b [|c x]]]; try discriminate. reflexivity.
Qed.

Lemma float_eqb_inf (x : Py.pyfloat) :
  (Intervals.float_eqb x Py.NegInf = true -> x = Py.NegInf)
  /\ (Intervals.float_eqb x Py.PosInf = true -> x = Py.PosInf).
Proof. destruct x; split; intro H; try reflexivity; discriminate. Qed.

Lemma shifted_same (pairs : list (Py.pyfloat * Py.pyfloat)) :
  forall a,
    pairs <> [] ->
    same_float a (fst (hd (Py.NaN, Py.NaN) pairs)) ->
    existsb Intervals.isnan (map fst (tl pairs)) = false ->
    existsb (fun x : Py.pyfloat * Py.pyfloat => negb (Intervals.float_eqb (fst x) (snd x)))
            (combine (map fst (tl pairs)) (map snd (removelast pairs))) = false ->
    last (map snd pairs) Py.NaN = Py.PosInf ->
    Forall2 (fun p q : Py.pyfloat * Py.pyfloat =>
               same_float (fst p) (fst q) /\ same_float (snd p) (snd q))
            (combine (a :: map fst (tl pairs)) (map fst (tl pairs) ++ [Py.PosInf]))
            pairs.
Proof.
  induction pairs as [|x [|y l] IH]; intros a Hne Ha Hnan Hadj Hlast; [congruence| |].
  - cbn in *. constructor; [|constructor]. split; [exact Ha|].
    rewrite Hlast. reflexivity.
  - change (tl (x :: y :: l)) with (y :: l) in *.
    change (removelast (x :: y :: l)) with (x :: removelast (y :: l)) in Hadj.
    cbn [map combine existsb fst snd] in Hadj, Hnan.
    apply orb_false_iff in Hadj as [Hxy Hadj]. apply orb_false_iff in Hnan as [Hy Hnan].
    apply negb_false_iff in Hxy.
    change (combine (a :: map fst (y :: l)) (map fst (y :: l) ++ [Py.PosInf]))
      with ((a, fst y) :: combine (fst y :: map fst (tl (y :: l)))
                                  (map fst (tl (y :: l)) ++ [Py.PosInf])).
    constructor; [split; [exact Ha | exact Hxy]|].
    apply IH; try assumption; [discriminate|].
    exact (float_eqb_refl (fst y) Hy).
Qed.

(** X3.  Intervals to cuts and back: when [convert_to_cuts] accepts a list
    of intervals and the cuts it returns are finite,
    [convert_to_intervals] accepts these cuts and returns intervals with
    the same numbers as the given ones. *)
Theorem cuts_round_trip (intervals : list (list Py.pyfloat)) (cuts : list Py.pyfloat) :
  Intervals.convert_to_cuts intervals = inr cuts ->
  Forall finite cuts ->
  exists intervals',
    Intervals.convert_to_intervals cuts = inr intervals'
    /\ Forall2 (Forall2 same_float) intervals' intervals.
Proof.
  unfold Intervals.convert_to_cuts.
  destruct (length intervals =? 0)%nat eqn:Elen; [discriminate|].
  destruct (existsb _ intervals) eqn:Etuples; [discriminate|].
  destruct (Intervals.float_eqb (hd Py.NaN (hd [] intervals)) Py.NegInf) eqn:Estart;
    [|discriminate].
  destruct (Intervals.float_eqb (last (last intervals []) Py.NaN) Py.PosInf) eqn:Eend;
    [|discriminate].
  cbn [negb]. cbv zeta.
  destruct (existsb Intervals.isnan _) eqn:Enan; [discriminate|].
  destruct (existsb _ (combine _ (map _ (removelast intervals)))) eqn:Eadj; [discriminate|].
  destruct (existsb _ (combine _ (tl _))) eqn:Einc; [discriminate|].
  intros H Hfin. injection H as <-.
  rewrite (as_pairs intervals Etuples) in *.
  set (pairs := map (fun x => (nth 0 x Py.NaN, nth 1 x Py.NaN)) intervals) in *.
  assert (Hne : pairs <> []).
  { unfold pairs. destruct intervals; [discriminate | discriminate]. }
  rewrite map_tl, map_removelast, !map_map in *. cbn [nth fst snd] in *.
  change (map (fun x : Py.pyfloat * Py.pyfloat => fst x) pairs) with (map fst pairs) in *.
  change (map (fun x : Py.pyfloat * Py.pyfloat => snd x) pairs) with (map snd pairs) in *.
  rewrite <- map_tl in *. rewrite <- map_removelast in Eadj.
  rewrite (last_map_pair pairs Hne) in Eend.
  apply float_eqb_inf in Eend.
  assert (Hstart : same_float Py.NegInf (fst (hd (Py.NaN, Py.NaN) pairs))).
  { destruct pairs as [|p ps]; [congruence|]. cbn [map hd fst] in *.
    apply float_eqb_inf in Estart. rewrite Estart. reflexivity. }
  pose proof (shifted_same pairs Py.NegInf Hne Hstart Enan Eadj Eend) as Hsame.
  unfold Intervals.convert_to_intervals.
  destruct (proj1 (finite_flags _) Hfin) as [-> ->]. cbv zeta.
  assert (Hall : increasing (Py.NegInf :: map fst (tl pairs))).
  { unfold increasing. constructor.
    - clear - Hfin Einc. induction (map fst (tl pairs)) as [|c l IH]; [constructor|].
      inversion Hfin as [|? ? Hc Hl]; subst.
      destruct l as [|d l]; [repeat constructor|].
      cbn [tl combine existsb fst snd] in Einc. apply orb_false_iff in Einc as [Hcd Einc].
      constructor; [apply IH; assumption|]. constructor.
      inversion Hl as [|? ? Hd _]; subst.
      destruct c, d; try contradiction. cbn [Py.le Py.lt] in *. now rewrite Hcd.
    - destruct (map fst (tl pairs)) as [|c l]; constructor.
      inversion Hfin; subst. now destruct c. }
  apply (ascending_pairs _ Hfin Py.NegInf (or_introl eq_refl)) in Hall.
  rewrite Hall. eexists. split; [reflexivity|].
  clear - Hsame. induction Hsame as [|p q l l' [H1 H2] _ IH]; cbn [map]; constructor.
  - repeat constructor; assumption.
  - exact IH.
Qed.

Lemma cuts_round_trip_witness :
  exists intervals',
    Intervals.convert_to_intervals [Py.Finite (2 # 4)] = inr intervals'
    /\ Forall2 (Forall2 same_float) intervals'
         [[Py.NegInf; Py.Finite (1 # 2)]; [Py.Finite (2 # 4); Py.PosInf]].
Proof.
  apply (cuts_round_trip [[Py.NegInf; Py.Finite (1 # 2)]; [Py.Finite (2 # 4); Py.PosInf]]).
  - reflexivity.
  - repeat constructor.
Defined.
(** * Seeds *)

(** X4.  [normalize_initial_random_seed] always returns a seed that fits a
    signed 32-bit integer, with absolute value at most 2147483646; it
    leaves its own results as they are and commutes with negation. *)
Theorem normalize_initial_random_seed_range (seed : Z) :
  (- 2147483646 <= EBMUtils.normalize_initial_random_seed seed <= 2147483646)%Z
  /\ EBMUtils.normalize_initial_random_seed (EBMUtils.normalize_initial_random_seed seed)
     = EBMUtils.normalize_initial_random_seed seed
  /\ EBMUtils.normalize_initial_random_seed (- seed)%Z
     = (- EBMUtils.normalize_initial_random_seed seed)%Z.
Proof.
  unfold EBMUtils.normalize_initial_random_seed.
  pose proof (Z.mod_pos_bound seed 2147483647 ltac:(lia)) as Hp.
  pose proof (Z.mod_pos_bound (- seed) 2147483647 ltac:(lia)) as Hn.
  destruct (Z.leb_spec 2147483647 seed) as [H1 | H1].
  - split; [lia|]. split.
    + destruct (Z.leb_spec 2147483647 (seed mod 2147483647)); [lia|].
      destruct (Z.leb_spec (seed mod 2147483647) (-2147483647)); [lia | reflexivity].
    + destruct (Z.leb_spec 2147483647 (- seed)); [lia|].
      destruct (Z.leb_spec (- seed) (-2147483647)); [|lia].
      now rewrite Z.opp_involutive.
  - destruct (Z.leb_spec seed (-2147483647)) as [H2 | H2].
    + split; [lia|]. split.
      * destruct (Z.leb_spec 2147483647 (- ((- seed) mod 2147483647))); [lia|].
        destruct (Z.leb_spec (- ((- seed) mod 2147483647)) (-2147483647));
          [lia | reflexivity].
      * destruct (Z.leb_spec 2147483647 (- seed)); [|lia].
        now rewrite Z.opp_involutive.
    + split; [lia|]. split.
      * destruct (Z.leb_spec 2147483647 seed); [lia|].
        destruct (Z.leb_spec seed (-2147483647)); [lia | reflexivity].
      * destruct (Z.leb_spec 2147483647 (- seed)); [lia|].
        destruct (Z.leb_spec (- seed) (-2147483647)); [lia | reflexivity].
Qed.

(** * The order of the interactions *)

Section InteractionOrder.

Variable strength : list Z -> Q.

Let above (a b : Q * list Z) : Prop := Interactions.compare_strengths b a <> Gt.

Lemma compare_strengths_antisym (a b : Q * list Z) :
  Interactions.compare_strengths a b = CompOpp (Interactions.compare_strengths b a).
Proof.
  unfold Interactions.compare_strengths. rewrite <- (Qcompare_antisym (fst b) (fst a)).
  destruct (fst b ?= fst a); simpl; try reflexivity. apply compare_idxs_antisym.
Qed.

Lemma insert_strength_perm (x : Q * list Z) (l : list (Q * list Z)) :
  Permutation (Interactions.insert_strength x l) (x :: l).
Proof.
  induction l as [|y l IH]; simpl; [reflexivity|].
  destruct (Interactions.compare_strengths x y); try reflexivity.
  rewrite IH. apply perm_swap.
Qed.

Lemma insert_strength_sorted (x : Q * list Z) (l : list (Q * list Z)) :
  Sorted above l -> Sorted above (Interactions.insert_strength x l).
Proof.
  induction 1 as [|y l Hl IH Hy]; simpl; [repeat constructor|].
  destruct (Interactions.compare_strengths x y) eqn:E.
  - constructor; [now constructor|]. constructor. unfold above.
    rewrite compare_strengths_antisym, E. discriminate.
  - constructor; [exact IH|].
    destruct l as [|z l]; simpl.
    + constructor. unfold above. rewrite E. discriminate.
    + destruct (Interactions.compare_strengths x z) eqn:E'.
      * constructor. unfold above. rewrite E. discriminate.
      * constructor. now inversion Hy.
      * constructor. unfold above. rewrite E. discriminate.
  - constructor; [now constructor|]. constructor. unfold above.
    rewrite compare_strengths_antisym, E. discriminate.
Qed.

Lemma sort_strengths (l : list (Q * list Z)) :
  Permutation (fold_right Interactions.insert_strength [] l) l
  /\ Sorted above (fold_right Interactions.insert_strength [] l).
Proof.
  induction l as [|x l [IHp IHs]]; simpl; [split; constructor|]. split.
  - rewrite insert_strength_perm. now constructor.
  - now apply insert_strength_sorted.
Qed.

Lemma sorted_strengths_members (l : list (Q * list Z)) (terms : list (list Z)) :
  Permutation l (map (fun t => (strength t, t)) terms) ->
  Forall (fun p => fst p = strength (snd p)) l.
Proof.
  intro H. apply Forall_forall. intros p Hp.
  apply (Permutation_in _ H) in Hp. apply in_map_iff in Hp as [t [<- _]]. reflexivity.
Qed.

End InteractionOrder.

(** X5.  [calc_interaction_order] returns the candidate terms, each as
    often as it was given, from the strongest interaction to the weakest;
    of two neighbours of equal strength the one with the greater tuple of
    feature indexes comes first. *)
Theorem calc_interaction_order_descending (strength : list Z -> Q)
    (iter_term_features : list (list Z)) :
  let order := Interactions.calc_interaction_order strength iter_term_features in
  Permutation order iter_term_features
  /\ StronglySorted (fun a b => strength b <= strength a) order
  /\ Sorted (fun a b => strength a == strength b -> MergeEBMs.compare_idxs b a <> Gt) order.
Proof.
  cbv zeta. unfold Interactions.calc_interaction_order.
  set (items := map (fun t => (strength t, t)) iter_term_features).
  destruct (sort_strengths items) as [Hperm Hsorted].
  pose proof (sorted_strengths_members strength _ _ Hperm) as Hfst.
  set (sorted := fold_right Interactions.insert_strength [] items) in *.
  split; [|split].
  - rewrite Hperm. unfold items. rewrite map_map. cbn [snd]. now rewrite map_id.
  - apply Sorted_StronglySorted; [intros a b c Hab Hbc; lra|].
    clear Hperm. induction Hsorted as [|p l Hl IH Hp]; cbn [map]; [constructor|].
    inversion Hfst as [|? ? Hp1 Hl1]; subst. constructor; [now apply IH|].
    destruct l as [|q l]; cbn [map]; constructor.
    inversion Hp as [|? ? Hpq]; subst. inversion Hl1 as [|? ? Hq1 _]; subst.
    rewrite <- Hp1, <- Hq1. unfold Interactions.compare_strengths in Hpq.
    destruct (fst q ?= fst p) eqn:E.
    + apply Qeq_alt in E. lra.
    + apply Qlt_alt in E. lra.
    + congruence.
  - clear Hperm. induction Hsorted as [|p l Hl IH Hp]; cbn [map]; [constructor|].
    inversion Hfst as [|? ? Hp1 Hl1]; subst. constructor; [now apply IH|].
    destruct l as [|q l]; cbn [map]; constructor.
    inversion Hp as [|? ? Hpq]; subst. inversion Hl1 as [|? ? Hq1 _]; subst.
    rewrite <- Hp1, <- Hq1. intro Heq. unfold Interactions.compare_strengths in Hpq.
    replace (fst q ?= fst p) with Eq in Hpq; [exact Hpq|].
    symmetry. apply Qeq_alt. now symmetry.
Qed.

(** * Sorted sets *)

Section InsertSet.

Context {A : Type}.
Variable cmp : A -> A -> comparison.
Variable ins : A -> list A -> list A.

Hypothesis ins_nil : forall x, ins x [] = [x].
Hypothesis ins_cons :
  forall x y l,
    ins x (y :: l) = match cmp x y with
                     | Lt => x :: y :: l
                     | Eq => y :: l
                     | Gt => y :: ins x l
                     end.
Hypothesis cmp_antisym : forall x y, cmp x y = CompOpp (cmp y x).
Hypothesis cmp_trans : forall x y z, cmp x y = Lt -> cmp y z = Lt -> cmp x z = Lt.
Hypothesis cmp_eq : forall x y z, cmp x y = Eq -> cmp z x = cmp z y.

Let below (a b : A) : Prop := cmp a b = Lt.

(** [l] has an element equal to [z] in the order. *)
Let has (l : list A) (z : A) : Prop := exists y, In y l /\ cmp z y = Eq.

Lemma ins_has (x : A) (l : list A) (z : A) :
  has (ins x l) z <-> cmp z x = Eq \/ has l z.
Proof.
  unfold has. induction l as [|y l IH].
  - rewrite ins_nil. split.
    + intros [w [[<- | []] H]]. now left.
    + intros [H | [w [[] _]]]. exists x. split; [now left | exact H].
  - rewrite ins_cons. destruct (cmp x y) eqn:E.
    + split; [intro H; now right|].
      intros [H | H]; [|exact H]. exists y. split; [now left|].
      now rewrite <- (cmp_eq x y z E).
    + split.
      * intros [w [[<- | Hw] H]]; [now left|]. right. now exists w.
      * intros [H | [w [Hw H]]]; [exists x; split; [now left | exact H]|].
        exists w. split; [now right | exact H].
    + split.
      * intros [w [[<- | Hw] H]].
        -- right. exists y. split; [now left | exact H].
        -- destruct (proj1 IH (ex_intro _ w (conj Hw H))) as [H' | [w' [Hw' H']]];
             [now left|]. right. exists w'. split; [now right | exact H'].
      * intros [H | [w [[<- | Hw] H]]].
        -- destruct (proj2 IH (or_introl H)) as [w [Hw H']].
           exists w. split; [now right | exact H'].
        -- exists y. split; [now left | exact H].
        -- destruct (proj2 IH (or_intror (ex_intro _ w (conj Hw H)))) as [w' [Hw' H']].
           exists w'. split; [now right | exact H'].
Qed.

Lemma ins_In (x : A) (l : list A) (w : A) : In w (ins x l) -> w = x \/ In w l.
Proof.
  induction l as [|y l IH].
  - rewrite ins_nil. intros [<- | []]. now left.
  - rewrite ins_cons. destruct (cmp x y).
    + intro H. now right.
    + intros [<- | H]; [now left | now right].
    + intros [<- | H]; [right; now left|].
      destruct (IH H) as [-> | H']; [now left | right; now right].
Qed.

Lemma ins_keeps_sorted (x : A) (l : list A) :
  StronglySorted below l -> StronglySorted below (ins x l).
Proof.
  induction 1 as [|y l Hl IH Hy].
  - rewrite ins_nil. repeat constructor.
  - rewrite ins_cons. destruct (cmp x y) eqn:E.
    + now constructor.
    + constructor; [now constructor|]. constructor; [exact E|].
      eapply Forall_impl; [|exact Hy]. intros w Hw. exact (cmp_trans x y w E Hw).
    + constructor; [exact IH|]. apply Forall_forall. intros w Hw.
      destruct (ins_In x l w Hw) as [-> | Hin].
      * unfold below. rewrite cmp_antisym, E. reflexivity.
      * rewrite Forall_forall in Hy. now apply Hy.
Qed.

Lemma fold_ins_set (l : list A) :
  StronglySorted below (fold_right ins [] l)
  /\ forall z, has (fold_right ins [] l) z <-> has l z.
Proof.
  induction l as [|x l [IHs IHh]]; cbn [fold_right].
  - split; [constructor | reflexivity].
  - split; [now apply ins_keeps_sorted|].
    intro z. rewrite ins_has, IHh. unfold has. split.
    + intros [H | [w [Hw H]]]; [exists x; split; [now left | exact H]|].
      exists w. split; [now right | exact H].
    + intros [w [[<- | Hw] H]]; [now left|]. right. now exists w.
Qed.

End InsertSet.

Lemma string_compare_trans (x : string) :
  forall y z, String.compare x y = Lt -> String.compare y z = Lt -> String.compare x z = Lt.
Proof.
  induction x as [|a x IH]; intros [|b y] [|c z]; simpl; try discriminate; try reflexivity.
  unfold Ascii.compare.
  destruct (N.compare_spec (N_of_ascii a) (N_of_ascii b)) as [Eab | Lab | Gab];
    destruct (N.compare_spec (N_of_ascii b) (N_of_ascii c)) as [Ebc | Lbc | Gbc];
    intros Hxy Hyz; try congruence.
  - rewrite Eab, Ebc, N.compare_refl. now apply (IH y z).
  - rewrite Eab. now apply N.compare_lt_iff in Lbc as ->.
  - rewrite <- Ebc. now apply N.compare_lt_iff in Lab as ->.
  - assert (H : (N_of_ascii a < N_of_ascii c)%N) by (eapply N.lt_trans; eassumption).
    now apply N.compare_lt_iff in H as ->.
Qed.

Lemma compare_idxs_trans (x : list Z) :
  forall y z,
    MergeEBMs.compare_idxs x y = Lt -> MergeEBMs.compare_idxs y z = Lt ->
    MergeEBMs.compare_idxs x z = Lt.
Proof.
  induction x as [|a x IH]; intros [|b y] [|c z]; simpl; try discriminate; try reflexivity.
  destruct (Z.compare_spec a b) as [Eab | Lab | Gab];
    destruct (Z.compare_spec b c) as [Ebc | Lbc | Gbc];
    intros Hxy Hyz; try congruence.
  - rewrite Eab, Ebc, Z.compare_refl. now apply (IH y z).
  - rewrite Eab. now apply Z.compare_lt_iff in Lbc as ->.
  - rewrite <- Ebc. now apply Z.compare_lt_iff in Lab as ->.
  - assert (H : (a < c)%Z) by lia. now apply Z.compare_lt_iff in H as ->.
Qed.

Lemma compare_terms_trans (x y z : list Z) :
  MergeEBMs.compare_terms x y = Lt -> MergeEBMs.compare_terms y z = Lt ->
  MergeEBMs.compare_terms x z = Lt.
Proof.
  unfold MergeEBMs.compare_terms.
  set (K := fun t : list Z => Z.of_nat (length t) :: MergeEBMs.sorted_idxs t).
  change (Z.of_nat (length x) :: MergeEBMs.sorted_idxs x) with (K x).
  change (Z.of_nat (length y) :: MergeEBMs.sorted_idxs y) with (K y).
  change (Z.of_nat (length z) :: MergeEBMs.sorted_idxs z) with (K z).
  destruct (MergeEBMs.compare_idxs (K x) (K y)) eqn:Exy;
    destruct (MergeEBMs.compare_idxs (K y) (K z)) eqn:Eyz; intros Hxy Hyz;
    try congruence.
  - apply compare_idxs_eq in Exy, Eyz. rewrite Exy, Eyz, compare_idxs_refl.
    exact (compare_idxs_trans x y z Hxy Hyz).
  - apply compare_idxs_eq in Exy. now rewrite Exy, Eyz.
  - apply compare_idxs_eq in Eyz. now rewrite <- Eyz, Exy.
  - now rewrite (compare_idxs_trans _ _ _ Exy Eyz).
Qed.

Lemma compare_terms_eq (x y : list Z) : MergeEBMs.compare_terms x y = Eq -> x = y.
Proof.
  unfold MergeEBMs.compare_terms.
  destruct (MergeEBMs.compare_idxs _ _); try discriminate. apply compare_idxs_eq.
Qed.

(** [sorted(set(...))] of floats is strictly increasing and has the
    numbers of its argument. *)
Lemma sorted_set_spec (l : list Q) :
  StronglySorted Qlt (MergeEBMs.sorted_set l)
  /\ forall c, (exists c', In c' (MergeEBMs.sorted_set l) /\ c == c')
               <-> (exists c', In c' l /\ c == c').
Proof.
  destruct (fold_ins_set Qcompare MergeEBMs.insert_cut
              ltac:(reflexivity) ltac:(reflexivity)
              ltac:(intros x y; symmetry; apply Qcompare_antisym)
              ltac:(intros x y z Hxy Hyz; apply Qlt_alt;
                    apply (Qlt_trans x y z); apply Qlt_alt; assumption)
              ltac:(intros x y z H; apply Qeq_alt in H; now rewrite H)
              l) as [Hs Hh].
  split.
  - eapply StronglySorted_impl; [|exact Hs]. intros a b Hab. now apply Qlt_alt.
  - intro c. specialize (Hh c). unfold MergeEBMs.sorted_set.
    split; intros [c' [Hin Hc]].
    + destruct (proj1 Hh (ex_intro _ c' (conj Hin (proj1 (Qeq_alt _ _) Hc))))
        as [w [Hw Hcw]].
      exists w. split; [exact Hw | now apply Qeq_alt].
    + destruct (proj2 Hh (ex_intro _ c' (conj Hin (proj1 (Qeq_alt _ _) Hc))))
        as [w [Hw Hcw]].
      exists w. split; [exact Hw | now apply Qeq_alt].
Qed.

(** [np.unique] of strings is strictly ascending and has the strings of
    its argument. *)
Lemma unique_spec (l : list string) :
  StronglySorted (fun a b => String.compare a b = Lt) (DPUtils.unique l)
  /\ forall key, In key (DPUtils.unique l) <-> In key l.
Proof.
  destruct (fold_ins_set String.compare DPUtils.insert_unique
              ltac:(reflexivity) ltac:(reflexivity) String.compare_antisym
              string_compare_trans
              ltac:(intros x y z H; apply String.compare_eq_iff in H; now subst)
              l) as [Hs Hh].
  split; [exact Hs|]. intro key. specialize (Hh key). unfold DPUtils.unique.
  assert (Hrefl : String.compare key key = Eq).
  { pose proof (String.compare_antisym key key) as H.
    destruct (String.compare key key); simpl in H; congruence. }
  split; intro Hin.
  - destruct (proj1 Hh (ex_intro _ key (conj Hin Hrefl))) as [w [Hw Hkw]].
    apply String.compare_eq_iff in Hkw. now subst.
  - destruct (proj2 Hh (ex_intro _ key (conj Hin Hrefl))) as [w [Hw Hkw]].
    apply String.compare_eq_iff in Hkw. now subst.
Qed.

Lemma sorted_terms_spec (l : list (list Z)) :
  StronglySorted (fun a b => MergeEBMs.compare_terms a b = Lt)
    (fold_right MergeEBMs.insert_term [] l)
  /\ forall t, In t (fold_right MergeEBMs.insert_term [] l) <-> In t l.
Proof.
  destruct (fold_ins_set MergeEBMs.compare_terms MergeEBMs.insert_term
              ltac:(reflexivity) ltac:(reflexivity) compare_terms_antisym
              compare_terms_trans
              ltac:(intros x y z H; apply compare_terms_eq in H; now subst)
              l) as [Hs Hh].
  split; [exact Hs|]. intro t. specialize (Hh t).
  assert (Hrefl : MergeEBMs.compare_terms t t = Eq).
  { pose proof (compare_terms_antisym t t) as H.
    destruct (MergeEBMs.compare_terms t t); simpl in H; congruence. }
  split; intro Hin.
  - destruct (proj1 Hh (ex_intro _ t (conj Hin Hrefl))) as [w [Hw Htw]].
    apply compare_terms_eq in Htw. now subst.
  - destruct (proj2 Hh (ex_intro _ t (conj Hin Hrefl))) as [w [Hw Htw]].
    apply compare_terms_eq in Htw. now subst.
Qed.

(** * The merged bins and terms *)

(** X6.  The merged cuts of a continuous feature: when every model brings
    an array of cuts, [merged_cuts] returns a strictly increasing array
    that has exactly the numbers that are a cut in some model, so the
    merged grid refines every model's grid. *)
Theorem merged_cuts_refine (model_bins : list Harmonize.feature_bins) :
  Forall (fun b => Harmonize.is_dict b = false) model_bins ->
  exists merged,
    MergeEBMs.merged_cuts model_bins = inr (Harmonize.Cuts merged)
    /\ StronglySorted Qlt merged
    /\ forall c,
         (exists c', In c' merged /\ c == c')
         <-> (exists cuts c', In (Harmonize.Cuts cuts) model_bins /\ In c' cuts /\ c == c').
Proof.
  intro Hcuts. unfold MergeEBMs.merged_cuts.
  set (cuts_of := fun b => match b with
                           | Harmonize.Cuts cuts => cuts
                           | Harmonize.Categories _ => []
                           end).
  rewrite (mapM_ok _ cuts_of).
  2:{ intros b Hb. rewrite Forall_forall in Hcuts. specialize (Hcuts b Hb).
      destruct b; [reflexivity | discriminate]. }
  cbv beta iota delta [Py.bind Py.ret]. eexists. split; [reflexivity|].
  destruct (sorted_set_spec (concat (map cuts_of model_bins))) as [Hs Hh].
  split; [exact Hs|]. intro c. rewrite Hh. split.
  - intros [c' [Hin Hc]]. apply in_concat in Hin as [cuts [Hcs Hin]].
    apply in_map_iff in Hcs as [b [<- Hb]].
    rewrite Forall_forall in Hcuts. specialize (Hcuts b Hb).
    destruct b as [cuts|]; [|discriminate]. now exists cuts, c'.
  - intros [cuts [c' [Hb [Hin Hc]]]]. exists c'. split; [|exact Hc].
    apply in_concat. exists cuts. split; [|exact Hin].
    apply in_map_iff. now exists (Harmonize.Cuts cuts).
Qed.

Lemma merged_cuts_refine_witness :
  exists merged,
    MergeEBMs.merged_cuts [Harmonize.Cuts [10; 20]; Harmonize.Cuts [5; 20 # 2]]
    = inr (Harmonize.Cuts merged)
    /\ StronglySorted Qlt merged
    /\ forall c,
         (exists c', In c' merged /\ c == c')
         <-> (exists cuts c',
                In (Harmonize.Cuts cuts)
                   [Harmonize.Cuts [10; 20]; Harmonize.Cuts [5; 20 # 2]]
                /\ In c' cuts /\ c == c').
Proof.
  apply (merged_cuts_refine [Harmonize.Cuts [10; 20]; Harmonize.Cuts [5; 20 # 2]]).
  repeat constructor.
Defined.

(** X7.  The merged map of a categorical feature has exactly the
    categories of the models and numbers them from 1 in alphabetical
    order. *)
Theorem merged_categories_alphabetical (model_bins : list Harmonize.feature_bins) :
  exists categories,
    MergeEBMs.merged_categories model_bins = Harmonize.Categories categories
    /\ alphabetical categories
    /\ forall key,
         In key (map fst categories)
         <-> exists b, In b model_bins /\ In key (MergeEBMs.category_keys b).
Proof.
  unfold MergeEBMs.merged_categories. cbv zeta. eexists. split; [reflexivity|].
  destruct (unique_spec (flat_map MergeEBMs.category_keys model_bins)) as [Hs Hh].
  set (keys := DPUtils.unique (flat_map MergeEBMs.category_keys model_bins)) in *.
  assert (Hlen : length (map Z.of_nat (seq 1 (length keys))) = length keys)
    by now rewrite length_map, length_seq.
  assert (Hfst : map fst (combine keys (map Z.of_nat (seq 1 (length keys)))) = keys).
  { clear - Hlen. revert Hlen. generalize (map Z.of_nat (seq 1 (length keys))) as ns.
    induction keys as [|k keys IH]; intros [|n ns] H; simpl in *; try discriminate;
      [reflexivity|]. f_equal. apply IH. lia. }
  assert (Hsnd : map snd (combine keys (map Z.of_nat (seq 1 (length keys))))
                 = map Z.of_nat (seq 1 (length keys))).
  { clear - Hlen. revert Hlen. generalize (map Z.of_nat (seq 1 (length keys))) as ns.
    induction keys as [|k keys IH]; intros [|n ns] H; simpl in *; try discriminate;
      [reflexivity|]. f_equal. apply IH. lia. }
  split.
  - unfold alphabetical. rewrite Hfst, Hsnd. split; [exact Hs|].
    rewrite length_combine, Hlen, Nat.min_id. reflexivity.
  - intro key. rewrite Hfst, Hh, in_flat_map. reflexivity.
Qed.

(** X8.  The terms of a merged model: [sorted_fgs] returns, without
    repetition and in the order of [_order_terms] (fewer features first,
    then by ascending feature indexes), exactly the terms of the models
    with their features sorted; when no model has a term it raises
    IndexError. *)
Theorem merged_terms_ordered (models : list MergeEBMs.model) :
  match MergeEBMs.sorted_fgs models with
  | inr terms =>
      terms <> []
      /\ StronglySorted (fun a b => MergeEBMs.compare_terms a b = Lt) terms
      /\ forall t,
           In t terms
           <-> exists m t0,
                 In m models /\ In t0 (MergeEBMs.term_features_ m)
                 /\ t = MergeEBMs.sorted_idxs t0
  | inl e =>
      e = Py.IndexError /\ Forall (fun m => MergeEBMs.term_features_ m = []) models
  end.
Proof.
  unfold MergeEBMs.sorted_fgs.
  set (all_fg := flat_map (fun m => map MergeEBMs.sorted_idxs (MergeEBMs.term_features_ m))
                          models).
  destruct (sorted_terms_spec all_fg) as [Hs Hh].
  assert (Hall : forall t,
             In t all_fg
             <-> exists m t0,
                   In m models /\ In t0 (MergeEBMs.term_features_ m)
                   /\ t = MergeEBMs.sorted_idxs t0).
  { intro t. unfold all_fg. rewrite in_flat_map. split.
    - intros [m [Hm Ht]]. apply in_map_iff in Ht as [t0 [<- Ht0]]. now exists m, t0.
    - intros [m [t0 [Hm [Ht0 ->]]]]. exists m. split; [exact Hm|]. now apply in_map. }
  destruct (fold_right MergeEBMs.insert_term [] all_fg) as [|t terms] eqn:E.
  - split; [reflexivity|]. apply Forall_forall. intros m Hm.
    destruct (MergeEBMs.term_features_ m) as [|t0 ts] eqn:Et; [reflexivity|].
    exfalso. apply (proj2 (Hh (MergeEBMs.sorted_idxs t0))).
    apply Hall. exists m, t0. split; [exact Hm|]. split; [|reflexivity].
    rewrite Et. now left.
  - split; [discriminate|]. split; [exact Hs|]. intro t'. now rewrite Hh, Hall.
Qed.
(** * The bounds of a merged model *)

Lemma encloses_refl (row : option (Q * Q)) : encloses row row.
Proof. destruct row as [[lo hi]|]; simpl; [|exact I]. exists lo, hi. repeat split; lra. Qed.

Lemma encloses_trans (a b c : option (Q * Q)) :
  encloses a b -> encloses b c -> encloses a c.
Proof.
  destruct a as [[lo hi]|]; simpl; [|trivial].
  intros [lo' [hi' [-> [H1 H2]]]] [lo'' [hi'' [-> [H3 H4]]]].
  exists lo'', hi''. repeat split; lra.
Qed.

Lemma widen_encloses (a b : option (Q * Q)) :
  encloses a (MergeEBMs.widen a b) /\ encloses b (MergeEBMs.widen a b).
Proof.
  destruct a as [[lo hi]|], b as [[lo' hi']|]; simpl; split; trivial;
    try (eexists _, _; split; [reflexivity|]; split;
         first [apply Q.le_min_l | apply Q.le_min_r | apply Q.le_max_l | apply Q.le_max_r
               | apply Qle_refl]).
Qed.

Lemma widen_rows_enclose (a : list (option (Q * Q))) :
  forall b,
    length a = length b ->
    length (MergeEBMs.widen_rows a b) = length a
    /\ Forall2 encloses a (MergeEBMs.widen_rows a b)
    /\ Forall2 encloses b (MergeEBMs.widen_rows a b).
Proof.
  induction a as [|x a IH]; intros [|y b] H; simpl in *; try discriminate.
  - repeat split; constructor.
  - destruct (IH b ltac:(lia)) as [Hl [Ha Hb]]. destruct (widen_encloses x y) as [Hx Hy].
    split; [now rewrite Hl|]. split; constructor; assumption.
Qed.

Lemma Forall2_encloses_trans (a b c : list (option (Q * Q))) :
  Forall2 encloses a b -> Forall2 encloses b c -> Forall2 encloses a c.
Proof.
  intro H. revert c. induction H as [|x y a b Hxy _ IH]; intros c Hc;
    inversion Hc as [|y' z b' c' Hyz Hbc]; subst; constructor.
  - exact (encloses_trans _ _ _ Hxy Hyz).
  - now apply IH.
Qed.

Lemma fold_widen_rows (n : nat) (rest : list (list (option (Q * Q)))) :
  Forall (fun rows => length rows = n) rest ->
  forall first,
    length first = n ->
    Forall2 encloses first (fold_left MergeEBMs.widen_rows rest first)
    /\ Forall (fun rows => Forall2 encloses rows (fold_left MergeEBMs.widen_rows rest first))
              rest.
Proof.
  induction 1 as [|rows rest Hrows _ IH]; intros first Hfirst; cbn [fold_left].
  - split; [|constructor]. clear. induction first; constructor; [apply encloses_refl | assumption].
  - destruct (widen_rows_enclose first rows ltac:(lia)) as [Hl [Ha Hb]].
    destruct (IH (MergeEBMs.widen_rows first rows) ltac:(lia)) as [H1 H2].
    split; [exact (Forall2_encloses_trans _ _ _ Ha H1)|].
    constructor; [exact (Forall2_encloses_trans _ _ _ Hb H1) | exact H2].
Qed.

Lemma In_present {A} (x : A) (l : list (option A)) :
  In x (MergeEBMs.present l) <-> In (Some x) l.
Proof.
  unfold MergeEBMs.present. rewrite in_flat_map. split.
  - intros [[y|] [Hy Hx]]; [|destruct Hx]. destruct Hx as [<- | []]. exact Hy.
  - intro H. exists (Some x). split; [exact H | now left].
Qed.

(** X9.  The bounds of a merged model enclose the bounds of every model:
    when the models that have bounds have them for the same number of
    features, every row of [merged_bounds] has a minimum that is at most,
    and a maximum that is at least, those of the same row of every model
    that has bounds there. *)
Theorem merged_bounds_enclose (n_features : nat)
    (old_bounds : list (option (list (option (Q * Q))))) (rows : list (option (Q * Q))) :
  Forall (fun model_rows => length model_rows = n_features) (MergeEBMs.present old_bounds) ->
  MergeEBMs.merged_bounds old_bounds = Some rows ->
  forall model_rows, In (Some model_rows) old_bounds -> Forall2 encloses model_rows rows.
Proof.
  unfold MergeEBMs.merged_bounds. intros Hlen Hrows model_rows Hin.
  apply In_present in Hin.
  destruct (MergeEBMs.present old_bounds) as [|first rest]; [discriminate|].
  cbv zeta in Hrows.
  destruct (existsb _ _); [|discriminate]. injection Hrows as <-.
  inversion Hlen as [|? ? Hfirst Hrest]; subst.
  destruct (fold_widen_rows (length first) rest Hrest first eq_refl) as [H1 H2].
  destruct Hin as [<- | Hin]; [exact H1|].
  rewrite Forall_forall in H2. now apply H2.
Qed.

Lemma merged_bounds_enclose_witness :
  Forall2 encloses [Some (-5, 10); Some (1, 2)] [Some (-5, 20); Some (1, 2)].
Proof.
  apply (merged_bounds_enclose 2
           [Some [Some (0, 20); None]; None; Some [Some (-5, 10); Some (1, 2)]]).
  - repeat constructor.
  - reflexivity.
  - right. right. left. reflexivity.
Defined.

(** * What [merge_ebms] refuses *)

Lemma nodup_same (name : string) (names : list string) :
  names <> [] -> Forall (eq name) names -> nodup string_dec names = [name].
Proof.
  induction names as [|x [|y names] IH]; intros Hne Hall; [congruence| |].
  - inversion Hall; subst. reflexivity.
  - inversion Hall as [|? ? Hx Hrest]; subst x.
    cbn [nodup]. destruct (in_dec string_dec name (y :: names)) as [Hin | Hout].
    + apply IH; [discriminate | exact Hrest].
    + exfalso. apply Hout. inversion Hrest; subst. now left.
Qed.

Lemma select_type_private (name : string) (names : list string) :
  names <> [] -> Forall (eq name) names ->
  name = MergeTypes.DPClassifier \/ name = MergeTypes.DPRegressor ->
  exists d, MergeTypes.select_type names = inr d /\ MergeTypes.is_private d = true.
Proof.
  intros Hne Hall Hname. unfold MergeTypes.select_type.
  replace (length names =? 0)%nat with false by (destruct names; [congruence | reflexivity]).
  cbv zeta. rewrite (nodup_same name names Hne Hall). cbn [length Nat.eqb hd].
  destruct Hname as [-> | ->]; eexists; split; reflexivity.
Qed.

(** X10.  [merge_ebms] never returns a model when all the models are
    differentially private classifiers, or all are differentially private
    regressors: [n_samples_] is set for non-private merges only and read
    for all of them, so that the merge fails before its last assignment
    is reached. *)
Theorem merge_private_models_fails
    (_convert_categorical_to_continuous :
       list (string * Z) -> Py.result (list Q * list (list Z) * Q * Q))
    (multiclass_postprocess2 :
       Z -> list Tensor.t -> Q -> list Tensor.t -> Py.result (list Tensor.t * Q))
    (models : list MergeEBMs.model) (name : string) :
  models <> [] ->
  name = MergeTypes.DPClassifier \/ name = MergeTypes.DPRegressor ->
  Forall (fun m => MergeEBMs.type_name m = name) models ->
  exists e,
    MergeEBMs.merge_ebms _convert_categorical_to_continuous multiclass_postprocess2 models
    = inl e
    /\ MergeEBMs.merged_attributes _convert_categorical_to_continuous
         multiclass_postprocess2 models
       = inl e.
Proof.
  intros Hne Hname Hall.
  destruct (select_type_private name (map MergeEBMs.type_name models)) as [d [Hd Hp]].
  - destruct models; [congruence | discriminate].
  - apply Forall_forall. intros x Hx. apply in_map_iff in Hx as [m [<- Hm]].
    rewrite Forall_forall in Hall. symmetry. now apply Hall.
  - exact Hname.
  - destruct (MergeEBMs.merged_attributes _convert_categorical_to_continuous
                multiclass_postprocess2 models) as [e | merged] eqn:E.
    + exists e. split; [now apply merge_ebms_raises | reflexivity].
    + exfalso.
      exact (proj2 (merged_attributes_type _ _ models d merged Hd E) Hp).
Qed.

Lemma merge_private_models_fails_witness :
  exists e,
    MergeEBMs.merge_ebms no_conversion no_multiclass [demo_dp_regressor; demo_dp_regressor]
    = inl e
    /\ MergeEBMs.merged_attributes no_conversion no_multiclass
         [demo_dp_regressor; demo_dp_regressor]
       = inl e.
Proof.
  apply (merge_private_models_fails no_conversion no_multiclass
           [demo_dp_regressor; demo_dp_regressor] MergeTypes.DPRegressor).
  - discriminate.
  - right. reflexivity.
  - repeat constructor.
Defined.

Lemma mapM_raises {A B} (f : A -> Py.result B) (e : Py.exn) (l : list A) :
  (forall a e', f a = inl e' -> e' = e) ->
  (exists a, In a l /\ exists e', f a = inl e') ->
  Tensor.mapM f l = inl e.
Proof.
  intros Hf. induction l as [|a l IH]; intros [x [Hin [e' Hx]]]; [destruct Hin|].
  simpl. destruct (f a) as [e0 | b] eqn:Ea.
  - now rewrite (Hf a e0 Ea).
  - cbv beta iota delta [Py.bind]. rewrite IH; [reflexivity|].
    destruct Hin as [-> | Hin]; [congruence|]. exists x. split; [exact Hin | now exists e'].
Qed.

(** X11.  [merge_ebms] refuses models with different numbers of features:
    when the types of the models can be merged and all models are fitted,
    a model whose [bins_] has not as many features as that of the first
    model makes it raise "Inconsistent numbers of features in the
    models.", before any bin is looked at. *)
Theorem merge_feature_counts_differ
    (_convert_categorical_to_continuous :
       list (string * Z) -> Py.result (list Q * list (list Z) * Q * Q))
    (multiclass_postprocess2 :
       Z -> list Tensor.t -> Q -> list Tensor.t -> Py.result (list Tensor.t * Q))
    (first : MergeEBMs.model) (rest : list MergeEBMs.model) (m : MergeEBMs.model)
    (d : MergeTypes.decision) :
  MergeTypes.select_type (map MergeEBMs.type_name (first :: rest)) = inr d ->
  Forall (fun m => MergeEBMs.has_fitted_ m = true) (first :: rest) ->
  In m rest ->
  length (MergeEBMs.bins_ m) <> length (MergeEBMs.bins_ first) ->
  MergeEBMs.merge_ebms _convert_categorical_to_continuous multiclass_postprocess2
    (first :: rest)
  = inl (Py.Exception "Inconsistent numbers of features in the models.").
Proof.
  intros Hd Hfitted Hin Hlen. apply merge_ebms_raises.
  unfold MergeEBMs.merged_attributes. rewrite Hd.
  cbv beta iota delta [Py.bind].
  replace (existsb (fun m0 => negb (MergeEBMs.has_fitted_ m0)) (first :: rest)) with false.
  2:{ symmetry. apply not_true_is_false. intro H. apply existsb_exists in H as [x [Hx H]].
      rewrite Forall_forall in Hfitted. rewrite (Hfitted x Hx) in H. discriminate. }
  cbv beta iota zeta delta [Py.ret].
  rewrite (mapM_raises _ (Py.Exception "Inconsistent numbers of features in the models."));
    [reflexivity | |].
  - intros a e'. unfold MergeEBMs.check_feature_counts. cbv zeta.
    destruct (forallb _ _); [discriminate|]. intro H. now injection H as <-.
  - exists m. split; [now right|]. unfold MergeEBMs.check_feature_counts. cbv zeta.
    cbn [forallb]. replace (length (MergeEBMs.bins_ first) =? length (MergeEBMs.bins_ m))%nat
      with false by (symmetry; apply Nat.eqb_neq; congruence).
    cbn [andb]. eexists. reflexivity.
Qed.

Lemma merge_feature_counts_differ_witness :
  MergeEBMs.merge_ebms no_conversion no_multiclass
    [demo_regressor; demo_ordinal_model]
  = inl (Py.Exception "Inconsistent numbers of features in the models.").
Proof.
  apply (merge_feature_counts_differ no_conversion no_multiclass demo_regressor
           [demo_ordinal_model] demo_ordinal_model
           {| MergeTypes.ebm_type := MergeTypes.Regressor;
              MergeTypes.is_classifier := false; MergeTypes.is_private := false |}).
  - reflexivity.
  - repeat constructor.
  - now left.
  - simpl. lia.
Defined.
(** * Trimming the bin levels no term uses *)

Lemma set_nth_length {A} (i : nat) (x : A) (l : list A) :
  length (Harmonize.set_nth i x l) = length l.
Proof.
  revert i. induction l as [|y l IH]; intros [|i]; simpl; try reflexivity. now rewrite IH.
Qed.

Lemma set_nth_same {A} (i : nat) (x d : A) (l : list A) :
  (i < length l)%nat -> nth i (Harmonize.set_nth i x l) d = x.
Proof.
  revert i. induction l as [|y l IH]; intros [|i] H; simpl in *; try lia; [reflexivity|].
  apply IH. lia.
Qed.

Lemma set_nth_other {A} (i j : nat) (x d : A) (l : list A) :
  i <> j -> nth j (Harmonize.set_nth i x l) d = nth j l d.
Proof.
  revert i j. induction l as [|y l IH]; intros [|i] [|j] H; simpl; try reflexivity;
    try congruence.
  apply IH. congruence.
Qed.

Lemma highest_inner (k n : nat) (fs : list Z) :
  Forall (valid_feature n) fs ->
  forall hl,
    length hl = n ->
    exists hl',
      fold_left
        (fun (acc : Py.result (list nat)) (feature_idx : Z) =>
           highest_levels <- acc ;;
           i <- Tensor.normalize_index (length highest_levels) feature_idx ;;
           Py.ret (Harmonize.set_nth i (Nat.max (nth i highest_levels 0%nat) k)
                     highest_levels))
        fs (Py.ret hl)
      = inr hl'
      /\ length hl' = n
      /\ (forall i, (nth i hl 0 <= nth i hl' 0)%nat)
      /\ forall f, In f fs -> (k <= nth (Z.to_nat f) hl' 0)%nat.
Proof.
  induction 1 as [|f fs Hf _ IH]; intros hl Hlen; cbn [fold_left].
  - exists hl. repeat split; [exact Hlen | intro; lia | intros f []].
  - unfold valid_feature in Hf.
    assert (En : Tensor.normalize_index (length hl) f = inr (Z.to_nat f)).
    { rewrite <- (Z2Nat.id f) at 1 by lia. apply normalize_index_nat. lia. }
    cbv beta iota delta [Py.bind Py.ret]. rewrite En.
    set (i := Z.to_nat f).
    set (hl1 := Harmonize.set_nth i (Nat.max (nth i hl 0%nat) k) hl).
    assert (Hlen1 : length hl1 = n) by (unfold hl1; now rewrite set_nth_length).
    destruct (IH hl1 Hlen1) as [hl' [E [Hl' [Hmono Hk]]]].
    exists hl'. split; [exact E|]. split; [exact Hl'|]. split.
    + intro j. specialize (Hmono j). destruct (Nat.eq_dec i j) as [<- | Hij].
      * unfold hl1 in Hmono. rewrite set_nth_same in Hmono by (unfold i; lia). lia.
      * unfold hl1 in Hmono. rewrite set_nth_other in Hmono by exact Hij. exact Hmono.
    + intros g [<- | Hg]; [|now apply Hk].
      specialize (Hmono i). unfold hl1 in Hmono.
      rewrite set_nth_same in Hmono by (unfold i; lia). fold i. lia.
Qed.

Lemma highest_level_spec (n : nat) (term_features : list (list Z)) :
  Forall (Forall (valid_feature n)) term_features ->
  exists hl,
    MergeEBMs.highest_level term_features n = inr hl
    /\ length hl = n
    /\ forall term f, In term term_features -> In f term ->
                      (length term <= nth (Z.to_nat f) hl 0)%nat.
Proof.
  unfold MergeEBMs.highest_level. intro H.
  assert (Hgen : forall hl,
             length hl = n ->
             exists hl',
               fold_left
                 (fun (acc : Py.result (list nat)) (feature_idxs : list Z) =>
                    fold_left
                      (fun (acc : Py.result (list nat)) (feature_idx : Z) =>
                         highest_levels <- acc ;;
                         i <- Tensor.normalize_index (length highest_levels) feature_idx ;;
                         Py.ret (Harmonize.set_nth i
                                   (Nat.max (nth i highest_levels 0%nat)
                                            (length feature_idxs))
                                   highest_levels))
                      feature_idxs acc)
                 term_features (Py.ret hl)
               = inr hl'
               /\ length hl' = n
               /\ (forall i, (nth i hl 0 <= nth i hl' 0)%nat)
               /\ forall term f, In term term_features -> In f term ->
                                 (length term <= nth (Z.to_nat f) hl' 0)%nat).
  { induction H as [|term terms Hterm _ IH]; intros hl Hlen; cbn [fold_left].
    - exists hl. repeat split; [exact Hlen | intro; lia | intros ? ? []].
    - destruct (highest_inner (length term) n term Hterm hl Hlen)
        as [hl1 [E1 [Hlen1 [Hmono1 Hk1]]]].
      rewrite E1. destruct (IH hl1 Hlen1) as [hl' [E [Hl' [Hmono Hk]]]].
      exists hl'. split; [exact E|]. split; [exact Hl'|]. split.
      + intro i. specialize (Hmono1 i). specialize (Hmono i). lia.
      + intros t f [<- | Ht] Hf; [|now apply (Hk t f)].
        specialize (Hk1 f Hf). specialize (Hmono (Z.to_nat f)). lia. }
  destruct (Hgen (repeat 0%nat n) (repeat_length _ _)) as [hl [E [Hl [_ Hk]]]].
  exists hl. now repeat split.
Qed.

Lemma nth_trimmed (bins : list (list Harmonize.feature_bins)) :
  forall hl i,
    length hl = length bins -> (i < length bins)%nat ->
    nth i (map (fun p : list Harmonize.feature_bins * nat => firstn (snd p) (fst p))
               (combine bins hl)) []
    = firstn (nth i hl 0%nat) (nth i bins []).
Proof.
  induction bins as [|b bins IH]; intros [|h hl] [|i] Hl Hi; simpl in *; try lia;
    [reflexivity|].
  apply IH; lia.
Qed.

Lemma select_level_firstn {A} (levels : list A) (h k : nat) :
  (1 <= k <= h)%nat ->
  Harmonize.select_level (firstn h levels) k = Harmonize.select_level levels k.
Proof.
  intros Hk. destruct levels as [|d levels]; [now rewrite firstn_nil|].
  set (l := d :: levels).
  assert (Hl : (1 <= length l)%nat) by (simpl; lia).
  rewrite (select_level_nth l k d) by (try discriminate; lia).
  rewrite (select_level_nth (firstn h l) k d).
  - rewrite length_firstn.
    replace (Nat.min (Nat.min h (length l)) k) with (Nat.min (length l) k) by lia.
    rewrite nth_firstn.
    replace (Nat.min (length l) k - 1 <? h)%nat with true; [reflexivity|].
    symmetry. apply Nat.ltb_lt. lia.
  - destruct h; [lia|]. discriminate.
  - lia.
Qed.

(** X12.  [_remove_unused_higher_bins] never changes the bins a term
    reads: when every feature index of the terms is in range, it returns
    as many features as before, keeps of every feature a prefix of its bin
    levels, and every term still finds, for each of its features, the very
    bin level it found before. *)
Theorem trimming_keeps_term_bins (term_features : list (list Z))
    (bins : list (list Harmonize.feature_bins)) :
  Forall (Forall (valid_feature (length bins))) term_features ->
  exists trimmed,
    MergeEBMs._remove_unused_higher_bins term_features bins = inr trimmed
    /\ length trimmed = length bins
    /\ (forall i, exists k, nth i trimmed [] = firstn k (nth i bins []))
    /\ forall term f,
         In term term_features -> In f term ->
         term_level trimmed (length term) f = term_level bins (length term) f.
Proof.
  intro Hvalid. unfold MergeEBMs._remove_unused_higher_bins.
  destruct (highest_level_spec (length bins) term_features Hvalid) as [hl [E [Hl Hk]]].
  rewrite E. cbv beta iota delta [Py.bind Py.ret]. eexists. split; [reflexivity|].
  set (trimmed := map (fun p : list Harmonize.feature_bins * nat => firstn (snd p) (fst p))
                      (combine bins hl)).
  assert (Hlen : length trimmed = length bins).
  { unfold trimmed. rewrite length_map, length_combine. lia. }
  split; [exact Hlen|]. split.
  - intro i. destruct (Nat.lt_ge_cases i (length bins)) as [Hi | Hi].
    + exists (nth i hl 0%nat). now apply nth_trimmed.
    + exists 0%nat. rewrite !nth_overflow by lia. reflexivity.
  - intros term f Hterm Hf. unfold term_level.
    rewrite Forall_forall in Hvalid. specialize (Hvalid term Hterm).
    rewrite Forall_forall in Hvalid. specialize (Hvalid f Hf). unfold valid_feature in Hvalid.
    replace f with (Z.of_nat (Z.to_nat f)) by lia.
    rewrite (py_index_nat trimmed (Z.to_nat f) []) by lia.
    rewrite (py_index_nat bins (Z.to_nat f) []) by lia.
    cbv beta iota delta [Py.bind].
    unfold trimmed. rewrite nth_trimmed by lia.
    apply select_level_firstn. split; [|exact (Hk term f Hterm Hf)].
    destruct term; [destruct Hf | simpl; lia].
Qed.

Lemma trimming_keeps_term_bins_witness :
  exists trimmed,
    MergeEBMs._remove_unused_higher_bins [[0%Z]; [0%Z; 2%Z]]
      [[Harmonize.Cuts [1]; Harmonize.Cuts [2]; Harmonize.Cuts [3]];
       [Harmonize.Cuts [4]; Harmonize.Cuts [5]];
       [Harmonize.Cuts [6]]]
    = inr trimmed
    /\ length trimmed = 3%nat
    /\ (forall i, exists k,
          nth i trimmed []
          = firstn k (nth i [[Harmonize.Cuts [1]; Harmonize.Cuts [2]; Harmonize.Cuts [3]];
                             [Harmonize.Cuts [4]; Harmonize.Cuts [5]];
                             [Harmonize.Cuts [6]]] []))
    /\ forall term f,
         In term [[0%Z]; [0%Z; 2%Z]] -> In f term ->
         term_level trimmed (length term) f
         = term_level [[Harmonize.Cuts [1]; Harmonize.Cuts [2]; Harmonize.Cuts [3]];
                       [Harmonize.Cuts [4]; Harmonize.Cuts [5]];
                       [Harmonize.Cuts [6]]] (length term) f.
Proof.
  apply (trimming_keeps_term_bins [[0%Z]; [0%Z; 2%Z]]
           [[Harmonize.Cuts [1]; Harmonize.Cuts [2]; Harmonize.Cuts [3]];
            [Harmonize.Cuts [4]; Harmonize.Cuts [5]];
            [Harmonize.Cuts [6]]]).
  repeat constructor; unfold valid_feature; simpl; lia.
Defined.
(** * Deduplicating the bin levels *)

Lemma bins_key_eqb_refl (b : Harmonize.feature_bins) : MergeEBMs.bins_key_eqb b b = true.
Proof.
  destruct b as [cuts | categories]; simpl.
  - rewrite Nat.eqb_refl. simpl. induction cuts as [|c cuts IH]; simpl; [reflexivity|].
    rewrite IH, andb_true_r. apply Qeq_bool_iff. reflexivity.
  - assert (H : MergeEBMs.items_subset categories categories = true).
    { unfold MergeEBMs.items_subset. apply forallb_forall. intros x Hx.
      apply existsb_exists. exists x. split; [exact Hx|].
      unfold MergeEBMs.items_eqb. now rewrite String.eqb_refl, Z.eqb_refl. }
    now rewrite H.
Qed.

Section DedupLevels.

Variable levels : list Harmonize.feature_bins.

Let d : Harmonize.feature_bins := Harmonize.Cuts [].

(** What holds after the first [j] levels of a feature. *)
Let inv (j : nat)
    (st : MergeEBMs.dedup_state * option Harmonize.feature_bins * list Harmonize.feature_bins)
    : Prop :=
  let '(s, highest_key, done) := st in
  length done = j
  /\ (forall i, (i < j)%nat -> same_key (nth i levels d) (nth i done d))
  /\ ((j = 0)%nat -> highest_key = None)
  /\ ((0 < j)%nat ->
      exists h,
        MergeEBMs.highest_idx s = Some h /\ (h < j)%nat
        /\ highest_key = Some (nth h levels d)
        /\ forall i, (h < i < j)%nat -> same_key (nth h levels d) (nth i levels d)).

Lemma dedup_level_inv (j : nat) st :
  (j < length levels)%nat -> inv j st ->
  inv (S j) (MergeEBMs.dedup_level st (j, nth j levels d)).
Proof.
  destruct st as [[s highest_key] done]. intros Hj [Hlen [Hdone [Hzero Hpos]]].
  unfold MergeEBMs.dedup_level.
  set (fb := nth j levels d).
  set (existing := find (MergeEBMs.bins_key_eqb fb) (MergeEBMs.uniques s)).
  set (kept := match existing with None => fb | Some e => e end).
  assert (Hkept : same_key fb kept).
  { unfold kept, existing. destruct (find _ _) as [e|] eqn:E.
    - now apply find_some in E as [_ E].
    - apply bins_key_eqb_refl. }
  assert (Hdone' : forall i, (i < S j)%nat ->
                             same_key (nth i levels d) (nth i (done ++ [kept]) d)).
  { intros i Hi. destruct (Nat.eq_dec i j) as [-> | Hij].
    - rewrite app_nth2 by lia. rewrite Hlen, Nat.sub_diag. exact Hkept.
    - rewrite app_nth1 by lia. apply Hdone. lia. }
  assert (Hlen' : length (done ++ [kept]) = S j) by (rewrite length_app; simpl; lia).
  destruct (match highest_key with
            | Some key => MergeEBMs.bins_key_eqb key fb
            | None => false
            end) eqn:Esame.
  - destruct highest_key as [key|]; [|discriminate].
    destruct j as [|j']; [specialize (Hzero eq_refl); discriminate|].
    destruct (Hpos ltac:(lia)) as [h [Eh [Hh [Ekey Hrun]]]].
    split; [exact Hlen'|]. split; [exact Hdone'|]. split; [lia|]. intros _.
    exists h. cbn [MergeEBMs.highest_idx]. split; [exact Eh|]. split; [lia|].
    split; [exact Ekey|]. intros i Hi.
    destruct (Nat.eq_dec i (S j')) as [-> | Hne]; [|apply Hrun; lia].
    injection Ekey as <-. exact Esame.
  - split; [exact Hlen'|]. split; [exact Hdone'|]. split; [lia|]. intros _.
    exists j. cbn [MergeEBMs.highest_idx]. split; [reflexivity|]. split; [lia|].
    split; [reflexivity|]. intros i Hi. lia.
Qed.

Lemma dedup_fold_inv (rest : list Harmonize.feature_bins) :
  forall pre st,
    levels = pre ++ rest ->
    inv (length pre) st ->
    inv (length levels)
        (fold_left MergeEBMs.dedup_level (combine (seq (length pre) (length rest)) rest) st).
Proof.
  induction rest as [|b rest IH]; intros pre st Hl Hinv.
  - cbn [length seq combine fold_left]. rewrite Hl, app_nil_r. exact Hinv.
  - cbn [length seq combine fold_left].
    assert (Hb : b = nth (length pre) levels d).
    { rewrite Hl, app_nth2, Nat.sub_diag by lia. reflexivity. }
    specialize (IH (pre ++ [b]) (MergeEBMs.dedup_level st (length pre, b))).
    rewrite length_app in IH. cbn [length] in IH. rewrite Nat.add_1_r in IH.
    apply IH.
    + rewrite <- app_assoc. exact Hl.
    + rewrite Hb. apply dedup_level_inv; [|exact Hinv].
      rewrite Hl, length_app. simpl. lia.
Qed.

Lemma dedup_feature (s : MergeEBMs.dedup_state) :
  levels <> [] ->
  exists s' highest_key done h,
    fold_left MergeEBMs.dedup_level (combine (seq 0 (length levels)) levels) (s, None, [])
    = (s', highest_key, done)
    /\ MergeEBMs.highest_idx s' = Some h
    /\ deduplicated (firstn (h + 1) done) levels.
Proof.
  intro Hne.
  assert (Hinv : inv 0 (s, None, [])).
  { split; [reflexivity|]. split; [intros; lia|]. split; [reflexivity | intro; lia]. }
  pose proof (dedup_fold_inv levels [] (s, None, []) eq_refl Hinv) as H.
  cbn [length] in H.
  destruct (fold_left _ _ _) as [[s' highest_key] done].
  destruct H as [Hlen [Hdone [_ Hpos]]].
  assert (Hn : (0 < length levels)%nat) by (destruct levels; [congruence | simpl; lia]).
  destruct (Hpos Hn) as [h [Eh [Hh [_ Hrun]]]].
  exists s', highest_key, done, h. split; [reflexivity|]. split; [exact Eh|].
  assert (Hfirst : length (firstn (h + 1) done) = (h + 1)%nat)
    by (rewrite length_firstn; lia).
  unfold deduplicated. rewrite Hfirst. split; [lia|]. split.
  - intros i Hi. rewrite nth_firstn.
    replace (i <? h + 1)%nat with true by (symmetry; apply Nat.ltb_lt; lia).
    apply Hdone. lia.
  - intros i Hi. replace (h + 1 - 1)%nat with h by lia. apply Hrun. lia.
Qed.

End DedupLevels.

Lemma deduplicate_from (bins : list (list Harmonize.feature_bins)) :
  Forall (fun levels => levels <> []) bins ->
  forall s,
    exists result,
      MergeEBMs._deduplicate_bins_from s bins = inr result
      /\ Forall2 deduplicated result bins.
Proof.
  induction 1 as [|levels bins Hne _ IH]; intro s; cbn [MergeEBMs._deduplicate_bins_from].
  - exists []. split; [reflexivity | constructor].
  - destruct (dedup_feature levels s Hne) as [s' [hk [done [h [E [Eh Hd]]]]]].
    rewrite E, Eh. destruct (IH s') as [rest [Er Hr]]. rewrite Er.
    cbv beta iota delta [Py.bind Py.ret]. eexists. split; [reflexivity|].
    now constructor.
Qed.

(** X13.  [_deduplicate_bins] on features that all have a bin level: it
    returns; of every feature it keeps the first levels, each one as it
    was or replaced by an earlier definition with the same cuts or the
    same categories (category maps may list them in another order); and
    every level it removes has the same key as the last level it keeps.
    When the first feature has no level it raises UnboundLocalError. *)
Theorem deduplicate_bins_keeps_keys (bins : list (list Harmonize.feature_bins)) :
  (Forall (fun levels => levels <> []) bins ->
   exists result,
     MergeEBMs._deduplicate_bins bins = inr result /\ Forall2 deduplicated result bins)
  /\ (forall rest,
        bins = [] :: rest ->
        exists msg, MergeEBMs._deduplicate_bins bins = inl (Py.UnboundLocalError msg)).
Proof.
  split.
  - intro H. exact (deduplicate_from bins H _).
  - intros rest ->. eexists. reflexivity.
Qed.

Lemma deduplicate_bins_keeps_keys_witness :
  (exists result,
     MergeEBMs._deduplicate_bins
       [[Harmonize.Cuts [1; 2]; Harmonize.Cuts [2 # 2; 2]]; [Harmonize.Cuts [1; 2]]]
     = inr result
     /\ Forall2 deduplicated result
          [[Harmonize.Cuts [1; 2]; Harmonize.Cuts [2 # 2; 2]]; [Harmonize.Cuts [1; 2]]])
  /\ exists msg,
       MergeEBMs._deduplicate_bins [[]; [Harmonize.Cuts [1]]]
       = inl (Py.UnboundLocalError msg).
Proof.
  split.
  - apply (proj1 (deduplicate_bins_keeps_keys
                    [[Harmonize.Cuts [1; 2]; Harmonize.Cuts [2 # 2; 2]];
                     [Harmonize.Cuts [1; 2]]])).
    repeat constructor; discriminate.
  - apply (proj2 (deduplicate_bins_keeps_keys [[]; [Harmonize.Cuts [1]]])
             [[Harmonize.Cuts [1]]]).
    reflexivity.
Defined.

(** * Harmonizing onto the same bins *)


(** * Harmonizing weights along planned axes *)

Lemma lookup_sizes_rev (axes : list Harmonize.axis) :
  lookup_sizes (rev axes) = rev (lookup_sizes axes).
Proof. unfold lookup_sizes. now rewrite map_rev. Qed.

(** [_harmonize_tensor] for weights on the features of a term listed in
    the same order, when the axes it plans are simple and the shares of
    every old bin add up to 1: the result has the planned shape and the
    sum of the old tensor. *)
Lemma harmonize_planned_sum
    (feature_idxs : list Z) (axes : list Harmonize.axis) (sizes : list nat)
    (new_bounds : option (list (Q * Q))) (new_bins : list (list Harmonize.feature_bins))
    (old_bounds : option (list (Q * Q))) (old_bins : list (list Harmonize.feature_bins))
    (old_mapping : list (list Harmonize.mapping_level)) (old_tensor : Tensor.t) :
  Forall (fun f => 0 <= f)%Z feature_idxs ->
  Tensor.mapM (Harmonize.plan_axis (length feature_idxs) (length feature_idxs)
                 new_bounds new_bins old_bounds old_bins old_mapping) feature_idxs
  = inr axes ->
  Forall2 simple_axis sizes axes ->
  Forall2 unity_axis sizes axes ->
  Forall (fun n => (0 < n)%nat) (lookup_sizes axes) ->
  Tensor.wf old_tensor ->
  Tensor.shape old_tensor = sizes ->
  exists new_weights,
    Harmonize._harmonize_tensor feature_idxs new_bounds new_bins feature_idxs
      old_bounds old_bins old_mapping old_tensor None
    = inr new_weights
    /\ Tensor.shape new_weights = lookup_sizes axes
    /\ Tensor.sum new_weights == Tensor.sum old_tensor.
Proof.
  intros Hidx Hplan Hsimple Hunity Hpos Hwf Hshape.
  assert (Hndim : Tensor.ndim old_tensor = length feature_idxs).
  { unfold Tensor.ndim. rewrite Hshape, (Forall2_length Hsimple).
    destruct (mapM_spec _ _ _ Hplan) as [Hl _]. exact Hl. }
  assert (Hrsimple : Forall2 simple_axis (rev sizes) (rev axes))
    by now apply Forall2_rev_gen.
  assert (Hrunity : Forall2 unity_axis (rev sizes) (rev axes))
    by now apply Forall2_rev_gen.
  assert (Hrpos : Forall (fun n => (0 < n)%nat) (lookup_sizes (rev axes)))
    by (rewrite lookup_sizes_rev; now apply Forall_rev).
  unfold Harmonize._harmonize_tensor.
  pose proof (find_axes_same_order feature_idxs Hidx [] (Forall_nil _)) as Hfa.
  cbn [app length] in Hfa. rewrite Hfa.
  cbv beta iota delta [Py.bind]. cbn [length].
  rewrite length_seq, <- Hndim, Nat.eqb_refl. cbn [negb].
  rewrite (transpose_identity old_tensor Hwf).
  cbv beta iota delta [Py.ret]. rewrite Hndim, Hplan.
  fold (lookup_sizes axes).
  set (cell := fun c =>
                 let positions := Harmonize.decompose c (lookup_sizes (rev axes)) in
                 nth (offset_rev (rev sizes) (old_positions (rev sizes) (rev axes) positions))
                     (Tensor.data old_tensor) 0
                 * cell_fraction (rev axes) positions).
  rewrite (mapM_ok _ cell).
  2:{ intros c _. unfold cell.
      apply (new_cell_simple old_tensor None (rev sizes) (rev axes) c).
      - exact Hwf.
      - now rewrite rev_involutive.
      - exact Hrsimple.
      - exact Hrpos. }
  eexists. split; [reflexivity|]. split; [reflexivity|].
  unfold Tensor.sum. cbn [Tensor.data]. unfold cell.
  rewrite <- (prod_rev (lookup_sizes axes)), <- lookup_sizes_rev.
  apply harmonized_sum; try assumption.
  rewrite prod_rev, <- Hshape. exact Hwf.
Qed.

(** * Harmonizing categorical features *)

Lemma numbered_values (old : list (string * Z)) :
  numbered old ->
  NoDup (map snd old)
  /\ forall k idx, In (k, idx) old -> (1 <= idx <= Z.of_nat (length old))%Z.
Proof.
  intros [_ Hperm]. split.
  - apply (Permutation_NoDup (Permutation_sym Hperm)). apply numbered_NoDup.
  - intros k idx Hin.
    assert (H : In idx (map snd old)) by (apply in_map_iff; exists (k, idx); now split).
    apply (Permutation_in _ Hperm) in H. apply in_map_iff in H as [x [<- Hx]].
    apply in_seq in Hx. lia.
Qed.

Lemma dict_get_In (d : list (string * Z)) (k : string) (idx : Z) :
  Harmonize.dict_get d k = Some idx -> In (k, idx) d.
Proof.
  unfold Harmonize.dict_get. destruct (find _ d) as [[k' i']|] eqn:E; [|discriminate].
  simpl. intro H. injection H as ->. apply find_some in E as [Hin Hk].
  simpl in Hk. apply String.eqb_eq in Hk. now subst.
Qed.

Lemma dict_get_absent (d : list (string * Z)) (k : string) :
  Harmonize.dict_get d k = None -> ~ In k (map fst d).
Proof.
  unfold Harmonize.dict_get. destruct (find _ d) as [item|] eqn:E; [discriminate|].
  intros _ Hin. apply in_map_iff in Hin as [[k' i'] [Hk Hin]]. simpl in Hk. subst k'.
  pose proof (find_none _ _ E _ Hin) as H. simpl in H. now rewrite String.eqb_refl in H.
Qed.

(** The lookup and the shares of a categorical axis, category by
    category. *)
Lemma categorical_axis_entries (old new : list (string * Z)) :
  numbered old -> alphabetical new ->
  Harmonize.categorical_axis old new
  = (0%Z :: map (fun item : string * Z => source_bin old (fst item)) new ++ [(-1)%Z],
     1 :: map (fun item : string * Z =>
                 if (0 <=? source_bin old (fst item))%Z then inject_Z 1 / inject_Z 1 else 0)
              new ++ [1]).
Proof.
  intros Hold [Hkeys Hvals].
  destruct (numbered_values old Hold) as [Hov Hrange].
  assert (Hnv : NoDup (map snd new)) by (rewrite Hvals; apply numbered_NoDup).
  unfold Harmonize.categorical_axis.
  rewrite (reverse_dict_distinct _ Hov), (reverse_dict_distinct _ Hnv),
    (sorted_items_ascending _ 1%nat Hvals).
  cbv zeta. rewrite !map_map. cbn [snd hd].
  f_equal; f_equal; f_equal.
  - apply map_ext. intros [k i]. cbn [fst snd]. unfold source_bin.
    destruct (Harmonize.dict_get old k) as [idx|]; [|reflexivity].
    now destruct (0 <=? idx)%Z.
  - apply map_ext. intros [k i]. cbn [fst snd]. unfold source_bin.
    destruct (Harmonize.dict_get old k) as [idx|] eqn:E; [|reflexivity].
    pose proof (dict_get_In _ _ _ E) as Hin.
    destruct (0 <=? idx)%Z; [|reflexivity]. cbn [snd].
    now rewrite (reversed_get_member _ k idx Hov Hin).
Qed.

Lemma map_nth_combine {A B C} (F : A -> B -> C) (da : A) (db : B) (la : list A) :
  forall lb,
    length la = length lb ->
    map (fun i => F (nth i la da) (nth i lb db)) (seq 0 (length la))
    = map (fun p : A * B => F (fst p) (snd p)) (combine la lb).
Proof.
  induction la as [|a la IH]; intros [|b lb] H; simpl in *; try discriminate;
    [reflexivity|].
  f_equal. rewrite <- seq_shift, map_map. apply IH. lia.
Qed.

Lemma combine_maps {A B C} (f : A -> B) (g : A -> C) (l : list A) :
  combine (map f l) (map g l) = map (fun x => (f x, g x)) l.
Proof. induction l as [|a l IH]; simpl; [reflexivity|]. now rewrite IH. Qed.

Lemma single_category (new : list (string * Z)) (k0 : string) (F : string * Z -> Q) :
  NoDup (map fst new) -> In k0 (map fst new) ->
  (forall item, In item new -> F item == if String.eqb (fst item) k0 then 1 else 0) ->
  Tensor.Qsum (map F new) == 1.
Proof.
  induction new as [|[k i] new IH]; intros Hnd Hin HF; [destruct Hin|].
  cbn [map Tensor.Qsum fold_right]. fold (Tensor.Qsum (map F new)).
  inversion Hnd as [|? ? Hk Hnd']; subst. cbn [map fst] in Hin, Hk.
  rewrite (HF (k, i) (or_introl eq_refl)). cbn [fst].
  destruct (String.eqb_spec k k0) as [-> | Hne].
  - rewrite (Qsum_ext F (fun _ => 0)).
    + rewrite Qsum_zeros. ring.
    + intros item Hitem. rewrite (HF item (or_intror Hitem)).
      destruct (String.eqb_spec (fst item) k0) as [E | _]; [|reflexivity].
      exfalso. apply Hk. rewrite <- E. now apply in_map.
  - rewrite IH; [ring | exact Hnd' | | ].
    + destruct Hin as [E | Hin]; [congruence | exact Hin].
    + intros item Hitem. apply HF. now right.
Qed.

Section CategoricalPlan.

Variable c : category_maps.
Hypothesis Hfiner : finer_categories c.

Let old := old_categories c.
Let new := new_categories c.
Let n := length old.

Lemma source_bin_range (k : string) :
  source_bin old k = (-1)%Z \/ (1 <= source_bin old k <= Z.of_nat n)%Z.
Proof.
  destruct Hfiner as [Hold _]. unfold source_bin.
  destruct (Harmonize.dict_get old k) as [idx|] eqn:E; [right | now left].
  apply dict_get_In in E. exact (proj2 (numbered_values old Hold) k idx E).
Qed.

Lemma categorical_plan_size :
  length (Harmonize.lookup (categorical_plan c)) = new_bins_count c.
Proof.
  destruct Hfiner as [Hold [Hnew _]]. unfold categorical_plan, new_bins_count.
  cbn [Harmonize.lookup]. rewrite (categorical_axis_entries _ _ Hold Hnew).
  cbn [fst length]. rewrite length_app, length_map. simpl. lia.
Qed.

Lemma categorical_plan_simple : simple_axis (old_bins_count c) (categorical_plan c).
Proof.
  destruct Hfiner as [Hold [Hnew _]]. unfold simple_axis, old_bins_count.
  split; [reflexivity|]. unfold categorical_plan. cbn [Harmonize.lookup].
  rewrite (categorical_axis_entries _ _ Hold Hnew). cbn [fst]. fold old n.
  constructor; [apply (normalize_index_nat (n + 2) 0); lia|].
  apply Forall_app. split.
  - apply Forall_forall. intros l Hl. apply in_map_iff in Hl as [[k i] [<- _]].
    cbn [fst]. destruct (source_bin_range k) as [-> | Hr].
    + rewrite normalize_index_last, old_position_last by lia. reflexivity.
    + rewrite <- (Z2Nat.id (source_bin old k)) by lia.
      rewrite normalize_index_nat, old_position_nat by lia. reflexivity.
  - constructor; [|constructor].
    rewrite normalize_index_last, old_position_last by lia. reflexivity.
Qed.

Lemma categorical_plan_unity : unity_axis (old_bins_count c) (categorical_plan c).
Proof.
  destruct Hfiner as [Hold [Hnew Hincl]]. pose proof Hold as [Hok Hperm].
  pose proof Hnew as [Hnk _].
  destruct (numbered_values old Hold) as [Hov Hrange].
  unfold unity_axis, old_bins_count. fold old n. intros o Ho.
  unfold categorical_plan. cbn [Harmonize.lookup Harmonize.percentage].
  rewrite (categorical_axis_entries _ _ Hold Hnew). cbn [fst snd]. fold old new.
  set (L := map (fun item : string * Z => source_bin old (fst item)) new).
  set (P := map (fun item : string * Z =>
                   if (0 <=? source_bin old (fst item))%Z
                   then inject_Z 1 / inject_Z 1 else 0) new).
  assert (HL : length L = length new) by (unfold L; apply length_map).
  assert (HP : length P = length new) by (unfold P; apply length_map).
  rewrite (map_nth_combine
             (fun l p => if (old_position (n + 2) l =? o)%nat then p else 0)
             0%Z 0 (0%Z :: L ++ [(-1)%Z]) (1 :: P ++ [1]))
    by (cbn [length]; rewrite !length_app; simpl; lia).
  assert (E : combine (0%Z :: L ++ [(-1)%Z]) (1 :: P ++ [1])
              = [(0%Z, 1)] ++ combine L P ++ [((-1)%Z, 1)]).
  { cbn [combine app]. rewrite combine_app_same by lia. reflexivity. }
  rewrite E, !map_app, !Qsum_app. clear E.
  unfold L, P. rewrite combine_maps, map_map. cbn [fst snd].
  set (F := fun item : string * Z =>
              if (old_position (n + 2) (source_bin old (fst item)) =? o)%nat
              then if (0 <=? source_bin old (fst item))%Z then inject_Z 1 / inject_Z 1 else 0
              else 0).
  set (mid := Tensor.Qsum (map F new)).
  cbn [map Tensor.Qsum fold_right fst snd].
  rewrite old_position_last by lia. change (old_position (n + 2) 0%Z) with 0%nat.
  unfold mid. clear mid.
  destruct (Nat.eq_dec o 0) as [-> | Ho0];
    [|destruct (Nat.eq_dec o (n + 1)) as [-> | Hon]].
  - replace (n + 2 - 1 =? 0)%nat with false by (symmetry; apply Nat.eqb_neq; lia).
    rewrite (Qsum_ext F (fun _ => 0)); [rewrite Qsum_zeros; simpl; ring|].
    intros [k i] _. unfold F. cbn [fst].
    destruct (source_bin_range k) as [E | Hr].
    + rewrite E. change (0 <=? -1)%Z with false.
      now destruct (old_position (n + 2) (-1) =? 0)%nat.
    + replace (old_position (n + 2) (source_bin old k) =? 0)%nat with false; [reflexivity|].
      symmetry. apply Nat.eqb_neq. unfold old_position.
      destruct (Z.ltb_spec (source_bin old k) 0); lia.
  - replace (0 =? n + 1)%nat with false by (symmetry; apply Nat.eqb_neq; lia).
    replace (n + 2 - 1 =? n + 1)%nat with true by (symmetry; apply Nat.eqb_eq; lia).
    rewrite (Qsum_ext F (fun _ => 0)); [rewrite Qsum_zeros; ring|].
    intros [k i] _. unfold F. cbn [fst].
    destruct (source_bin_range k) as [E | Hr].
    + rewrite E. change (0 <=? -1)%Z with false.
      now destruct (old_position (n + 2) (-1) =? n + 1)%nat.
    + replace (old_position (n + 2) (source_bin old k) =? n + 1)%nat with false;
        [reflexivity|].
      symmetry. apply Nat.eqb_neq. unfold old_position.
      destruct (Z.ltb_spec (source_bin old k) 0); lia.
  - replace (0 =? o)%nat with false by (symmetry; apply Nat.eqb_neq; lia).
    replace (n + 2 - 1 =? o)%nat with false by (symmetry; apply Nat.eqb_neq; lia).
    assert (Hin : In (Z.of_nat o) (map snd old)).
    { apply (Permutation_in _ (Permutation_sym Hperm)). apply in_map. apply in_seq.
      unfold n, old in Ho, Hon. lia. }
    apply in_map_iff in Hin as [[k0 i0] [Ei0 Hin0]]. cbn [snd] in Ei0. subst i0.
    rewrite (single_category new k0 F).
    + ring.
    + exact (strictly_sorted_NoDup _ Hnk).
    + apply Hincl. apply in_map_iff. exists (k0, Z.of_nat o). now split.
    + intros [k i] _. unfold F. cbn [fst]. unfold source_bin.
      destruct (Harmonize.dict_get old k) as [idx|] eqn:E.
      * pose proof (dict_get_In _ _ _ E) as Hk. pose proof (Hrange k idx Hk) as Hr.
        replace (0 <=? idx)%Z with true by (symmetry; apply Z.leb_le; lia).
        unfold old_position.
        destruct (Z.ltb_spec idx 0); [lia|].
        destruct (String.eqb_spec k k0) as [-> | Hne].
        -- rewrite (dict_get_member old k0 (Z.of_nat o) Hok Hin0) in E.
           injection E as <-. rewrite Nat2Z.id, Nat.eqb_refl. reflexivity.
        -- replace (Z.to_nat idx =? o)%nat with false; [reflexivity|].
           symmetry. apply Nat.eqb_neq. intro Eo. apply Hne.
           assert (Eidx : idx = Z.of_nat o) by lia. subst idx.
           clear - Hov Hk Hin0. induction old as [|[k' i'] l IH]; [destruct Hk|].
           cbn [map snd] in Hov. inversion Hov as [|? ? Hnot Hov']; subst.
           destruct Hk as [E | Hk]; destruct Hin0 as [E' | Hin0].
           ++ congruence.
           ++ injection E as -> ->. exfalso. apply Hnot. apply in_map_iff.
              exists (k0, Z.of_nat o). now split.
           ++ injection E' as -> ->. exfalso. apply Hnot. apply in_map_iff.
              exists (k, Z.of_nat o). now split.
           ++ now apply IH.
      * pose proof (dict_get_absent _ _ E) as Habs.
        change (0 <=? -1)%Z with false. cbv iota.
        destruct (old_position (n + 2) (-1) =? o)%nat;
          destruct (String.eqb_spec k k0) as [-> | _]; try reflexivity;
          exfalso; apply Habs; apply in_map_iff; exists (k0, Z.of_nat o); now split.
Qed.

End CategoricalPlan.
Lemma plan_axis_categorical (n_new n_old : nat)
    (new_bounds : option (list (Q * Q))) (new_bins : list (list Harmonize.feature_bins))
    (old_bounds : option (list (Q * Q))) (old_bins : list (list Harmonize.feature_bins))
    (old_mapping : list (list Harmonize.mapping_level)) (feature_idx : Z)
    (c : category_maps) :
  categorical_feature n_new n_old new_bins old_bins old_mapping feature_idx c ->
  Harmonize.plan_axis n_new n_old new_bounds new_bins old_bounds old_bins old_mapping
    feature_idx
  = inr (categorical_plan c).
Proof.
  intros [[ol [Hol Hos]] [[ml [Hml Hms]] [nl [Hnl Hns]]]].
  unfold Harmonize.plan_axis.
  rewrite Hol. cbv beta iota delta [Py.bind]. rewrite Hos. cbv beta iota delta [Py.bind].
  rewrite Hml. cbv beta iota delta [Py.bind]. rewrite Hms. cbv beta iota delta [Py.bind].
  rewrite Hnl. cbv beta iota delta [Py.bind]. rewrite Hns. cbv beta iota delta [Py.bind].
  unfold categorical_plan.
  destruct (Harmonize.categorical_axis (old_categories c) (new_categories c)).
  reflexivity.
Qed.

(** X15.  Harmonizing the weights of a term of categorical features onto
    category maps that have all the old categories: when every old map
    has one category for each of its bins, every new map is alphabetical
    and the features are listed in the same order, [_harmonize_tensor]
    returns a tensor with a bin for the missing values, one for every new
    category and one for the unknown values along each axis, and its sum
    is the sum of the old weights; a category looks up its own old bin,
    and a category the old model lacks looks up the unknown bin. *)
Theorem harmonize_categories
    (feature_idxs : list Z) (maps : list category_maps)
    (new_bounds : option (list (Q * Q))) (new_bins : list (list Harmonize.feature_bins))
    (old_bounds : option (list (Q * Q))) (old_bins : list (list Harmonize.feature_bins))
    (old_mapping : list (list Harmonize.mapping_level))
    (old_tensor : Tensor.t) :
  Forall (fun f => 0 <= f)%Z feature_idxs ->
  Forall2 (categorical_feature (length feature_idxs) (length feature_idxs)
             new_bins old_bins old_mapping) feature_idxs maps ->
  Forall finer_categories maps ->
  Tensor.wf old_tensor ->
  Tensor.shape old_tensor = map old_bins_count maps ->
  (exists new_weights,
     Harmonize._harmonize_tensor feature_idxs new_bounds new_bins feature_idxs
       old_bounds old_bins old_mapping old_tensor None = inr new_weights
     /\ Tensor.shape new_weights = map new_bins_count maps
     /\ Tensor.sum new_weights == Tensor.sum old_tensor)
  /\ Forall2 (fun f c =>
                exists a,
                  Harmonize.plan_axis (length feature_idxs) (length feature_idxs)
                    new_bounds new_bins old_bounds old_bins old_mapping f = inr a
                  /\ Harmonize.lookup a
                     = 0%Z :: map (fun item : string * Z =>
                                     source_bin (old_categories c) (fst item))
                                  (new_categories c) ++ [(-1)%Z])
             feature_idxs maps.
Proof.
  intros Hidx Hfeat Hfiner Hwf Hshape.
  set (plan := Harmonize.plan_axis (length feature_idxs) (length feature_idxs)
                 new_bounds new_bins old_bounds old_bins old_mapping).
  assert (Hplan : Tensor.mapM plan feature_idxs = inr (map categorical_plan maps)).
  { unfold plan. clear - Hfeat. remember (length feature_idxs) as n eqn:En. clear En.
    induction Hfeat as [|f c fs cs Hf _ IH]; [reflexivity|].
    cbn [Tensor.mapM map]. rewrite (plan_axis_categorical _ _ _ _ _ _ _ _ _ Hf).
    cbv beta iota delta [Py.bind]. now rewrite IH. }
  assert (Hsizes : lookup_sizes (map categorical_plan maps) = map new_bins_count maps).
  { unfold lookup_sizes. rewrite map_map. apply map_ext_in. intros c Hc.
    rewrite Forall_forall in Hfiner. now apply categorical_plan_size, Hfiner. }
  split.
  - destruct (harmonize_planned_sum feature_idxs (map categorical_plan maps)
                (map old_bins_count maps) new_bounds new_bins old_bounds old_bins
                old_mapping old_tensor Hidx Hplan) as [new_weights [E [Hs Hsum]]].
    + clear - Hfiner. induction Hfiner as [|c cs Hc _ IH]; cbn [map]; constructor;
        [now apply categorical_plan_simple | exact IH].
    + clear - Hfiner. induction Hfiner as [|c cs Hc _ IH]; cbn [map]; constructor;
        [now apply categorical_plan_unity | exact IH].
    + rewrite Hsizes. apply Forall_forall. intros s Hs.
      apply in_map_iff in Hs as [c [<- _]]. unfold new_bins_count. lia.
    + exact Hwf.
    + exact Hshape.
    + exists new_weights. split; [exact E|]. split; [now rewrite Hs, Hsizes | exact Hsum].
  - unfold plan. clear - Hfeat Hfiner. remember (length feature_idxs) as n eqn:En. clear En.
    induction Hfeat as [|f c fs cs Hf _ IH]; [constructor|].
    inversion Hfiner as [|? ? [Hold [Hnew _]] Hrest]; subst.
    constructor; [|now apply IH].
    exists (categorical_plan c).
    split; [now apply plan_axis_categorical|].
    unfold categorical_plan. cbn [Harmonize.lookup].
    now rewrite (categorical_axis_entries _ _ Hold Hnew).
Qed.

Lemma harmonize_categories_witness :
  (exists new_weights,
     Harmonize._harmonize_tensor [0%Z] None
       [[Harmonize.Categories (new_categories demo_category_maps)]]
       [0%Z] None [[Harmonize.Categories (old_categories demo_category_maps)]] [[None]]
       (Tensor.mk [4%nat] [0; 3; 5; 0]) None = inr new_weights
     /\ Tensor.shape new_weights = map new_bins_count [demo_category_maps]
     /\ Tensor.sum new_weights == Tensor.sum (Tensor.mk [4%nat] [0; 3; 5; 0]))
  /\ Forall2 (fun f c =>
                exists a,
                  Harmonize.plan_axis 1 1 None
                    [[Harmonize.Categories (new_categories demo_category_maps)]]
                    None [[Harmonize.Categories (old_categories demo_category_maps)]]
                    [[None]] f = inr a
                  /\ Harmonize.lookup a
                     = 0%Z :: map (fun item : string * Z =>
                                     source_bin (old_categories c) (fst item))
                                  (new_categories c) ++ [(-1)%Z])
             [0%Z] [demo_category_maps].
Proof.
  apply (harmonize_categories [0%Z] [demo_category_maps] None
           [[Harmonize.Categories (new_categories demo_category_maps)]]
           None [[Harmonize.Categories (old_categories demo_category_maps)]] [[None]]
           (Tensor.mk [4%nat] [0; 3; 5; 0])).
  - repeat constructor. discriminate.
  - constructor; [|constructor].
    split; [|split]; eexists; split; reflexivity.
  - constructor; [|constructor]. split; [|split].
    + split.
      * constructor; [intros [H | []]; discriminate|]. constructor; [intros []|constructor].
      * apply Permutation_refl.
    + split; [|reflexivity].
      constructor; [constructor; [constructor; [constructor | constructor]|]|].
      * repeat constructor.
      * repeat constructor.
    + intros k [<- | [<- | []]]; simpl; auto.
  - reflexivity.
  - reflexivity.
Defined.

(** * What the zero restoration leaves alone *)

Lemma zero_tensor_twice (tensor : Tensor.t) (zero_low zero_high : list bool) :
  Postprocess._zero_tensor (Postprocess._zero_tensor tensor zero_low zero_high)
    zero_low zero_high
  = Postprocess._zero_tensor tensor zero_low zero_high.
Proof.
  unfold Postprocess._zero_tensor, Tensor.cells. cbn [Tensor.shape Tensor.data]. f_equal.
  generalize (Tensor.indices (Tensor.shape tensor)) as idxs.
  generalize (Tensor.data tensor) as data.
  induction data as [|x data IH]; intros [|idx idxs]; cbn [combine map]; try reflexivity.
  rewrite IH. cbn [fst snd].
  now destruct (Postprocess.on_cleared_slice zero_low zero_high (Tensor.shape tensor) idx).
Qed.

Lemma restore_twice (tensors weights : list Tensor.t) :
  Postprocess._restore_missing_value_zeros2
    (Postprocess._restore_missing_value_zeros2 tensors weights) weights
  = Postprocess._restore_missing_value_zeros2 tensors weights.
Proof.
  revert weights. induction tensors as [|t tensors IH]; intros [|w weights]; simpl;
    try reflexivity.
  now rewrite zero_tensor_twice, IH.
Qed.

Lemma zero_tensor_weighted_cell (t w : Tensor.t) (j : nat) :
  Tensor.wf t -> Tensor.wf w -> Tensor.shape t = Tensor.shape w ->
  Forall (fun x => 0 <= x) (Tensor.data w) ->
  0 < nth j (Tensor.data w) 0 ->
  nth j (Tensor.data (Postprocess._zero_tensor t (Postprocess.lower_flags w)
                        (Postprocess.higher_flags w))) 0
  = nth j (Tensor.data t) 0.
Proof.
  intros Hwf Hwfw Hshape Hnn Hpos.
  unfold Postprocess._zero_tensor, Tensor.cells. cbn [Tensor.data].
  set (idxs := Tensor.indices (Tensor.shape t)).
  assert (Hlen : length idxs = length (Tensor.data t))
    by (unfold idxs; rewrite length_indices; symmetry; exact Hwf).
  destruct (Nat.lt_ge_cases j (length (Tensor.data t))) as [Hj | Hj].
  2:{ rewrite !nth_overflow; [reflexivity | lia |].
      rewrite length_map, length_combine. lia. }
  set (F := fun c : list nat * Q =>
              if Postprocess.on_cleared_slice (Postprocess.lower_flags w)
                   (Postprocess.higher_flags w) (Tensor.shape t) (fst c)
              then 0 else snd c).
  rewrite (nth_indep _ 0 (F ([], 0))) by (rewrite length_map, length_combine; lia).
  rewrite (map_nth F), combine_nth by exact Hlen. unfold F. cbn [fst snd].
  destruct (Postprocess.on_cleared_slice _ _ _ (nth j idxs [])) eqn:Hclear; [|reflexivity].
  exfalso.
  assert (Hjw : (j < length (Tensor.data w))%nat).
  { destruct (Nat.lt_ge_cases j (length (Tensor.data w))) as [H | H]; [exact H|].
    rewrite nth_overflow in Hpos by exact H. lra. }
  assert (Hin : In (nth j idxs [], nth j (Tensor.data w) 0) (Tensor.cells w)).
  { unfold Tensor.cells. rewrite <- Hshape. fold idxs.
    rewrite <- (combine_nth idxs (Tensor.data w) j [] 0).
    - apply nth_In. rewrite length_combine. lia.
    - unfold idxs. rewrite length_indices, Hshape. symmetry. exact Hwfw. }
  apply on_cleared_slice_inv in Hclear as [d [[Hf Hi] | [Hf Hi]]].
  - unfold Postprocess.lower_flags in Hf. apply nth_flags in Hf. apply Qeq_bool_eq in Hf.
    pose proof (slice_zero_cells w d 0%nat Hnn Hf _ _ Hin Hi). lra.
  - unfold Postprocess.higher_flags in Hf. apply nth_flags in Hf. apply Qeq_bool_eq in Hf.
    rewrite Hshape in Hi.
    pose proof (slice_zero_cells w d _ Hnn Hf _ _ Hin Hi). lra.
Qed.

(** X16.  The zero restoration only touches cells without weight: for
    well-formed tensors and non-negative bin weights of the same shapes,
    [_restore_missing_value_zeros2] keeps the shape of every tensor and the
    value of every cell whose bin weight is positive, and restoring a
    second time changes nothing. *)
Theorem restore_keeps_weighted_cells (tensors weights : list Tensor.t) :
  Forall2 (fun t w => Tensor.wf t /\ Tensor.wf w /\ Tensor.shape t = Tensor.shape w
                      /\ Forall (fun x => 0 <= x) (Tensor.data w))
          tensors weights ->
  let restored := Postprocess._restore_missing_value_zeros2 tensors weights in
  (forall k t w t',
     nth_error tensors k = Some t -> nth_error weights k = Some w ->
     nth_error restored k = Some t' ->
     Tensor.shape t' = Tensor.shape t
     /\ forall j, 0 < nth j (Tensor.data w) 0 ->
                  nth j (Tensor.data t') 0 = nth j (Tensor.data t) 0)
  /\ Postprocess._restore_missing_value_zeros2 restored weights = restored.
Proof.
  intros H restored. split; [|apply restore_twice].
  intros k t w t' Ht Hw Ht'. unfold restored in Ht'.
  rewrite (restore_nth _ _ _ _ _ Ht Hw) in Ht'. injection Ht' as <-.
  split; [reflexivity|]. intros j Hj.
  assert (Hk : Tensor.wf t /\ Tensor.wf w /\ Tensor.shape t = Tensor.shape w
               /\ Forall (fun x => 0 <= x) (Tensor.data w)).
  { clear - H Ht Hw. revert k Ht Hw.
    induction H as [|t0 w0 ts ws H0 _ IH]; intros [|k] Ht Hw; simpl in *; try discriminate.
    - injection Ht as <-. injection Hw as <-. exact H0.
    - exact (IH k Ht Hw). }
  destruct Hk as [Hwf [Hwfw [Hshape Hnn]]].
  now apply zero_tensor_weighted_cell.
Qed.

Lemma restore_keeps_weighted_cells_witness :
  let restored :=
    Postprocess._restore_missing_value_zeros2
      [Tensor.mk [2; 2]%nat [1; 2; 3; 4]] [Tensor.mk [2; 2]%nat [0; 0; 5; 7]] in
  (forall k t w t',
     nth_error [Tensor.mk [2; 2]%nat [1; 2; 3; 4]] k = Some t ->
     nth_error [Tensor.mk [2; 2]%nat [0; 0; 5; 7]] k = Some w ->
     nth_error restored k = Some t' ->
     Tensor.shape t' = Tensor.shape t
     /\ forall j, 0 < nth j (Tensor.data w) 0 ->
                  nth j (Tensor.data t') 0 = nth j (Tensor.data t) 0)
  /\ Postprocess._restore_missing_value_zeros2 restored
       [Tensor.mk [2; 2]%nat [0; 0; 5; 7]] = restored.
Proof.
  apply (restore_keeps_weighted_cells [Tensor.mk [2; 2]%nat [1; 2; 3; 4]]
           [Tensor.mk [2; 2]%nat [0; 0; 5; 7]]).
  constructor; [|constructor].
  split; [reflexivity|]. split; [reflexivity|]. split; [reflexivity|].
  repeat constructor; discriminate.
Defined.

(** * The boosting loop: streaks and the running minimum *)

Section BoostingRounds.

Context {Booster Model : Type}.
Variable generate_term_update : Booster -> nat -> Booster.
Variable noisy_term_update : Booster -> nat -> Booster.
Variable apply_term_update : Booster -> Booster * Py.pyfloat.
Variable get_current_model : Booster -> Model.
Variable get_best_model : Booster -> Model.
Variable noise_scale : option Py.pyfloat.
Variable n_terms : nat.
Variable early_stopping_rounds : Z.
Variable early_stopping_tolerance : Py.pyfloat.

Local Abbreviation loop_state := (@Boosting.loop_state Booster).
Let round :=
  Boosting.round generate_term_update noisy_term_update apply_term_update
    noise_scale n_terms early_stopping_tolerance.
Let rounds :=
  Boosting.rounds generate_term_update noisy_term_update apply_term_update
    noise_scale n_terms early_stopping_rounds early_stopping_tolerance.
Let boost_terms :=
  Boosting.boost_terms generate_term_update noisy_term_update apply_term_update
    noise_scale.

Lemma not_below_itself (m tol : Py.pyfloat) :
  Py.lt tol (Py.Finite 0) = false -> Py.lt (Py.add m tol) m = false.
Proof.
  destruct m as [x| | |], tol as [y| | |]; simpl; try reflexivity; try discriminate.
  intro H. apply negb_false_iff in H. apply Qle_bool_iff in H.
  apply negb_false_iff. apply Qle_bool_iff. lra.
Qed.

Lemma fresh_round_run_length (episode : nat) (s : loop_state) :
  Py.lt early_stopping_tolerance (Py.Finite 0) = false ->
  Boosting.no_change_run_length s = 0%Z ->
  Boosting.no_change_run_length (round episode s) = 1%Z.
Proof.
  intros Htol Hs. unfold round, Boosting.round.
  destruct (Boosting.boost_terms generate_term_update noisy_term_update
              apply_term_update noise_scale (seq 0 n_terms)
              (Boosting.booster s) (Boosting.min_metric s)) as [b m].
  cbn [Boosting.no_change_run_length]. rewrite Hs. cbn [Z.eqb].
  now rewrite not_below_itself.
Qed.

Lemma fresh_rounds (episodes : list nat) :
  Py.lt early_stopping_tolerance (Py.Finite 0) = false ->
  forall s k sk,
    nth_error (rounds episodes s) k = Some sk ->
    match k with
    | O => Boosting.no_change_run_length s
    | S j => Boosting.run_length_before (rounds episodes s) k
    end = 0%Z ->
    Boosting.no_change_run_length sk = 1%Z.
Proof.
  intro Htol.
  induction episodes as [|e rest IH]; intros s k sk Hk Hentry.
  - destruct k; discriminate.
  - unfold rounds in Hk, Hentry. cbn [Boosting.rounds] in Hk, Hentry.
    fold round in Hk, Hentry. fold rounds in Hk, Hentry.
    destruct (Boosting.should_break early_stopping_rounds (round e s)).
    + destruct k as [|[|k]]; simpl in Hk; try discriminate.
      injection Hk as <-. now apply fresh_round_run_length.
    + destruct k as [|k]; simpl in Hk.
      * injection Hk as <-. now apply fresh_round_run_length.
      * apply (IH (round e s) k sk Hk).
        destruct k as [|k]; simpl in Hentry |- *; exact Hentry.
Qed.

Lemma boost_terms_min (term_idxs : list nat) :
  (forall b, snd (apply_term_update b) <> Py.NaN) ->
  forall b m,
    m <> Py.NaN ->
    snd (boost_terms term_idxs b m) <> Py.NaN
    /\ Py.le (snd (boost_terms term_idxs b m)) m = true.
Proof.
  intro Hnan.
  induction term_idxs as [|i rest IH]; intros b m Hm.
  - split; [exact Hm|]. destruct m as [x| | |]; simpl; try reflexivity; try congruence.
    apply Qle_bool_iff. lra.
  - unfold boost_terms. cbn [Boosting.boost_terms]. fold boost_terms.
    set (b1 := if Boosting.truthy noise_scale
               then noisy_term_update (generate_term_update b i) i
               else generate_term_update b i).
    pose proof (Hnan b1) as Hc.
    destruct (apply_term_update b1) as [b2 c]. cbn [snd] in Hc.
    assert (Hmin : Py.min c m <> Py.NaN /\ Py.le (Py.min c m) m = true).
    { unfold Py.min.
      destruct c as [x| | |], m as [y| | |]; simpl; try congruence;
        try (split; [congruence | reflexivity]);
        try (split; [congruence | apply Qle_bool_iff; lra]).
      destruct (Qle_bool x y) eqn:E; simpl.
      - split; [congruence | exact E].
      - split; [congruence|]. apply Qle_bool_iff. lra. }
    destruct Hmin as [Hn Hle].
    destruct (IH b2 (Py.min c m) Hn) as [Hn' Hle'].
    split; [exact Hn'|].
    revert Hle Hle'. generalize (snd (boost_terms rest b2 (Py.min c m))) as r.
    generalize (Py.min c m) as q. clear.
    intros q r. destruct r as [x| | |], q as [y| | |], m as [z| | |]; simpl;
      try reflexivity; try congruence.
    intros H1 H2. apply Qle_bool_iff in H1, H2. apply Qle_bool_iff. lra.
Qed.

Lemma round_min_metric (episode : nat) (s : loop_state) :
  Boosting.min_metric (round episode s)
  = snd (boost_terms (seq 0 n_terms) (Boosting.booster s) (Boosting.min_metric s)).
Proof.
  unfold round, Boosting.round, boost_terms.
  destruct (Boosting.boost_terms generate_term_update noisy_term_update
              apply_term_update noise_scale (seq 0 n_terms)
              (Boosting.booster s) (Boosting.min_metric s)) as [b m].
  reflexivity.
Qed.

Lemma le_float_trans (a b c : Py.pyfloat) :
  Py.le a b = true -> Py.le b c = true -> Py.le a c = true.
Proof.
  destruct a as [x| | |], b as [y| | |], c as [z| | |]; simpl;
    try reflexivity; try congruence.
  intros H1 H2. apply Qle_bool_iff in H1, H2. apply Qle_bool_iff. lra.
Qed.

Lemma rounds_min_metric (episodes : list nat) :
  (forall b, snd (apply_term_update b) <> Py.NaN) ->
  forall s,
    Boosting.min_metric s <> Py.NaN ->
    forall i j si sj,
      (i <= j)%nat ->
      nth_error (s :: rounds episodes s) i = Some si ->
      nth_error (s :: rounds episodes s) j = Some sj ->
      sj.(Boosting.min_metric) <> Py.NaN
      /\ Py.le (Boosting.min_metric sj) (Boosting.min_metric si) = true.
Proof.
  intro Hnan.
  assert (Hrefl : forall m, m <> Py.NaN -> Py.le m m = true).
  { intros [x| | |] H; simpl; try reflexivity; try congruence.
    apply Qle_bool_iff. lra. }
  induction episodes as [|e rest IH]; intros s Hs i j si sj Hij Hi Hj.
  - destruct j as [|[|j]]; simpl in Hj; try discriminate.
    destruct i as [|i]; [|lia]. simpl in Hi.
    injection Hi as <-. injection Hj as <-. split; [exact Hs | now apply Hrefl].
  - pose proof (boost_terms_min (seq 0 n_terms) Hnan (Boosting.booster s)
                  (Boosting.min_metric s) Hs) as [Hn Hle].
    rewrite <- round_min_metric with (episode := e) in Hn, Hle.
    assert (Htail : forall l,
              (l = [round e s] \/ l = round e s :: rounds rest (round e s)) ->
              forall i j si sj, (i <= j)%nat ->
                nth_error l i = Some si -> nth_error l j = Some sj ->
                Boosting.min_metric sj <> Py.NaN
                /\ Py.le (Boosting.min_metric sj) (Boosting.min_metric si) = true).
    { intros l [-> | ->] i' j' si' sj' Hij' Hi' Hj'.
      - apply (IH (round e s) Hn i' j' si' sj' Hij').
        + destruct i' as [|[|i']]; simpl in Hi' |- *; try discriminate; exact Hi'.
        + destruct j' as [|[|j']]; simpl in Hj' |- *; try discriminate; exact Hj'.
      - now apply (IH (round e s) Hn i' j' si' sj' Hij'). }
    assert (Hl : rounds (e :: rest) s = [round e s]
                 \/ rounds (e :: rest) s = round e s :: rounds rest (round e s)).
    { unfold rounds. cbn [Boosting.rounds]. fold round. fold rounds.
      destruct (Boosting.should_break early_stopping_rounds (round e s)); auto. }
    specialize (Htail _ Hl).
    destruct j as [|j].
    + destruct i as [|i]; [|lia]. simpl in Hi, Hj.
      injection Hi as <-. injection Hj as <-. split; [exact Hs | now apply Hrefl].
    + cbn [nth_error] in Hj.
      destruct i as [|i].
      * simpl in Hi. injection Hi as <-.
        assert (H0 : exists s0, nth_error (rounds (e :: rest) s) 0 = Some s0
                                /\ s0 = round e s).
        { destruct Hl as [-> | ->]; eexists; split; reflexivity. }
        destruct H0 as [s0 [H0 ->]].
        destruct (Htail 0%nat j _ sj ltac:(lia) H0 Hj) as [Hnj Hlej].
        split; [exact Hnj|]. exact (le_float_trans _ _ _ Hlej Hle).
      * cbn [nth_error] in Hi. apply (Htail i j si sj); [lia | exact Hi | exact Hj].
Qed.

(** X17.  A round entered with streak length 0 is never counted as an
    improvement when the tolerance is not negative: it compares the
    running minimum with itself, so it leaves the streak at 1.  Hence
    with [early_stopping_rounds] 0 or 1 and at least one round allowed,
    [cyclic_gradient_boost] runs exactly one round, whatever the metrics
    are, and returns the round index 0. *)
Theorem fresh_streak_never_improves :
  Py.lt early_stopping_tolerance (Py.Finite 0) = false ->
  forall (b : Booster) (bag_is_none : bool) (max_rounds : Z),
    let tr :=
      Boosting.trace generate_term_update noisy_term_update apply_term_update
        b n_terms early_stopping_rounds early_stopping_tolerance max_rounds
        noise_scale in
    (forall k sk,
       nth_error tr k = Some sk ->
       Boosting.run_length_before tr k = 0%Z ->
       Boosting.no_change_run_length sk = 1%Z)
    /\ ((0 <= early_stopping_rounds <= 1)%Z -> (1 <= max_rounds)%Z ->
        length tr = 1%nat
        /\ snd (Boosting.cyclic_gradient_boost generate_term_update
                  noisy_term_update apply_term_update get_current_model
                  get_best_model b bag_is_none n_terms early_stopping_rounds
                  early_stopping_tolerance max_rounds noise_scale) = 0%nat).
Proof.
  intros Htol b bag_is_none max_rounds tr.
  assert (H1 : forall k sk,
            nth_error tr k = Some sk ->
            Boosting.run_length_before tr k = 0%Z ->
            Boosting.no_change_run_length sk = 1%Z).
  { intros k sk Hk Hentry. unfold tr, Boosting.trace in Hk, Hentry.
    fold rounds in Hk, Hentry.
    apply (fresh_rounds _ Htol _ _ _ Hk).
    destruct k; [reflexivity | exact Hentry]. }
  split; [exact H1|].
  intros Hesr Hmax.
  assert (Hlen : length tr = 1%nat).
  { unfold tr, Boosting.trace. fold rounds.
    destruct (Z.to_nat max_rounds) as [|n] eqn:En; [lia|].
    cbn [seq]. unfold rounds. cbn [Boosting.rounds]. fold round. fold rounds.
    assert (Hr : Boosting.no_change_run_length (round 0%nat (Boosting.initial_state b))
                 = 1%Z) by (now apply fresh_round_run_length).
    unfold Boosting.should_break. rewrite Hr.
    replace (early_stopping_rounds >=? 0)%Z with true
      by (symmetry; rewrite Z.geb_leb; apply Z.leb_le; lia).
    replace (1 >=? early_stopping_rounds)%Z with true
      by (symmetry; rewrite Z.geb_leb; apply Z.leb_le; lia).
    reflexivity. }
  split; [exact Hlen|].
  unfold Boosting.cyclic_gradient_boost. cbn [snd]. fold tr.
  destruct tr as [|s0 [|s1 rest]] eqn:Etr; simpl in Hlen; try lia.
  cbn [last].
  assert (He : map Boosting.episode_index tr = [Boosting.episode_index s0])
    by (rewrite Etr; reflexivity).
  unfold tr, Boosting.trace in Etr.
  destruct (Z.to_nat max_rounds) as [|n]; [discriminate|].
  cbn [seq Boosting.rounds] in Etr.
  destruct (Boosting.should_break _ _) in Etr; injection Etr as <-;
    apply (round_episode_index generate_term_update noisy_term_update
             apply_term_update noise_scale n_terms early_stopping_tolerance).
Qed.

(** X18.  When the booster never reports a NaN metric, the running
    minimum [min_metric] never rises: from the initial [+inf] on, its
    value after a later round is at most its value after an earlier one,
    and it is never NaN. *)
Theorem min_metric_never_rises :
  (forall b, snd (apply_term_update b) <> Py.NaN) ->
  forall (b : Booster) (max_rounds : Z) (i j : nat) (si sj : loop_state),
    let tr :=
      Boosting.trace generate_term_update noisy_term_update apply_term_update
        b n_terms early_stopping_rounds early_stopping_tolerance max_rounds
        noise_scale in
    (i <= j)%nat ->
    nth_error tr i = Some si ->
    nth_error tr j = Some sj ->
    Boosting.min_metric sj <> Py.NaN
    /\ Py.le (Boosting.min_metric sj) (Boosting.min_metric si) = true
    /\ Py.le (Boosting.min_metric si) Py.PosInf = true.
Proof.
  intros Hnan b max_rounds i j si sj tr Hij Hi Hj.
  unfold tr, Boosting.trace in Hi, Hj. fold rounds in Hi, Hj.
  assert (H0 : Boosting.min_metric (Boosting.initial_state b) <> Py.NaN)
    by (simpl; congruence).
  destruct (rounds_min_metric _ Hnan _ H0 (S i) (S j) si sj ltac:(lia) Hi Hj)
    as [Hn Hle].
  split; [exact Hn|]. split; [exact Hle|].
  destruct (rounds_min_metric _ Hnan _ H0 0%nat (S i) _ si ltac:(lia) eq_refl Hi)
    as [_ Hle0].
  exact Hle0.
Qed.

End BoostingRounds.

Lemma fresh_streak_never_improves_witness :
  Py.lt (Py.Finite 0) (Py.Finite 0) = false
  /\ length (Boosting.trace (fun b _ => b) (fun b _ => b) demo_apply_term_update
               0%nat 1%nat 1 (Py.Finite 0) 10 None) = 1%nat
  /\ snd (Boosting.cyclic_gradient_boost (fun b _ => b) (fun b _ => b)
            demo_apply_term_update (fun b : nat => b) (fun b : nat => b)
            0%nat true 1%nat 1 (Py.Finite 0) 10 None) = 0%nat.
Proof.
  split; [reflexivity|].
  apply (fresh_streak_never_improves (fun b _ => b) (fun b _ => b)
           demo_apply_term_update (fun b : nat => b) (fun b : nat => b)
           None 1%nat 1 (Py.Finite 0) eq_refl 0%nat true 10); lia.
Defined.

Lemma min_metric_never_rises_witness :
  (forall b, snd (demo_apply_term_update b) <> Py.NaN)
  /\ exists si sj,
       nth_error demo_trace 0 = Some si
       /\ nth_error demo_trace 2 = Some sj
       /\ Boosting.min_metric sj <> Py.NaN
       /\ Py.le (Boosting.min_metric sj) (Boosting.min_metric si) = true
       /\ Py.le (Boosting.min_metric si) Py.PosInf = true.
Proof.
  assert (H : forall b, snd (demo_apply_term_update b) <> Py.NaN)
    by (intro b; simpl; congruence).
  split; [exact H|].
  eexists _, _. split; [vm_compute; reflexivity|]. split; [vm_compute; reflexivity|].
  apply (min_metric_never_rises (fun b _ => b) (fun b _ => b)
           demo_apply_term_update None 1%nat 2 (Py.Finite 0) H 0%nat 10 0%nat 2%nat).
  - lia.
  - vm_compute; reflexivity.
  - vm_compute; reflexivity.
Defined.

(** * The privacy budget of a private fit *)

Lemma fold_max_ge (a : Q) (l : list Q) : a <= fold_right Qmax a l.
Proof.
  induction l as [|x l IH]; simpl; [lra|].
  eapply Qle_trans; [exact IH | apply Q.le_max_r].
Qed.

Lemma fold_min_le (a : Q) (l : list Q) : fold_right Qmin a l <= a.
Proof.
  induction l as [|x l IH]; simpl; [lra|].
  eapply Qle_trans; [apply Q.le_min_r | exact IH].
Qed.

Lemma list_min_le_max (l : list Q) : BaseEBM.list_min l <= BaseEBM.list_max l.
Proof.
  unfold BaseEBM.list_min, BaseEBM.list_max.
  eapply Qle_trans; [apply fold_min_le | apply fold_max_ge].
Qed.

(** X19.  A private fit whose epsilon and delta are positive splits the
    budget without loss: the binning and the training epsilon add up to
    epsilon, the two deltas to delta (floats taken as exact rationals),
    and both epsilons are positive when [bin_budget_frac] lies strictly
    between 0 and 1.  The domain size is not negative, whether it comes
    from a declared target range with [min <= max] or from the observed
    targets, of which there is at least one.  The stages are entered in the order validation, target
    bounds, budget split. *)
Theorem privacy_budget_split {fitted : Type} :
  forall (self : @BaseEBM.estimator fitted) (y : list Q) (log : list BaseEBM.stage)
         (e d f : Q),
    BaseEBM.is_private self = true ->
    BaseEBM.epsilon self = Some (Py.Finite e) ->
    BaseEBM.delta self = Some (Py.Finite d) ->
    BaseEBM.bin_budget_frac self = Py.Finite f ->
    0 < e -> 0 < d -> y <> [] ->
    match BaseEBM.privacy_schema_target self with
    | Some (min_target, max_target) => min_target <= max_target
    | None => True
    end ->
    exists domain_size bin_eps bin_delta training_eps training_delta,
      BaseEBM.privacy_calculations self y log
      = (log ++ [BaseEBM.ValidateEpsDelta; BaseEBM.TargetBounds; BaseEBM.BudgetSplit],
         inr (Some (domain_size,
                    (Py.Finite bin_eps, Py.Finite bin_delta,
                     Py.Finite training_eps, Py.Finite training_delta))))
      /\ 0 <= domain_size
      /\ bin_eps + training_eps == e
      /\ bin_delta + training_delta == d
      /\ (0 < f -> f < 1 -> 0 < bin_eps /\ 0 < training_eps).
Proof.
  intros self y log e d f Hp He Hd Hf Hepos Hdpos Hy Hb.
  assert (Hv : DPUtils.validate_eps_delta (Some (Py.Finite e)) (Some (Py.Finite d))
               = inr tt).
  { unfold DPUtils.validate_eps_delta, DPUtils.invalid_eps_delta. simpl.
    destruct (Qle_bool e 0) eqn:E1; [apply Qle_bool_iff in E1; lra|].
    destruct (Qle_bool d 0) eqn:E2; [apply Qle_bool_iff in E2; lra|].
    reflexivity. }
  unfold BaseEBM.privacy_calculations. rewrite Hp, He, Hd, Hf.
  unfold BaseEBM.mbind, BaseEBM.enter, BaseEBM.lift, BaseEBM.mret. rewrite Hv.
  cbn [Py.ret Py.mul Py.sub Py.neg Py.add Py.half].
  destruct (BaseEBM.privacy_schema_target self) as [[min_target max_target]|].
  - assert (E : Qle_bool min_target max_target = true) by (now apply Qle_bool_iff).
    rewrite E. cbn [negb BaseEBM.mret].
    eexists _, _, _, _, _. split; [rewrite <- !app_assoc; reflexivity|].
    split; [lra|]. split; [ring|]. split; [field|].
    intros H0 H1. split; nra.
  - eexists _, _, _, _, _. split; [rewrite <- !app_assoc; reflexivity|].
    split; [pose proof (list_min_le_max y); lra|]. split; [ring|]. split; [field|].
    intros H0 H1. split; nra.
Qed.

Lemma privacy_budget_split_witness :
  exists domain_size bin_eps bin_delta training_eps training_delta,
    BaseEBM.privacy_calculations
      {| BaseEBM.is_private := true;
         BaseEBM.is_classifier := false;
         BaseEBM.epsilon := Some (Py.Finite 1);
         BaseEBM.delta := Some (Py.Finite (1 # 100000));
         BaseEBM.bin_budget_frac := Py.Finite (1 # 10);
         BaseEBM.privacy_schema_target := Some (0, 10);
         BaseEBM.composition := "gdp";
         BaseEBM.max_bins := 32;
         BaseEBM.learning_rate := 1 # 100;
         BaseEBM.fitted_attributes := @None unit |} [3; 7] []
    = ([] ++ [BaseEBM.ValidateEpsDelta; BaseEBM.TargetBounds; BaseEBM.BudgetSplit],
       inr (Some (domain_size,
                  (Py.Finite bin_eps, Py.Finite bin_delta,
                   Py.Finite training_eps, Py.Finite training_delta))))
    /\ 0 <= domain_size
    /\ bin_eps + training_eps == 1
    /\ bin_delta + training_delta == 1 # 100000
    /\ (0 < 1 # 10 -> 1 # 10 < 1 -> 0 < bin_eps /\ 0 < training_eps).
Proof.
  apply (privacy_budget_split
           {| BaseEBM.is_private := true;
              BaseEBM.is_classifier := false;
              BaseEBM.epsilon := Some (Py.Finite 1);
              BaseEBM.delta := Some (Py.Finite (1 # 100000));
              BaseEBM.bin_budget_frac := Py.Finite (1 # 10);
              BaseEBM.privacy_schema_target := Some (0, 10);
              BaseEBM.composition := "gdp";
              BaseEBM.max_bins := 32;
              BaseEBM.learning_rate := 1 # 100;
              BaseEBM.fitted_attributes := @None unit |} [3; 7] []
           1 (1 # 100000) (1 # 10)); try reflexivity.
  - discriminate.
  - simpl. unfold Qle. simpl. lia.
Defined.

(** * Categorical columns: what [fit] counts is what [transform] codes *)

Section CategoricalColumn.

Import EBMPreprocessorColumns.

Lemma dict_get_set (key : string) (val : Z) (mapping : list (string * Z)) (x : string) :
  Harmonize.dict_get (dict_set key val mapping) x
  = if String.eqb key x then Some val else Harmonize.dict_get mapping x.
Proof.
  unfold Harmonize.dict_get.
  induction mapping as [|[k v] rest IH]; simpl.
  - destruct (String.eqb key x); reflexivity.
  - destruct (String.eqb_spec k key) as [-> | Hne]; simpl.
    + destruct (String.eqb key x); reflexivity.
    + destruct (String.eqb_spec k x) as [-> | Hkx]; simpl.
      * destruct (String.eqb_spec key x) as [-> | _]; [congruence | reflexivity].
      * exact IH.
Qed.

Lemma dict_get_set_all (l : list string) (val : Z) :
  forall (mapping : list (string * Z)) (x : string),
    Harmonize.dict_get (fold_left (fun m v => dict_set v val m) l mapping) x
    = if existsb (String.eqb x) l then Some val else Harmonize.dict_get mapping x.
Proof.
  induction l as [|k l IH]; intros mapping x; simpl; [reflexivity|].
  rewrite IH, dict_get_set. rewrite (String.eqb_sym x k).
  destruct (String.eqb k x); simpl; [|reflexivity].
  destruct (existsb (String.eqb x) l); reflexivity.
Qed.

(** The code [transform] gives a value, with the standard constants. *)
Lemma transform_code (binning : string) (missing_str : missing_repr)
    (mapping : list (string * Z)) (col_data : list string) :
  EBMPreprocessor.mentions_private binning = false ->
  fst (transform_categorical binning missing_str mapping initial_constants col_data)
  = map (fun x => if isin missing_str x then 0%Z
                  else dict_get_default mapping x (-1)%Z) col_data.
Proof.
  intro Hb. unfold transform_categorical. rewrite Hb. cbn [fst].
  apply map_ext. intro x. unfold dict_get_default.
  destruct missing_str as [s | l]; cbn [isin missing_constant unknown_constant
                                        initial_constants].
  - rewrite dict_get_set, (String.eqb_sym x s). now destruct (String.eqb s x).
  - rewrite dict_get_set_all. now destruct (existsb (String.eqb x) l).
Qed.

Lemma enumerate_In (vals : list string) (x : string) (i : Z) :
  In (x, i) (enumerate_from_one vals)
  <-> exists k, nth_error vals k = Some x /\ i = (Z.of_nat k + 1)%Z.
Proof.
  unfold enumerate_from_one.
  assert (G : forall start,
            In (x, i) (combine vals (map (fun indx => (Z.of_nat indx + 1)%Z)
                                        (seq start (length vals))))
            <-> exists k, nth_error vals k = Some x
                          /\ i = (Z.of_nat (start + k) + 1)%Z).
  { induction vals as [|v vals IH]; intro start; simpl.
    - split; [intros [] | intros [[|k] [H _]]; discriminate].
    - rewrite IH. split.
      + intros [E | [k [Hk Hi]]].
        * injection E as -> <-. exists 0%nat. split; [reflexivity|].
          now rewrite Nat.add_0_r.
        * exists (S k). split; [exact Hk|]. rewrite Hi. f_equal. lia.
      + intros [[|k] [Hk Hi]]; simpl in Hk.
        * left. injection Hk as ->. rewrite Hi, Nat.add_0_r. reflexivity.
        * right. exists k. split; [exact Hk|]. rewrite Hi. f_equal. lia. }
  exact (G 0%nat).
Qed.

Lemma enumerate_keys (vals : list string) :
  map fst (enumerate_from_one vals) = vals.
Proof.
  unfold enumerate_from_one. apply combine_fst. now rewrite length_map, length_seq.
Qed.

(** The code of a value that is not missing: its rank among [vals], from
    1, or -1 when it is not among them. *)
Lemma enumerate_get (vals : list string) (x : string) :
  NoDup vals ->
  (forall k, nth_error vals k = Some x ->
     dict_get_default (enumerate_from_one vals) x (-1) = (Z.of_nat k + 1)%Z)
  /\ (~ In x vals -> dict_get_default (enumerate_from_one vals) x (-1) = (-1)%Z).
Proof.
  intro Hnd. unfold dict_get_default. split.
  - intros k Hk.
    rewrite (dict_get_member (enumerate_from_one vals) x (Z.of_nat k + 1)%Z);
      [reflexivity | now rewrite enumerate_keys |].
    apply enumerate_In. now exists k.
  - intro Hx.
    destruct (Harmonize.dict_get (enumerate_from_one vals) x) as [i|] eqn:E;
      [|reflexivity].
    apply dict_get_In in E. exfalso. apply Hx.
    rewrite <- (enumerate_keys vals). apply in_map_iff. now exists (x, i).
Qed.

Lemma filter_mask {A} (f : A -> bool) (g : A -> Z) (keep : bool) (l : list A) :
  map snd (filter (fun p : bool * Z => if keep then fst p else negb (fst p))
             (combine (map f l) (map g l)))
  = map g (filter (fun a => if keep then f a else negb (f a)) l).
Proof.
  induction l as [|a l IH]; simpl; [reflexivity|].
  destruct keep; destruct (f a); simpl; now rewrite IH.
Qed.

Lemma count_occ_filter (f : string -> bool) (col_data : list string) (x : string) :
  count_occ string_dec (filter f col_data) x
  = if f x then count_occ string_dec col_data x else 0%nat.
Proof.
  induction col_data as [|y l IH]; simpl; [now destruct (f x)|].
  destruct (f y) eqn:Ey; simpl; destruct (string_dec y x) as [-> | Hne].
  - rewrite Ey, IH, Ey. reflexivity.
  - exact IH.
  - rewrite Ey in IH |- *. exact IH.
  - exact IH.
Qed.

(** Counting a column value by value, over distinct values that cover
    it, counts every row once. *)
Lemma count_by_value (vals : list string) :
  NoDup vals ->
  forall col_data,
    incl col_data vals ->
    Zsum (map (fun val => Z.of_nat (count_occ string_dec col_data val)) vals)
    = Z.of_nat (length col_data).
Proof.
  induction 1 as [|v vals Hv Hnd IH]; intros col_data Hincl.
  - destruct col_data as [|x l]; [reflexivity|]. destruct (Hincl x (or_introl eq_refl)).
  - cbn [map Zsum fold_right].
    fold (Zsum (map (fun val => Z.of_nat (count_occ string_dec col_data val)) vals)).
    set (rest := filter (fun x => negb (String.eqb x v)) col_data).
    assert (Hrest : incl rest vals).
    { intros x Hx. unfold rest in Hx. apply filter_In in Hx as [Hx Hne].
      destruct (Hincl x Hx) as [<- | H]; [|exact H].
      now rewrite String.eqb_refl in Hne. }
    assert (Hsame : map (fun val => Z.of_nat (count_occ string_dec col_data val)) vals
                    = map (fun val => Z.of_nat (count_occ string_dec rest val)) vals).
    { apply map_ext_in. intros val Hval. unfold rest. rewrite count_occ_filter.
      destruct (String.eqb_spec val v) as [-> | _]; [contradiction | reflexivity]. }
    rewrite Hsame, (IH rest Hrest). unfold rest. clear.
    induction col_data as [|y l IHl]; [reflexivity|].
    cbn [count_occ filter length].
    destruct (string_dec y v) as [-> | Hne].
    + rewrite String.eqb_refl. cbn [negb]. lia.
    + destruct (String.eqb_spec y v) as [-> | _]; [congruence|]. cbn [negb length]. lia.
Qed.

Lemma count_occ_codes (code : string -> Z) (c : Z) (col_data : list string) :
  count_occ Z.eq_dec (map code col_data) c
  = length (filter (fun x => (code x =? c)%Z) col_data).
Proof.
  induction col_data as [|y l IH]; [reflexivity|]. cbn [map count_occ filter].
  destruct (Z.eq_dec (code y) c) as [E | E].
  - rewrite (proj2 (Z.eqb_eq _ _) E). simpl. now rewrite IH.
  - rewrite (proj2 (Z.eqb_neq _ _) E). exact IH.
Qed.

Lemma length_filter_ext {A} (f g : A -> bool) (l : list A) :
  (forall a, In a l -> f a = g a) -> length (filter f l) = length (filter g l).
Proof.
  intro H. induction l as [|a l IH]; [reflexivity|]. simpl.
  rewrite (H a (or_introl eq_refl)).
  assert (E : length (filter f l) = length (filter g l))
    by (apply IH; intros b Hb; apply H; now right).
  destruct (g a); simpl; now rewrite E.
Qed.

Lemma count_occ_length (col_data : list string) (v : string) :
  count_occ string_dec col_data v
  = length (filter (fun x => String.eqb x v) col_data).
Proof.
  induction col_data as [|y l IH]; [reflexivity|]. cbn [count_occ filter].
  destruct (string_dec y v) as [-> | Hne].
  - rewrite String.eqb_refl. simpl. now rewrite IH.
  - destruct (String.eqb_spec y v) as [-> | _]; [congruence | exact IH].
Qed.

Lemma Zsum_nonmissing (f : string -> bool) (col_data vals : list string) :
  NoDup vals -> incl col_data vals ->
  Zsum (map (fun val => Z.of_nat (count_occ string_dec col_data val)) (filter f vals))
  = Z.of_nat (length (filter f col_data)).
Proof.
  intros Hnd Hincl.
  rewrite <- (count_by_value (filter f vals) (NoDup_filter f Hnd) (filter f col_data)).
  - f_equal. apply map_ext_in. intros val Hval. rewrite count_occ_filter.
    apply filter_In in Hval as [_ ->]. reflexivity.
  - intros x Hx. apply filter_In in Hx as [Hx Hf]. apply filter_In.
    split; [now apply Hincl | exact Hf].
Qed.

(** X20.  On a categorical column and a binning that does not mention
    "private", [fit] succeeds, and what it counts is what [transform]
    then codes: bin 0 counts the rows with a missing value, bin [k >= 1]
    the rows of the [k]-th distinct value that is not missing, in
    ascending order.  On the fitted column itself [transform] gives every
    row the code of a counted bin, never the unknown code -1; bin
    [k] holds as many rows as have code [k], and the bin counts add up
    to the number of rows. *)
Theorem categorical_counts_match_codes :
  forall (binning : string) (missing_str : missing_repr) (col_data : list string),
    EBMPreprocessor.mentions_private binning = false ->
    exists bin_counts mapping,
      fit_categorical binning missing_str col_data = inr (bin_counts, mapping)
      /\ let codes :=
           fst (transform_categorical binning missing_str mapping initial_constants
                  col_data) in
         length codes = length col_data
         /\ Forall (fun c => (0 <= c < Z.of_nat (length bin_counts))%Z) codes
         /\ (forall k, (k < length bin_counts)%nat ->
               nth k bin_counts 0%Z
               = Z.of_nat (count_occ Z.eq_dec codes (Z.of_nat k)))
         /\ Zsum bin_counts = Z.of_nat (length col_data).
Proof.
  intros binning missing_str col_data Hb.
  assert (Hnp : String.eqb binning "private" = false).
  { destruct (String.eqb_spec binning "private") as [-> | _]; [|reflexivity].
    discriminate Hb. }
  unfold fit_categorical. rewrite Hnp.
  set (U := DPUtils.unique col_data).
  set (V := filter (fun val => negb (isin missing_str val)) U).
  destruct (unique_spec col_data) as [Hsorted Hmem]. fold U in Hsorted, Hmem.
  assert (HndU : NoDup U) by (now apply strictly_sorted_NoDup).
  assert (HndV : NoDup V) by (now apply NoDup_filter).
  assert (Hincl : incl col_data U) by (intros x Hx; now apply Hmem).
  unfold unique_counts.
  pose proof (filter_mask (isin missing_str)
                (fun val => Z.of_nat (count_occ string_dec col_data val)) true U) as Hm.
  pose proof (filter_mask (isin missing_str)
                (fun val => Z.of_nat (count_occ string_dec col_data val)) false U) as Hk.
  cbn beta iota in Hm, Hk.
  change (fun a : string => isin missing_str a) with (isin missing_str) in Hm.
  rewrite Hm, Hk. fold V.
  eexists _, _. split; [reflexivity|]. cbv zeta.
  rewrite (transform_code binning missing_str _ col_data Hb).
  set (code := fun x => if isin missing_str x then 0%Z
                        else dict_get_default (enumerate_from_one V) x (-1)%Z).
  assert (Hcode : forall x, In x col_data ->
            (isin missing_str x = true /\ code x = 0%Z)
            \/ (isin missing_str x = false
                /\ exists k, nth_error V k = Some x /\ code x = (Z.of_nat k + 1)%Z)).
  { intros x Hx. unfold code. destruct (isin missing_str x) eqn:E; [now left|].
    right. split; [reflexivity|].
    assert (HxV : In x V).
    { apply filter_In. split; [now apply Hincl | now rewrite E]. }
    destruct (In_nth_error _ _ HxV) as [k Hk'].
    exists k. split; [exact Hk'|].
    exact (proj1 (enumerate_get V x HndV) k Hk'). }
  cbn [length]. rewrite !length_map.
  split; [reflexivity|]. split; [|split].
  - apply Forall_forall. intros c Hc. apply in_map_iff in Hc as [x [<- Hx]].
    destruct (Hcode x Hx) as [[_ ->] | [_ [k [Hk' ->]]]]; [lia|].
    assert (k < length V)%nat by (apply nth_error_Some; congruence). lia.
  - intros k Hlt. rewrite count_occ_codes. destruct k as [|k]; cbn [nth].
    + rewrite (Zsum_nonmissing (isin missing_str) col_data U HndU Hincl).
      f_equal. apply length_filter_ext. intros x Hx.
      destruct (Hcode x Hx) as [[-> ->] | [-> [j [_ ->]]]]; [reflexivity|].
      symmetry. apply Z.eqb_neq. lia.
    + assert (Hk' : (k < length V)%nat) by lia.
      destruct (nth_error V k) as [v|] eqn:Ev;
        [|apply nth_error_None in Ev; lia].
      erewrite nth_indep by (rewrite length_map; exact Hk').
      rewrite (map_nth (fun val => Z.of_nat (count_occ string_dec col_data val))).
      rewrite (nth_error_nth V k EmptyString Ev).
      f_equal. rewrite count_occ_length. apply length_filter_ext. intros x Hx.
      destruct (Hcode x Hx) as [[Hmiss ->] | [Hmiss [j [Hj ->]]]].
      * destruct (String.eqb_spec x v) as [-> | _].
        -- exfalso. apply nth_error_In in Ev. apply filter_In in Ev as [_ Ev].
           rewrite Hmiss in Ev. discriminate.
        -- symmetry. apply Z.eqb_neq. lia.
      * destruct (String.eqb_spec x v) as [-> | Hne].
        -- assert (j = k) by (apply (proj1 (NoDup_nth_error V) HndV);
                               [apply nth_error_Some; congruence | congruence]).
           subst j. symmetry. apply Z.eqb_eq. lia.
        -- symmetry. apply Z.eqb_neq. intro E.
           assert (j = k) by lia. subst j. congruence.
  - cbn [Zsum fold_right].
    fold (Zsum (map (fun val => Z.of_nat (count_occ string_dec col_data val)) V)).
    rewrite (Zsum_nonmissing (isin missing_str) col_data U HndU Hincl).
    unfold V.
    rewrite (Zsum_nonmissing (fun val => negb (isin missing_str val)) col_data U HndU
               Hincl).
    clear. induction col_data as [|x l IH]; [reflexivity|]. cbn [filter length].
    destruct (isin missing_str x); cbn [negb length]; lia.
Qed.

Lemma sorted_filter {A} (R : A -> A -> Prop) (f : A -> bool) (l : list A) :
  StronglySorted R l -> StronglySorted R (filter f l).
Proof.
  induction 1 as [|a l Hs IH Ha]; simpl; [constructor|].
  destruct (f a); [|exact IH]. constructor; [exact IH|].
  apply Forall_forall. intros b Hb. apply filter_In in Hb as [Hb _].
  rewrite Forall_forall in Ha. now apply Ha.
Qed.

Lemma sorted_nth_error {A} (R : A -> A -> Prop) (l : list A) :
  StronglySorted R l ->
  forall j k a b, (j < k)%nat -> nth_error l j = Some a -> nth_error l k = Some b ->
                  R a b.
Proof.
  induction 1 as [|x l Hs IH Hx]; intros j k a b Hjk Hj Hk.
  - destruct j; discriminate.
  - destruct k as [|k]; [lia|]. simpl in Hk. destruct j as [|j]; simpl in Hj.
    + injection Hj as <-. rewrite Forall_forall in Hx. apply Hx.
      now apply nth_error_In in Hk.
    + apply (IH j k); [lia | exact Hj | exact Hk].
Qed.

(** X21.  The code book of a categorical column, for a binning that
    does not mention "private": [transform] gives a missing value the
    code 0, a value that the fitted column held the code of its bin,
    from 1 up to the number of distinct values that are not missing, and
    any other value the code -1.  The codes follow the ascending order of
    the values. *)
Theorem categorical_code_book :
  forall (binning : string) (missing_str : missing_repr)
         (fitted_data col_data : list string)
         (bin_counts : list Z) (mapping : list (string * Z)),
    EBMPreprocessor.mentions_private binning = false ->
    fit_categorical binning missing_str fitted_data = inr (bin_counts, mapping) ->
    let code x :=
      hd 0%Z (fst (transform_categorical binning missing_str mapping
                     initial_constants [x])) in
    fst (transform_categorical binning missing_str mapping initial_constants col_data)
    = map code col_data
    /\ (forall x, isin missing_str x = true -> code x = 0%Z)
    /\ (forall x, isin missing_str x = false -> In x fitted_data ->
          (1 <= code x < Z.of_nat (length bin_counts))%Z)
    /\ (forall x, isin missing_str x = false -> ~ In x fitted_data ->
          code x = (-1)%Z)
    /\ (forall x y, isin missing_str x = false -> isin missing_str y = false ->
          In x fitted_data -> In y fitted_data ->
          ((code x < code y)%Z <-> String.compare x y = Lt)).
Proof.
  intros binning missing_str fitted_data col_data bin_counts mapping Hb Hfit code.
  assert (Hnp : String.eqb binning "private" = false).
  { destruct (String.eqb_spec binning "private") as [-> | _]; [|reflexivity].
    discriminate Hb. }
  unfold fit_categorical in Hfit. rewrite Hnp in Hfit.
  set (U := DPUtils.unique fitted_data) in Hfit.
  set (V := filter (fun val => negb (isin missing_str val)) U) in Hfit.
  destruct (unique_spec fitted_data) as [Hsorted Hmem]. fold U in Hsorted, Hmem.
  assert (HsV : StronglySorted (fun a b => String.compare a b = Lt) V)
    by (now apply sorted_filter).
  assert (HndV : NoDup V) by (now apply strictly_sorted_NoDup).
  unfold unique_counts in Hfit.
  pose proof (filter_mask (isin missing_str)
                (fun val => Z.of_nat (count_occ string_dec fitted_data val)) false U)
    as Hk.
  cbn beta iota in Hk. rewrite Hk in Hfit. fold V in Hfit.
  injection Hfit as <- <-.
  assert (Hcode : forall x,
            code x = if isin missing_str x then 0%Z
                     else dict_get_default (enumerate_from_one V) x (-1)%Z).
  { intro x. unfold code. now rewrite (transform_code binning missing_str _ [x] Hb). }
  assert (Hrank : forall x, isin missing_str x = false -> In x fitted_data ->
            exists k, nth_error V k = Some x /\ code x = (Z.of_nat k + 1)%Z).
  { intros x Hx Hin.
    assert (HxV : In x V).
    { apply filter_In. split; [now apply Hmem | now rewrite Hx]. }
    destruct (In_nth_error _ _ HxV) as [k Hk'].
    exists k. split; [exact Hk'|]. rewrite Hcode, Hx.
    exact (proj1 (enumerate_get V x HndV) k Hk'). }
  split; [|split; [|split; [|split]]].
  - rewrite (transform_code binning missing_str _ col_data Hb).
    apply map_ext. intro x. now rewrite Hcode.
  - intros x Hx. now rewrite Hcode, Hx.
  - intros x Hx Hin. destruct (Hrank x Hx Hin) as [k [Hk' ->]].
    cbn [length]. rewrite length_map.
    assert (k < length V)%nat by (apply nth_error_Some; congruence). lia.
  - intros x Hx Hnin. rewrite Hcode, Hx.
    apply (proj2 (enumerate_get V x HndV)).
    intro HxV. apply filter_In in HxV as [HxU _]. apply Hnin. now apply Hmem.
  - intros x y Hx Hy Hinx Hiny.
    destruct (Hrank x Hx Hinx) as [j [Hj ->]].
    destruct (Hrank y Hy Hiny) as [k [Hk' ->]].
    split.
    + intro Hlt. apply (sorted_nth_error _ V HsV j k); [lia | exact Hj | exact Hk'].
    + intro Hxy.
      destruct (Nat.lt_trichotomy j k) as [Hlt | [-> | Hgt]]; [lia | |].
      * assert (x = y) by congruence. subst y.
        pose proof (String.compare_antisym x x) as H. rewrite Hxy in H.
        discriminate H.
      * pose proof (sorted_nth_error _ V HsV k j y x Hgt Hk' Hj) as Hyx.
        rewrite String.compare_antisym, Hyx in Hxy. discriminate.
Qed.

End CategoricalColumn.

Lemma categorical_counts_match_codes_witness :
  exists bin_counts mapping,
    EBMPreprocessorColumns.fit_categorical "quantile"
      (EBMPreprocessorColumns.MissingStr "nan") ["b"; "nan"; "a"; "b"]%string
    = inr (bin_counts, mapping)
    /\ length (fst (EBMPreprocessorColumns.transform_categorical "quantile"
                      (EBMPreprocessorColumns.MissingStr "nan") mapping
                      EBMPreprocessorColumns.initial_constants
                      ["b"; "nan"; "a"; "b"]%string)) = 4%nat
    /\ Forall (fun c => (0 <= c < Z.of_nat (length bin_counts))%Z)
         (fst (EBMPreprocessorColumns.transform_categorical "quantile"
                 (EBMPreprocessorColumns.MissingStr "nan") mapping
                 EBMPreprocessorColumns.initial_constants
                 ["b"; "nan"; "a"; "b"]%string))
    /\ (forall k, (k < length bin_counts)%nat ->
          nth k bin_counts 0%Z
          = Z.of_nat (count_occ Z.eq_dec
                        (fst (EBMPreprocessorColumns.transform_categorical "quantile"
                                (EBMPreprocessorColumns.MissingStr "nan") mapping
                                EBMPreprocessorColumns.initial_constants
                                ["b"; "nan"; "a"; "b"]%string))
                        (Z.of_nat k)))
    /\ EBMPreprocessorColumns.Zsum bin_counts = 4%Z.
Proof.
  exact (categorical_counts_match_codes "quantile"
           (EBMPreprocessorColumns.MissingStr "nan") ["b"; "nan"; "a"; "b"]%string
           eq_refl).
Defined.

Lemma categorical_code_book_witness :
  EBMPreprocessorColumns.fit_categorical "quantile"
    (EBMPreprocessorColumns.MissingStr "nan") ["b"; "nan"; "a"; "b"]%string
  = inr ([1; 1; 2]%Z, [("a", 1); ("b", 2)]%string%Z)
  /\ fst (EBMPreprocessorColumns.transform_categorical "quantile"
            (EBMPreprocessorColumns.MissingStr "nan") [("a", 1); ("b", 2)]%string%Z
            EBMPreprocessorColumns.initial_constants ["b"; "z"; "nan"]%string)
     = map (fun x =>
              hd 0%Z (fst (EBMPreprocessorColumns.transform_categorical "quantile"
                             (EBMPreprocessorColumns.MissingStr "nan")
                             [("a", 1); ("b", 2)]%string%Z
                             EBMPreprocessorColumns.initial_constants [x])))
           ["b"; "z"; "nan"]%string.
Proof.
  split; [reflexivity|].
  exact (proj1 (categorical_code_book "quantile"
                  (EBMPreprocessorColumns.MissingStr "nan")
                  ["b"; "nan"; "a"; "b"]%string ["b"; "z"; "nan"]%string
                  [1; 1; 2]%Z [("a", 1); ("b", 2)]%string%Z eq_refl eq_refl)).
Defined.

(** * Private categorical binning: what happens to the weight *)

Lemma DP_Qsum_split (f : Q -> bool) (l : list Q) :
  DPUtils.Qsum (filter f l) + DPUtils.Qsum (filter (fun w => negb (f w)) l)
  == DPUtils.Qsum l.
Proof.
  induction l as [|w l IH]; simpl; [reflexivity|].
  destruct (f w); simpl; rewrite <- IH; ring.
Qed.

Lemma filter_combine_snd {A} (f : Q -> bool) (keys : list A) (ws : list Q) :
  length keys = length ws ->
  map snd (filter (fun p : A * Q => f (snd p)) (combine keys ws)) = filter f ws.
Proof.
  revert ws. induction keys as [|k keys IH]; intros [|w ws] Hlen; simpl in *;
    try reflexivity; try discriminate.
  destruct (f w); simpl; f_equal; apply IH; lia.
Qed.

Lemma delete_at_sum (i : nat) (l : list Q) :
  (i < length l)%nat ->
  DPUtils.Qsum (DPUtils.delete_at i l) + nth i l 0 == DPUtils.Qsum l.
Proof.
  revert i. induction l as [|w l IH]; intros i Hi; [simpl in Hi; lia|].
  destruct i as [|i].
  - unfold DPUtils.delete_at. cbn [firstn skipn app nth DPUtils.Qsum fold_right].
    fold (DPUtils.Qsum l). ring.
  - simpl in Hi. specialize (IH i ltac:(lia)).
    unfold DPUtils.delete_at in *.
    change (skipn (S (S i)) (w :: l)) with (skipn (S i) l).
    change (firstn (S i) (w :: l)) with (w :: firstn i l).
    cbn [app nth DPUtils.Qsum fold_right].
    unfold DPUtils.Qsum in IH. lra.
Qed.

Lemma delete_at_incl {A} (i : nat) (l : list A) (a : A) :
  In a (DPUtils.delete_at i l) -> In a l.
Proof.
  unfold DPUtils.delete_at. intro H.
  rewrite <- (firstn_skipn i l). apply in_app_or in H as [H | H].
  - apply in_or_app. now left.
  - apply in_or_app. right.
    rewrite <- (firstn_skipn 1 (skipn i l)), skipn_skipn.
    apply in_or_app. now right.
Qed.

Lemma floor_sum (t : Q) (l : list Q) :
  Forall (fun w => t <= w) l ->
  inject_Z (Z.of_nat (length l)) * t <= DPUtils.Qsum l.
Proof.
  induction 1 as [|w l Hw _ IH].
  - cbn [length DPUtils.Qsum fold_right Z.of_nat]. change (inject_Z 0) with 0. lra.
  - cbn [length DPUtils.Qsum fold_right]. fold (DPUtils.Qsum l).
    rewrite Nat2Z.inj_succ. unfold Z.succ. rewrite inject_Z_plus.
    change (inject_Z 1) with 1. lra.
Qed.

(** The four ways [private_categorical_binning] ends. *)
Lemma private_categorical_binning_cases
    (col_data : list string) (sample_weight : option (list Q)) (noise : nat -> Q)
    (max_bins : Z) (uniq_vals : list string) (weights : list Q) :
  DPUtils.private_categorical_binning col_data sample_weight noise max_bins
  = inr (uniq_vals, weights) ->
  let target_weight :=
    DPUtils.sample_weight_total col_data sample_weight / inject_Z max_bins in
  let noisy :=
    DPUtils.noisy_weights
      (DPUtils.bincount (DPUtils.unique col_data) col_data
         match sample_weight with
         | Some ws => ws
         | None => map (fun _ => 1) col_data
         end) noise in
  max_bins <> 0%Z
  /\ (forall v, In v uniq_vals -> In v col_data \/ v = "DPOther"%string)
  /\ ((DPUtils.Qsum weights == DPUtils.Qsum noisy
       /\ Forall (fun w => target_weight <= w) weights)
      \/ (weights = [target_weight] /\ DPUtils.Qsum noisy < target_weight)).
Proof.
  intros Hrun target noisy.
  unfold DPUtils.private_categorical_binning in Hrun.
  set (ws := match sample_weight with
             | Some ws => ws
             | None => map (fun _ => 1) col_data
             end) in *.
  assert (Hws :
    match sample_weight with
    | None => Some (map (fun _ => 1) col_data)
    | Some ws0 => if (length ws0 =? length col_data)%nat then Some ws0 else None
    end = Some ws
    \/ match sample_weight with
       | None => Some (map (fun _ => 1) col_data)
       | Some ws0 => if (length ws0 =? length col_data)%nat then Some ws0 else None
       end = None).
  { unfold ws. destruct sample_weight as [ws0|]; [|now left].
    destruct (length ws0 =? length col_data)%nat; [now left | now right]. }
  destruct Hws as [Hws | Hws]; rewrite Hws in Hrun; [|discriminate].
  destruct (Z.eqb_spec max_bins 0) as [E | Hmax]; [discriminate|].
  split; [exact Hmax|].
  fold target in Hrun. fold noisy in Hrun.
  assert (Hmem : forall v, In v (DPUtils.unique col_data) -> In v col_data)
    by (intros v Hv; now apply unique_spec).
  assert (Hlen_noisy : length (DPUtils.unique col_data) = length noisy).
  { unfold noisy. rewrite noisy_weights_length. unfold DPUtils.bincount.
    now rewrite length_map. }
  cbv beta zeta in Hrun.
  set (is_small := fun w : Q => DPUtils.Qltb w target) in *.
  destruct (existsb is_small noisy) eqn:Hex.
  - set (kept := filter (fun p : string * Q => negb (DPUtils.Qltb (snd p) target))
                        (combine (DPUtils.unique col_data) noisy)) in *.
    set (other := DPUtils.Qsum (filter is_small noisy)) in *.
    assert (Hkept_ws : map snd kept = filter (fun w => negb (is_small w)) noisy).
    { unfold kept.
      exact (filter_combine_snd (fun w => negb (is_small w)) _ _ Hlen_noisy). }
    assert (Hkept : Forall (fun w => target <= w) (map snd kept)).
    { rewrite Hkept_ws. apply Forall_forall. intros w Hw.
      apply filter_In in Hw as [_ Hw]. apply negb_true_iff in Hw.
      now apply Qltb_false_le. }
    assert (Hkeys : forall v, In v (map fst kept) -> In v col_data).
    { intros v Hv. apply in_map_iff in Hv as [[u w] [<- Hp]].
      apply filter_In in Hp as [Hp _]. apply Hmem.
      exact (in_combine_l _ _ u w Hp). }
    assert (Hsum : DPUtils.Qsum (map snd kept) + other == DPUtils.Qsum noisy).
    { rewrite Hkept_ws. unfold other. rewrite Qplus_comm. apply DP_Qsum_split. }
    destruct (DPUtils.Qltb other target) eqn:Hsmall.
    + destruct (length (map snd kept ++ [other]) =? 1)%nat eqn:Hone.
      * injection Hrun as <- <-. split.
        -- intros v Hv. apply in_app_or in Hv as [Hv | [<- | []]];
             [left; now apply Hkeys | now right].
        -- right. split; [reflexivity|].
           apply Nat.eqb_eq in Hone. rewrite length_app in Hone. simpl in Hone.
           destruct (map snd kept) as [|w l] eqn:Ek; [|simpl in Hone; lia].
           simpl in Hsum. apply Qltb_true_lt in Hsmall. lra.
      * apply Nat.eqb_neq in Hone. rewrite length_app, length_map in Hone.
        simpl in Hone.
        assert (Hne : map snd kept <> []).
        { intro E. apply (f_equal (@length Q)) in E. rewrite length_map in E.
          simpl in E. lia. }
        rewrite removelast_last in Hrun.
        pose proof (argmin_bound (map snd kept) Hne) as Hc.
        set (c := DPUtils.argmin (map snd kept)) in *.
        rewrite add_to_last_snoc in Hrun.
        rewrite !delete_at_app in Hrun by (rewrite ?length_map in *; exact Hc).
        injection Hrun as <- <-. split.
        -- intros v Hv. apply in_app_or in Hv as [Hv | [<- | []]]; [left | now right].
           apply Hkeys. exact (delete_at_incl _ _ _ Hv).
        -- left. rewrite app_nth1 by exact Hc.
           assert (Hfloor : target <= nth c (map snd kept) 0).
           { rewrite Forall_forall in Hkept. apply Hkept. now apply nth_In. }
           assert (Hother : 0 <= other).
           { apply DP_Qsum_nonneg. apply Forall_forall. intros w Hw.
             apply filter_In in Hw as [Hw _].
             pose proof (noisy_weights_nonneg
                           (DPUtils.bincount (DPUtils.unique col_data) col_data ws)
                           noise) as Hnn.
             rewrite Forall_forall in Hnn. now apply Hnn. }
           split.
           ++ rewrite DP_Qsum_app. simpl.
              pose proof (delete_at_sum c (map snd kept) Hc). lra.
           ++ apply Forall_app. split; [now apply delete_at_Forall|].
              constructor; [lra | constructor].
    + injection Hrun as <- <-. split.
      * intros v Hv. apply in_app_or in Hv as [Hv | [<- | []]];
          [left; now apply Hkeys | now right].
      * left. split.
        -- rewrite DP_Qsum_app. simpl. lra.
        -- apply Forall_app. split; [exact Hkept|].
           constructor; [now apply Qltb_false_le | constructor].
  - injection Hrun as <- <-. split.
    + intros v Hv. left. now apply Hmem.
    + left. split; [reflexivity|].
      apply Forall_forall. intros w Hw. apply Qltb_false_le.
      destruct (DPUtils.Qltb w target) eqn:E; [|reflexivity].
      assert (existsb is_small noisy = true)
        by (apply existsb_exists; now exists w).
      congruence.
Qed.

(** X22.  [private_categorical_binning] neither invents categories nor
    loses weight: every category it returns is a value of the column or
    "DPOther", and the returned weights add up to the total of the noisy,
    clipped weights, except when everything collapses into one bin below
    the target, whose weight is then raised to the target.  Hence, when
    the total sample weight is positive and the noisy total does not
    exceed it, at most [max_bins] categories are returned. *)
Theorem private_categorical_binning_conserves :
  forall (col_data : list string) (sample_weight : option (list Q))
         (noise : nat -> Q) (max_bins : Z)
         (uniq_vals : list string) (weights : list Q),
    DPUtils.private_categorical_binning col_data sample_weight noise max_bins
    = inr (uniq_vals, weights) ->
    let total := DPUtils.sample_weight_total col_data sample_weight in
    let target_weight := total / inject_Z max_bins in
    let noisy :=
      DPUtils.noisy_weights
        (DPUtils.bincount (DPUtils.unique col_data) col_data
           match sample_weight with
           | Some ws => ws
           | None => map (fun _ => 1) col_data
           end) noise in
    (forall v, In v uniq_vals -> In v col_data \/ v = "DPOther"%string)
    /\ (DPUtils.Qsum weights == DPUtils.Qsum noisy
        \/ (weights = [target_weight] /\ DPUtils.Qsum noisy < target_weight))
    /\ ((1 <= max_bins)%Z -> 0 < total -> DPUtils.Qsum noisy <= total ->
        (Z.of_nat (length weights) <= max_bins)%Z).
Proof.
  intros col_data sample_weight noise max_bins uniq_vals weights Hrun total target noisy.
  destruct (private_categorical_binning_cases _ _ _ _ _ _ Hrun)
    as [Hmax [Hvals Hcases]].
  fold total in Hcases. fold target in Hcases. fold noisy in Hcases.
  split; [exact Hvals|]. split.
  - destruct Hcases as [[Hsum _] | Hclamp]; [now left | now right].
  - intros Hbins Htotal Hnoisy.
    destruct Hcases as [[Hsum Hfloor] | [-> _]]; [|simpl; lia].
    pose proof (floor_sum target weights Hfloor) as Hn.
    assert (Hm : 0 < inject_Z max_bins).
    { change 0 with (inject_Z 0). rewrite <- Zlt_Qlt. lia. }
    assert (Ht : 0 < target).
    { unfold target. apply Qlt_shift_div_l; [exact Hm | lra]. }
    assert (Htot : total == target * inject_Z max_bins).
    { unfold target. field. lra. }
    assert (Hle : inject_Z (Z.of_nat (length weights)) * target
                  <= inject_Z max_bins * target) by lra.
    apply Qmult_le_r in Hle; [|exact Ht].
    rewrite Zle_Qle. exact Hle.
Qed.

Lemma private_categorical_binning_conserves_witness :
  DPUtils.private_categorical_binning demo_categories None (fun _ => 0) 3
  = inr (["a"; "DPOther"]%string, [3; 3])
  /\ (forall v, In v ["a"; "DPOther"]%string ->
        In v demo_categories \/ v = "DPOther"%string)
  /\ (DPUtils.Qsum [3; 3]
      == DPUtils.Qsum
           (DPUtils.noisy_weights
              (DPUtils.bincount (DPUtils.unique demo_categories) demo_categories
                 (map (fun _ => 1) demo_categories)) (fun _ => 0))
      \/ ([3; 3] = [DPUtils.sample_weight_total demo_categories None / inject_Z 3]
          /\ DPUtils.Qsum
               (DPUtils.noisy_weights
                  (DPUtils.bincount (DPUtils.unique demo_categories) demo_categories
                     (map (fun _ => 1) demo_categories)) (fun _ => 0))
             < DPUtils.sample_weight_total demo_categories None / inject_Z 3))
  /\ (Z.of_nat (length [3; 3]) <= 3)%Z.
Proof.
  split; [vm_compute; reflexivity|].
  destruct (private_categorical_binning_conserves demo_categories None
              (fun _ => 0) 3 ["a"; "DPOther"]%string [3; 3] eq_refl)
    as [Hvals [Hsum Hcount]].
  split; [exact Hvals|]. split; [exact Hsum|].
  apply Hcount; [lia | reflexivity | vm_compute; discriminate].
Defined.

(** * The sizes [make_bag] asks for *)

Section MakeBagSizes.

Context {Target RandomState Bag : Type}.
Variable Target_eq_dec : forall a b : Target, {a = b} + {a <> b}.
Variable stratified_sampling_without_replacement :
  RandomState -> Z -> Z -> Z -> list Target -> Bag.
Variable sample_without_replacement : RandomState -> Z -> Z -> Bag.

Lemma n_unique_le (y : list Target) :
  (Bagging.n_unique Target_eq_dec y <= Z.of_nat (length y))%Z.
Proof.
  unfold Bagging.n_unique. apply inj_le.
  apply NoDup_incl_length; [apply NoDup_nodup|].
  intros a Ha. now apply nodup_In in Ha.
Qed.

Lemma n_unique_pos (y : list Target) :
  y <> [] -> (1 <= Bagging.n_unique Target_eq_dec y)%Z.
Proof.
  intro Hy. unfold Bagging.n_unique.
  destruct y as [|a y]; [congruence|].
  assert (Hin : In a (nodup Target_eq_dec (a :: y))) by (apply nodup_In; now left).
  destruct (nodup Target_eq_dec (a :: y)); [destruct Hin | simpl; lia].
Qed.

(** X23.  For a positive [test_size] that is a fraction below 1 or a
    whole number, [make_bag] asks the native sampler for a training and a
    validation set that together have exactly [len(y)] samples.  For
    classification the validation set has at least as many samples as
    there are classes.  For a fraction below 1 neither size is negative,
    and the validation set is not empty when there are samples.  A whole
    [test_size] above [len(y)] is passed on unchecked, leaving a negative
    training size in regression. *)
Theorem make_bag_sizes :
  forall (y : list Target) (test_size : Q) (random_state : RandomState)
         (is_classification : bool),
    0 < test_size ->
    test_size < 1 \/ test_size == inject_Z (Qfloor test_size) ->
    exists n_train_samples n_test_samples : Z,
      Bagging.make_bag Target_eq_dec stratified_sampling_without_replacement
        sample_without_replacement y test_size random_state is_classification
      = inr (Some (if is_classification
                   then stratified_sampling_without_replacement random_state
                          (Bagging.n_unique Target_eq_dec y)
                          n_train_samples n_test_samples y
                   else sample_without_replacement random_state
                          n_train_samples n_test_samples))
      /\ (n_train_samples + n_test_samples = Z.of_nat (length y))%Z
      /\ (is_classification = true ->
          (Bagging.n_unique Target_eq_dec y <= n_test_samples)%Z)
      /\ (test_size < 1 ->
          (0 <= n_train_samples)%Z /\ (0 <= n_test_samples)%Z
          /\ (y <> [] -> (1 <= n_test_samples)%Z))
      /\ (is_classification = false -> 1 <= test_size ->
          inject_Z n_test_samples == test_size
          /\ (inject_Z (Z.of_nat (length y)) < test_size ->
              (n_train_samples < 0)%Z)).
Proof.
  intros y test_size random_state is_classification Hpos Hshape.
  unfold Bagging.make_bag.
  assert (E0 : Qeq_bool test_size 0 = false).
  { destruct (Qeq_bool test_size 0) eqn:E; [|reflexivity].
    apply Qeq_bool_eq in E. lra. }
  assert (E1 : DPUtils.Qltb 0 test_size = true).
  { unfold DPUtils.Qltb. apply negb_true_iff.
    destruct (Qle_bool test_size 0) eqn:E; [|reflexivity].
    apply Qle_bool_iff in E. lra. }
  rewrite E0, E1.
  set (n := Z.of_nat (length y)).
  pose proof (n_unique_le y) as Hu. fold n in Hu.
  assert (Hn : (0 <= n)%Z) by (unfold n; lia).
  destruct (Qle_bool 1 test_size) eqn:E2.
  - apply Qle_bool_iff in E2.
    destruct Hshape as [Hlt | Hwhole]; [lra|].
    assert (E3 : Qeq_bool (test_size - inject_Z (Qfloor test_size)) 0 = true).
    { apply Qeq_bool_iff. lra. }
    rewrite E3. cbn [negb Py.bind Py.ret].
    set (k := Qfloor test_size) in *.
    destruct is_classification.
    + destruct (Z.ltb_spec k (Bagging.n_unique Target_eq_dec y)) as [Hk | Hk].
      * eexists _, _. split; [reflexivity|]. split; [lia|]. split; [lia|].
        split; [intro; lra|]. intro; discriminate.
      * eexists _, _. split; [reflexivity|]. split; [lia|]. split; [lia|].
        split; [intro; lra|]. intro; discriminate.
    + eexists _, _. split; [reflexivity|]. split; [lia|].
      split; [intro; discriminate|]. split; [intro; lra|].
      intros _ _. split; [lra|]. intro Hbig.
      assert (inject_Z n < inject_Z k) by lra.
      rewrite <- Zlt_Qlt in H. lia.
  - assert (Hlt : test_size < 1).
    { destruct (Qlt_le_dec test_size 1) as [H | H]; [exact H|].
      apply Qle_bool_iff in H. congruence. }
    cbn [Py.bind Py.ret].
    set (c := Qceiling (inject_Z n * test_size)).
    assert (Hc0 : (0 <= c)%Z).
    { assert (inject_Z 0 <= inject_Z c).
      { eapply Qle_trans; [|apply Qle_ceiling].
        change (inject_Z 0) with 0. apply Qmult_le_0_compat; [|lra].
        change 0 with (inject_Z 0). rewrite <- Zle_Qle. exact Hn. }
      now rewrite <- Zle_Qle in H. }
    assert (Hcn : (c <= n)%Z).
    { pose proof (Qceiling_lt (inject_Z n * test_size)) as H. fold c in H.
      assert (Hle : inject_Z n * test_size <= inject_Z n).
      { assert (0 <= inject_Z n)
          by (change 0 with (inject_Z 0); rewrite <- Zle_Qle; exact Hn).
        nra. }
      assert (inject_Z (c - 1) < inject_Z n) by lra.
      rewrite <- Zlt_Qlt in H0. lia. }
    assert (Hc1 : y <> [] -> (1 <= c)%Z).
    { intro Hy.
      assert (Hn1 : (1 <= n)%Z) by (unfold n; destruct y; [congruence | simpl; lia]).
      assert (0 < inject_Z n * test_size).
      { assert (1 <= inject_Z n)
          by (change 1 with (inject_Z 1); rewrite <- Zle_Qle; exact Hn1).
        nra. }
      assert (inject_Z 0 < inject_Z c).
      { change (inject_Z 0) with 0. eapply Qlt_le_trans; [exact H|].
        apply Qle_ceiling. }
      rewrite <- Zlt_Qlt in H0. lia. }
    destruct is_classification.
    + destruct (Z.ltb_spec c (Bagging.n_unique Target_eq_dec y)) as [Hk | Hk].
      * eexists _, _. split; [reflexivity|]. split; [lia|]. split; [lia|].
        split; [|intro; discriminate].
        intros _. split; [lia|]. split; [lia|]. intro Hy. specialize (Hc1 Hy). lia.
      * eexists _, _. split; [reflexivity|]. split; [lia|]. split; [lia|].
        split; [|intro; discriminate].
        intros _. split; [lia|]. split; [lia|]. exact Hc1.
    + eexists _, _. split; [reflexivity|]. split; [lia|].
      split; [intro; discriminate|]. split; [|intros _ H; lra].
      intros _. split; [lia|]. split; [lia|]. exact Hc1.
Qed.

End MakeBagSizes.

Lemma make_bag_sizes_witness :
  0 < 15 # 100
  /\ exists n_train_samples n_test_samples : Z,
       Bagging.make_bag Z.eq_dec
         (fun (_ : unit) (n_classes n_train n_test : Z) (_ : list Z) =>
            (n_classes, n_train, n_test))
         (fun (_ : unit) (n_train n_test : Z) => (0%Z, n_train, n_test))
         [0; 1; 1; 0; 1; 0; 0]%Z (15 # 100) tt true
       = inr (Some (2%Z, n_train_samples, n_test_samples))
       /\ (n_train_samples + n_test_samples = 7)%Z
       /\ (2 <= n_test_samples)%Z.
Proof.
  split; [reflexivity|].
  destruct (make_bag_sizes Z.eq_dec
              (fun (_ : unit) (n_classes n_train n_test : Z) (_ : list Z) =>
                 (n_classes, n_train, n_test))
              (fun (_ : unit) (n_train n_test : Z) => (0%Z, n_train, n_test))
              [0; 1; 1; 0; 1; 0; 0]%Z (15 # 100) tt true eq_refl
              (or_introl eq_refl))
    as [n_train [n_test [Hrun [Hsum [Hcls _]]]]].
  exists n_train, n_test. split; [exact Hrun|]. split; [exact Hsum|].
  exact (Hcls eq_refl).
Defined.

(** * Predictions follow the decision function *)

Lemma argmax_from_spec (l : list Q) :
  forall (pre : list Q) (best_idx : nat) (best : Q),
    nth_error pre best_idx = Some best ->
    (forall j w, nth_error pre j = Some w -> w <= best) ->
    (forall j w, (j < best_idx)%nat -> nth_error pre j = Some w -> w < best) ->
    let k := Predict.argmax_from best_idx best (length pre) l in
    exists v,
      nth_error (pre ++ l) k = Some v
      /\ (forall j w, nth_error (pre ++ l) j = Some w -> w <= v)
      /\ (forall j w, (j < k)%nat -> nth_error (pre ++ l) j = Some w -> w < v).
Proof.
  induction l as [|x l IH]; intros pre best_idx best Hb Hmax Hfirst k.
  - unfold k. simpl. rewrite app_nil_r. exists best. auto.
  - unfold k. cbn [Predict.argmax_from].
    assert (Hpre : pre ++ x :: l = (pre ++ [x]) ++ l) by (now rewrite <- app_assoc).
    assert (Hlen : S (length pre) = length (pre ++ [x]))
      by (rewrite length_app; simpl; lia).
    assert (Hsplit : forall j w, nth_error (pre ++ [x]) j = Some w ->
              ((j < length pre)%nat /\ nth_error pre j = Some w)
              \/ (j = length pre /\ w = x)).
    { intros j w Hj. destruct (Nat.lt_ge_cases j (length pre)) as [H | H].
      - left. split; [exact H|]. now rewrite nth_error_app1 in Hj.
      - right. rewrite nth_error_app2 in Hj by exact H.
        destruct (j - length pre)%nat as [|[|d]] eqn:E; simpl in Hj; try discriminate.
        split; [lia | congruence]. }
    destruct (DPUtils.Qltb best x) eqn:E.
    + apply Qltb_true_lt in E.
      pose proof (IH (pre ++ [x]) (length pre) x) as H.
      cbv zeta in H. rewrite <- Hlen, <- Hpre in H. apply H.
      * rewrite nth_error_app2 by lia. now rewrite Nat.sub_diag.
      * intros j w Hj. destruct (Hsplit j w Hj) as [[_ Hj'] | [_ ->]]; [|lra].
        specialize (Hmax j w Hj'). lra.
      * intros j w Hlt Hj. destruct (Hsplit j w Hj) as [[_ Hj'] | [-> _]]; [|lia].
        specialize (Hmax j w Hj'). lra.
    + apply Qltb_false_le in E.
      pose proof (IH (pre ++ [x]) best_idx best) as H.
      cbv zeta in H. rewrite <- Hlen, <- Hpre in H. apply H.
      * rewrite nth_error_app1; [exact Hb|]. apply nth_error_Some. congruence.
      * intros j w Hj. destruct (Hsplit j w Hj) as [[_ Hj'] | [_ ->]];
          [now apply (Hmax j) | exact E].
      * intros j w Hlt Hj. destruct (Hsplit j w Hj) as [[_ Hj'] | [-> _]].
        -- now apply (Hfirst j).
        -- assert (best_idx < length pre)%nat by (apply nth_error_Some; congruence).
           lia.
Qed.

Lemma argmax_spec (row : list Q) (k : nat) :
  Predict.argmax row = inr k ->
  exists v,
    nth_error row k = Some v
    /\ (forall j w, nth_error row j = Some w -> w <= v)
    /\ (forall j w, (j < k)%nat -> nth_error row j = Some w -> w < v).
Proof.
  destruct row as [|x l]; [discriminate|]. intro H. injection H as <-.
  apply (argmax_from_spec l [x] 0%nat x).
  - reflexivity.
  - intros [|[|j]] w Hj; simpl in Hj; try discriminate. injection Hj as <-. lra.
  - intros j w Hj. lia.
Qed.

Lemma mapM_nth {A B} (f : A -> Py.result B) (l : list A) (out : list B) :
  Tensor.mapM f l = inr out ->
  forall i a, nth_error l i = Some a ->
              exists b, nth_error out i = Some b /\ f a = inr b.
Proof.
  revert out. induction l as [|x l IH]; intros out H i a Hi.
  - destruct i; discriminate.
  - cbn [Tensor.mapM] in H. unfold Py.bind in H.
    destruct (f x) as [e | y] eqn:Ex; [discriminate|].
    destruct (Tensor.mapM f l) as [e | ys] eqn:El; [discriminate|].
    injection H as <-.
    destruct i as [|i]; simpl in Hi |- *.
    + injection Hi as <-. now exists y.
    + exact (IH ys eq_refl i a Hi).
Qed.

Section PredictFollowsScores.

Context {raw_X Attributes Label : Type}.
Variable clean_X : raw_X -> Py.result (raw_X * Z).
Variable ebm_decision_function : raw_X -> Z -> Attributes -> Py.result Predict.scores.

Let decision_function :=
  @Predict.decision_function raw_X Attributes Label clean_X ebm_decision_function.
Let predict := @Predict.predict raw_X Attributes Label clean_X ebm_decision_function.

(** X24.  [predict] labels every sample from the scores
    [decision_function] returns for the same input.  For a score vector
    (binary classification) with at least two classes, the label is
    [classes_[1]] when the score is above 0 and [classes_[0]] otherwise,
    a score of exactly 0 included.  For a score matrix the label is the
    class of the first greatest score of the row.  When
    [decision_function] raises, [predict] raises the same exception. *)
Theorem predict_follows_decision_function :
  forall (self : Predict.classifier) (X : raw_X),
    (forall log_odds c0 c1 rest,
       decision_function self X = inr (Predict.Vector log_odds) ->
       Predict.classes_ self = c0 :: c1 :: rest ->
       predict self X
       = inr (map (fun x => if DPUtils.Qltb 0 x then c1 else c0) log_odds))
    /\ (forall rows labels,
          decision_function self X = inr (Predict.Matrix rows) ->
          predict self X = inr labels ->
          forall i row, nth_error rows i = Some row ->
            exists label k v,
              nth_error labels i = Some label
              /\ nth_error (Predict.classes_ self) k = Some label
              /\ nth_error row k = Some v
              /\ (forall j w, nth_error row j = Some w -> w <= v)
              /\ (forall j w, (j < k)%nat -> nth_error row j = Some w -> w < v))
    /\ (forall e, decision_function self X = inl e -> predict self X = inl e).
Proof.
  intros self X.
  unfold decision_function, predict, Predict.decision_function, Predict.predict.
  unfold Py.bind.
  destruct (Predict.check_is_fitted self) as [e0 | []].
  { split; [intros; discriminate|]. split; [intros; discriminate|].
    intros e H. unfold Py.raise in *. congruence. }
  destruct (clean_X X) as [e1 | [X' n_samples]].
  { split; [intros; discriminate|]. split; [intros; discriminate|].
    intros e H. unfold Py.raise in *. congruence. }
  destruct (n_samples <=? 0)%Z.
  { split; [intros; discriminate|]. split; [intros; discriminate|].
    intros e H. unfold Py.raise in *. congruence. }
  destruct (ebm_decision_function X' n_samples (Predict.fitted_attributes_ self))
    as [e2 | s].
  { split; [intros; discriminate|]. split; [intros; discriminate|].
    intros e H. unfold Py.raise in *. congruence. }
  split; [|split; [|intros; discriminate]].
  - intros log_odds c0 c1 rest H Hc. injection H as ->.
    cbn [Predict.with_zeros]. rewrite Hc. clear.
    induction log_odds as [|x l IH]; [reflexivity|].
    cbn [map Tensor.mapM Predict.argmax Predict.argmax_from]. unfold Py.bind, Py.ret.
    cbn [map Tensor.mapM] in IH. unfold Py.bind in IH.
    destruct (Tensor.mapM Predict.argmax (map (fun x0 => [0; x0]) l)) as [e | idxs];
      [discriminate|].
    cbn [Tensor.mapM]. unfold Py.bind, Py.ret.
    destruct (Tensor.mapM _ idxs) as [e | labels]; [discriminate|].
    injection IH as ->.
    destruct (DPUtils.Qltb 0 x); reflexivity.
  - intros rows labels H Hp i row Hi. injection H as ->.
    cbn [Predict.with_zeros] in Hp.
    destruct (Tensor.mapM Predict.argmax rows) as [e | idxs] eqn:Hidx; [discriminate|].
    destruct (mapM_nth _ _ _ Hidx i row Hi) as [k [Hk Hrow]].
    destruct (mapM_nth _ _ _ Hp i k Hk) as [label [Hl Hcls]].
    destruct (argmax_spec row k Hrow) as [v [Hv [Hmax Hfirst]]].
    exists label, k, v. split; [exact Hl|]. split.
    + destruct (nth_error (Predict.classes_ self) k) as [c|]; [|discriminate].
      now injection Hcls as ->.
    + split; [exact Hv|]. split; [exact Hmax | exact Hfirst].
Qed.

End PredictFollowsScores.

Lemma predict_follows_decision_function_witness :
  Predict.predict (fun X : list Q => inr (X, 3%Z))
    (fun (X : list Q) (_ : Z) (_ : unit) => inr (Predict.Vector X))
    {| Predict.has_fitted_ := true;
       Predict.classes_ := ["no"; "yes"]%string;
       Predict.fitted_attributes_ := tt |}
    [-1; 0; 2]
  = inr ["no"; "no"; "yes"]%string.
Proof.
  exact (proj1 (predict_follows_decision_function
                  (fun X : list Q => inr (X, 3%Z))
                  (fun (X : list Q) (_ : Z) (_ : unit) => inr (Predict.Vector X))
                  {| Predict.has_fitted_ := true;
                     Predict.classes_ := ["no"; "yes"]%string;
                     Predict.fitted_attributes_ := tt |}
                  [-1; 0; 2])
           [-1; 0; 2] "no"%string "yes"%string [] eq_refl eq_refl).
Defined.

(** * The proportional tensor *)

Lemma Qprod_app (l1 l2 : list Q) :
  Harmonize.Qprod (l1 ++ l2) == Harmonize.Qprod l1 * Harmonize.Qprod l2.
Proof.
  unfold Harmonize.Qprod.
  induction l1 as [|x l1 IH]; simpl; [ring|]. rewrite IH. ring.
Qed.

Lemma Qprod_rev (l : list Q) : Harmonize.Qprod (rev l) == Harmonize.Qprod l.
Proof.
  induction l as [|x l IH]; simpl; [reflexivity|].
  rewrite Qprod_app, IH. unfold Harmonize.Qprod. simpl. ring.
Qed.

Lemma fold_cell_step (reversed : list (list Q)) :
  forall (frac : Q) (cell_idx : nat),
    fst (fold_left Proportional.cell_step reversed (frac, cell_idx))
    == frac * digits_product reversed cell_idx.
Proof.
  unfold digits_product.
  induction reversed as [|p rest IH]; intros frac cell_idx.
  - simpl. unfold Harmonize.Qprod. simpl. ring.
  - cbn [fold_left map Harmonize.decompose combine].
    unfold Proportional.cell_step at 2. cbn [fst snd].
    rewrite IH. unfold Harmonize.Qprod. cbn [fold_right fst snd]. ring.
Qed.

Lemma digits_product_sum (reversed : list (list Q)) :
  Forall (fun p => p <> []) reversed ->
  Tensor.Qsum (map (digits_product reversed)
                   (seq 0 (Tensor.prod (map (@length Q) reversed))))
  == Harmonize.Qprod (map Tensor.Qsum reversed).
Proof.
  induction 1 as [|p rest Hp _ IH].
  - unfold digits_product, Harmonize.Qprod. simpl. ring.
  - cbn [map Tensor.prod fold_right].
    fold (Tensor.prod (map (@length Q) rest)).
    assert (HL : (0 < length p)%nat) by (destruct p; [congruence | simpl; lia]).
    rewrite (Qsum_ext _
               (fun c => (fun i q => nth i p 0 * digits_product rest q)
                           (c mod length p)%nat (c / length p)%nat)).
    2:{ intros c _. unfold digits_product.
        cbn [map Harmonize.decompose combine]. unfold Harmonize.Qprod.
        cbn [fold_right fst snd]. reflexivity. }
    rewrite (Qsum_divmod (fun i q => nth i p 0 * digits_product rest q) (length p) HL).
    rewrite (Qsum_ext _ (fun q => digits_product rest q * Tensor.Qsum p)).
    2:{ intros q _. cbv beta.
        rewrite (Qsum_map_scale (fun i => nth i p 0) (digits_product rest q)).
        rewrite map_nth_seq. ring. }
    rewrite (Qsum_map_scale (digits_product rest) (Tensor.Qsum p)).
    rewrite IH. unfold Harmonize.Qprod. cbn [fold_right]. ring.
Qed.

Lemma Qsum_normalized (weights : list Q) :
  ~ Tensor.Qsum weights == 0 ->
  Tensor.Qsum (map (fun w => w / Tensor.Qsum weights) weights) == 1.
Proof.
  intro H. unfold Qdiv.
  rewrite (Qsum_scale (/ Tensor.Qsum weights) weights). field. exact H.
Qed.

Section ProportionalTensor.

Variable geometric_mean : list Q -> Q.

(** X25.  For at least one axis and positive axis sums,
    [_create_proportional_tensor] returns a tensor with one axis per
    weight vector, of its length, whose cell at a multi-index holds the
    geometric mean of the axis sums times, for every axis, the weight of
    the cell's bin divided by the axis sum; the last axis varies fastest
    in memory.  The cells add up to the geometric mean. *)
Theorem proportional_tensor_cells :
  forall axis_weights : list (list Q),
    axis_weights <> [] ->
    Forall (fun weights => 0 < Tensor.Qsum weights) axis_weights ->
    let total_weight := geometric_mean (map Tensor.Qsum axis_weights) in
    exists tensor,
      Proportional._create_proportional_tensor geometric_mean axis_weights
      = inr tensor
      /\ Tensor.shape tensor = map (@length Q) axis_weights
      /\ Tensor.wf tensor
      /\ (forall idx,
            Forall2 lt idx (Tensor.shape tensor) ->
            exists v,
              Tensor.get tensor (map Z.of_nat idx) = inr v
              /\ v == total_weight * proportion axis_weights idx)
      /\ Tensor.sum tensor == total_weight.
Proof.
  intros axis_weights Hne Hpos. cbv zeta.
  unfold Proportional._create_proportional_tensor.
  assert (E : existsb (fun axis_sum => Qle_bool axis_sum 0)
                (map Tensor.Qsum axis_weights) = false).
  { destruct (existsb _ _) eqn:E; [|reflexivity].
    apply existsb_exists in E as [s [Hs Hle]]. apply in_map_iff in Hs as [w [<- Hw]].
    rewrite Forall_forall in Hpos. specialize (Hpos w Hw).
    apply Qle_bool_iff in Hle. lra. }
  rewrite E.
  destruct (map Tensor.Qsum axis_weights) as [|s0 sums] eqn:Esums.
  { destruct axis_weights; [congruence | discriminate]. }
  rewrite <- Esums. clear Esums.
  set (total := geometric_mean (map Tensor.Qsum axis_weights)).
  set (P := map (fun weights => map (fun w => w / Tensor.Qsum weights) weights)
                axis_weights).
  assert (Hsizes : map (@length Q) P = map (@length Q) axis_weights).
  { unfold P. rewrite map_map. apply map_ext. intro w. apply length_map. }
  eexists. split; [reflexivity|]. cbn [Tensor.shape].
  split; [exact Hsizes|]. split.
  { unfold Tensor.wf. cbn [Tensor.data Tensor.shape].
    now rewrite length_map, length_seq. }
  assert (Hrsizes : map (@length Q) (rev P) = rev (map (@length Q) axis_weights))
    by (now rewrite map_rev, Hsizes).
  split.
  - intros idx Hidx. rewrite Hsizes in Hidx.
    unfold Tensor.get. cbn [Tensor.shape Tensor.data]. rewrite Hsizes.
    pose proof (Forall2_lt_rev _ _ Hidx) as Hrev.
    pose proof (flat_index_offset_rev _ _ Hrev) as Hflat.
    rewrite !rev_involutive in Hflat. rewrite Hflat. cbn [Py.bind].
    set (c := offset_rev (rev (map (@length Q) axis_weights)) (rev idx)).
    pose proof (offset_rev_bound _ _ Hrev) as Hc. fold c in Hc.
    rewrite prod_rev in Hc.
    rewrite nth_error_map, nth_error_seq.
    destruct (Nat.ltb_spec c (Tensor.prod (map (@length Q) axis_weights)))
      as [_ | Hge]; [|lia].
    cbn [option_map Nat.add]. eexists. split; [reflexivity|].
    unfold Proportional.cell_value. rewrite fold_cell_step.
    unfold digits_product. rewrite Hrsizes. unfold c.
    rewrite (decompose_offset _ _ Hrev).
    assert (Hlen : length P = length idx).
    { apply Forall2_length in Hidx. rewrite length_map in Hidx.
      unfold P. rewrite length_map. lia. }
    rewrite (combine_rev P idx Hlen), map_rev, Qprod_rev.
    assert (Hsame : Harmonize.Qprod
                      (map (fun p : list Q * nat => nth (snd p) (fst p) 0)
                           (combine P idx))
                    == proportion axis_weights idx).
    { unfold proportion, P. clear - Hidx.
      remember (map (@length Q) axis_weights) as sizes eqn:Es.
      revert axis_weights Es.
      induction Hidx as [|i n idx sizes Hi _ IH]; intros axis_weights Es.
      - destruct axis_weights; [reflexivity | discriminate].
      - destruct axis_weights as [|w ws]; [discriminate|].
        simpl in Es. injection Es as -> Es.
        cbn [map combine]. unfold Harmonize.Qprod. cbn [fold_right fst snd].
        fold (Harmonize.Qprod
                (map (fun p : list Q * nat => nth (snd p) (fst p) 0)
                     (combine (map (fun weights =>
                                      map (fun w0 => w0 / Tensor.Qsum weights) weights)
                                   ws) idx))).
        fold (Harmonize.Qprod
                (map (fun p : list Q * nat => nth (snd p) (fst p) 0 / Tensor.Qsum (fst p))
                     (combine ws idx))).
        rewrite (IH ws Es).
        rewrite (nth_indep _ 0 ((fun w0 => w0 / Tensor.Qsum w) 0))
          by (now rewrite length_map).
        rewrite (map_nth (fun w0 => w0 / Tensor.Qsum w)). reflexivity. }
    rewrite Hsame. unfold total. ring.
  - unfold Tensor.sum. cbn [Tensor.data]. unfold Proportional.cell_value.
    rewrite (Qsum_ext _ (fun c => digits_product (rev P) c * total))
      by (intros c _; rewrite fold_cell_step; unfold total; ring).
    rewrite (Qsum_map_scale (digits_product (rev P)) total).
    assert (Hprod : Tensor.prod (map (@length Q) P)
                    = Tensor.prod (map (@length Q) (rev P)))
      by (now rewrite map_rev, prod_rev).
    rewrite Hprod, digits_product_sum.
    + rewrite map_rev, Qprod_rev.
      assert (Hone : Harmonize.Qprod (map Tensor.Qsum P) == 1).
      { unfold P. clear - Hpos. induction Hpos as [|w ws Hw _ IH].
        - reflexivity.
        - cbn [map]. unfold Harmonize.Qprod. cbn [fold_right].
          fold (Harmonize.Qprod
                  (map Tensor.Qsum
                       (map (fun weights =>
                               map (fun w0 => w0 / Tensor.Qsum weights) weights) ws))).
          rewrite IH, Qsum_normalized by lra. ring. }
      rewrite Hone. unfold total. ring.
    + apply Forall_rev. unfold P. apply Forall_forall. intros p Hp.
      apply in_map_iff in Hp as [w [<- Hw]].
      rewrite Forall_forall in Hpos. specialize (Hpos w Hw).
      destruct w; [simpl in Hpos; lra | discriminate].
Qed.

End ProportionalTensor.

Lemma proportional_tensor_cells_witness :
  Forall (fun weights => 0 < Tensor.Qsum weights) [[1; 3]; [2; 2]]
  /\ exists tensor,
       Proportional._create_proportional_tensor (fun _ => 4) [[1; 3]; [2; 2]]
       = inr tensor
       /\ Tensor.shape tensor = [2; 2]%nat
       /\ (exists v, Tensor.get tensor [1; 0]%Z = inr v
                     /\ v == 4 * proportion [[1; 3]; [2; 2]] [1; 0]%nat)
       /\ Tensor.sum tensor == 4.
Proof.
  assert (Hpos : Forall (fun weights => 0 < Tensor.Qsum weights) [[1; 3]; [2; 2]])
    by (repeat constructor).
  split; [exact Hpos|].
  destruct (proportional_tensor_cells (fun _ => 4) [[1; 3]; [2; 2]]
              ltac:(discriminate) Hpos)
    as [tensor [Hrun [Hshape [_ [Hcells Hsum]]]]].
  exists tensor. split; [exact Hrun|]. split; [exact Hshape|].
  split; [|exact Hsum].
  apply (Hcells [1; 0]%nat). rewrite Hshape.
  repeat constructor.
Defined.

(** * Categories turned into cuts *)

Lemma insert_float_perm (x : Q) (l : list Q) :
  Permutation (Convert.insert_float x l) (x :: l).
Proof.
  induction l as [|y l IH]; simpl; [apply Permutation_refl|].
  destruct (Qle_bool x y); [apply Permutation_refl|].
  eapply Permutation_trans; [apply perm_skip, IH | apply perm_swap].
Qed.

Lemma insert_float_sorted (x : Q) (l : list Q) :
  StronglySorted Qle l -> StronglySorted Qle (Convert.insert_float x l).
Proof.
  induction 1 as [|y l Hl IH Hy]; simpl; [repeat constructor|].
  destruct (Qle_bool x y) eqn:E.
  - apply Qle_bool_iff in E. constructor; [now constructor|].
    constructor; [exact E|].
    eapply Forall_impl; [|exact Hy]. intros z Hz. lra.
  - assert (Hyx : y <= x).
    { destruct (Qlt_le_dec y x) as [H | H]; [lra|].
      apply Qle_bool_iff in H. congruence. }
    constructor; [exact IH|].
    apply (Permutation_Forall (Permutation_sym (insert_float_perm x l))).
    constructor; [exact Hyx | exact Hy].
Qed.

Lemma sort_floats_spec (l : list Q) :
  Permutation (Convert.sort_floats l) l /\ StronglySorted Qle (Convert.sort_floats l).
Proof.
  unfold Convert.sort_floats.
  induction l as [|x l [IHp IHs]]; simpl; [split; constructor|]. split.
  - eapply Permutation_trans; [apply insert_float_perm | now apply perm_skip].
  - now apply insert_float_sorted.
Qed.

Lemma sorted_last_greatest (l : list Q) :
  StronglySorted Qle l -> forall v, In v l -> v <= last l 0.
Proof.
  induction 1 as [|y l Hl IH Hy]; intros v Hv; [destruct Hv|].
  destruct l as [|z l'].
  - destruct Hv as [<- | []]. simpl. lra.
  - change (last (y :: z :: l') 0) with (last (z :: l') 0).
    destruct Hv as [<- | Hv]; [|now apply IH].
    inversion Hy as [|? ? Hyz _]; subst.
    specialize (IH z (or_introl eq_refl)). lra.
Qed.

(** The bounds of a cluster enclose its values, and the lower bound is
    what the list holds first once sorted. *)
Lemma cluster_bound_encloses (cluster_list : list Q) (v : Q) :
  In v cluster_list ->
  fst (Convert.cluster_bound cluster_list) <= v
  /\ v <= snd (Convert.cluster_bound cluster_list).
Proof.
  intro Hv. unfold Convert.cluster_bound. cbn [fst snd].
  destruct (sort_floats_spec cluster_list) as [Hp Hs].
  assert (Hin : In v (Convert.sort_floats cluster_list))
    by (apply (Permutation_in v (Permutation_sym Hp)); exact Hv).
  split; [|now apply sorted_last_greatest].
  destruct (Convert.sort_floats cluster_list) as [|a s]; [destruct Hin|].
  simpl. inversion Hs as [|? ? _ Ha]; subst.
  destruct Hin as [<- | Hin]; [lra|].
  rewrite Forall_forall in Ha. now apply Ha.
Qed.

Lemma bounds_le_fst (a b : Q * Q) :
  (Convert.bounds_le a b = true -> fst a <= fst b)
  /\ (Convert.bounds_le a b = false -> fst b <= fst a).
Proof.
  unfold Convert.bounds_le. split; intro H.
  - apply orb_true_iff in H as [H | H].
    + apply Qltb_true_lt in H. lra.
    + apply andb_true_iff in H as [H _]. apply Qeq_bool_eq in H. lra.
  - apply orb_false_iff in H as [H _]. now apply Qltb_false_le.
Qed.

Lemma insert_bounds_perm (x : Q * Q) (l : list (Q * Q)) :
  Permutation (Convert.insert_bounds x l) (x :: l).
Proof.
  induction l as [|y l IH]; simpl; [apply Permutation_refl|].
  destruct (Convert.bounds_le x y); [apply Permutation_refl|].
  eapply Permutation_trans; [apply perm_skip, IH | apply perm_swap].
Qed.

Lemma insert_bounds_sorted (x : Q * Q) (l : list (Q * Q)) :
  StronglySorted (fun a b => fst a <= fst b) l ->
  StronglySorted (fun a b => fst a <= fst b) (Convert.insert_bounds x l).
Proof.
  induction 1 as [|y l Hl IH Hy]; simpl; [repeat constructor|].
  destruct (Convert.bounds_le x y) eqn:E.
  - apply bounds_le_fst in E. constructor; [now constructor|].
    constructor; [exact E|].
    eapply Forall_impl; [|exact Hy]. intros z Hz. cbv beta in Hz. lra.
  - apply bounds_le_fst in E. constructor; [exact IH|].
    apply (Permutation_Forall (Permutation_sym (insert_bounds_perm x l))).
    constructor; [exact E | exact Hy].
Qed.

Lemma sort_bounds_spec (l : list (Q * Q)) :
  Permutation (Convert.sort_bounds l) l
  /\ StronglySorted (fun a b => fst a <= fst b) (Convert.sort_bounds l).
Proof.
  unfold Convert.sort_bounds.
  induction l as [|x l [IHp IHs]]; simpl; [split; constructor|]. split.
  - eapply Permutation_trans; [apply insert_bounds_perm | now apply perm_skip].
  - now apply insert_bounds_sorted.
Qed.

Lemma py_max_ge (a b : Q) : a <= Convert.py_max a b /\ b <= Convert.py_max a b.
Proof.
  unfold Convert.py_max. destruct (DPUtils.Qltb a b) eqn:E.
  - apply Qltb_true_lt in E. lra.
  - apply Qltb_false_le in E. lra.
Qed.

(** The loop over the sorted bounds: the cuts it adds lie above the
    running [low], and none of them falls inside a cluster. *)
Lemma cut_loop (rest : list (Q * Q)) :
  StronglySorted (fun a b => fst a <= fst b) rest ->
  Forall (fun c => fst c <= snd c) rest ->
  forall (low : Q) (cuts : list Q),
    StronglySorted Qlt cuts ->
    Forall (fun m => m <= low) cuts ->
    exists new low',
      fold_left Convert.cut_step rest (low, cuts) = (low', cuts ++ new)
      /\ StronglySorted Qlt (cuts ++ new)
      /\ Forall (fun m => low < m) new
      /\ (forall c m, In c rest -> In m new -> snd c < m \/ m <= fst c).
Proof.
  induction 1 as [|c rest Hs IH Hc]; intros Hb low cuts Hcuts Hlow.
  - exists [], low. rewrite app_nil_r. repeat split; [exact Hcuts | constructor |].
    intros c m [].
  - inversion Hb as [|? ? Hbc Hb']; subst.
    cbn [fold_left]. unfold Convert.cut_step at 2.
    destruct (py_max_ge low (snd c)) as [Hm1 Hm2].
    set (low1 := Convert.py_max low (snd c)) in *.
    destruct (DPUtils.Qltb low (fst c)) eqn:E.
    + apply Qltb_true_lt in E.
      set (mid := if Qle_bool _ low then fst c else _).
      assert (Hmid : low < mid /\ mid <= fst c).
      { unfold mid.
        destruct (Qle_bool (Convert.py_abs low) (Convert.py_abs (fst c)));
          match goal with
          | |- context [Qle_bool ?x low] => destruct (Qle_bool x low) eqn:E2
          end.
        all: try (apply Qle_bool_iff in E2).
        all: try (split; lra).
        all: clear E2 mid; set (h := (fst c - low) / 2);
          assert (Hh : 2 * h == fst c - low) by (unfold h; field);
          split; lra. }
      destruct Hmid as [Hmid1 Hmid2].
      assert (Hsorted1 : StronglySorted Qlt (cuts ++ [mid])).
      { clear - Hcuts Hlow Hmid1.
        induction Hcuts as [|a cuts Hc IHc Ha]; simpl; [repeat constructor|].
        inversion Hlow as [|? ? Hal Hlow']; subst.
        constructor; [now apply IHc|].
        apply Forall_app. split; [exact Ha|]. constructor; [lra | constructor]. }
      assert (Hlow1 : Forall (fun m => m <= low1) (cuts ++ [mid])).
      { apply Forall_app. split.
        - eapply Forall_impl; [|exact Hlow]. intros m Hm. cbv beta in Hm. lra.
        - constructor; [lra | constructor]. }
      destruct (IH Hb' low1 (cuts ++ [mid]) Hsorted1 Hlow1)
        as [new [low' [Hrun [Hsorted [Hnew Hsep]]]]].
      exists (mid :: new), low'.
      replace (cuts ++ mid :: new) with ((cuts ++ [mid]) ++ new)
        by (now rewrite <- app_assoc).
      split; [exact Hrun|]. split; [exact Hsorted|]. split.
      * constructor; [exact Hmid1|].
        eapply Forall_impl; [|exact Hnew]. intros m Hm. cbv beta in Hm. lra.
      * intros c' m [<- | Hc'] [<- | Hm].
        -- right. exact Hmid2.
        -- left. rewrite Forall_forall in Hnew. specialize (Hnew m Hm). lra.
        -- right. rewrite Forall_forall in Hc. specialize (Hc c' Hc'). lra.
        -- now apply Hsep.
    + assert (Hlow1 : Forall (fun m => m <= low1) cuts).
      { eapply Forall_impl; [|exact Hlow]. intros m Hm. cbv beta in Hm. lra. }
      destruct (IH Hb' low1 cuts Hcuts Hlow1)
        as [new [low' [Hrun [Hsorted [Hnew Hsep]]]]].
      exists new, low'. split; [exact Hrun|]. split; [exact Hsorted|]. split.
      * eapply Forall_impl; [|exact Hnew]. intros m Hm. cbv beta in Hm. lra.
      * intros c' m [<- | Hc'] Hm.
        -- left. rewrite Forall_forall in Hnew. specialize (Hnew m Hm). lra.
        -- now apply Hsep.
Qed.

Lemma make_cuts_spec (cluster_bounds : list (Q * Q)) :
  StronglySorted (fun a b => fst a <= fst b) cluster_bounds ->
  Forall (fun c => fst c <= snd c) cluster_bounds ->
  StronglySorted Qlt (Convert.make_cuts cluster_bounds)
  /\ forall c m, In c cluster_bounds -> In m (Convert.make_cuts cluster_bounds) ->
                 snd c < m \/ m <= fst c.
Proof.
  intros Hs Hb. unfold Convert.make_cuts.
  destruct cluster_bounds as [|first rest]; [split; [constructor | intros c m []]|].
  inversion Hs as [|? ? Hs' _]; subst. inversion Hb as [|? ? _ Hb']; subst.
  destruct (cut_loop rest Hs' Hb' (snd first) [] ltac:(constructor) ltac:(constructor))
    as [new [low' [Hrun [Hsorted [Hnew Hsep]]]]].
  rewrite Hrun. cbn [snd app] in *. split; [exact Hsorted|].
  intros c m [<- | Hc] Hm.
  - left. rewrite Forall_forall in Hnew. now apply Hnew.
  - now apply Hsep.
Qed.

Lemma searchsorted_right_same (cuts : list Q) (v lo : Q) :
  (forall m, In m cuts -> (m <= v <-> m <= lo)) ->
  Convert.searchsorted_right cuts v = Convert.searchsorted_right cuts lo.
Proof.
  induction cuts as [|x cuts IH]; intro H; [reflexivity|]. simpl.
  assert (E : DPUtils.Qltb v x = DPUtils.Qltb lo x).
  { specialize (H x (or_introl eq_refl)).
    destruct (DPUtils.Qltb v x) eqn:E1, (DPUtils.Qltb lo x) eqn:E2; try reflexivity.
    - apply Qltb_true_lt in E1. apply Qltb_false_le in E2. apply H in E2. lra.
    - apply Qltb_false_le in E1. apply Qltb_true_lt in E2. apply H in E1. lra. }
  rewrite E. destruct (DPUtils.Qltb lo x); [reflexivity|].
  f_equal. apply IH. intros m Hm. apply H. now right.
Qed.

Lemma searchsorted_right_le (cuts : list Q) (v : Q) :
  (Convert.searchsorted_right cuts v <= length cuts)%nat.
Proof.
  induction cuts as [|x cuts IH]; simpl; [lia|].
  destruct (DPUtils.Qltb v x); simpl; lia.
Qed.

Lemma cluster_add_keys (idx : Z) (val : Q) (clusters : list (Z * list Q)) :
  map fst (Convert.cluster_add idx val clusters)
  = if existsb (fun c : Z * list Q => (fst c =? idx)%Z) clusters
    then map fst clusters else map fst clusters ++ [idx].
Proof.
  induction clusters as [|[k l] rest IH]; simpl; [reflexivity|].
  destruct (k =? idx)%Z eqn:E; simpl; [reflexivity|].
  rewrite IH. now destruct (existsb _ rest).
Qed.

Lemma cluster_add_NoDup (idx : Z) (val : Q) (clusters : list (Z * list Q)) :
  NoDup (map fst clusters) -> NoDup (map fst (Convert.cluster_add idx val clusters)).
Proof.
  intro H. rewrite cluster_add_keys.
  destruct (existsb _ clusters) eqn:E; [exact H|].
  apply NoDup_app; [exact H | repeat constructor; intros [] |].
  intros k Hk [Ek | []]. subst k.
  apply in_map_iff in Hk as [[k' l] [Hk Hin]]. simpl in Hk. subst k'.
  assert (existsb (fun c : Z * list Q => (fst c =? idx)%Z) clusters = true).
  { apply existsb_exists. exists (idx, l). split; [exact Hin | apply Z.eqb_refl]. }
  congruence.
Qed.

Lemma cluster_add_new (idx : Z) (val : Q) (clusters : list (Z * list Q)) :
  exists l, In (idx, l) (Convert.cluster_add idx val clusters) /\ In val l.
Proof.
  induction clusters as [|[k l] rest [l' [Hin Hval]]]; simpl.
  - exists [val]. split; left; reflexivity.
  - destruct (Z.eqb_spec k idx) as [-> | Hne].
    + exists (l ++ [val]). split; [now left | apply in_or_app; right; now left].
    + exists l'. split; [now right | exact Hval].
Qed.

Lemma cluster_add_keeps (idx : Z) (val : Q) (clusters : list (Z * list Q))
    (k : Z) (l : list Q) :
  In (k, l) clusters ->
  exists l', In (k, l') (Convert.cluster_add idx val clusters) /\ incl l l'.
Proof.
  induction clusters as [|[k0 l0] rest IH]; intro Hin; [destruct Hin|]. simpl.
  destruct Hin as [E | Hin].
  - injection E as -> ->. destruct (k =? idx)%Z.
    + exists (l ++ [val]). split; [now left | apply incl_appl, incl_refl].
    + exists l. split; [now left | apply incl_refl].
  - destruct (k0 =? idx)%Z.
    + exists l. split; [now right | apply incl_refl].
    + destruct (IH Hin) as [l' [Hin' Hincl]]. exists l'. split; [now right | exact Hincl].
Qed.

Section ConvertScan.

Variable float_of_string : string -> option Py.pyfloat.

Let scan_category := Convert.scan_category float_of_string.

(** A bound that is a float, at most (at least) the value. *)
Let below (bound : Py.pyfloat) (v : Q) : Prop :=
  exists b, bound = Py.Finite b /\ b <= v.
Let above (bound : Py.pyfloat) (v : Q) : Prop :=
  exists b, bound = Py.Finite b /\ v <= b.

(** The minimum and the maximum so far: not yet set, or a float. *)
Let unset_or_float (bound : Py.pyfloat) : Prop :=
  bound = Py.NaN \/ exists b, bound = Py.Finite b.

Lemma scan_category_unset (s : Convert.scan_state) (item : string * Z) :
  unset_or_float (Convert.old_min s) /\ unset_or_float (Convert.old_max s) ->
  unset_or_float (Convert.old_min (scan_category s item))
  /\ unset_or_float (Convert.old_max (scan_category s item)).
Proof.
  intros [Hmin Hmax]. destruct item as [category idx].
  unfold scan_category, Convert.scan_category, unset_or_float in *.
  destruct (float_of_string category) as [[val| | |]|];
    cbn [Convert.old_min Convert.old_max]; try (split; assumption).
  split.
  - destruct (_ || _); [right; now exists val | exact Hmin].
  - destruct (_ || _); [right; now exists val | exact Hmax].
Qed.

Lemma scan_category_bounds (s : Convert.scan_state) (item : string * Z) (v : Q) :
  (below (Convert.old_min s) v -> below (Convert.old_min (scan_category s item)) v)
  /\ (above (Convert.old_max s) v -> above (Convert.old_max (scan_category s item)) v).
Proof.
  destruct item as [category idx].
  unfold scan_category, Convert.scan_category, below, above.
  destruct (float_of_string category) as [[val| | |]|]; cbn [Convert.old_min Convert.old_max];
    try (split; intro H; exact H).
  split; intros [b [Hb Hle]]; rewrite Hb; cbn [Convert.isnan orb Py.lt].
  - destruct (negb (Qle_bool b val)) eqn:E.
    + apply negb_true_iff in E. exists val. split; [reflexivity|].
      destruct (Qlt_le_dec val b) as [H | H]; [lra|].
      apply Qle_bool_iff in H. congruence.
    + exists b. now split.
  - destruct (negb (Qle_bool val b)) eqn:E.
    + apply negb_true_iff in E. exists val. split; [reflexivity|].
      destruct (Qlt_le_dec b val) as [H | H]; [lra|].
      apply Qle_bool_iff in H. congruence.
    + exists b. now split.
Qed.

Lemma scan_category_float (s : Convert.scan_state) (category : string) (idx : Z)
    (v : Q) :
  unset_or_float (Convert.old_min s) /\ unset_or_float (Convert.old_max s) ->
  float_of_string category = Some (Py.Finite v) ->
  below (Convert.old_min (scan_category s (category, idx))) v
  /\ above (Convert.old_max (scan_category s (category, idx))) v
  /\ exists l, In (idx, l) (Convert.clusters (scan_category s (category, idx)))
               /\ In v l.
Proof.
  intros [Hmin Hmax] Hf.
  unfold scan_category, Convert.scan_category, below, above. rewrite Hf.
  cbn [Convert.old_min Convert.old_max Convert.clusters].
  split; [|split; [|apply cluster_add_new]].
  - destruct Hmin as [-> | [b ->]]; cbn [Convert.isnan orb Py.lt].
    + exists v. split; [reflexivity | lra].
    + destruct (negb (Qle_bool b v)) eqn:E.
      * exists v. split; [reflexivity | lra].
      * apply negb_false_iff, Qle_bool_iff in E. exists b. now split.
  - destruct Hmax as [-> | [b ->]]; cbn [Convert.isnan orb Py.lt].
    + exists v. split; [reflexivity | lra].
    + destruct (negb (Qle_bool v b)) eqn:E.
      * exists v. split; [reflexivity | lra].
      * apply negb_false_iff, Qle_bool_iff in E. exists b. now split.
Qed.

Lemma scan_category_keeps (s : Convert.scan_state) (item : string * Z)
    (k : Z) (l : list Q) :
  In (k, l) (Convert.clusters s) ->
  exists l', In (k, l') (Convert.clusters (scan_category s item)) /\ incl l l'.
Proof.
  intro Hin. destruct item as [category idx].
  unfold scan_category, Convert.scan_category.
  destruct (float_of_string category) as [[val| | |]|]; cbn [Convert.clusters];
    try (exists l; split; [exact Hin | apply incl_refl]).
  now apply cluster_add_keeps.
Qed.

Lemma scan_category_NoDup (s : Convert.scan_state) (item : string * Z) :
  NoDup (map fst (Convert.clusters s)) ->
  NoDup (map fst (Convert.clusters (scan_category s item))).
Proof.
  intro H. destruct item as [category idx].
  unfold scan_category, Convert.scan_category.
  destruct (float_of_string category) as [[val| | |]|]; cbn [Convert.clusters];
    try exact H.
  now apply cluster_add_NoDup.
Qed.

Lemma scan_fold (categories : list (string * Z)) :
  forall s : Convert.scan_state,
    NoDup (map fst (Convert.clusters s)) ->
    unset_or_float (Convert.old_min s) /\ unset_or_float (Convert.old_max s) ->
    let s' := fold_left scan_category categories s in
    NoDup (map fst (Convert.clusters s'))
    /\ (forall v, below (Convert.old_min s) v -> below (Convert.old_min s') v)
    /\ (forall v, above (Convert.old_max s) v -> above (Convert.old_max s') v)
    /\ (forall k l, In (k, l) (Convert.clusters s) ->
          exists l', In (k, l') (Convert.clusters s') /\ incl l l')
    /\ (forall category idx v,
          In (category, idx) categories ->
          float_of_string category = Some (Py.Finite v) ->
          below (Convert.old_min s') v /\ above (Convert.old_max s') v
          /\ exists l, In (idx, l) (Convert.clusters s') /\ In v l).
Proof.
  induction categories as [|item rest IH]; intros s Hnd Hu; cbn [fold_left].
  - split; [exact Hnd|]. split; [intros v Hv; exact Hv|].
    split; [intros v Hv; exact Hv|]. split.
    + intros k l Hin. exists l. split; [exact Hin | apply incl_refl].
    + intros category idx v [].
  - destruct (IH (scan_category s item) (scan_category_NoDup s item Hnd)
                (scan_category_unset s item Hu))
      as [Hnd' [Hmin [Hmax [Hkeep Hitems]]]].
    split; [exact Hnd'|]. split; [|split; [|split]].
    + intros v Hv. apply Hmin. now apply scan_category_bounds.
    + intros v Hv. apply Hmax. now apply scan_category_bounds.
    + intros k l Hin.
      destruct (scan_category_keeps s item k l Hin) as [l1 [Hin1 Hincl1]].
      destruct (Hkeep k l1 Hin1) as [l2 [Hin2 Hincl2]].
      exists l2. split; [exact Hin2|]. intros x Hx. apply Hincl2, Hincl1, Hx.
    + intros category idx v [-> | Hin] Hf; [|now apply (Hitems category idx v)].
      destruct (scan_category_float s category idx v Hu Hf) as [Hlo [Hhi [l [Hl Hv]]]].
      split; [now apply Hmin|]. split; [now apply Hmax|].
      destruct (Hkeep idx l Hl) as [l' [Hl' Hincl]].
      exists l'. split; [exact Hl' | now apply Hincl].
Qed.

End ConvertScan.

Lemma append_at_length (new_idx : nat) (old_idx : Z) (mapping : list (list Z)) :
  length (Convert.append_at new_idx old_idx mapping) = length mapping.
Proof.
  revert new_idx. induction mapping as [|m rest IH]; intros [|i]; simpl;
    try reflexivity. now rewrite IH.
Qed.

Lemma append_at_keeps (new_idx : nat) (old_idx : Z) (mapping : list (list Z))
    (i : nat) (x : Z) :
  In x (nth i mapping []) -> In x (nth i (Convert.append_at new_idx old_idx mapping) []).
Proof.
  revert new_idx i. induction mapping as [|m rest IH]; intros [|j] [|i] H; simpl in *;
    try exact H.
  - apply in_or_app. now left.
  - now apply IH.
Qed.

Lemma append_at_adds (new_idx : nat) (old_idx : Z) (mapping : list (list Z)) :
  (new_idx < length mapping)%nat ->
  In old_idx (nth new_idx (Convert.append_at new_idx old_idx mapping) []).
Proof.
  revert new_idx. induction mapping as [|m rest IH]; intros [|i] H; simpl in *;
    try lia.
  - apply in_or_app. right. now left.
  - apply IH. lia.
Qed.

Lemma append_fold (f : Z * list Q -> nat) (clusters : list (Z * list Q)) :
  forall mapping : list (list Z),
    (forall c, In c clusters -> (f c < length mapping)%nat) ->
    let mapping' :=
      fold_left (fun mapping c => Convert.append_at (f c) (fst c) mapping)
                clusters mapping in
    length mapping' = length mapping
    /\ (forall i x, In x (nth i mapping []) -> In x (nth i mapping' []))
    /\ (forall c, In c clusters -> In (fst c) (nth (f c) mapping' [])).
Proof.
  induction clusters as [|c rest IH]; intros mapping Hf; cbn [fold_left].
  - repeat split; auto. intros c [].
  - destruct (IH (Convert.append_at (f c) (fst c) mapping)) as [Hlen [Hkeep Hadd]].
    { intros c' Hc'. rewrite append_at_length. apply Hf. now right. }
    split; [now rewrite Hlen, append_at_length|]. split.
    + intros i x Hx. apply Hkeep. now apply append_at_keeps.
    + intros c' [<- | Hc'].
      * apply Hkeep. apply append_at_adds. apply Hf. now left.
      * now apply Hadd.
Qed.

Lemma cluster_bound_ordered (cluster_list : list Q) :
  fst (Convert.cluster_bound cluster_list) <= snd (Convert.cluster_bound cluster_list).
Proof.
  destruct cluster_list as [|v l]; [simpl; lra|].
  destruct (cluster_bound_encloses (v :: l) v (or_introl eq_refl)). lra.
Qed.

Lemma nth_replace_last {A} (l : list A) (x d : A) (i : nat) :
  (S i < length l)%nat -> nth i (removelast l ++ [x]) d = nth i l d.
Proof.
  revert i. induction l as [|a l IH]; intros i Hi; [simpl in Hi; lia|].
  destruct l as [|b l']; [simpl in Hi; lia|].
  change (removelast (a :: b :: l')) with (a :: removelast (b :: l')).
  destruct i as [|i]; [reflexivity|].
  cbn [app nth]. apply IH. simpl in Hi |- *. lia.
Qed.

Lemma length_replace_last {A} (l : list A) (x : A) :
  l <> [] -> length (removelast l ++ [x]) = length l.
Proof.
  intro H. rewrite length_app, removelast_length_pred. simpl.
  destruct l; [congruence | simpl; lia].
Qed.

Lemma unique_key {A} (d : list (Z * A)) (k : Z) (a b : A) :
  NoDup (map fst d) -> In (k, a) d -> In (k, b) d -> a = b.
Proof.
  induction d as [|[k0 a0] d IH]; intros Hnd Ha Hb; [destruct Ha|].
  simpl in Hnd. inversion Hnd as [|? ? Hk Hnd']; subst.
  destruct Ha as [Ea | Ha], Hb as [Eb | Hb].
  - congruence.
  - injection Ea as -> ->. exfalso. apply Hk. apply in_map_iff. now exists (k, b).
  - injection Eb as -> ->. exfalso. apply Hk. apply in_map_iff. now exists (k, a).
  - now apply IH.
Qed.

Section CategoriesToCuts.

Variable float_of_string : string -> option Py.pyfloat.
Variable set_iteration : list Z -> list Z.

(** X26.  When [_convert_categorical_to_continuous] returns its four
    results, the cuts are strictly increasing and the mapping has two
    entries more than there are bins between the cuts.  No cut separates
    two categories of the same old bin: every category that is a finite
    float finds its old bin index listed under the new bin its own value
    falls into (lower bound inclusive), and two such categories of one
    old bin fall into the same new bin.  The returned minimum and maximum
    are floats that enclose every such value. *)
Theorem categories_to_cuts :
  forall (categories : list (string * Z)) (cuts : list Q)
         (mapping : list (list Z)) (old_min old_max : Py.pyfloat),
    Convert._convert_categorical_to_continuous float_of_string set_iteration
      categories
    = inr (Convert.Converted cuts mapping old_min old_max) ->
    StronglySorted Qlt cuts
    /\ length mapping = (length cuts + 3)%nat
    /\ (forall category idx v,
          In (category, idx) categories ->
          float_of_string category = Some (Py.Finite v) ->
          In idx (nth (Convert.searchsorted_right cuts v + 1) mapping [])
          /\ Py.le old_min (Py.Finite v) = true
          /\ Py.le (Py.Finite v) old_max = true)
    /\ (forall category1 category2 idx v1 v2,
          In (category1, idx) categories ->
          In (category2, idx) categories ->
          float_of_string category1 = Some (Py.Finite v1) ->
          float_of_string category2 = Some (Py.Finite v2) ->
          Convert.searchsorted_right cuts v1 = Convert.searchsorted_right cuts v2).
Proof.
  intros categories cuts mapping mn mx Hrun.
  unfold Convert._convert_categorical_to_continuous in Hrun.
  destruct (Convert.max_value categories) as [e | highest]; [discriminate|].
  cbn [Py.bind] in Hrun.
  set (s := Convert.scan float_of_string categories) in *.
  destruct (length (Convert.clusters s) <=? 1)%nat; [discriminate|].
  set (B := map (fun c : Z * list Q => Convert.cluster_bound (snd c))
                (Convert.clusters s)) in *.
  set (cuts0 := Convert.make_cuts (Convert.sort_bounds B)) in *.
  set (f := fun c : Z * list Q =>
              (Convert.searchsorted_right cuts0
                 (hd 0%Q (Convert.sort_floats (snd c))) + 1)%nat) in *.
  set (M1 := fold_left _ (Convert.clusters s) _) in Hrun.
  set (M2 := Convert.append_at 0 0 M1) in Hrun.
  injection Hrun as Hcuts Hmap Hmn Hmx. subst cuts.
  (* the cuts *)
  destruct (sort_bounds_spec B) as [Hperm Hsorted].
  assert (Hordered : Forall (fun c => fst c <= snd c) (Convert.sort_bounds B)).
  { apply (Permutation_Forall (Permutation_sym Hperm)).
    apply Forall_forall. intros c Hc. unfold B in Hc.
    apply in_map_iff in Hc as [cl [<- _]]. apply cluster_bound_ordered. }
  destruct (make_cuts_spec _ Hsorted Hordered) as [Hinc Hsep]. fold cuts0 in Hinc, Hsep.
  (* the scan *)
  destruct (scan_fold float_of_string categories
              {| Convert.clusters := []; Convert.non_float_adds := [];
                 Convert.old_min := Py.NaN; Convert.old_max := Py.NaN |}
              ltac:(constructor) ltac:(split; now left))
    as [Hnd [_ [_ [_ Hitems]]]].
  change (fold_left _ categories _) with s in Hnd, Hitems.
  (* a value and the lower bound of its cluster share their bin *)
  assert (Hbin : forall idx l v,
            In (idx, l) (Convert.clusters s) -> In v l ->
            Convert.searchsorted_right cuts0 v
            = Convert.searchsorted_right cuts0 (hd 0 (Convert.sort_floats l))).
  { intros idx l v Hl Hv. apply searchsorted_right_same. intros m Hm.
    destruct (cluster_bound_encloses l v Hv) as [Hlo Hhi].
    assert (HB : In (Convert.cluster_bound l) (Convert.sort_bounds B)).
    { apply (Permutation_in _ (Permutation_sym Hperm)). unfold B.
      apply in_map_iff. now exists (idx, l). }
    specialize (Hsep _ m HB Hm).
    change (hd 0 (Convert.sort_floats l)) with (fst (Convert.cluster_bound l)).
    split; intro H; destruct Hsep; lra. }
  (* the mapping *)
  destruct (append_fold f (Convert.clusters s) (repeat [] (length cuts0 + 3)))
    as [Hlen [_ Hadd]].
  { intros c _. rewrite repeat_length. unfold f.
    pose proof (searchsorted_right_le cuts0 (hd 0 (Convert.sort_floats (snd c)))). lia. }
  change (fold_left (fun mapping c => Convert.append_at (f c) (fst c) mapping)
            (Convert.clusters s) (repeat [] (length cuts0 + 3)))
    with M1 in Hlen, Hadd.
  rewrite repeat_length in Hlen.
  split; [exact Hinc|]. split; [|split].
  - subst mapping. rewrite length_replace_last.
    + unfold M2. now rewrite append_at_length.
    + intro E. apply (f_equal (@length (list Z))) in E. unfold M2 in E.
      rewrite append_at_length, Hlen in E. simpl in E. lia.
  - intros category idx v Hin Hf.
    destruct (Hitems category idx v Hin Hf) as [[a [Ha Hav]] [[b [Hb Hvb]] [l [Hl Hv]]]].
    split; [|split].
    + subst mapping. rewrite nth_replace_last; unfold M2.
      * apply append_at_keeps. rewrite (Hbin idx l v Hl Hv).
        exact (Hadd (idx, l) Hl).
      * rewrite append_at_length, Hlen.
        pose proof (searchsorted_right_le cuts0 v). lia.
    + rewrite <- Hmn, Ha. simpl. now apply Qle_bool_iff.
    + rewrite <- Hmx, Hb. simpl. now apply Qle_bool_iff.
  - intros category1 category2 idx v1 v2 Hin1 Hin2 Hf1 Hf2.
    destruct (Hitems category1 idx v1 Hin1 Hf1) as [_ [_ [l1 [Hl1 Hv1]]]].
    destruct (Hitems category2 idx v2 Hin2 Hf2) as [_ [_ [l2 [Hl2 Hv2]]]].
    assert (l1 = l2) by (exact (unique_key _ idx l1 l2 Hnd Hl1 Hl2)). subst l2.
    now rewrite (Hbin idx l1 v1 Hl1 Hv1), (Hbin idx l1 v2 Hl1 Hv2).
Qed.

End CategoriesToCuts.

Lemma categories_to_cuts_witness :
  exists cuts mapping old_min old_max,
    Convert._convert_categorical_to_continuous demo_float_of_string (fun adds => adds)
      demo_float_categories
    = inr (Convert.Converted cuts mapping old_min old_max)
    /\ StronglySorted Qlt cuts
    /\ length mapping = (length cuts + 3)%nat
    /\ In 1%Z (nth (Convert.searchsorted_right cuts 1 + 1) mapping []).
Proof.
  assert (H : exists cuts mapping old_min old_max,
            Convert._convert_categorical_to_continuous demo_float_of_string
              (fun adds => adds) demo_float_categories
            = inr (Convert.Converted cuts mapping old_min old_max))
    by (eexists _, _, _, _; vm_compute; reflexivity).
  destruct H as [cuts [mapping [old_min [old_max H]]]].
  exists cuts, mapping, old_min, old_max. split; [exact H|].
  destruct (categories_to_cuts demo_float_of_string (fun adds => adds)
              demo_float_categories cuts mapping old_min old_max H)
    as [Hsorted [Hlen [Hitems _]]].
  split; [exact Hsorted|]. split; [exact Hlen|].
  apply (Hitems "1"%string 1%Z 1); [right; right; left; reflexivity | reflexivity].
Defined.

(** * The histogram of a categorical column *)

(** X27.  For a categorical column fitted with a binning that does not
    mention "private", the histogram getters agree with each other and
    with the data: [_get_hist_edges] and [_get_bin_labels] list the
    distinct values of the column that are not missing, in ascending
    order, and [_get_hist_counts] gives, position by position, the number
    of rows with that value. *)
Theorem categorical_histogram :
  forall (binning : string) (missing_str : EBMPreprocessorColumns.missing_repr)
         (col_data : list string),
    EBMPreprocessor.mentions_private binning = false ->
    exists bin_counts mapping counts edges,
      EBMPreprocessorColumns.fit_categorical binning missing_str col_data
      = inr (bin_counts, mapping)
      /\ EBMPreprocessorHistogram._get_hist_counts
           (EBMPreprocessorHistogram.Categorical bin_counts mapping) = inr counts
      /\ EBMPreprocessorHistogram._get_hist_edges
           (EBMPreprocessorHistogram.Categorical bin_counts mapping)
         = inr (EBMPreprocessorHistogram.StringLabels edges)
      /\ EBMPreprocessorHistogram._get_bin_labels
           (EBMPreprocessorHistogram.Categorical bin_counts mapping)
         = inr (EBMPreprocessorHistogram.StringLabels edges)
      /\ length counts = length edges
      /\ StronglySorted (fun a b => String.compare a b = Lt) edges
      /\ (forall v, In v edges
                    <-> In v col_data /\ EBMPreprocessorColumns.isin missing_str v = false)
      /\ (forall i v, nth_error edges i = Some v ->
            nth_error counts i = Some (Z.of_nat (count_occ string_dec col_data v))).
Proof.
  intros binning missing_str col_data Hb.
  assert (Hnp : String.eqb binning "private" = false).
  { destruct (String.eqb_spec binning "private") as [-> | _]; [|reflexivity].
    discriminate Hb. }
  unfold EBMPreprocessorColumns.fit_categorical. rewrite Hnp.
  set (U := DPUtils.unique col_data).
  set (V := filter (fun val => negb (EBMPreprocessorColumns.isin missing_str val)) U).
  destruct (unique_spec col_data) as [Hsorted Hmem]. fold U in Hsorted, Hmem.
  unfold EBMPreprocessorColumns.unique_counts.
  pose proof (filter_mask (EBMPreprocessorColumns.isin missing_str)
                (fun val => Z.of_nat (count_occ string_dec col_data val)) false U) as Hk.
  cbn beta iota in Hk. rewrite Hk. fold V.
  eexists _, _, _, _. split; [reflexivity|].
  cbn [EBMPreprocessorHistogram._get_hist_counts
       EBMPreprocessorHistogram._get_hist_edges
       EBMPreprocessorHistogram._get_bin_labels tl].
  rewrite enumerate_keys.
  split; [reflexivity|]. split; [reflexivity|]. split; [reflexivity|].
  split; [apply length_map|]. split; [now apply sorted_filter|]. split.
  - intro v. unfold V. rewrite filter_In, Hmem, negb_true_iff. reflexivity.
  - intros i v Hi. rewrite nth_error_map, Hi. reflexivity.
Qed.

Lemma categorical_histogram_witness :
  exists bin_counts mapping,
    EBMPreprocessorColumns.fit_categorical "quantile"
      (EBMPreprocessorColumns.MissingStr "nan") ["b"; "nan"; "a"; "b"]%string
    = inr (bin_counts, mapping)
    /\ EBMPreprocessorHistogram._get_hist_counts
         (EBMPreprocessorHistogram.Categorical bin_counts mapping) = inr [1; 2]%Z
    /\ EBMPreprocessorHistogram._get_hist_edges
         (EBMPreprocessorHistogram.Categorical bin_counts mapping)
       = inr (EBMPreprocessorHistogram.StringLabels ["a"; "b"]%string).
Proof.
  destruct (categorical_histogram "quantile"
              (EBMPreprocessorColumns.MissingStr "nan") ["b"; "nan"; "a"; "b"]%string
              eq_refl)
    as [bin_counts [mapping [counts [edges [Hfit [Hc [He _]]]]]]].
  exists bin_counts, mapping. split; [exact Hfit|].
  assert (E : bin_counts = [1; 1; 2]%Z /\ mapping = [("a", 1); ("b", 2)]%string%Z).
  { vm_compute in Hfit. injection Hfit as <- <-. now split. }
  destruct E as [-> ->]. split; reflexivity.
Defined.

(** * Duplicate interaction terms *)

Lemma dedup_fold (terms : list (list Z)) :
  forall (processed existing_terms unique_terms : list (list Z)),
    existing_terms = map MergeEBMs.sorted_idxs unique_terms ->
    NoDup existing_terms ->
    incl unique_terms processed ->
    (forall t, In t processed -> In (MergeEBMs.sorted_idxs t) existing_terms) ->
    (length unique_terms <= length processed)%nat ->
    (length unique_terms = length processed -> unique_terms = processed) ->
    let state := fold_left PairSelection.dedup_step terms (existing_terms, unique_terms) in
    fst state = map MergeEBMs.sorted_idxs (snd state)
    /\ NoDup (fst state)
    /\ incl (snd state) (processed ++ terms)
    /\ (forall t, In t (processed ++ terms) -> In (MergeEBMs.sorted_idxs t) (fst state))
    /\ (length (snd state) = length (processed ++ terms) ->
        snd state = processed ++ terms).
Proof.
  induction terms as [|term rest IH];
    intros processed existing unique He Hnd Hincl Hall Hle Heq; cbv zeta;
    cbn [fold_left].
  - rewrite app_nil_r. cbn [fst snd]. auto.
  - replace (processed ++ term :: rest) with ((processed ++ [term]) ++ rest)
      by (now rewrite <- app_assoc).
    assert (Hstep : PairSelection.dedup_step (existing, unique) term
                    = if existsb (MergeEBMs.idxs_eqb (MergeEBMs.sorted_idxs term))
                           existing
                      then (existing, unique)
                      else (existing ++ [MergeEBMs.sorted_idxs term], unique ++ [term]))
      by reflexivity.
    rewrite Hstep. clear Hstep.
    destruct (existsb (MergeEBMs.idxs_eqb (MergeEBMs.sorted_idxs term)) existing) eqn:E.
    + apply existsb_exists in E as [k [Hk Ek]]. apply idxs_eqb_eq in Ek. subst k.
      apply (IH (processed ++ [term])); try assumption.
      * intros t Ht. apply in_or_app. left. now apply Hincl.
      * intros t Ht. apply in_app_or in Ht as [Ht | [<- | []]]; [now apply Hall | exact Hk].
      * rewrite length_app. simpl. lia.
      * rewrite length_app. simpl. lia.
    + assert (Hfresh : ~ In (MergeEBMs.sorted_idxs term) existing).
      { intro Hin.
        assert (existsb (MergeEBMs.idxs_eqb (MergeEBMs.sorted_idxs term)) existing = true).
        { apply existsb_exists. exists (MergeEBMs.sorted_idxs term).
          split; [exact Hin | now apply idxs_eqb_eq]. }
        congruence. }
      apply (IH (processed ++ [term])).
      * rewrite map_app, He. reflexivity.
      * apply NoDup_app; [exact Hnd | repeat constructor; intros [] |].
        intros k Hk [<- | []]. contradiction.
      * intros t Ht. apply in_app_or in Ht as [Ht | Ht]; apply in_or_app;
          [left; now apply Hincl | right; exact Ht].
      * intros t Ht. apply in_or_app.
        apply in_app_or in Ht as [Ht | [<- | []]]; [left; now apply Hall | right; now left].
      * rewrite !length_app. simpl. lia.
      * rewrite !length_app. simpl. intro H. rewrite Heq by lia. reflexivity.
Qed.

(** X28.  When [interactions] is a list, the pairs [fit] boosts are
    that list without its duplicates, two terms being duplicates when
    they have the same features in any order: no two of the pairs have
    the same features, every pair is a term of the list, every term of
    the list has its features among the pairs, and a list without
    duplicates is kept as it is. *)
Theorem listed_pairs_unique :
  forall interactions : list (list Z),
    let pair_indices := PairSelection.listed_pairs interactions in
    NoDup (map MergeEBMs.sorted_idxs pair_indices)
    /\ incl pair_indices interactions
    /\ (forall term, In term interactions ->
          In (MergeEBMs.sorted_idxs term) (map MergeEBMs.sorted_idxs pair_indices))
    /\ (NoDup (map MergeEBMs.sorted_idxs interactions) -> pair_indices = interactions).
Proof.
  intro interactions. cbv zeta. unfold PairSelection.listed_pairs.
  destruct (dedup_fold interactions [] [] [] eq_refl ltac:(constructor)
              ltac:(intros t []) ltac:(intros t []) ltac:(simpl; lia)
              ltac:(reflexivity))
    as [He [Hnd [Hincl [Hall Heq]]]].
  cbn [app] in *.
  set (state := fold_left PairSelection.dedup_step interactions ([], [])) in *.
  assert (Hsame : length (snd state) = length interactions -> snd state = interactions)
    by exact Heq.
  assert (Hresult : (if negb (length (snd state) =? length interactions)%nat
                     then snd state else interactions) = snd state).
  { destruct (Nat.eqb_spec (length (snd state)) (length interactions)) as [E | E];
      [symmetry; now apply Hsame | reflexivity]. }
  rewrite Hresult. rewrite <- He.
  split; [exact Hnd|]. split; [exact Hincl|]. split; [exact Hall|].
  intro Hnodup. apply Hsame.
  apply Nat.le_antisymm.
  - apply NoDup_incl_length; [|exact Hincl].
    apply (NoDup_map_inv MergeEBMs.sorted_idxs). now rewrite <- He.
  - rewrite <- (length_map MergeEBMs.sorted_idxs interactions).
    rewrite <- (length_map MergeEBMs.sorted_idxs (snd state)), <- He.
    apply NoDup_incl_length; [exact Hnodup|].
    intros k Hk. apply in_map_iff in Hk as [t [<- Ht]]. now apply Hall.
Qed.

Lemma listed_pairs_unique_witness :
  NoDup (map MergeEBMs.sorted_idxs [[1; 0]; [2; 3]]%Z)
  /\ PairSelection.listed_pairs [[1; 0]; [2; 3]]%Z = [[1; 0]; [2; 3]]%Z.
Proof.
  assert (H : NoDup (map MergeEBMs.sorted_idxs [[1; 0]; [2; 3]]%Z)).
  { constructor; [intros [E | []]; discriminate E|].
    constructor; [intros [] | constructor]. }
  split; [exact H|].
  exact (proj2 (proj2 (proj2 (listed_pairs_unique [[1; 0]; [2; 3]]%Z))) H).
Defined.
